(** * Shenandoah free set: region partitions over a simple bitmap

    A shallow embedding of [ShenandoahSimpleBitMap],
    [ShenandoahRegionPartitions] and [ShenandoahFreeSet]
    (src/hotspot/share/gc/shenandoah/shenandoahFreeSet.{hpp,cpp}),
    followed by the properties established about them.

    Conventions.
    - [size_t] values are integers in [0, 2^64); every [size_t] operation
      that can leave that range is written with [Word.wrap].  [ssize_t]
      values are integers in [-2^63, 2^63); a conversion from [size_t] is
      written [Word.to_ssize].
    - [assert(...)] is compiled only into debug builds.  The partition
      table and the free set are embedded in a small monad with a flag
      [dbg]: with [dbg = true] a failing assertion ends the run with
      [Fatal], with [dbg = false] the assertion is skipped, as in a
      product build.
    - Loops are written with fuel; running out of it is the separate
      outcome [OutOfFuel] (or [None] for the pure bitmap functions), and
      the theorems show that it does not happen. *)

From Stdlib Require Import ZArith List Bool Lia String RelationClasses.
Import ListNotations.
Local Open Scope Z_scope.

(* ================================================================= *)
(** ** Machine words *)

Module Word.

Definition modulus : Z := 2 ^ 64.
Definition half_modulus : Z := 2 ^ 63.

(** Reduction of an integer to a [size_t]. *)
Definition wrap (x : Z) : Z := x mod modulus.

(** Conversion [size_t -> ssize_t] (two's complement). *)
Definition to_ssize (x : Z) : Z :=
  if x <? half_modulus then x else x - modulus.

(** [(size_t) (ssize_t) -1] *)
Definition all_ones : Z := modulus - 1.

(** [~x] on [size_t]. *)
Definition not (x : Z) : Z := wrap (Z.lnot x).

(** [((size_t) 0x01) << n] for a shift count the language defines. *)
Definition one_shl (n : Z) : Z := wrap (Z.shiftl 1 n).

End Word.

(* ================================================================= *)
(** ** ShenandoahSimpleBitMap *)

Module SimpleBitMap.

Import Word.

Definition _bits_per_array_element : Z := 64.

(** [_bitmap] is the memory reached through the [size_t*]: a map from
    array index to word.  Indices in [0, _num_words) are the allocated
    array; the other indices stand for whatever memory surrounds it
    (the run search reads one word past the end before it tests its
    loop condition), and nothing is assumed about their contents. *)
Record t : Type := mk {
  _num_bits : Z;
  _num_words : Z;
  _bitmap : Z -> Z
}.

(** [idx / _bits_per_array_element] and [idx % _bits_per_array_element]:
    the divisor is a [size_t], so the index is converted to [size_t]
    before the unsigned division. *)
Definition array_index (idx : Z) : Z := wrap idx / _bits_per_array_element.
Definition bit_index (idx : Z) : Z := wrap idx mod _bits_per_array_element.

Definition store (bm : t) (array_idx v : Z) : t :=
  mk (_num_bits bm) (_num_words bm)
     (fun j => if j =? array_idx then v else _bitmap bm j).

(** Precondition shared by the single-bit operations and the searches:
    [assert((idx >= 0) && (idx < _num_bits), "precondition")]. *)
Definition index_in_range (bm : t) (idx : Z) : bool :=
  (0 <=? idx) && (idx <? _num_bits bm).

Definition clear_all (bm : t) : t :=
  mk (_num_bits bm) (_num_words bm)
     (fun j => if (0 <=? j) && (j <? _num_words bm) then 0 else _bitmap bm j).

(** The constructor: [_num_words] is the number of bits rounded up to
    whole words; the fresh array is cleared. *)
Definition create (memory : Z -> Z) (num_bits : Z) : t :=
  clear_all
    (mk num_bits
        (wrap (num_bits + (_bits_per_array_element - 1)) / _bits_per_array_element)
        memory).

Definition set_bit (bm : t) (idx : Z) : t :=
  let array_idx := array_index idx in
  let bit_number := bit_index idx in
  let the_bit := one_shl bit_number in
  store bm array_idx (Z.lor (_bitmap bm array_idx) the_bit).

Definition clear_bit (bm : t) (idx : Z) : t :=
  let array_idx := array_index idx in
  let bit_number := bit_index idx in
  let the_bit := one_shl bit_number in
  store bm array_idx (Z.land (_bitmap bm array_idx) (not the_bit)).

Definition is_set (bm : t) (idx : Z) : bool :=
  let array_idx := array_index idx in
  let bit_number := bit_index idx in
  let the_bit := one_shl bit_number in
  negb (Z.land (_bitmap bm array_idx) the_bit =? 0).

(** *** find_next_set_bit *)

(** The inner [while (bit_number < _bits_per_array_element)] scan.  Leaving
    it without a result is the source's
    [assert(false, "should not reach here")]; there is no result then. *)
Fixpoint find_next_set_bit_scan (fuel : nat) (element_bits array_idx boundary_idx : Z)
         (the_bit bit_number : Z) : option Z :=
  match fuel with
  | O => None
  | S fuel' =>
      if bit_number <? _bits_per_array_element then
        if negb (Z.land element_bits the_bit =? 0) then
          let candidate_result :=
            to_ssize (wrap (array_idx * _bits_per_array_element + bit_number)) in
          if candidate_result <? boundary_idx then Some candidate_result
          else Some boundary_idx
        else
          find_next_set_bit_scan fuel' element_bits array_idx boundary_idx
            (wrap (Z.shiftl the_bit 1)) (bit_number + 1)
      else None
  end.

(** The [do { ... } while (start_idx < boundary_idx)] loop. *)
Fixpoint find_next_set_bit_loop (fuel : nat) (bm : t) (start_idx boundary_idx : Z)
  : option Z :=
  match fuel with
  | O => None
  | S fuel' =>
      let array_idx := array_index start_idx in
      let bit_number := bit_index start_idx in
      let element_bits := _bitmap bm array_idx in
      let element_bits :=
        if bit_number >? 0 then
          let mask_out := wrap (one_shl bit_number - 1) in
          Z.land element_bits (not mask_out)
        else element_bits in
      if negb (element_bits =? 0) then
        (* The next set bit is here *)
        let the_bit := one_shl bit_number in
        find_next_set_bit_scan 65 element_bits array_idx boundary_idx the_bit bit_number
      else
        (* Next bit is not here.  Try the next array element *)
        let start_idx' :=
          to_ssize (wrap (start_idx + wrap (_bits_per_array_element - bit_number))) in
        if start_idx' <? boundary_idx then
          find_next_set_bit_loop fuel' bm start_idx' boundary_idx
        else Some boundary_idx
  end.

Definition find_next_set_bit (bm : t) (start_idx boundary_idx : Z) : option Z :=
  find_next_set_bit_loop (S (Z.to_nat (boundary_idx - start_idx))) bm start_idx boundary_idx.

(** [assert((boundary_idx > start_idx) && (boundary_idx <= _num_bits), "precondition")] *)
Definition find_next_set_bit_boundary_ok (bm : t) (start_idx boundary_idx : Z) : bool :=
  (boundary_idx >? start_idx) && (boundary_idx <=? _num_bits bm).

(** *** find_prev_set_bit *)

(** The inner [for (bit_iterator = bit_number; bit_iterator >= 0; bit_iterator--)]
    scan; as above, leaving it without a result is "should not reach here". *)
Fixpoint find_prev_set_bit_scan (fuel : nat) (element_bits array_idx boundary_idx : Z)
         (the_bit bit_number bit_iterator : Z) : option Z :=
  match fuel with
  | O => None
  | S fuel' =>
      if bit_iterator >=? 0 then
        if negb (Z.land element_bits the_bit =? 0) then
          let candidate_result :=
            to_ssize (wrap (array_idx * _bits_per_array_element + bit_number)) in
          if candidate_result >? boundary_idx then Some candidate_result
          else Some boundary_idx
        else
          find_prev_set_bit_scan fuel' element_bits array_idx boundary_idx
            (Z.shiftr the_bit 1) (wrap (bit_number - 1)) (bit_iterator - 1)
      else None
  end.

(** The [do { ... } while (last_idx > boundary_idx)] loop. *)
Fixpoint find_prev_set_bit_loop (fuel : nat) (bm : t) (last_idx boundary_idx : Z)
  : option Z :=
  match fuel with
  | O => None
  | S fuel' =>
      let array_idx := to_ssize (array_index last_idx) in
      let bit_number := bit_index last_idx in
      let element_bits := _bitmap bm array_idx in
      let element_bits :=
        if bit_number <? 63 then
          let mask_in := wrap (one_shl (bit_number + 1) - 1) in
          Z.land element_bits mask_in
        else element_bits in
      if negb (element_bits =? 0) then
        (* The prev set bit is here *)
        let the_bit := one_shl bit_number in
        find_prev_set_bit_scan 65 element_bits array_idx boundary_idx
          the_bit bit_number (to_ssize bit_number)
      else
        (* Next bit is not here.  Try the previous array element *)
        let last_idx' := to_ssize (wrap (last_idx - wrap (bit_number + 1))) in
        if last_idx' >? boundary_idx then
          find_prev_set_bit_loop fuel' bm last_idx' boundary_idx
        else Some boundary_idx
  end.

Definition find_prev_set_bit (bm : t) (last_idx boundary_idx : Z) : option Z :=
  find_prev_set_bit_loop (S (Z.to_nat (last_idx - boundary_idx))) bm last_idx boundary_idx.

(** [assert((boundary_idx >= -1) && (boundary_idx < last_idx), "precondition")] *)
Definition find_prev_set_bit_boundary_ok (last_idx boundary_idx : Z) : bool :=
  (boundary_idx >=? -1) && (boundary_idx <? last_idx).

(** *** count_trailing_ones *)

(** [for (counted_ones = 0; element_bits & the_bit; counted_ones++) the_bit >>= 1;] *)
Fixpoint count_trailing_ones_loop (fuel : nat) (element_bits the_bit counted_ones : Z)
  : option Z :=
  match fuel with
  | O => None
  | S fuel' =>
      if Z.land element_bits the_bit =? 0 then Some counted_ones
      else count_trailing_ones_loop fuel' element_bits (Z.shiftr the_bit 1)
                                    (counted_ones + 1)
  end.

Fixpoint count_trailing_ones (fuel : nat) (bm : t) (last_idx : Z) : option Z :=
  match fuel with
  | O => None
  | S fuel' =>
      let array_idx := array_index last_idx in
      let element_bits := _bitmap bm array_idx in
      let bit_number := bit_index last_idx in
      let the_bit := one_shl bit_number in
      (* All ones from bit 0 to the_bit *)
      let mask := wrap (the_bit * 2 - 1) in
      if Z.land element_bits mask =? mask then
        let counted_ones := bit_number + 1 in
        match count_trailing_ones fuel' bm (to_ssize (wrap (last_idx - counted_ones))) with
        | Some rest => Some (wrap (counted_ones + rest))
        | None => None
        end
      else
        count_trailing_ones_loop 65 element_bits the_bit 0
  end.

(** *** is_forward_consecutive_ones

    [shl_oob n] is what [(size_t) 0x1 << n] evaluates to when [n] is not
    in [0, 64).  The language leaves that shift undefined, and the
    function below performs it with [n = 64] whenever the probed span
    ends exactly at the end of an array element. *)
Section ForwardRun.

Variable shl_oob : Z -> Z.

Definition one_shl_any (n : Z) : Z :=
  if (0 <=? n) && (n <? 64) then one_shl n else shl_oob n.

Fixpoint is_forward_consecutive_ones (fuel : nat) (bm : t) (start_idx count : Z)
  : option bool :=
  match fuel with
  | O => None
  | S fuel' =>
      let array_idx := array_index start_idx in
      let bit_number := bit_index start_idx in
      let element_bits := _bitmap bm array_idx in
      if to_ssize (wrap (_bits_per_array_element - bit_number)) >=? count then
        (* All relevant bits reside within this array element *)
        let overreach_mask := wrap (one_shl_any (wrap (bit_number + count)) - 1) in
        let exclude_mask := wrap (one_shl bit_number - 1) in
        let exact_mask := Z.land overreach_mask (not exclude_mask) in
        Some (Z.land element_bits exact_mask =? exact_mask)
      else
        (* Need to exactly match all relevant bits of this array element,
           plus relevant bits of following array elements *)
        let overreach_mask := all_ones in
        let exclude_mask := wrap (one_shl bit_number - 1) in
        let exact_mask := Z.land overreach_mask (not exclude_mask) in
        if Z.land element_bits exact_mask =? exact_mask then
          let matched_bits := wrap (_bits_per_array_element - bit_number) in
          is_forward_consecutive_ones fuel' bm
            (to_ssize (wrap (start_idx + matched_bits)))
            (to_ssize (wrap (count - matched_bits)))
        else Some false
  end.

(** *** find_next_consecutive_bits *)

(** [if (bit_number > 0) { mask_out = (1 << bit_number) - 1; element_bits &= ~mask_out; }] *)
Definition mask_below (element_bits bit_number : Z) : Z :=
  if bit_number >? 0 then
    let mask_out := wrap (one_shl bit_number - 1) in
    Z.land element_bits (not mask_out)
  else element_bits.

(** The [while (start_idx <= start_boundary)] loop; its variables are
    [start_idx], [array_idx], [bit_number] and [element_bits]. *)
Fixpoint find_next_consecutive_bits_loop (fuel : nat) (bm : t)
         (num_bits boundary_idx start_boundary : Z)
         (start_idx array_idx bit_number element_bits : Z) : option Z :=
  match fuel with
  | O => None
  | S fuel' =>
      if start_idx <=? start_boundary then
        if element_bits =? 0 then
          (* move to the next element *)
          let start_idx' :=
            to_ssize (wrap (start_idx + wrap (_bits_per_array_element - bit_number))) in
          let array_idx' := wrap (array_idx + 1) in
          find_next_consecutive_bits_loop fuel' bm num_bits boundary_idx start_boundary
            start_idx' array_idx' 0 (_bitmap bm array_idx')
        else
          match is_forward_consecutive_ones
                  (S (Z.to_nat (num_bits / _bits_per_array_element + 1)))
                  bm start_idx (to_ssize num_bits) with
          | None => None
          | Some true => Some start_idx
          | Some false =>
              (* There is at least one zero bit in this span.  Align the next
                 probe at the start of trailing ones for probed span. *)
              match count_trailing_ones
                      (S (Z.to_nat (num_bits / _bits_per_array_element + 1)))
                      bm (to_ssize (wrap (start_idx + num_bits - 1))) with
              | None => None
              | Some trailing_ones =>
                  let start_idx' :=
                    to_ssize (wrap (start_idx + wrap (num_bits - trailing_ones))) in
                  let array_idx' := array_index start_idx' in
                  let element_bits' := _bitmap bm array_idx' in
                  let bit_number' := bit_index start_idx' in
                  find_next_consecutive_bits_loop fuel' bm num_bits boundary_idx
                    start_boundary start_idx' array_idx' bit_number'
                    (mask_below element_bits' bit_number')
              end
          end
      else
        (* No match found. *)
        Some boundary_idx
  end.

Definition find_next_consecutive_bits (bm : t) (num_bits start_idx boundary_idx : Z)
  : option Z :=
  (* Stop looking if there are not num_bits remaining in probe space. *)
  let start_boundary := to_ssize (wrap (boundary_idx - num_bits)) in
  let array_idx := array_index start_idx in
  let bit_number := bit_index start_idx in
  let element_bits := mask_below (_bitmap bm array_idx) bit_number in
  find_next_consecutive_bits_loop
    (S (Z.to_nat (boundary_idx - start_idx + 1))) bm num_bits boundary_idx start_boundary
    start_idx array_idx bit_number element_bits.

End ForwardRun.

End SimpleBitMap.

(* ================================================================= *)
(** ** Outcomes of a call *)

Inductive outcome (S A : Type) : Type :=
| Ret (a : A) (s : S)          (* normal return, with the state after it *)
| Fatal (msg : string)         (* a failed assertion in a debug build *)
| OutOfFuel.                   (* a loop of the model ran out of fuel *)

Arguments Ret {S A} a s.
Arguments Fatal {S A} msg.
Arguments OutOfFuel {S A}.

Module Run.

Definition M (S A : Type) : Type := S -> outcome S A.

Definition ret {S A} (a : A) : M S A := fun s => Ret a s.

Definition bind {S A B} (m : M S A) (k : A -> M S B) : M S B :=
  fun s => match m s with
           | Ret a s' => k a s'
           | Fatal msg => Fatal msg
           | OutOfFuel => OutOfFuel
           end.

Definition get {S} : M S S := fun s => Ret s s.
Definition gets {S A} (f : S -> A) : M S A := fun s => Ret (f s) s.
Definition put {S} (s : S) : M S unit := fun _ => Ret tt s.
Definition modify {S} (f : S -> S) : M S unit := fun s => Ret tt (f s).
Definition fatal {S A} (msg : string) : M S A := fun _ => Fatal msg.

(** The result of a pure loop with fuel. *)
Definition of_option {S A} (o : option A) : M S A :=
  fun s => match o with Some a => Ret a s | None => OutOfFuel end.

(** [assert(cond, msg)]: the condition is evaluated in debug builds only. *)
Definition assertM {S} (dbg : bool) (cond : M S bool) (msg : string) : M S unit :=
  if dbg then
    bind cond (fun b => if b then ret tt else fatal msg)
  else ret tt.

Definition assert_ {S} (dbg : bool) (cond : bool) (msg : string) : M S unit :=
  assertM dbg (ret cond) msg.

(** A counted loop [for (idx = lo; idx < lo + n; idx++) body(idx)],
    threading the local variables [acc] of the enclosing function. *)
Fixpoint for_range {S A} (n : nat) (idx : Z) (acc : A) (body : Z -> A -> M S A) : M S A :=
  match n with
  | O => ret acc
  | S n' => bind (body idx acc) (fun acc' => for_range n' (idx + 1) acc' body)
  end.

(** Running a computation on a component of the state. *)
Definition zoom {S T A} (proj : S -> T) (inj : S -> T -> S) (m : M T A) : M S A :=
  fun s => match m (proj s) with
           | Ret a t' => Ret a (inj s t')
           | Fatal msg => Fatal msg
           | OutOfFuel => OutOfFuel
           end.

End Run.

Declare Scope run_scope.
Delimit Scope run_scope with run.
Notation "x <- m ;; k" := (Run.bind m (fun x => k))
  (at level 61, m at next level, right associativity) : run_scope.
Notation "m ;; k" := (Run.bind m (fun _ => k))
  (at level 61, right associativity) : run_scope.

(* ================================================================= *)
(** ** ShenandoahRegionPartitions *)

(** [enum ShenandoahFreeSetPartitionId]; [NumPartitions] is [NotFree], so
    [p < NumPartitions] holds for [Mutator] and [Collector] only. *)
Inductive ShenandoahFreeSetPartitionId : Type := Mutator | Collector | NotFree.

Module Partitions.

Import Word Run.
Local Open Scope run_scope.

Definition partition_eqb (p q : ShenandoahFreeSetPartitionId) : bool :=
  match p, q with
  | Mutator, Mutator | Collector, Collector | NotFree, NotFree => true
  | _, _ => false
  end.

(** [which_partition < NumPartitions] *)
Definition lt_NumPartitions (p : ShenandoahFreeSetPartitionId) : bool :=
  match p with NotFree => false | _ => true end.

(** An array indexed by partition id.  The arrays have [NumPartitions]
    elements; the slot [NotFree] stands for the memory behind the array
    and is only reached when an assertion on the partition id was
    violated. *)
Definition per_partition (A : Type) : Type := ShenandoahFreeSetPartitionId -> A.

Definition upd {A} (a : per_partition A) (p : ShenandoahFreeSetPartitionId) (v : A)
  : per_partition A :=
  fun q => if partition_eqb q p then v else a q.

Record t : Type := mk {
  _max : Z;
  _region_size_bytes : Z;
  _membership : per_partition SimpleBitMap.t;
  _leftmosts : per_partition Z;
  _rightmosts : per_partition Z;
  _leftmosts_empty : per_partition Z;
  _rightmosts_empty : per_partition Z;
  _capacity : per_partition Z;
  _used : per_partition Z;
  _region_counts : per_partition Z
}.

Definition with_membership (s : t) (v : per_partition SimpleBitMap.t) : t :=
  mk (_max s) (_region_size_bytes s) v (_leftmosts s) (_rightmosts s)
     (_leftmosts_empty s) (_rightmosts_empty s) (_capacity s) (_used s) (_region_counts s).
Definition with_leftmosts (s : t) (v : per_partition Z) : t :=
  mk (_max s) (_region_size_bytes s) (_membership s) v (_rightmosts s)
     (_leftmosts_empty s) (_rightmosts_empty s) (_capacity s) (_used s) (_region_counts s).
Definition with_rightmosts (s : t) (v : per_partition Z) : t :=
  mk (_max s) (_region_size_bytes s) (_membership s) (_leftmosts s) v
     (_leftmosts_empty s) (_rightmosts_empty s) (_capacity s) (_used s) (_region_counts s).
Definition with_leftmosts_empty (s : t) (v : per_partition Z) : t :=
  mk (_max s) (_region_size_bytes s) (_membership s) (_leftmosts s) (_rightmosts s)
     v (_rightmosts_empty s) (_capacity s) (_used s) (_region_counts s).
Definition with_rightmosts_empty (s : t) (v : per_partition Z) : t :=
  mk (_max s) (_region_size_bytes s) (_membership s) (_leftmosts s) (_rightmosts s)
     (_leftmosts_empty s) v (_capacity s) (_used s) (_region_counts s).
Definition with_capacity (s : t) (v : per_partition Z) : t :=
  mk (_max s) (_region_size_bytes s) (_membership s) (_leftmosts s) (_rightmosts s)
     (_leftmosts_empty s) (_rightmosts_empty s) v (_used s) (_region_counts s).
Definition with_used (s : t) (v : per_partition Z) : t :=
  mk (_max s) (_region_size_bytes s) (_membership s) (_leftmosts s) (_rightmosts s)
     (_leftmosts_empty s) (_rightmosts_empty s) (_capacity s) v (_region_counts s).
Definition with_region_counts (s : t) (v : per_partition Z) : t :=
  mk (_max s) (_region_size_bytes s) (_membership s) (_leftmosts s) (_rightmosts s)
     (_leftmosts_empty s) (_rightmosts_empty s) (_capacity s) (_used s) v.

(** Assignments to one array element. *)
Definition set_leftmost p v : M t unit :=
  modify (fun s => with_leftmosts s (upd (_leftmosts s) p v)).
Definition set_rightmost p v : M t unit :=
  modify (fun s => with_rightmosts s (upd (_rightmosts s) p v)).
Definition set_leftmost_empty p v : M t unit :=
  modify (fun s => with_leftmosts_empty s (upd (_leftmosts_empty s) p v)).
Definition set_rightmost_empty p v : M t unit :=
  modify (fun s => with_rightmosts_empty s (upd (_rightmosts_empty s) p v)).
Definition set_capacity p v : M t unit :=
  modify (fun s => with_capacity s (upd (_capacity s) p v)).
Definition set_used p v : M t unit :=
  modify (fun s => with_used s (upd (_used s) p v)).
Definition set_region_count p v : M t unit :=
  modify (fun s => with_region_counts s (upd (_region_counts s) p v)).
Definition set_bitmap p v : M t unit :=
  modify (fun s => with_membership s (upd (_membership s) p v)).

Definition when (b : bool) (m : M t unit) : M t unit := if b then m else ret tt.

(** [inline size_t count(which_partition) const], [capacity_of], [used_by] *)
Definition count (s : t) (p : ShenandoahFreeSetPartitionId) : Z := _region_counts s p.
Definition capacity_of (s : t) (p : ShenandoahFreeSetPartitionId) : Z := _capacity s p.
Definition used_by (s : t) (p : ShenandoahFreeSetPartitionId) : Z := _used s p.

(** Modelled from the spec: [available_in] is called by [reserve_regions]
    but is not declared in shenandoahFreeSet.hpp.  The spec compares
    "[available_in(Collector) < target]"; [finish_rebuild] computes the
    same quantity in place as [capacity_of(Collector) - used_by(Collector)]. *)
Definition available_in (s : t) (p : ShenandoahFreeSetPartitionId) : Z :=
  wrap (capacity_of s p - used_by s p).

(** The constructor: [raw] is the uninitialised object; the bitmaps are
    created with [max_regions] bits, and [make_all_regions_unavailable]
    (below) is then run on the result. *)
Definition allocate_object (raw : t) (max_regions region_size_bytes : Z) : t :=
  mk (to_ssize max_regions) region_size_bytes
     (fun p => SimpleBitMap.create (SimpleBitMap._bitmap (_membership raw p)) max_regions)
     (_leftmosts raw) (_rightmosts raw) (_leftmosts_empty raw) (_rightmosts_empty raw)
     (_capacity raw) (_used raw) (_region_counts raw).

Section Ops.

(** [dbg]: the build has [ASSERT] defined. *)
Variable dbg : bool.
(** [_free_set->alloc_capacity(idx)], the only use of the back pointer. *)
Variable alloc_capacity : Z -> Z.

(** *** Calls into the bitmaps, with their entry assertions *)

Definition bm_is_set p idx : M t bool :=
  s <- get ;;
  assert_ dbg (SimpleBitMap.index_in_range (_membership s p) idx) "precondition" ;;
  ret (SimpleBitMap.is_set (_membership s p) idx).

Definition bm_set_bit p idx : M t unit :=
  s <- get ;;
  assert_ dbg (SimpleBitMap.index_in_range (_membership s p) idx) "precondition" ;;
  set_bitmap p (SimpleBitMap.set_bit (_membership s p) idx).

Definition bm_clear_bit p idx : M t unit :=
  s <- get ;;
  assert_ dbg (SimpleBitMap.index_in_range (_membership s p) idx) "precondition" ;;
  set_bitmap p (SimpleBitMap.clear_bit (_membership s p) idx).

Definition bm_find_next_set_bit p start_idx boundary_idx : M t Z :=
  s <- get ;;
  assert_ dbg (SimpleBitMap.index_in_range (_membership s p) start_idx) "precondition" ;;
  assert_ dbg (SimpleBitMap.find_next_set_bit_boundary_ok (_membership s p)
                 start_idx boundary_idx) "precondition" ;;
  of_option (SimpleBitMap.find_next_set_bit (_membership s p) start_idx boundary_idx).

Definition bm_find_prev_set_bit p last_idx boundary_idx : M t Z :=
  s <- get ;;
  assert_ dbg (SimpleBitMap.index_in_range (_membership s p) last_idx) "precondition" ;;
  assert_ dbg (SimpleBitMap.find_prev_set_bit_boundary_ok last_idx boundary_idx)
          "precondition" ;;
  of_option (SimpleBitMap.find_prev_set_bit (_membership s p) last_idx boundary_idx).

(** [in_free_set] and [raw_set_membership] *)
Definition in_free_set p idx : M t bool := bm_is_set p idx.
Definition raw_set_membership idx p : M t unit := bm_set_bit p idx.

(** *** leftmost, rightmost, is_empty *)

Definition leftmost p : M t Z :=
  assert_ dbg (lt_NumPartitions p) "selected free partition must be valid" ;;
  s <- get ;;
  let idx := _leftmosts s p in
  if idx >=? _max s then ret (_max s)
  else ret idx.

Definition rightmost p : M t Z :=
  assert_ dbg (lt_NumPartitions p) "selected free partition must be valid" ;;
  s <- get ;;
  ret (_rightmosts s p).

Definition is_empty p : M t bool :=
  assert_ dbg (lt_NumPartitions p) "selected free partition must be valid" ;;
  l <- leftmost p ;;
  r <- rightmost p ;;
  ret (l >? r).

(** *** make_all_regions_unavailable, establish_intervals, increase_used *)

Definition reset_partition (partition_id : ShenandoahFreeSetPartitionId) : M t unit :=
  s <- get ;;
  set_bitmap partition_id (SimpleBitMap.clear_all (_membership s partition_id)) ;;
  set_leftmost partition_id (_max s) ;;
  set_rightmost partition_id (-1) ;;
  set_leftmost_empty partition_id (_max s) ;;
  set_rightmost_empty partition_id (-1) ;;
  set_capacity partition_id 0 ;;
  set_used partition_id 0.

Definition make_all_regions_unavailable : M t unit :=
  reset_partition Mutator ;;
  reset_partition Collector ;;
  set_region_count Collector 0 ;;
  set_region_count Mutator 0.

Definition construct (raw : t) (max_regions region_size_bytes : Z) : t :=
  let s := allocate_object raw max_regions region_size_bytes in
  match make_all_regions_unavailable s with
  | Ret _ s' => s'
  | _ => s
  end.

Definition establish_intervals
           (mutator_leftmost mutator_rightmost
            mutator_leftmost_empty mutator_rightmost_empty
            mutator_region_count mutator_used : Z) : M t unit :=
  s <- get ;;
  set_region_count Mutator mutator_region_count ;;
  set_leftmost Mutator mutator_leftmost ;;
  set_rightmost Mutator mutator_rightmost ;;
  set_leftmost_empty Mutator mutator_leftmost_empty ;;
  set_rightmost_empty Mutator mutator_rightmost_empty ;;
  set_region_count Mutator mutator_region_count ;;
  set_used Mutator mutator_used ;;
  set_capacity Mutator (wrap (mutator_region_count * _region_size_bytes s)) ;;
  set_leftmost Collector (_max s) ;;
  set_rightmost Collector (-1) ;;
  set_leftmost_empty Collector (_max s) ;;
  set_rightmost_empty Collector (-1) ;;
  set_region_count Collector 0 ;;
  set_used Collector 0 ;;
  set_capacity Collector 0.

Definition increase_used which_partition bytes : M t unit :=
  assert_ dbg (lt_NumPartitions which_partition) "Partition must be valid" ;;
  s <- get ;;
  set_used which_partition (wrap (_used s which_partition + bytes)) ;;
  s <- get ;;
  assert_ dbg (_used s which_partition <=? _capacity s which_partition)
          "Must not use more than capacity after increase".


(** *** Searches over one partition *)

(** Return the index of the next available region >= start_index, or
    maximum_regions if not found. *)
Definition find_index_of_next_available_region which_partition start_index : M t Z :=
  rightmost_idx <- rightmost which_partition ;;
  leftmost_idx <- leftmost which_partition ;;
  s <- get ;;
  if (rightmost_idx <? leftmost_idx) || (start_index >? rightmost_idx) then ret (_max s)
  else
    let start_index := if start_index <? leftmost_idx then leftmost_idx else start_index in
    result <- bm_find_next_set_bit which_partition start_index (rightmost_idx + 1) ;;
    ret (if result >? rightmost_idx then _max s else result).

(** Return the index of the previous available region <= last_index, or
    -1 if not found. *)
Definition find_index_of_previous_available_region which_partition last_index : M t Z :=
  rightmost_idx <- rightmost which_partition ;;
  leftmost_idx <- leftmost which_partition ;;
  (* if (leftmost_idx == max) then (last_index < leftmost_idx) *)
  if last_index <? leftmost_idx then ret (-1)
  else
    let last_index := if last_index >? rightmost_idx then rightmost_idx else last_index in
    result <- bm_find_prev_set_bit which_partition last_index (-1) ;;
    ret (if result <? leftmost_idx then -1 else result).

(** *** leftmost_empty, rightmost_empty *)

Fixpoint leftmost_empty_loop (fuel : nat) which_partition (idx : Z) : M t Z :=
  match fuel with
  | O => fun _ => OutOfFuel
  | S fuel' =>
      s <- get ;;
      let max_regions := _max s in
      if idx <? max_regions then
        assertM dbg (in_free_set which_partition idx)
                "Boundaries or find_prev_set_bit failed" ;;
        if alloc_capacity idx =? _region_size_bytes s then
          set_leftmost_empty which_partition idx ;;
          ret idx
        else
          idx' <- find_index_of_next_available_region which_partition (idx + 1) ;;
          leftmost_empty_loop fuel' which_partition idx'
      else
        set_leftmost_empty which_partition (_max s) ;;
        set_rightmost_empty which_partition (-1) ;;
        ret (_max s)
  end.

Definition leftmost_empty which_partition : M t Z :=
  assert_ dbg (lt_NumPartitions which_partition) "selected free partition must be valid" ;;
  s <- get ;;
  if _leftmosts_empty s which_partition =? _max s then ret (_max s)
  else
    idx <- find_index_of_next_available_region which_partition
             (_leftmosts_empty s which_partition) ;;
    leftmost_empty_loop (S (Z.to_nat (_max s))) which_partition idx.

Fixpoint rightmost_empty_loop (fuel : nat) which_partition (idx : Z) : M t Z :=
  match fuel with
  | O => fun _ => OutOfFuel
  | S fuel' =>
      s <- get ;;
      if idx >=? 0 then
        assertM dbg (in_free_set which_partition idx)
                "Boundaries or find_prev_set_bit failed" ;;
        if alloc_capacity idx =? _region_size_bytes s then
          set_rightmost_empty which_partition idx ;;
          ret idx
        else
          idx' <- find_index_of_previous_available_region which_partition (idx - 1) ;;
          rightmost_empty_loop fuel' which_partition idx'
      else
        set_leftmost_empty which_partition (_max s) ;;
        set_rightmost_empty which_partition (-1) ;;
        ret (-1)
  end.

Definition rightmost_empty which_partition : M t Z :=
  assert_ dbg (lt_NumPartitions which_partition) "selected free partition must be valid" ;;
  s <- get ;;
  if _rightmosts_empty s which_partition <? 0 then ret (-1)
  else
    idx <- find_index_of_previous_available_region which_partition
             (_rightmosts_empty s which_partition) ;;
    rightmost_empty_loop (S (Z.to_nat (_max s))) which_partition idx.

(** *** Shrinking and expanding the intervals *)

Definition shrink_interval_if_range_modifies_either_boundary
           partition (low_idx high_idx : Z) : M t unit :=
  s <- get ;;
  assert_ dbg ((low_idx <=? high_idx) && (low_idx >=? 0) && (high_idx <? _max s))
          "Range must span legal index values" ;;
  l <- leftmost partition ;;
  when (low_idx =? l)
    (assertM dbg (b <- bm_is_set partition low_idx ;; ret (negb b))
             "Do not shrink interval if region not removed" ;;
     (if high_idx + 1 =? _max s then set_leftmost partition (_max s)
      else
        i <- find_index_of_next_available_region partition (high_idx + 1) ;;
        set_leftmost partition i) ;;
     le <- leftmost_empty partition ;;
     l <- leftmost partition ;;
     (* This gets us closer to where we need to be; we'll scan further when
        leftmosts_empty is requested. *)
     when (le <? l) (set_leftmost_empty partition l)) ;;
  r <- rightmost partition ;;
  when (high_idx =? r)
    (assertM dbg (b <- bm_is_set partition high_idx ;; ret (negb b))
             "Do not shrink interval if region not removed" ;;
     (if low_idx =? 0 then set_rightmost partition (-1)
      else
        i <- find_index_of_previous_available_region partition (low_idx - 1) ;;
        set_rightmost partition i) ;;
     re <- rightmost_empty partition ;;
     r <- rightmost partition ;;
     (* This gets us closer to where we need to be; we'll scan further when
        rightmosts_empty is requested. *)
     when (re >? r) (set_rightmost_empty partition r)) ;;
  l <- leftmost partition ;;
  r <- rightmost partition ;;
  s <- get ;;
  when (l >? r)
    (set_leftmost partition (_max s) ;;
     set_rightmost partition (-1) ;;
     set_leftmost_empty partition (_max s) ;;
     set_rightmost_empty partition (-1)).

Definition shrink_interval_if_boundary_modified partition (idx : Z) : M t unit :=
  s <- get ;;
  assert_ dbg ((idx >=? 0) && (idx <? _max s)) "Range must span legal index values" ;;
  l <- leftmost partition ;;
  when (idx =? l)
    (assertM dbg (b <- bm_is_set partition idx ;; ret (negb b))
             "Do not shrink interval if region not removed" ;;
     (if idx + 1 =? _max s then set_leftmost partition (_max s)
      else
        i <- find_index_of_next_available_region partition (idx + 1) ;;
        set_leftmost partition i) ;;
     le <- leftmost_empty partition ;;
     l <- leftmost partition ;;
     when (le <? l) (set_leftmost_empty partition l)) ;;
  r <- rightmost partition ;;
  when (idx =? r)
    (assertM dbg (b <- bm_is_set partition idx ;; ret (negb b))
             "Do not shrink interval if region not removed" ;;
     (if idx =? 0 then set_rightmost partition (-1)
      else
        i <- find_index_of_previous_available_region partition (idx - 1) ;;
        set_rightmost partition i) ;;
     re <- rightmost_empty partition ;;
     r <- rightmost partition ;;
     when (re >? r) (set_rightmost_empty partition r)) ;;
  l <- leftmost partition ;;
  r <- rightmost partition ;;
  s <- get ;;
  when (l >? r)
    (set_leftmost partition (_max s) ;;
     set_rightmost partition (-1) ;;
     set_leftmost_empty partition (_max s) ;;
     set_rightmost_empty partition (-1)).

Definition expand_interval_if_boundary_modified partition (idx region_available : Z)
  : M t unit :=
  l <- leftmost partition ;;
  when (l >? idx) (set_leftmost partition idx) ;;
  r <- rightmost partition ;;
  when (r <? idx) (set_rightmost partition idx) ;;
  s <- get ;;
  when (region_available =? _region_size_bytes s)
    (le <- leftmost_empty partition ;;
     when (le >? idx) (set_leftmost_empty partition idx) ;;
     re <- rightmost_empty partition ;;
     when (re <? idx) (set_rightmost_empty partition idx)).


(** *** Retiring regions *)

(** Remove the consecutive regions between low_idx and high_idx inclusive
    from partition since all of these will be subsumed by a humongous
    object. *)
Definition retire_range_from_partition partition (low_idx high_idx : Z) : M t unit :=
  s <- get ;;
  assert_ dbg ((low_idx <? _max s) && (high_idx <? _max s)) "Both indices are sane" ;;
  assert_ dbg (lt_NumPartitions partition)
          "Cannot remove from free partitions if not already free" ;;
  for_range (Z.to_nat (high_idx + 1 - low_idx)) low_idx tt
    (fun idx _ =>
       assertM dbg (in_free_set partition idx)
               "Must be in partition to remove from partition" ;;
       bm_clear_bit partition idx) ;;
  s <- get ;;
  set_region_count partition (wrap (_region_counts s partition - (high_idx + 1 - low_idx))) ;;
  shrink_interval_if_range_modifies_either_boundary partition low_idx high_idx.

(** Remove this region from its free partition, but leave its capacity and
    used as part of the original free partition's totals.  When retiring a
    region, add any remnant of available memory within the region to the
    used total for the original free partition. *)
Definition retire_from_partition partition (idx used_bytes : Z) : M t unit :=
  s <- get ;;
  assert_ dbg (idx <? _max s) "index is sane" ;;
  assert_ dbg (lt_NumPartitions partition)
          "Cannot remove from free partitions if not already free" ;;
  assertM dbg (in_free_set partition idx) "Must be in partition to remove from partition" ;;
  when (used_bytes <? _region_size_bytes s)
    (* Count the alignment pad remnant of memory as used when we retire this region *)
    (increase_used partition (wrap (_region_size_bytes s - used_bytes))) ;;
  bm_clear_bit partition idx ;;
  shrink_interval_if_boundary_modified partition idx ;;
  s <- get ;;
  set_region_count partition (wrap (_region_counts s partition - 1)).

(** *** membership (debug builds only) *)

Definition membership (idx : Z) : M t ShenandoahFreeSetPartitionId :=
  s <- get ;;
  assert_ dbg (idx <? _max s) "index is sane" ;;
  let result := NotFree in
  m <- bm_is_set Mutator idx ;;
  result <- (if m then
               assert_ dbg (partition_eqb result NotFree)
                       "Region should reside in only one partition" ;;
               ret Mutator
             else ret result) ;;
  c <- bm_is_set Collector idx ;;
  (if c then
     assert_ dbg (partition_eqb result NotFree)
             "Region should reside in only one partition" ;;
     ret Collector
   else ret result).

(** Returns true iff region idx is in the test_partition, which must not
    equal NotFree. *)
Definition partition_id_matches (idx : Z) test_partition : M t bool :=
  s <- get ;;
  assert_ dbg (idx <? _max s) "index is sane" ;;
  assert_ dbg (lt_NumPartitions test_partition) "must be a valid partition" ;;
  m <- membership idx ;;
  ret (partition_eqb m test_partition).

(** *** make_free, move_from_partition_to_partition *)

Definition make_free (idx : Z) which_partition (available : Z) : M t unit :=
  s <- get ;;
  assert_ dbg (idx <? _max s) "index is sane" ;;
  assertM dbg (m <- membership idx ;; ret (partition_eqb m NotFree))
          "Cannot make free if already free" ;;
  assert_ dbg (lt_NumPartitions which_partition) "selected free partition must be valid" ;;
  assert_ dbg (available <=? _region_size_bytes s) "Available cannot exceed region size" ;;
  bm_set_bit which_partition idx ;;
  set_capacity which_partition (wrap (_capacity s which_partition + _region_size_bytes s)) ;;
  set_used which_partition
           (wrap (_used s which_partition + wrap (_region_size_bytes s - available))) ;;
  expand_interval_if_boundary_modified which_partition idx available ;;
  s <- get ;;
  set_region_count which_partition (wrap (_region_counts s which_partition + 1)).

(** Expected transitions:
     During rebuild:         Mutator => Collector
     During flip_to_gc:      Mutator empty => Collector
    At start of update refs: Collector => Mutator *)
Definition expected_movement (s : t) orig_partition new_partition (available : Z) : bool :=
  ((available <=? _region_size_bytes s) &&
   ((partition_eqb orig_partition Mutator && partition_eqb new_partition Collector) ||
    (partition_eqb orig_partition Collector && partition_eqb new_partition Mutator))) ||
  ((available =? _region_size_bytes s) &&
   (partition_eqb orig_partition Mutator && partition_eqb new_partition Collector)).

Definition move_from_partition_to_partition
           (idx : Z) orig_partition new_partition (available : Z) : M t unit :=
  s <- get ;;
  assert_ dbg (idx <? _max s) "index is sane" ;;
  assert_ dbg (lt_NumPartitions orig_partition) "Original partition must be valid" ;;
  assert_ dbg (lt_NumPartitions new_partition) "New partition must be valid" ;;
  assert_ dbg (available <=? _region_size_bytes s) "Available cannot exceed region size" ;;
  assert_ dbg (expected_movement s orig_partition new_partition available)
          "Unexpected movement between partitions" ;;
  let used := wrap (_region_size_bytes s - available) in
  bm_clear_bit orig_partition idx ;;
  bm_set_bit new_partition idx ;;
  s <- get ;;
  set_capacity orig_partition (wrap (_capacity s orig_partition - _region_size_bytes s)) ;;
  s <- get ;;
  set_used orig_partition (wrap (_used s orig_partition - used)) ;;
  shrink_interval_if_boundary_modified orig_partition idx ;;
  s <- get ;;
  set_capacity new_partition (wrap (_capacity s new_partition + _region_size_bytes s)) ;;
  s <- get ;;
  set_used new_partition (wrap (_used s new_partition + used)) ;;
  expand_interval_if_boundary_modified new_partition idx available ;;
  s <- get ;;
  set_region_count orig_partition (wrap (_region_counts s orig_partition - 1)) ;;
  s <- get ;;
  set_region_count new_partition (wrap (_region_counts s new_partition + 1)).


(** *** Searching for a cluster of regions *)

(** See [SimpleBitMap.is_forward_consecutive_ones]. *)
Variable shl_oob : Z -> Z.

Definition bm_find_next_consecutive_bits p (num_bits start_idx boundary_idx : Z) : M t Z :=
  s <- get ;;
  assert_ dbg (SimpleBitMap.index_in_range (_membership s p) start_idx) "precondition" ;;
  of_option (SimpleBitMap.find_next_consecutive_bits shl_oob (_membership s p)
               num_bits start_idx boundary_idx).

(** Return the index of the next available cluster of cluster_size regions
    >= start_index, or maximum_regions if not found. *)
Definition find_index_of_next_available_cluster_of_regions
           which_partition (start_index cluster_size : Z) : M t Z :=
  rightmost_idx <- rightmost which_partition ;;
  leftmost_idx <- leftmost which_partition ;;
  s <- get ;;
  if (rightmost_idx <? leftmost_idx) || (start_index >? rightmost_idx) then ret (_max s)
  else
    result <- bm_find_next_consecutive_bits which_partition cluster_size start_index
                (rightmost_idx + 1) ;;
    ret (if result >? rightmost_idx then _max s else result).

(** *** assert_bounds (debug builds only) *)

(** The four local arrays of [assert_bounds]. *)
Record observed_bounds : Type := mk_observed {
  leftmosts : per_partition Z;
  rightmosts : per_partition Z;
  empty_leftmosts : per_partition Z;
  empty_rightmosts : per_partition Z
}.

Definition assert_bounds_visit (i : Z) (b : observed_bounds) : M t observed_bounds :=
  partition <- membership i ;;
  match partition with
  | NotFree => ret b
  | _ =>
      s <- get ;;
      let capacity := alloc_capacity i in
      let is_empty := capacity =? _region_size_bytes s in
      assert_ dbg (capacity >? 0) "free regions must have allocation capacity" ;;
      let l := if i <? leftmosts b partition
               then upd (leftmosts b) partition i else leftmosts b in
      let el := if is_empty && (i <? empty_leftmosts b partition)
                then upd (empty_leftmosts b) partition i else empty_leftmosts b in
      let r := if i >? rightmosts b partition
               then upd (rightmosts b) partition i else rightmosts b in
      let er := if is_empty && (i >? empty_rightmosts b partition)
                then upd (empty_rightmosts b) partition i else empty_rightmosts b in
      ret (mk_observed l r el er)
  end.

Definition assert_bounds_partition (b : observed_bounds) p (query_empty : bool)
  : M t unit :=
  s <- get ;;
  (* Performance invariants. *)
  assertM dbg (l <- leftmost p ;; ret (l <=? _max s)) "leftmost in bounds" ;;
  assertM dbg (r <- rightmost p ;; ret (r <? _max s)) "rightmost in bounds" ;;
  assertM dbg (l <- leftmost p ;;
               if l =? _max s then ret true
               else l <- leftmost p ;; partition_id_matches l p)
          "leftmost region should be free" ;;
  assertM dbg (l <- leftmost p ;;
               if l =? _max s then ret true
               else r <- rightmost p ;; partition_id_matches r p)
          "rightmost region should be free" ;;
  let beg_off := leftmosts b p in
  let end_off := rightmosts b p in
  assertM dbg (l <- leftmost p ;; ret (beg_off >=? l)) "free regions before the leftmost" ;;
  assertM dbg (r <- rightmost p ;; ret (end_off <=? r)) "free regions past the rightmost" ;;
  let beg_off := empty_leftmosts b p in
  let end_off := empty_rightmosts b p in
  if query_empty then
    assertM dbg (le <- leftmost_empty p ;; ret (beg_off >=? le))
            "free empty regions before the leftmost" ;;
    assertM dbg (re <- rightmost_empty p ;; ret (end_off <=? re))
            "free empty regions past the rightmost"
  else
    assertM dbg (s <- get ;; ret (beg_off >=? _leftmosts_empty s p))
            "free empty regions before the leftmost" ;;
    assertM dbg (s <- get ;; ret (end_off <=? _rightmosts_empty s p))
            "free empty regions past the rightmost".

(** [void assert_bounds() NOT_DEBUG_RETURN]: the Mutator's empty bounds
    are compared through [leftmost_empty]/[rightmost_empty] (which
    tighten them), the Collector's through the fields themselves. *)
Definition assert_bounds : M t unit :=
  if dbg then
    s <- get ;;
    let init :=
      mk_observed (fun _ => _max s) (fun _ => -1) (fun _ => _max s) (fun _ => -1) in
    b <- for_range (Z.to_nat (_max s)) 0 init assert_bounds_visit ;;
    assert_bounds_partition b Mutator true ;;
    assert_bounds_partition b Collector false
  else ret tt.

End Ops.

End Partitions.

(* ================================================================= *)
(** ** The host: allocation requests, heap regions, flags *)

(** Modelled from the spec: [ShenandoahAllocRequest] is declared in
    shenandoahAllocRequest.hpp, which is not part of the sources at hand.
    The spec gives the request "a kind (TLAB, shared mutator, GC-lab,
    shared-GC), a size in words, and (for LABs) a minimum size", and an
    output "actual_size_words". *)
Module AllocRequest.

Inductive Type_ : Type := _alloc_shared | _alloc_shared_gc | _alloc_tlab | _alloc_gclab.

Record t : Type := mk {
  type : Type_;
  size : Z;
  min_size : Z;
  actual_size : Z
}.

Definition set_actual_size (req : t) (v : Z) : t :=
  mk (type req) (size req) (min_size req) v.

Definition is_mutator_alloc (req : t) : bool :=
  match type req with _alloc_tlab | _alloc_shared => true | _ => false end.

Definition is_gc_alloc (req : t) : bool :=
  match type req with _alloc_gclab | _alloc_shared_gc => true | _ => false end.

Definition is_lab_alloc (req : t) : bool :=
  match type req with _alloc_tlab | _alloc_gclab => true | _ => false end.

Definition is_tlab (req : t) : bool :=
  match type req with _alloc_tlab => true | _ => false end.

End AllocRequest.

(** [HeapWordSize] and [LogHeapWordSize] of a 64-bit build; the bitmap's
    [_bits_per_array_element] is [HeapWordSize * 8]. *)
Definition HeapWordSize : Z := 8.
Definition LogHeapWordSize : Z := 3.

(** Sizes and flags the free set reads from its environment. *)
Record Config : Type := mk_Config {
  num_regions : Z;                    (* _heap->num_regions() *)
  region_size_bytes : Z;              (* ShenandoahHeapRegion::region_size_bytes() *)
  region_size_words : Z;              (* ShenandoahHeapRegion::region_size_words() *)
  humongous_threshold_words : Z;      (* ShenandoahHeapRegion::humongous_threshold_words() *)
  max_capacity : Z;                   (* _heap->max_capacity() *)
  PLAB_min_size : Z;                  (* PLAB::min_size(), in words *)
  MinObjAlignment : Z;                (* in words *)
  ShenandoahEvacReserve : Z;          (* percent *)
  (* the [static const size_t min_capacity] of try_allocate_in, that is
     [(size_t) (region_size_bytes * (1.0 - 1.0 / ShenandoahEvacWaste))] *)
  min_capacity : Z;
  ShenandoahEvacReserveOverflow : bool
}.

(** Modelled from the spec: [ShenandoahHeapRegion] and [ShenandoahHeap] are
    not part of the sources at hand.  The spec's host region interface is
    [alloc_capacity], [is_empty], [is_trash], [is_alloc_allowed],
    [allocate_in_region] ("bumps the region's internal pointer"),
    [recycle], [make_humongous_start], [make_humongous_cont], [set_top]
    and [set_update_watermark]; a region is "empty/trash/humongous/regular".
    [top] and [update_watermark] are kept as word offsets from the
    region's bottom. *)
Module Heap.

Inductive region_state : Type :=
| Empty | Regular | Trash | HumongousStart | HumongousCont | NotAllocatable.

Record region : Type := mk_region {
  state : region_state;
  top : Z;
  update_watermark : Z
}.

Record t : Type := mk {
  regions : Z -> region;
  used_bytes : Z;
  concurrent_weak_root_in_progress : bool
}.

Definition is_empty (r : region) : bool :=
  match state r with Empty => true | _ => false end.
Definition is_trash (r : region) : bool :=
  match state r with Trash => true | _ => false end.
Definition is_humongous (r : region) : bool :=
  match state r with HumongousStart | HumongousCont => true | _ => false end.
Definition is_alloc_allowed (r : region) : bool :=
  match state r with Empty | Regular => true | _ => false end.

Definition used (r : region) : Z := top r * HeapWordSize.
Definition free (cfg : Config) (r : region) : Z :=
  Word.wrap (region_size_bytes cfg - used r).

Definition get_region (h : t) (idx : Z) : region := regions h idx.

Definition set_region (h : t) (idx : Z) (r : region) : t :=
  mk (fun j => if j =? idx then r else regions h j)
     (used_bytes h) (concurrent_weak_root_in_progress h).

Definition decrease_used (h : t) (bytes : Z) : t :=
  mk (regions h) (Word.wrap (used_bytes h - bytes)) (concurrent_weak_root_in_progress h).

(** [r->allocate(size, type)]: the address (as a byte offset from the
    heap's base) when [size] words fit below the region's end. *)
Definition allocate (cfg : Config) (idx : Z) (r : region) (size : Z) : option (Z * region) :=
  if top r + size <=? region_size_words cfg then
    Some (idx * region_size_bytes cfg + top r * HeapWordSize,
          mk_region (match state r with Empty => Regular | st => st end)
                    (top r + size) (update_watermark r))
  else None.

Definition recycle (r : region) : region := mk_region Empty 0 0.
Definition make_humongous_start (r : region) : region :=
  mk_region HumongousStart (top r) (update_watermark r).
Definition make_humongous_cont (r : region) : region :=
  mk_region HumongousCont (top r) (update_watermark r).
Definition set_top (r : region) (v : Z) : region :=
  mk_region (state r) v (update_watermark r).
Definition set_update_watermark (r : region) (v : Z) : region :=
  mk_region (state r) (top r) v.

(** [ShenandoahHeapRegion::required_regions(bytes)]: the spec's
    [ceil(size_bytes / region_size_bytes)]. *)
Definition required_regions (cfg : Config) (bytes : Z) : Z :=
  (bytes + region_size_bytes cfg - 1) / region_size_bytes cfg.

(** [ShenandoahHeapRegion::region_size_words_mask()] *)
Definition region_size_words_mask (cfg : Config) : Z := region_size_words cfg - 1.

End Heap.

(* ================================================================= *)
(** ** ShenandoahFreeSet *)

Module FreeSet.

Import Word Run.
Local Open Scope run_scope.

Record t : Type := mk {
  _heap : Heap.t;
  _partitions : Partitions.t;
  _alloc_bias_weight : Z;
  _right_to_left_bias : bool
}.

Definition with_heap (fs : t) (h : Heap.t) : t :=
  mk h (_partitions fs) (_alloc_bias_weight fs) (_right_to_left_bias fs).
Definition with_partitions (fs : t) (p : Partitions.t) : t :=
  mk (_heap fs) p (_alloc_bias_weight fs) (_right_to_left_bias fs).
Definition with_alloc_bias_weight (fs : t) (w : Z) : t :=
  mk (_heap fs) (_partitions fs) w (_right_to_left_bias fs).
Definition with_right_to_left_bias (fs : t) (b : bool) : t :=
  mk (_heap fs) (_partitions fs) (_alloc_bias_weight fs) b.

(** What a call hands back besides the state: the [HeapWord*] ([None] is
    [nullptr]) and the two reference parameters [req] and [in_new_region]. *)
Record allocation : Type := mk_allocation {
  result : option Z;
  req_out : AllocRequest.t;
  in_new_region : bool
}.

Section Ops.

Variable dbg : bool.
Variable cfg : Config.
Variable shl_oob : Z -> Z.

Definition get_region (idx : Z) : M t Heap.region :=
  gets (fun fs => Heap.get_region (_heap fs) idx).

Definition update_region (idx : Z) (f : Heap.region -> Heap.region) : M t unit :=
  modify (fun fs =>
            with_heap fs (Heap.set_region (_heap fs) idx
                                          (f (Heap.get_region (_heap fs) idx)))).

Definition when (b : bool) (m : M t unit) : M t unit := if b then m else ret tt.

(** *** can_allocate_from, alloc_capacity, has_alloc_capacity *)

Definition can_allocate_from_region (fs : t) (r : Heap.region) : bool :=
  Heap.is_empty r ||
  (Heap.is_trash r && negb (Heap.concurrent_weak_root_in_progress (_heap fs))).

Definition can_allocate_from (fs : t) (idx : Z) : bool :=
  can_allocate_from_region fs (Heap.get_region (_heap fs) idx).

Definition alloc_capacity_region (r : Heap.region) : Z :=
  if Heap.is_trash r then
    (* This would be recycled on allocation path *)
    region_size_bytes cfg
  else Heap.free cfg r.

Definition alloc_capacity (fs : t) (idx : Z) : Z :=
  alloc_capacity_region (Heap.get_region (_heap fs) idx).

Definition has_alloc_capacity (r : Heap.region) : bool := alloc_capacity_region r >? 0.

(** A call into [_partitions]; the table reaches [alloc_capacity]
    through its back pointer to the free set. *)
Definition partitions {A} (m : (Z -> Z) -> M Partitions.t A) : M t A :=
  fun fs => zoom _partitions with_partitions (m (alloc_capacity fs)) fs.

Definition p_leftmost p := partitions (fun _ => Partitions.leftmost dbg p).
Definition p_rightmost p := partitions (fun _ => Partitions.rightmost dbg p).
Definition p_is_empty p := partitions (fun _ => Partitions.is_empty dbg p).
Definition p_in_free_set p idx := partitions (fun _ => Partitions.in_free_set dbg p idx).
Definition p_leftmost_empty p := partitions (fun ac => Partitions.leftmost_empty dbg ac p).
Definition p_rightmost_empty p := partitions (fun ac => Partitions.rightmost_empty dbg ac p).
Definition p_find_next p i :=
  partitions (fun _ => Partitions.find_index_of_next_available_region dbg p i).
Definition p_find_prev p i :=
  partitions (fun _ => Partitions.find_index_of_previous_available_region dbg p i).
Definition p_find_next_cluster p i n :=
  partitions (fun _ => Partitions.find_index_of_next_available_cluster_of_regions
                         dbg shl_oob p i n).
Definition p_assert_bounds := partitions (fun ac => Partitions.assert_bounds dbg ac).
Definition p_increase_used p bytes :=
  partitions (fun _ => Partitions.increase_used dbg p bytes).
Definition p_retire p idx used :=
  partitions (fun ac => Partitions.retire_from_partition dbg ac p idx used).
Definition p_retire_range p lo hi :=
  partitions (fun ac => Partitions.retire_range_from_partition dbg ac p lo hi).
Definition p_move idx orig new avail :=
  partitions (fun ac => Partitions.move_from_partition_to_partition dbg ac idx orig new avail).

(** *** try_recycle_trashed, flip_to_gc, clear *)

Definition try_recycle_trashed (idx : Z) : M t unit :=
  r <- get_region idx ;;
  when (Heap.is_trash r)
    (modify (fun fs => with_heap fs (Heap.decrease_used (_heap fs) (Heap.used r))) ;;
     update_region idx Heap.recycle).

Definition flip_to_gc (idx : Z) : M t unit :=
  assertM dbg (partitions (fun _ => Partitions.partition_id_matches dbg idx Mutator))
          "Should be in mutator view" ;;
  assertM dbg (fs <- get ;; ret (can_allocate_from fs idx)) "Should not be allocated" ;;
  fs <- get ;;
  let ac := alloc_capacity fs idx in
  p_move idx Mutator Collector ac ;;
  p_assert_bounds.
  (* We do not ensure that the region is no longer trash, relying on
     try_allocate_in(), which always comes next, to recycle trash before
     attempting to allocate anything in the region. *)

Definition clear_internal : M t unit :=
  partitions (fun _ => Partitions.make_all_regions_unavailable).

Definition clear : M t unit := clear_internal.

(** The constructor. *)
Definition construct (raw : Partitions.t) (heap : Heap.t) (max_regions : Z) : t :=
  let fs := mk heap (Partitions.construct raw max_regions (region_size_bytes cfg)) 0 false in
  match clear_internal fs with
  | Ret _ fs' => fs'
  | _ => fs
  end.

(** *** try_allocate_in *)

(** [align_down(x, alignment)] *)
Definition align_down (x alignment : Z) : Z := x / alignment * alignment.

Definition try_allocate_in (idx : Z) (req : AllocRequest.t) (in_new_region : bool)
  : M t allocation :=
  r <- get_region idx ;;
  assert_ dbg (has_alloc_capacity r)
          "Performance: should avoid full regions on this path" ;;
  fs <- get ;;
  if Heap.concurrent_weak_root_in_progress (_heap fs) && Heap.is_trash r then
    ret (mk_allocation None req in_new_region)
  else
    try_recycle_trashed idx ;;
    r <- get_region idx ;;
    let in_new_region := Heap.is_empty r in
    (* req.size() is in words, r->free() is in bytes. *)
    a <- (if AllocRequest.is_lab_alloc req then
            (* This is a GCLAB or a TLAB allocation *)
            let adjusted_size := AllocRequest.size req in
            let free := align_down (Z.shiftr (Heap.free cfg r) LogHeapWordSize)
                                   (MinObjAlignment cfg) in
            let adjusted_size := if adjusted_size >? free then free else adjusted_size in
            if adjusted_size >=? AllocRequest.min_size req then
              match Heap.allocate cfg idx r adjusted_size with
              | Some (addr, r') =>
                  update_region idx (fun _ => r') ;;
                  ret (Some addr, AllocRequest.set_actual_size req adjusted_size)
              | None =>
                  assert_ dbg false "Allocation must succeed" ;;
                  ret (None, AllocRequest.set_actual_size req adjusted_size)
              end
            else ret (None, req)
          else
            let size := AllocRequest.size req in
            match Heap.allocate cfg idx r size with
            | Some (addr, r') =>
                update_region idx (fun _ => r') ;;
                (* Record actual allocation size *)
                ret (Some addr, AllocRequest.set_actual_size req size)
            | None => ret (None, req)
            end) ;;
    let '(result, req) := a in
    when (match result with Some _ => true | None => false end)
      (* Allocation successful, bump stats: *)
      (if AllocRequest.is_mutator_alloc req then
         p_increase_used Mutator (wrap (AllocRequest.actual_size req * HeapWordSize))
       else
         assert_ dbg (AllocRequest.is_gc_alloc req)
                 "Should be gc_alloc since req wasn't mutator alloc" ;;
         (* For GC allocations, we advance update_watermark because the objects
            relocated into this memory during evacuation are not updated during
            evacuation. *)
         update_region idx (fun r => Heap.set_update_watermark r (Heap.top r))) ;;
    fs <- get ;;
    let ac := alloc_capacity fs idx in
    if ((match result with None => true | Some _ => false end) && (ac <? min_capacity cfg))
       || (alloc_capacity fs idx <? wrap (PLAB_min_size cfg * HeapWordSize)) then
      (* Regardless of whether this allocation succeeded, if the remaining memory
         is less than PLAB:min_size(), retire this region.  Note that
         retire_from_partition() increases used to account for waste. *)
      r <- get_region idx ;;
      p_retire (if AllocRequest.is_mutator_alloc req then Mutator else Collector)
               idx (Heap.used r) ;;
      p_assert_bounds ;;
      ret (mk_allocation result req in_new_region)
    else ret (mk_allocation result req in_new_region).


(** *** allocate_single *)

Definition found (a : allocation) : bool :=
  match result a with Some _ => true | None => false end.

(** [size_t min_size = (req.type() == _alloc_tlab)? req.min_size(): req.size();] *)
Definition min_size_of (req : AllocRequest.t) : Z :=
  if AllocRequest.is_tlab req then AllocRequest.min_size req else AllocRequest.size req.

(** [for (idx = rightmost(Mutator); idx >= leftmost; )] of the mutator view. *)
Fixpoint mutator_scan_right_to_left (fuel : nat) (leftmost idx : Z)
         (req : AllocRequest.t) (in_new_region : bool) : M t allocation :=
  match fuel with
  | O => fun _ => OutOfFuel
  | S fuel' =>
      if idx >=? leftmost then
        assertM dbg (p_in_free_set Mutator idx) "Boundaries or find_prev_set_bit failed" ;;
        fs <- get ;;
        (* try_allocate_in() increases used if the allocation is successful. *)
        let min_size := min_size_of req in
        a <- (if alloc_capacity fs idx >=? min_size
              then try_allocate_in idx req in_new_region
              else ret (mk_allocation None req in_new_region)) ;;
        if found a then ret a
        else
          idx' <- p_find_prev Mutator (idx - 1) ;;
          mutator_scan_right_to_left fuel' leftmost idx' (req_out a) (FreeSet.in_new_region a)
      else ret (mk_allocation None req in_new_region)
  end.

(** [for (idx = leftmost(Mutator); idx <= rightmost; )] of the mutator view. *)
Fixpoint mutator_scan_left_to_right (fuel : nat) (rightmost idx : Z)
         (req : AllocRequest.t) (in_new_region : bool) : M t allocation :=
  match fuel with
  | O => fun _ => OutOfFuel
  | S fuel' =>
      if idx <=? rightmost then
        assertM dbg (p_in_free_set Mutator idx) "Boundaries or find_prev_set_bit failed" ;;
        fs <- get ;;
        let min_size := min_size_of req in
        a <- (if alloc_capacity fs idx >=? min_size
              then try_allocate_in idx req in_new_region
              else ret (mk_allocation None req in_new_region)) ;;
        if found a then ret a
        else
          idx' <- p_find_next Mutator (idx + 1) ;;
          mutator_scan_left_to_right fuel' rightmost idx' (req_out a) (FreeSet.in_new_region a)
      else ret (mk_allocation None req in_new_region)
  end.

(** [for (idx = rightmost(Collector); idx >= leftmost_collector; )] *)
Fixpoint collector_scan (fuel : nat) (leftmost_collector idx : Z)
         (req : AllocRequest.t) (in_new_region : bool) : M t allocation :=
  match fuel with
  | O => fun _ => OutOfFuel
  | S fuel' =>
      if idx >=? leftmost_collector then
        assertM dbg (p_in_free_set Collector idx) "Boundaries or find_prev_set_bit failed" ;;
        a <- try_allocate_in idx req in_new_region ;;
        if found a then ret a
        else
          idx' <- p_find_prev Collector (idx - 1) ;;
          collector_scan fuel' leftmost_collector idx' (req_out a) (FreeSet.in_new_region a)
      else ret (mk_allocation None req in_new_region)
  end.

(** [for (idx = rightmost_empty(Mutator); idx >= leftmost_mutator_empty; )]:
    try to steal an empty region from the mutator view. *)
Fixpoint steal_scan (fuel : nat) (leftmost_mutator_empty idx : Z)
         (req : AllocRequest.t) (in_new_region : bool) : M t allocation :=
  match fuel with
  | O => fun _ => OutOfFuel
  | S fuel' =>
      if idx >=? leftmost_mutator_empty then
        assertM dbg (p_in_free_set Mutator idx) "Boundaries or find_prev_set_bit failed" ;;
        fs <- get ;;
        a <- (if can_allocate_from fs idx then
                flip_to_gc idx ;;
                try_allocate_in idx req in_new_region
              else ret (mk_allocation None req in_new_region)) ;;
        if found a then ret a
        else
          idx' <- p_find_prev Mutator (idx - 1) ;;
          steal_scan fuel' leftmost_mutator_empty idx' (req_out a) (FreeSet.in_new_region a)
      else ret (mk_allocation None req in_new_region)
  end.

Definition scan_fuel : nat := S (Z.to_nat (num_regions cfg)).

(** The two scans of the mutator view in [allocate_single], chosen by
    [_right_to_left_bias]: what follows the [if (_alloc_bias_weight-- <= 0)]
    block of the [_alloc_tlab]/[_alloc_shared] case. *)
Definition allocate_in_mutator_view (req : AllocRequest.t) (in_new_region : bool)
  : M t allocation :=
  fs <- get ;;
  if _right_to_left_bias fs then
    (* Allocate within mutator free from high memory to low so as to preserve
       low memory for humongous allocations *)
    e <- p_is_empty Mutator ;;
    if negb e then
      leftmost <- p_leftmost Mutator ;;
      idx <- p_rightmost Mutator ;;
      mutator_scan_right_to_left scan_fuel leftmost idx req in_new_region
    else ret (mk_allocation None req in_new_region)
  else
    (* Allocate from low to high memory.  This keeps the range of fully empty
       regions more tightly packed. *)
    e <- p_is_empty Mutator ;;
    if negb e then
      rightmost <- p_rightmost Mutator ;;
      idx <- p_leftmost Mutator ;;
      mutator_scan_left_to_right scan_fuel rightmost idx req in_new_region
    else ret (mk_allocation None req in_new_region).
    (* There is no recovery. Mutator does not touch collector view at all. *)

Definition allocate_single (req : AllocRequest.t) (in_new_region : bool) : M t allocation :=
  match AllocRequest.type req with
  | AllocRequest._alloc_tlab | AllocRequest._alloc_shared =>
    (* Try to allocate in the mutator view *)
    fs <- get ;;
    let weight := _alloc_bias_weight fs in
    modify (fun fs => with_alloc_bias_weight fs (weight - 1)) ;;
    when (weight <=? 0)
      (le <- p_leftmost_empty Mutator ;;
       l <- p_leftmost Mutator ;;
       let non_empty_on_left := le - l in
       r <- p_rightmost Mutator ;;
       re <- p_rightmost_empty Mutator ;;
       let non_empty_on_right := r - re in
       modify (fun fs => with_right_to_left_bias fs (non_empty_on_right >? non_empty_on_left)) ;;
       modify (fun fs => with_alloc_bias_weight fs 256)) ;;
    allocate_in_mutator_view req in_new_region
  | AllocRequest._alloc_gclab | AllocRequest._alloc_shared_gc =>
    (* Fast-path: try to allocate in the collector view first *)
    leftmost_collector <- p_leftmost Collector ;;
    idx <- p_rightmost Collector ;;
    a <- collector_scan scan_fuel leftmost_collector idx req in_new_region ;;
    if found a then ret a
    else
      (* No dice. Can we borrow space from mutator view? *)
      if negb (ShenandoahEvacReserveOverflow cfg) then ret a
      else
        (* Try to steal an empty region from the mutator view. *)
        leftmost_mutator_empty <- p_leftmost_empty Mutator ;;
        idx <- p_rightmost_empty Mutator ;;
        steal_scan scan_fuel leftmost_mutator_empty idx (req_out a) (FreeSet.in_new_region a)
  end.


(** *** allocate_contiguous *)

(** The [for (span_end = beg + num; slide_delta > 0; slide_delta--)] loop;
    it hands back the new [beg]. *)
Fixpoint slide_loop (fuel : nat) (num beg span_end slide_delta : Z) : M t Z :=
  match fuel with
  | O => fun _ => OutOfFuel
  | S fuel' =>
      if slide_delta >? 0 then
        b <- p_in_free_set Mutator span_end ;;
        if negb b then
          p_find_next_cluster Mutator (span_end + 1) num
        else
          slide_loop fuel' num (beg + 1) (span_end + 1) (slide_delta - 1)
      else ret beg
  end.

(** The [while (true)] loop with its inner
    [while (!can_allocate_from(_heap->get_region(end)))]; the state is
    [beg] and [end].  [None] is the [return nullptr] inside it. *)
Fixpoint window_loop (fuel : nat) (num last_possible_start beg end_ : Z)
  : M t (option (Z * Z)) :=
  match fuel with
  | O => fun _ => OutOfFuel
  | S fuel' =>
      fs <- get ;;
      if negb (can_allocate_from fs end_) then
        (* region[end] is not empty, so we restart our search after region[end] *)
        let slide_delta := end_ + 1 - beg in
        if beg + slide_delta >? last_possible_start then
          (* no room to slide *)
          ret None
        else
          beg' <- slide_loop (S (Z.to_nat slide_delta)) num beg (beg + num) slide_delta ;;
          (* Here, either beg identifies a range of num regions all of which are in
             the Mutator free set, or beg > last_possible_start *)
          if beg' >? last_possible_start then
            (* Hit the end, goodbye *)
            ret None
          else window_loop fuel' num last_possible_start beg' beg'
      else if end_ - beg + 1 =? num then
        (* found the match *)
        ret (Some (beg, end_))
      else window_loop fuel' num last_possible_start beg (end_ + 1)
  end.

(** The body of the "Initialize regions" loop. *)
Definition initialize_humongous (beg end_ remainder : Z) (i : Z) (_ : unit) : M t unit :=
  try_recycle_trashed i ;;
  r <- get_region i ;;
  assert_ dbg (Heap.is_empty r) "Should be empty" ;;
  update_region i (if i =? beg then Heap.make_humongous_start
                   else Heap.make_humongous_cont) ;;
  (* Trailing region may be non-full, record the remainder there *)
  let used_words :=
    if (i =? end_) && negb (remainder =? 0) then remainder
    else region_size_words cfg in
  update_region i (fun r => Heap.set_update_watermark r 0) ;;
  update_region i (fun r => Heap.set_top r used_words).

Definition allocate_contiguous (req : AllocRequest.t) : M t (option Z * AllocRequest.t) :=
  assert_ dbg (AllocRequest.is_mutator_alloc req)
          "All humongous allocations are performed by mutator" ;;
  let words_size := AllocRequest.size req in
  let num := to_ssize (Heap.required_regions cfg (wrap (words_size * HeapWordSize))) in
  fs <- get ;;
  (* Check if there are enough regions left to satisfy allocation. *)
  if num >? to_ssize (Partitions.count (_partitions fs) Mutator) then ret (None, req)
  else
    start_range <- p_leftmost_empty Mutator ;;
    re <- p_rightmost_empty Mutator ;;
    let end_range := re + 1 in
    let last_possible_start := end_range - num in
    (* Find the continuous interval of $num regions, starting from $beg and
       ending in $end, inclusive. Contiguous allocations are biased to the
       beginning. *)
    beg <- p_find_next_cluster Mutator start_range num ;;
    if beg >? last_possible_start then
      (* Hit the end, goodbye *)
      ret (None, req)
    else
      w <- window_loop (S (Z.to_nat ((num_regions cfg + 1) * (num_regions cfg + 1))))
                       num last_possible_start beg beg ;;
      match w with
      | None => ret (None, req)
      | Some (beg, end_) =>
          let remainder := Z.land words_size (Heap.region_size_words_mask cfg) in
          (* Initialize regions: *)
          for_range (Z.to_nat (end_ + 1 - beg)) beg tt
                    (initialize_humongous beg end_ remainder) ;;
          p_retire_range Mutator beg end_ ;;
          let total_humongous_size := wrap (region_size_bytes cfg * num) in
          p_increase_used Mutator total_humongous_size ;;
          p_assert_bounds ;;
          ret (Some (beg * region_size_bytes cfg),
               AllocRequest.set_actual_size req words_size)
      end.

(** *** allocate *)

Definition allocate (req : AllocRequest.t) (in_new_region : bool) : M t allocation :=
  (* Allocation request is known to satisfy all memory budgeting constraints. *)
  if AllocRequest.size req >? humongous_threshold_words cfg then
    match AllocRequest.type req with
    | AllocRequest._alloc_shared | AllocRequest._alloc_shared_gc =>
        let in_new_region := true in
        a <- allocate_contiguous req ;;
        ret (mk_allocation (fst a) (snd a) in_new_region)
    | AllocRequest._alloc_gclab | AllocRequest._alloc_tlab =>
        let in_new_region := false in
        assert_ dbg false "Trying to allocate TLAB larger than the humongous threshold" ;;
        ret (mk_allocation None req in_new_region)
    end
  else allocate_single req in_new_region.


(** *** Rebuild *)

(** The local variables of [find_regions_with_alloc_capacity]; all of
    them are [size_t]. *)
Record scan_locals : Type := mk_scan_locals {
  cset_regions : Z;
  mutator_leftmost : Z;
  mutator_rightmost : Z;
  mutator_leftmost_empty : Z;
  mutator_rightmost_empty : Z;
  mutator_regions : Z;
  mutator_used : Z
}.

Definition find_regions_visit (region_size_bytes : Z) (idx : Z) (l : scan_locals)
  : M t scan_locals :=
  region <- get_region idx ;;
  (* Trashed regions represent regions that had been in the collection partition
     but have not yet been "cleaned up". *)
  let cset := if Heap.is_trash region then wrap (cset_regions l + 1) else cset_regions l in
  if Heap.is_alloc_allowed region || Heap.is_trash region then
    (* Do not add regions that would almost surely fail allocation *)
    let ac := alloc_capacity_region region in
    if ac >? wrap (PLAB_min_size cfg * HeapWordSize) then
      partitions (fun _ => Partitions.raw_set_membership dbg idx Mutator) ;;
      let ml := if idx <? mutator_leftmost l then idx else mutator_leftmost l in
      let mr := if idx >? mutator_rightmost l then idx else mutator_rightmost l in
      let empty := ac =? region_size_bytes in
      let mle := if empty && (idx <? mutator_leftmost_empty l)
                 then idx else mutator_leftmost_empty l in
      let mre := if empty && (idx >? mutator_rightmost_empty l)
                 then idx else mutator_rightmost_empty l in
      ret (mk_scan_locals cset ml mr mle mre
                          (wrap (mutator_regions l + 1))
                          (wrap (mutator_used l + wrap (region_size_bytes - ac))))
    else
      ret (mk_scan_locals cset (mutator_leftmost l) (mutator_rightmost l)
                          (mutator_leftmost_empty l) (mutator_rightmost_empty l)
                          (mutator_regions l) (mutator_used l))
  else
    ret (mk_scan_locals cset (mutator_leftmost l) (mutator_rightmost l)
                        (mutator_leftmost_empty l) (mutator_rightmost_empty l)
                        (mutator_regions l) (mutator_used l)).

(** This function places all regions that have allocation capacity into the
    mutator_partition, identifying regions that have no allocation capacity
    as NotFree.  It hands back [cset_regions]. *)
Definition find_regions_with_alloc_capacity : M t Z :=
  clear_internal ;;
  fs <- get ;;
  let region_size_bytes := Partitions._region_size_bytes (_partitions fs) in
  let max_regions := wrap (Partitions._max (_partitions fs)) in
  let init := mk_scan_locals 0 max_regions 0 max_regions 0 0 0 in
  l <- for_range (Z.to_nat (num_regions cfg)) 0 init (find_regions_visit region_size_bytes) ;;
  partitions (fun _ =>
    Partitions.establish_intervals
      (to_ssize (mutator_leftmost l)) (to_ssize (mutator_rightmost l))
      (to_ssize (mutator_leftmost_empty l)) (to_ssize (mutator_rightmost_empty l))
      (mutator_regions l) (mutator_used l)) ;;
  ret (cset_regions l).

(** The [for (size_t i = _heap->num_regions(); i > 0; i--)] loop of
    [reserve_regions]; [idx = i - 1]. *)
Fixpoint reserve_regions_loop (i : nat) (to_reserve : Z) : M t unit :=
  match i with
  | O => ret tt
  | S idx_nat =>
      let idx := Z.of_nat idx_nat in
      b <- p_in_free_set Mutator idx ;;
      if negb b then reserve_regions_loop idx_nat to_reserve
      else
        fs <- get ;;
        let ac := alloc_capacity fs idx in
        assert_ dbg (ac >? 0) "Membership in free partition implies has capacity" ;;
        let move_to_collector :=
          Partitions.available_in (_partitions fs) Collector <? to_reserve in
        if negb move_to_collector then
          (* We've satisfied to_reserve *)
          ret tt
        else
          p_move idx Mutator Collector ac ;;
          reserve_regions_loop idx_nat to_reserve
  end.

(** Having placed all regions that have allocation capacity into the mutator
    partition, move some of these regions from the mutator partition into
    the collector partition in order to assure that the memory available
    for allocations within the collector partition is at least to_reserve. *)
Definition reserve_regions (to_reserve : Z) : M t unit :=
  reserve_regions_loop (Z.to_nat (num_regions cfg)) to_reserve.

Definition prepare_to_rebuild : M t Z :=
  (* This places regions that have alloc_capacity into the mutator partition. *)
  find_regions_with_alloc_capacity.

Definition finish_rebuild (cset_regions : Z) : M t unit :=
  (* Our desire is to reserve this much memory for future evacuation.  We may
     end up reserving less, if memory is in short supply. *)
  let reserve := wrap (max_capacity cfg * ShenandoahEvacReserve cfg) / 100 in
  reserve_regions reserve ;;
  p_assert_bounds.

Definition rebuild : M t unit :=
  cset_regions <- prepare_to_rebuild ;;
  finish_rebuild cset_regions.

(** *** move_regions_from_collector_to_mutator, recycle_trash *)

Fixpoint xfer_empty_loop (fuel : nat) (rightmost idx max_xfer_regions : Z) : M t Z :=
  match fuel with
  | O => fun _ => OutOfFuel
  | S fuel' =>
      if (max_xfer_regions >? 0) && (idx <=? rightmost) then
        assertM dbg (p_in_free_set Collector idx) "Boundaries or find_next_set_bit failed" ;;
        fs <- get ;;
        (* Note: can_allocate_from() denotes that region is entirely empty *)
        max_xfer_regions' <-
          (if can_allocate_from fs idx then
             p_move idx Collector Mutator (region_size_bytes cfg) ;;
             ret (wrap (max_xfer_regions - 1))
           else ret max_xfer_regions) ;;
        idx' <- p_find_next Collector (idx + 1) ;;
        xfer_empty_loop fuel' rightmost idx' max_xfer_regions'
      else ret max_xfer_regions
  end.

Fixpoint xfer_not_empty_loop (fuel : nat) (rightmost idx max_xfer_regions : Z) : M t Z :=
  match fuel with
  | O => fun _ => OutOfFuel
  | S fuel' =>
      if (max_xfer_regions >? 0) && (idx <=? rightmost) then
        assertM dbg (p_in_free_set Collector idx) "Boundaries or find_next_set_bit failed" ;;
        fs <- get ;;
        let ac := alloc_capacity fs idx in
        max_xfer_regions' <-
          (if ac >? 0 then
             p_move idx Collector Mutator ac ;;
             ret (wrap (max_xfer_regions - 1))
           else ret max_xfer_regions) ;;
        idx' <- p_find_next Collector (idx + 1) ;;
        xfer_not_empty_loop fuel' rightmost idx' max_xfer_regions'
      else ret max_xfer_regions
  end.

(** Move no more than max_xfer_regions from the existing Collector partition
    to the Mutator partition. *)
Definition move_regions_from_collector_to_mutator (max_xfer_regions : Z) : M t unit :=
  (* Process empty regions within the Collector free partition *)
  go <- (if max_xfer_regions >? 0 then
           le <- p_leftmost_empty Collector ;;
           re <- p_rightmost_empty Collector ;;
           ret (le <=? re)
         else ret false) ;;
  max_xfer_regions <-
    (if go : bool then
       rightmost <- p_rightmost_empty Collector ;;
       idx <- p_leftmost_empty Collector ;;
       xfer_empty_loop scan_fuel rightmost idx max_xfer_regions
     else ret max_xfer_regions) ;;
  (* If there are any non-empty regions within Collector partition, we can also
     move them to the Mutator free partition *)
  go <- (if max_xfer_regions >? 0 then
           l <- p_leftmost Collector ;;
           r <- p_rightmost Collector ;;
           ret (l <=? r)
         else ret false) ;;
  if go : bool then
    rightmost <- p_rightmost Collector ;;
    idx <- p_leftmost Collector ;;
    _ <- xfer_not_empty_loop scan_fuel rightmost idx max_xfer_regions ;;
    ret tt
  else ret tt.

Definition recycle_trash : M t unit :=
  for_range (Z.to_nat (num_regions cfg)) 0 tt
    (fun i _ =>
       r <- get_region i ;;
       when (Heap.is_trash r) (try_recycle_trashed i)).

End Ops.

End FreeSet.

(* ================================================================= *)
(** ** Sequences of operations on the partition table

    The free set reaches its partition table only through the calls
    below.  A sequence of them is legal when every call meets what the
    callee asserts or documents as required, and when the [available]
    argument of a call is the region's [alloc_capacity], as at every call
    site in shenandoahFreeSet.cpp. *)

Module Lifecycle.

Import Word Run.
Local Open Scope run_scope.

Inductive op : Type :=
(* the collector changed the regions; then find_regions_with_alloc_capacity *)
| Rebuild (h : Heap.t)
(* allocation inside regions, recycling of trash *)
| HostStep (h : Heap.t)
| MakeFree (idx : Z) (p : ShenandoahFreeSetPartitionId)
| Retire (p : ShenandoahFreeSetPartitionId) (idx used_bytes : Z)
| RetireRange (p : ShenandoahFreeSetPartitionId) (low_idx high_idx : Z)
| Move (idx : Z) (orig new : ShenandoahFreeSetPartitionId)
| IncreaseUsed (p : ShenandoahFreeSetPartitionId) (bytes : Z)
| LeftmostEmpty (p : ShenandoahFreeSetPartitionId)
| RightmostEmpty (p : ShenandoahFreeSetPartitionId).

(** [NotFree -> free] "occurs only through rebuild" (spec, Lifecycle):
    [make_free] has no caller in shenandoahFreeSet.cpp. *)
Definition is_make_free (o : op) : bool :=
  match o with MakeFree _ _ => true | _ => false end.

Section Machine.

Variable dbg : bool.
Variable cfg : Config.

Definition region_indices (n : Z) : list Z := map Z.of_nat (seq 0 (Z.to_nat n)).

Definition in_partition (fs : FreeSet.t) p (idx : Z) : bool :=
  SimpleBitMap.is_set (Partitions._membership (FreeSet._partitions fs) p) idx.

(** Every region's [alloc_capacity] is at most the region size. *)
Definition heap_ok (fs : FreeSet.t) (h : Heap.t) : bool :=
  forallb (fun idx =>
             let ac := FreeSet.alloc_capacity cfg (FreeSet.with_heap fs h) idx in
             (0 <=? ac) && (ac <=? region_size_bytes cfg))
          (region_indices (num_regions cfg)).

(** No region of a partition gains [alloc_capacity]. *)
Definition no_member_grows (fs : FreeSet.t) (h : Heap.t) : bool :=
  forallb (fun idx =>
             negb (in_partition fs Mutator idx || in_partition fs Collector idx) ||
             (FreeSet.alloc_capacity cfg (FreeSet.with_heap fs h) idx
              <=? FreeSet.alloc_capacity cfg fs idx))
          (region_indices (num_regions cfg)).

Definition idx_ok (idx : Z) : bool := (0 <=? idx) && (idx <? num_regions cfg).

Definition legal (fs : FreeSet.t) (o : op) : bool :=
  let p_ := FreeSet._partitions fs in
  match o with
  | Rebuild h => heap_ok fs h
  | HostStep h => heap_ok fs h && no_member_grows fs h
  | MakeFree idx p =>
      idx_ok idx && Partitions.lt_NumPartitions p &&
      negb (in_partition fs Mutator idx) && negb (in_partition fs Collector idx)
  | Retire p idx used_bytes =>
      idx_ok idx && Partitions.lt_NumPartitions p && in_partition fs p idx &&
      (0 <=? used_bytes) && (used_bytes <? modulus) &&
      ((region_size_bytes cfg <=? used_bytes) ||
       (Partitions._used p_ p + (region_size_bytes cfg - used_bytes)
        <=? Partitions._capacity p_ p))
  | RetireRange p low_idx high_idx =>
      idx_ok low_idx && idx_ok high_idx && (low_idx <=? high_idx) &&
      Partitions.lt_NumPartitions p &&
      forallb (fun idx => negb ((low_idx <=? idx) && (idx <=? high_idx)) ||
                          in_partition fs p idx)
              (region_indices (num_regions cfg))
  | Move idx orig new =>
      idx_ok idx && in_partition fs orig idx &&
      Partitions.expected_movement p_ orig new (FreeSet.alloc_capacity cfg fs idx)
  | IncreaseUsed p bytes =>
      Partitions.lt_NumPartitions p && (0 <=? bytes) &&
      (Partitions._used p_ p + bytes <=? Partitions._capacity p_ p)
  | LeftmostEmpty p | RightmostEmpty p => Partitions.lt_NumPartitions p
  end.

Definition exec (o : op) : M FreeSet.t unit :=
  match o with
  | Rebuild h =>
      modify (fun fs => FreeSet.with_heap fs h) ;;
      _ <- FreeSet.find_regions_with_alloc_capacity dbg cfg ;;
      ret tt
  | HostStep h => modify (fun fs => FreeSet.with_heap fs h)
  | MakeFree idx p =>
      fs <- get ;;
      FreeSet.partitions cfg
        (fun ac => Partitions.make_free dbg ac idx p (FreeSet.alloc_capacity cfg fs idx))
  | Retire p idx used_bytes =>
      FreeSet.partitions cfg
        (fun ac => Partitions.retire_from_partition dbg ac p idx used_bytes)
  | RetireRange p low_idx high_idx =>
      FreeSet.partitions cfg
        (fun ac => Partitions.retire_range_from_partition dbg ac p low_idx high_idx)
  | Move idx orig new =>
      fs <- get ;;
      FreeSet.partitions cfg
        (fun ac => Partitions.move_from_partition_to_partition dbg ac idx orig new
                     (FreeSet.alloc_capacity cfg fs idx))
  | IncreaseUsed p bytes =>
      FreeSet.partitions cfg (fun _ => Partitions.increase_used dbg p bytes)
  | LeftmostEmpty p =>
      _ <- FreeSet.partitions cfg (fun ac => Partitions.leftmost_empty dbg ac p) ;;
      ret tt
  | RightmostEmpty p =>
      _ <- FreeSet.partitions cfg (fun ac => Partitions.rightmost_empty dbg ac p) ;;
      ret tt
  end.

(** [trace fs ops fs']: the legal sequence [ops] takes [fs] to [fs']. *)
Inductive trace : FreeSet.t -> list op -> FreeSet.t -> Prop :=
| trace_nil : forall fs, trace fs [] fs
| trace_snoc : forall fs ops fs1 o fs2,
    trace fs ops fs1 ->
    legal fs1 o = true ->
    exec o fs1 = Ret tt fs2 ->
    trace fs (ops ++ [o]) fs2.

(** Running a sequence call by call; [None] when a call is not legal or
    does not return. *)
Fixpoint run (ops : list op) (fs : FreeSet.t) : option FreeSet.t :=
  match ops with
  | [] => Some fs
  | o :: ops' =>
      if legal fs o then
        match exec o fs with
        | Ret _ fs' => run ops' fs'
        | _ => None
        end
      else None
  end.

(** The number of regions retired from [p] since the last rebuild:
    [retired_step] is the effect of one call on that count. *)
Definition retired_step (p : ShenandoahFreeSetPartitionId) (acc : Z) (o : op) : Z :=
  match o with
  | Rebuild _ => 0
  | Retire q _ _ => acc + (if Partitions.partition_eqb p q then 1 else 0)
  | RetireRange q low_idx high_idx =>
      acc + (if Partitions.partition_eqb p q then high_idx + 1 - low_idx else 0)
  | _ => acc
  end.

Definition retired_since_rebuild (ops : list op) (p : ShenandoahFreeSetPartitionId) : Z :=
  fold_left (retired_step p) ops 0.

End Machine.

End Lifecycle.

(* ================================================================= *)
(** ** The spec's end-to-end scenarios

    "region size 1 MiB, region count 16, humongous threshold 512 KiB,
    evac reserve 20%". *)

Module Scenario.

Definition MiB : Z := 1048576.

(** The scenario's sizes; [PLAB::min_size()] is 256 words, the object
    alignment one word, [ShenandoahEvacWaste] 1.2. *)
Definition cfg : Config :=
  mk_Config 16 MiB (MiB / HeapWordSize) (MiB / 2 / HeapWordSize) (16 * MiB)
            256 1 20 174762 true.

(** The same sizes with the flags the scenarios leave open. *)
Definition cfg_with (plab align min_cap : Z) (overflow : bool) : Config :=
  mk_Config 16 MiB (MiB / HeapWordSize) (MiB / 2 / HeapWordSize) (16 * MiB)
            plab align 20 min_cap overflow.

(** "All 16 regions empty." *)
Definition all_empty (heap_used : Z) (weak_roots : bool) : Heap.t :=
  Heap.mk (fun _ => Heap.mk_region Heap.Empty 0 0) heap_used weak_roots.

(** Every region is regular and filled to its end. *)
Definition all_full : Heap.t :=
  Heap.mk (fun _ => Heap.mk_region Heap.Regular (MiB / HeapWordSize) 0) (16 * MiB) false.

(** An object before its constructor ran. *)
Definition zeroed : Partitions.t :=
  Partitions.mk 0 0 (fun _ => SimpleBitMap.mk 0 0 (fun _ => 0))
                (fun _ => 0) (fun _ => 0) (fun _ => 0) (fun _ => 0)
                (fun _ => 0) (fun _ => 0) (fun _ => 0).

(** What the scenarios look at after a call: the two counts and the four
    interval bounds. *)
Definition counts_and_bounds (o : outcome FreeSet.t unit)
  : option (Z * Z * (Z * Z) * (Z * Z)) :=
  match o with
  | Ret _ fs =>
      let p := FreeSet._partitions fs in
      Some (Partitions.count p Mutator, Partitions.count p Collector,
            (Partitions._leftmosts p Mutator, Partitions._rightmosts p Mutator),
            (Partitions._leftmosts p Collector, Partitions._rightmosts p Collector))
  | _ => None
  end.

(** *** A Collector region returned to a Mutator partition whose empty
    regions were all allocated in

    Four regions of 1 MiB.  [rebuild] puts regions 0-2 into the Mutator
    partition and region 3 into the Collector reserve.  Five shared
    allocations of 50000 words leave regions 0, 1 and 2 partly used (none
    of them is retired).  [move_regions_from_collector_to_mutator(1)] then
    hands the still empty region 3 to the Mutator partition. *)

Definition cfg4 : Config :=
  mk_Config 4 MiB (MiB / HeapWordSize) (MiB / 2 / HeapWordSize) (4 * MiB)
            256 1 20 174762 true.

Definition shared_50000_words : AllocRequest.t :=
  AllocRequest.mk AllocRequest._alloc_shared 50000 0 0.

Definition humongous_70000_words : AllocRequest.t :=
  AllocRequest.mk AllocRequest._alloc_shared 70000 0 0.

Definition collector_region_returned (dbg : bool) : outcome FreeSet.t unit :=
  let alloc := FreeSet.allocate dbg cfg4 (fun _ => 0) shared_50000_words false in
  Run.bind (FreeSet.rebuild dbg cfg4) (fun _ =>
  Run.bind alloc (fun _ => Run.bind alloc (fun _ => Run.bind alloc (fun _ =>
  Run.bind alloc (fun _ => Run.bind alloc (fun _ =>
  FreeSet.move_regions_from_collector_to_mutator dbg cfg4 1))))))
    (FreeSet.construct cfg4 zeroed (all_empty 0 false) 4).

(** After a run: is region 3 in the Mutator partition, its
    [alloc_capacity], the Mutator's count, and what [leftmost_empty(Mutator)]
    then returns. *)
Definition leftmost_empty_after (dbg : bool) (o : outcome FreeSet.t unit)
  : option (bool * Z * Z * Z) :=
  match o with
  | Ret _ fs =>
      match FreeSet.p_leftmost_empty dbg cfg4 Mutator fs with
      | Ret r _ =>
          Some (SimpleBitMap.is_set (Partitions._membership (FreeSet._partitions fs) Mutator) 3,
                FreeSet.alloc_capacity cfg4 fs 3,
                Partitions.count (FreeSet._partitions fs) Mutator,
                r)
      | _ => None
      end
  | _ => None
  end.

(** *** A sequence of calls on the partition table

    The free set is constructed for 16 empty regions and cleared; the scan
    of a rebuild puts all regions into the Mutator partition; region 15
    is moved to the Collector reserve; region 0 is retired full, and the
    regions 1 and 2 are retired as a range. *)

Definition constructed : FreeSet.t :=
  FreeSet.construct cfg zeroed (all_empty 0 false) 16.

Definition calls : list Lifecycle.op :=
  [Lifecycle.Rebuild (all_empty 0 false);
   Lifecycle.Move 15 Mutator Collector;
   Lifecycle.Retire Mutator 0 MiB;
   Lifecycle.RetireRange Mutator 1 2].

Definition cleared : FreeSet.t :=
  match FreeSet.clear_internal cfg constructed with
  | Ret _ fs => fs
  | _ => constructed
  end.

Definition after_calls (dbg : bool) : FreeSet.t :=
  match Lifecycle.run dbg cfg calls cleared with
  | Some fs => fs
  | None => cleared
  end.

(** *** A Mutator region with 16 bytes remaining

    [PLAB::min_size()] is one word here, so that the scan of a rebuild
    takes a region with two free words into the Mutator partition.
    Region 0 is regular and has 16 bytes left; the others are empty. *)

Definition cfg_small_plab : Config := cfg_with 1 1 174762 true.

Definition last_16_bytes : Heap.t :=
  Heap.mk (fun j => if j =? 0
                    then Heap.mk_region Heap.Regular (MiB / HeapWordSize - 2) 0
                    else Heap.mk_region Heap.Empty 0 0)
          (MiB - 16) false.

Definition with_remnant (dbg : bool) : FreeSet.t :=
  match Lifecycle.run dbg cfg_small_plab [Lifecycle.Rebuild last_16_bytes] cleared with
  | Some fs => fs
  | None => cleared
  end.

(** "A failed 1 KiB request": 128 words. *)
Definition shared_1KiB : AllocRequest.t :=
  AllocRequest.mk AllocRequest._alloc_shared 128 0 0.

(** *** Partly used regions at both ends

    The regions 0 and 1 and the regions 13 to 15 hold 1000 words each; the
    regions 2 to 12 are empty.  After the scan of a rebuild all of them
    are in the Mutator partition, and the free set still has the
    counter 0 and the left-to-right direction of its constructor. *)

Definition fragmented_ends : Heap.t :=
  Heap.mk (fun j => if (j <? 2) || (12 <? j)
                    then Heap.mk_region Heap.Regular 1000 0
                    else Heap.mk_region Heap.Empty 0 0)
          (5 * 8000) false.

Definition with_fragmented_ends (dbg : bool) : FreeSet.t :=
  match Lifecycle.run dbg cfg [Lifecycle.Rebuild fragmented_ends] cleared with
  | Some fs => fs
  | None => cleared
  end.

Definition tlab_1KiB : AllocRequest.t :=
  AllocRequest.mk AllocRequest._alloc_tlab 128 16 0.

(** After a call: the address handed out, the direction and the counter. *)
Definition result_and_bias (o : outcome FreeSet.t FreeSet.allocation)
  : option (option Z * bool * Z) :=
  match o with
  | Ret a fs =>
      Some (FreeSet.result a, FreeSet._right_to_left_bias fs, FreeSet._alloc_bias_weight fs)
  | _ => None
  end.

(** [rebuild], then one humongous allocation of 70000 words (one region). *)
Definition rebuild_then_humongous (dbg : bool) : outcome FreeSet.t FreeSet.allocation :=
  Run.bind (FreeSet.rebuild dbg cfg)
           (fun _ => FreeSet.allocate dbg cfg (fun _ => 0) humongous_70000_words false)
           constructed.

(** The Mutator's count and capacity after a run. *)
Definition count_and_capacity {A} (o : outcome FreeSet.t A) : option (Z * Z) :=
  match o with
  | Ret _ fs =>
      Some (Partitions.count (FreeSet._partitions fs) Mutator,
            Partitions.capacity_of (FreeSet._partitions fs) Mutator)
  | _ => None
  end.

(** What a call made after a run ends in. *)
Definition and_then {A} (o : outcome FreeSet.t unit) (m : Run.M FreeSet.t A)
  : outcome FreeSet.t A :=
  match o with
  | Ret _ fs => m fs
  | Fatal msg => Fatal msg
  | OutOfFuel => OutOfFuel
  end.

Definition result_of (o : outcome FreeSet.t FreeSet.allocation) : option (option Z) :=
  match o with
  | Ret a _ => Some (FreeSet.result a)
  | _ => None
  end.

Definition failure_of {A} (o : outcome FreeSet.t A) : option string :=
  match o with
  | Fatal msg => Some msg
  | _ => None
  end.

End Scenario.

(* ================================================================= *)
(** ** Vocabulary of the properties *)

Module Spec.

(** Every word reachable through [_bitmap] is a [size_t]. *)
Definition words_ok (bm : SimpleBitMap.t) : Prop :=
  forall j, 0 <= SimpleBitMap._bitmap bm j < Word.modulus.

(** The bits [i, i + k) are all set. *)
Definition all_set (bm : SimpleBitMap.t) (i k : Z) : Prop :=
  forall j, i <= j < i + k -> SimpleBitMap.is_set bm j = true.

(** No bit in [lo, hi) is set. *)
Definition none_set (bm : SimpleBitMap.t) (lo hi : Z) : Prop :=
  forall j, lo <= j < hi -> SimpleBitMap.is_set bm j = false.

(** [r] is the first index in [lo, hi] at which a run of [k] set bits
    starts. *)
Definition first_run (bm : SimpleBitMap.t) (k lo hi r : Z) : Prop :=
  lo <= r <= hi /\ all_set bm r k /\ forall i, lo <= i < r -> ~ all_set bm i k.

(** No run of [k] set bits starts in [lo, hi]. *)
Definition no_run (bm : SimpleBitMap.t) (k lo hi : Z) : Prop :=
  forall i, lo <= i <= hi -> ~ all_set bm i k.

End Spec.

(** ** Bitmaps used as examples *)

Module Example.

(** 64 bits, only bit 0 set. *)
Definition bit0_of_64 : SimpleBitMap.t :=
  SimpleBitMap.set_bit (SimpleBitMap.create (fun _ => 0) 64) 0.

(** 64 bits, only bit 62 set. *)
Definition bit62_of_64 : SimpleBitMap.t :=
  SimpleBitMap.set_bit (SimpleBitMap.create (fun _ => 0) 64) 62.

(** 128 bits, bits 3, 4, 70, 71 and 72 set. *)
Definition two_runs_of_128 : SimpleBitMap.t :=
  fold_left SimpleBitMap.set_bit [3; 4; 70; 71; 72] (SimpleBitMap.create (fun _ => 0) 128).

(** A shift by the word width that yields 0, and one whose count is
    reduced modulo the width, as shift instructions commonly do. *)
Definition shl_truncating : Z -> Z := fun _ => 0.
Definition shl_count_mod_64 : Z -> Z := fun n => Word.one_shl (n mod 64).

End Example.

(** ** Vocabulary for the partition table *)

Module TableSpec.

(** Region [j] is in partition [p]. *)
Definition member (s : Partitions.t) (p : ShenandoahFreeSetPartitionId) (j : Z) : Prop :=
  SimpleBitMap.is_set (Partitions._membership s p) j = true.

(** One bitmap of a table of [n] regions: [n] bits in whole [size_t] words. *)
Definition bitmap_ok (n : Z) (bm : SimpleBitMap.t) : Prop :=
  SimpleBitMap._num_bits bm = n /\
  Spec.words_ok bm /\
  n <= 64 * SimpleBitMap._num_words bm.

(** The table's bitmaps have [_max] bits (at least one region, fewer than
    2^62) and hold [size_t] words. *)
Definition table_ok (s : Partitions.t) : Prop :=
  1 <= Partitions._max s < 2 ^ 62 /\
  forall p, Partitions.lt_NumPartitions p = true ->
            bitmap_ok (Partitions._max s) (Partitions._membership s p).

(** "Interval containment": every member lies within the interval. *)
Definition contains (s : Partitions.t) (p : ShenandoahFreeSetPartitionId) : Prop :=
  forall j, 0 <= j < Partitions._max s -> member s p j ->
            Partitions._leftmosts s p <= j <= Partitions._rightmosts s p.

(** The interval of [p] is either empty -- [leftmost = _max], with
    [rightmost] -1 or (after a rebuild that found nothing) 0 -- or it is
    bounded by two members. *)
Definition interval_ok (s : Partitions.t) (p : ShenandoahFreeSetPartitionId) : Prop :=
  contains s p /\
  Partitions._rightmosts_empty s p < Partitions._max s /\
  ((Partitions._leftmosts s p = Partitions._max s /\
    (Partitions._rightmosts s p = -1 \/ Partitions._rightmosts s p = 0))
   \/
   (0 <= Partitions._leftmosts s p <= Partitions._rightmosts s p /\
    Partitions._rightmosts s p < Partitions._max s /\
    member s p (Partitions._leftmosts s p) /\
    member s p (Partitions._rightmosts s p))).

(** [leftmost] is [_max] and [p] has no member, or [leftmost] is the
    first member of [p]. *)
Definition leftmost_tight (s : Partitions.t) (p : ShenandoahFreeSetPartitionId) : Prop :=
  (Partitions._leftmosts s p = Partitions._max s /\
   forall j, 0 <= j < Partitions._max s -> ~ member s p j)
  \/
  (0 <= Partitions._leftmosts s p < Partitions._max s /\
   member s p (Partitions._leftmosts s p) /\
   forall j, 0 <= j < Partitions._max s -> member s p j -> Partitions._leftmosts s p <= j).

(** [rightmost] is -1 and [p] has no member, or [rightmost] is the last
    member of [p]. *)
Definition rightmost_tight (s : Partitions.t) (p : ShenandoahFreeSetPartitionId) : Prop :=
  (Partitions._rightmosts s p = -1 /\
   forall j, 0 <= j < Partitions._max s -> ~ member s p j)
  \/
  (0 <= Partitions._rightmosts s p < Partitions._max s /\
   member s p (Partitions._rightmosts s p) /\
   forall j, 0 <= j < Partitions._max s -> member s p j -> j <= Partitions._rightmosts s p).

(** The Mutator and Collector bitmaps are disjoint. *)
Definition disjoint (s : Partitions.t) : Prop :=
  forall j, 0 <= j < Partitions._max s ->
            ~ (member s Mutator j /\ member s Collector j).

(** What holds of the table between two calls. *)
Definition invariant (s : Partitions.t) : Prop :=
  table_ok s /\ disjoint s /\
  forall p, Partitions.lt_NumPartitions p = true ->
            interval_ok s p /\ 0 <= Partitions._used s p.

(** Nothing that the table holds for partition [q] has changed. *)
Definition kept (q : ShenandoahFreeSetPartitionId) (s s' : Partitions.t) : Prop :=
  Partitions._membership s' q = Partitions._membership s q /\
  Partitions._leftmosts s' q = Partitions._leftmosts s q /\
  Partitions._rightmosts s' q = Partitions._rightmosts s q /\
  Partitions._leftmosts_empty s' q = Partitions._leftmosts_empty s q /\
  Partitions._rightmosts_empty s' q = Partitions._rightmosts_empty s q /\
  Partitions._capacity s' q = Partitions._capacity s q /\
  Partitions._used s' q = Partitions._used s q /\
  Partitions._region_counts s' q = Partitions._region_counts s q.

(** The table keeps its size. *)
Definition same_size (s s' : Partitions.t) : Prop :=
  Partitions._max s' = Partitions._max s /\
  Partitions._region_size_bytes s' = Partitions._region_size_bytes s.

(** [s'] differs from [s] at most in the bitmap of [p]. *)
Definition bitmap_only (p : ShenandoahFreeSetPartitionId) (s s' : Partitions.t) : Prop :=
  same_size s s' /\
  (forall q, q <> p -> kept q s s') /\
  Partitions._leftmosts s' p = Partitions._leftmosts s p /\
  Partitions._rightmosts s' p = Partitions._rightmosts s p /\
  Partitions._leftmosts_empty s' p = Partitions._leftmosts_empty s p /\
  Partitions._rightmosts_empty s' p = Partitions._rightmosts_empty s p /\
  Partitions._capacity s' p = Partitions._capacity s p /\
  Partitions._used s' p = Partitions._used s p /\
  Partitions._region_counts s' p = Partitions._region_counts s p.

(** [s'] differs from [s] at most in the four interval bounds of [p]. *)
Definition hints_only (p : ShenandoahFreeSetPartitionId) (s s' : Partitions.t) : Prop :=
  Partitions._max s' = Partitions._max s /\
  Partitions._region_size_bytes s' = Partitions._region_size_bytes s /\
  Partitions._membership s' = Partitions._membership s /\
  Partitions._capacity s' = Partitions._capacity s /\
  Partitions._used s' = Partitions._used s /\
  Partitions._region_counts s' = Partitions._region_counts s /\
  forall q, q <> p ->
            Partitions._leftmosts s' q = Partitions._leftmosts s q /\
            Partitions._rightmosts s' q = Partitions._rightmosts s q /\
            Partitions._leftmosts_empty s' q = Partitions._leftmosts_empty s q /\
            Partitions._rightmosts_empty s' q = Partitions._rightmosts_empty s q.

(** [s'] differs from [s] at most in the two empty bounds of [p], and
    [rightmost_empty] stays below [_max]. *)
Definition empties_only (p : ShenandoahFreeSetPartitionId) (s s' : Partitions.t) : Prop :=
  hints_only p s s' /\
  Partitions._leftmosts s' p = Partitions._leftmosts s p /\
  Partitions._rightmosts s' p = Partitions._rightmosts s p /\
  (Partitions._rightmosts_empty s p < Partitions._max s ->
   Partitions._rightmosts_empty s' p < Partitions._max s).

End TableSpec.

(* ================================================================= *)
(** ** Statements about runs *)

Module Triple.

(** If [m] returns from [s], the result and the final state satisfy [Q]. *)
Definition post {S A} (m : Run.M S A) (s : S) (Q : A -> S -> Prop) : Prop :=
  forall a s', m s = Ret a s' -> Q a s'.

(** [m] returns from [s], and the result and the final state satisfy [Q]. *)
Definition returns {S A} (m : Run.M S A) (s : S) (Q : A -> S -> Prop) : Prop :=
  exists a s', m s = Ret a s' /\ Q a s'.

(** Whenever [m] returns, the initial and the final state are related by [R]. *)
Definition frames {S A} (R : S -> S -> Prop) (m : Run.M S A) : Prop :=
  forall s, post m s (fun _ s' => R s s').

End Triple.


(* ================================================================= *)
(** ** The free set between two calls *)

Module FreeSetSpec.

Import TableSpec.

(** The locals of [find_regions_with_alloc_capacity] describe the Mutator
    bitmap built so far: no region was added and the two bounds still
    have their initial values, or the bounds are the first and the last
    region added. *)
Definition scan_ok (s : Partitions.t) (l : FreeSet.scan_locals) : Prop :=
  0 <= FreeSet.mutator_rightmost_empty l < Partitions._max s /\
  0 <= FreeSet.mutator_leftmost_empty l <= Partitions._max s /\
  0 <= FreeSet.mutator_used l /\
  (((forall j, 0 <= j < Partitions._max s -> ~ member s Mutator j) /\
    FreeSet.mutator_leftmost l = Partitions._max s /\
    FreeSet.mutator_rightmost l = 0)
   \/
   (0 <= FreeSet.mutator_leftmost l <= FreeSet.mutator_rightmost l /\
    FreeSet.mutator_rightmost l < Partitions._max s /\
    member s Mutator (FreeSet.mutator_leftmost l) /\
    member s Mutator (FreeSet.mutator_rightmost l) /\
    forall j, 0 <= j < Partitions._max s -> member s Mutator j ->
              FreeSet.mutator_leftmost l <= j <= FreeSet.mutator_rightmost l)).

(** [fs'] differs from [fs] at most in the partition table. *)
Definition table_only (fs fs' : FreeSet.t) : Prop :=
  FreeSet._heap fs' = FreeSet._heap fs /\
  FreeSet._alloc_bias_weight fs' = FreeSet._alloc_bias_weight fs /\
  FreeSet._right_to_left_bias fs' = FreeSet._right_to_left_bias fs.

(** [fs'] has the allocation bias of [fs]: direction and counter. *)
Definition bias_kept (fs fs' : FreeSet.t) : Prop :=
  FreeSet._alloc_bias_weight fs' = FreeSet._alloc_bias_weight fs /\
  FreeSet._right_to_left_bias fs' = FreeSet._right_to_left_bias fs.

(** The table is in order, it is a table for the heap of [cfg], and no
    region of the heap offers more than a region's size. *)
Definition invariant (cfg : Config) (fs : FreeSet.t) : Prop :=
  TableSpec.invariant (FreeSet._partitions fs) /\
  Partitions._max (FreeSet._partitions fs) = num_regions cfg /\
  Partitions._region_size_bytes (FreeSet._partitions fs) = region_size_bytes cfg /\
  Lifecycle.heap_ok cfg fs (FreeSet._heap fs) = true.

(** The capacity of each partition after the calls [ops]: one region's
    size for every region that is in the partition or was retired from it
    since the last rebuild, in [size_t] arithmetic. *)
Definition capacity_equation (ops : list Lifecycle.op) (fs : FreeSet.t) : Prop :=
  forall p, Partitions.lt_NumPartitions p = true ->
    Partitions.capacity_of (FreeSet._partitions fs) p
    = Word.wrap ((Partitions.count (FreeSet._partitions fs) p
                  + Lifecycle.retired_since_rebuild ops p)
                 * Partitions._region_size_bytes (FreeSet._partitions fs)).

End FreeSetSpec.


(* ================================================================= *)
(** ** More sample bitmaps *)

Module Samples.

(** 128 bits; the bits 60 to 66 are set, a run that crosses from the
    first word into the second. *)
Definition run_across_words : SimpleBitMap.t :=
  fold_left SimpleBitMap.set_bit [60; 61; 62; 63; 64; 65; 66]
            (SimpleBitMap.create (fun _ => 0) 128).

(** The scenario's sizes with [ShenandoahEvacReserveOverflow] off. *)
Definition cfg_no_overflow : Config := Scenario.cfg_with 256 1 174762 false.

(** A GCLAB request of 128 words, at least 16. *)
Definition gclab_1KiB : AllocRequest.t :=
  AllocRequest.mk AllocRequest._alloc_gclab 128 16 0.

(** A TLAB and a GCLAB allocation on the table of [Scenario.after_calls]:
    the regions 3 to 14 are in the Mutator partition, region 15 is in the
    Collector's, and the heap's regions are empty. *)
Definition tlab_run : outcome FreeSet.t FreeSet.allocation :=
  FreeSet.allocate true Scenario.cfg Example.shl_truncating Scenario.tlab_1KiB false
                   (Scenario.after_calls true).

Definition gclab_run : outcome FreeSet.t FreeSet.allocation :=
  FreeSet.allocate true cfg_no_overflow Example.shl_truncating gclab_1KiB false
                   (Scenario.after_calls true).

(** What a run handed back, and the state it ended in. *)
Definition value_of (o : outcome FreeSet.t FreeSet.allocation) : FreeSet.allocation :=
  match o with
  | Ret a _ => a
  | _ => FreeSet.mk_allocation None gclab_1KiB false
  end.

Definition state_of {A} (o : outcome FreeSet.t A) : FreeSet.t :=
  match o with
  | Ret _ fs => fs
  | _ => Scenario.cleared
  end.

End Samples.

(* ================================================================= *)
(** ** What the log output reads

    [partition_name], [partition_membership_name] and the two bitmap
    accessors used by [dump_bitmap_row]. *)

Module Logging.

Import Word Run.
Local Open Scope run_scope.

(** [static const char* partition_name(ShenandoahFreeSetPartitionId t)];
    the [default: return "Unrecognized"] is not reached by a value of the
    enumeration. *)
Definition partition_name (t : ShenandoahFreeSetPartitionId) : string :=
  match t with
  | NotFree => "NotFree"
  | Mutator => "Mutator"
  | Collector => "Collector"
  end.

(** [ShenandoahRegionPartitions::partition_membership_name]: the loop of
    [membership], compiled into product builds as well. *)
Definition partition_membership_name (dbg : bool) (idx : Z) : M Partitions.t string :=
  s <- get ;;
  assert_ dbg (idx <? Partitions._max s) "index is sane" ;;
  let result := NotFree in
  m <- Partitions.bm_is_set dbg Mutator idx ;;
  result <- (if m then
               assert_ dbg (Partitions.partition_eqb result NotFree)
                       "Region should reside in only one partition" ;;
               ret Mutator
             else ret result) ;;
  c <- Partitions.bm_is_set dbg Collector idx ;;
  result <- (if c then
               assert_ dbg (Partitions.partition_eqb result NotFree)
                       "Region should reside in only one partition" ;;
               ret Collector
             else ret result) ;;
  ret (partition_name result).

(** [inline ssize_t aligned_index(ssize_t idx) const] *)
Definition aligned_index (idx : Z) : Z :=
  let array_idx := to_ssize (SimpleBitMap.array_index idx) in
  to_ssize (wrap (array_idx * SimpleBitMap._bits_per_array_element)).

(** [inline ssize_t alignment() const] *)
Definition alignment : Z := SimpleBitMap._bits_per_array_element.

(** [inline size_t bits_at(ssize_t idx) const] *)
Definition bits_at (bm : SimpleBitMap.t) (idx : Z) : Z :=
  let array_idx := to_ssize (SimpleBitMap.array_index idx) in
  SimpleBitMap._bitmap bm array_idx.

End Logging.

(* ================================================================= *)
(** ** What the scans for fully empty regions end in *)

Module EmptyBoundSpec.

Import TableSpec.

Section Results.

Variable alloc_capacity : Z -> Z.
Variable p : ShenandoahFreeSetPartitionId.

(** What a scan for the first fully empty region of [p] at or above the
    bound [lo] ends in: [_max], with no such region, or the first one. *)
Definition first_empty_from (s s' : Partitions.t) (lo r : Z) : Prop :=
  (r = Partitions._max s /\
   forall j, lo <= j -> 0 <= j < Partitions._max s -> member s p j ->
             alloc_capacity j <> Partitions._region_size_bytes s)
  \/
  (lo <= r /\ 0 <= r < Partitions._max s /\ member s p r /\
   alloc_capacity r = Partitions._region_size_bytes s /\
   (forall j, lo <= j < r -> 0 <= j -> member s p j ->
              alloc_capacity j <> Partitions._region_size_bytes s) /\
   Partitions._leftmosts_empty s' p = r).

(** The same for the last fully empty region at or below the bound [hi]. *)
Definition last_empty_upto (s s' : Partitions.t) (hi r : Z) : Prop :=
  (r = -1 /\
   forall j, j <= hi -> 0 <= j < Partitions._max s -> member s p j ->
             alloc_capacity j <> Partitions._region_size_bytes s)
  \/
  (0 <= r <= hi /\ r < Partitions._max s /\ member s p r /\
   alloc_capacity r = Partitions._region_size_bytes s /\
   (forall j, r < j <= hi -> j < Partitions._max s -> member s p j ->
              alloc_capacity j <> Partitions._region_size_bytes s) /\
   Partitions._rightmosts_empty s' p = r).

End Results.

End EmptyBoundSpec.

(* ================================================================= *)
(** ** What a call leaves alone *)

Module ViewSpec.

Import TableSpec.

(** The regions of partition [q], its interval and its totals are as
    before; its two cached empty bounds may differ. *)
Definition members_kept (q : ShenandoahFreeSetPartitionId) (s s' : Partitions.t) : Prop :=
  Partitions._membership s' q = Partitions._membership s q /\
  Partitions._leftmosts s' q = Partitions._leftmosts s q /\
  Partitions._rightmosts s' q = Partitions._rightmosts s q /\
  Partitions._capacity s' q = Partitions._capacity s q /\
  Partitions._used s' q = Partitions._used s q /\
  Partitions._region_counts s' q = Partitions._region_counts s q.

(** A relation between tables, read on the tables of two free sets. *)
Definition on_tables (R : Partitions.t -> Partitions.t -> Prop) (fs fs' : FreeSet.t) : Prop :=
  R (FreeSet._partitions fs) (FreeSet._partitions fs').

(** Nothing the table holds for the Collector partition has changed. *)
Definition collector_view_kept : FreeSet.t -> FreeSet.t -> Prop :=
  on_tables (kept Collector).

(** The Mutator partition holds the same regions, with the same totals. *)
Definition mutator_regions_kept : FreeSet.t -> FreeSet.t -> Prop :=
  on_tables (members_kept Mutator).

End ViewSpec.

(* ================================================================= *)
(** ** What an allocation hands back *)

Module AllocSpec.

(** [req'] asks for the same memory as [req]: the calls change
    [actual_size] only. *)
Definition same_request (req req' : AllocRequest.t) : Prop :=
  AllocRequest.type req' = AllocRequest.type req /\
  AllocRequest.size req' = AllocRequest.size req /\
  AllocRequest.min_size req' = AllocRequest.min_size req.

(** The size recorded in the answer [a] fits the request [req]: a LAB
    has between [min_size] and [size] words, any other allocation has
    [size] words. *)
Definition fitting_size (req : AllocRequest.t) (a : FreeSet.allocation) : Prop :=
  (AllocRequest.is_lab_alloc req = true ->
   AllocRequest.min_size req <= AllocRequest.actual_size (FreeSet.req_out a)
   <= AllocRequest.size req) /\
  (AllocRequest.is_lab_alloc req = false ->
   AllocRequest.actual_size (FreeSet.req_out a) = AllocRequest.size req).

(** What every allocating call ensures about its answer. *)
Definition answers (req : AllocRequest.t) (a : FreeSet.allocation) : Prop :=
  same_request req (FreeSet.req_out a) /\
  (FreeSet.found a = true -> fitting_size req a).

End AllocSpec.

(* ================================================================= *)
(** ** Regions handed from one partition to the other *)

Module TransferSpec.

Import TableSpec.

(** Between [s] and [s'], [k] regions went from partition [orig] to
    partition [new], and nothing else happened to the regions: the two
    counts and capacities follow (in [size_t] arithmetic), no region
    entered [orig] or left [new], and the two partitions together hold
    the regions they held. *)
Definition moved (orig new : ShenandoahFreeSetPartitionId) (k : Z)
           (s s' : Partitions.t) : Prop :=
  same_size s s' /\
  Partitions.count s' orig = Word.wrap (Partitions.count s orig - k) /\
  Partitions.count s' new = Word.wrap (Partitions.count s new + k) /\
  Partitions.capacity_of s' orig
  = Word.wrap (Partitions.capacity_of s orig - k * Partitions._region_size_bytes s) /\
  Partitions.capacity_of s' new
  = Word.wrap (Partitions.capacity_of s new + k * Partitions._region_size_bytes s) /\
  (forall j, 0 <= j < Partitions._max s -> member s' orig j -> member s orig j) /\
  (forall j, 0 <= j < Partitions._max s -> member s new j -> member s' new j) /\
  (forall j, 0 <= j < Partitions._max s ->
             (member s' orig j \/ member s' new j <-> member s orig j \/ member s new j)).

(** The counts and capacities are [size_t] values. *)
Definition counters_ok (s : Partitions.t) : Prop :=
  forall p, Partitions.lt_NumPartitions p = true ->
            0 <= Partitions.count s p < Word.modulus /\
            0 <= Partitions.capacity_of s p < Word.modulus.

(** What a run that hands regions of the Collector partition to the
    Mutator partition leaves behind, when it may hand over [mx] regions
    and ends with [mx'] of them to spare: a free set in order that
    differs from [fs] in the table only, by [mx - mx'] regions handed
    over. *)
Definition handed (cfg : Config) (mx : Z) (fs : FreeSet.t) (mx' : Z) (fs' : FreeSet.t)
  : Prop :=
  FreeSetSpec.invariant cfg fs' /\ FreeSetSpec.table_only fs fs' /\ 0 <= mx' <= mx /\
  moved Collector Mutator (mx - mx') (FreeSet._partitions fs) (FreeSet._partitions fs').

(** What [reserve_regions], having gone down from region [i] (not
    included), leaves behind: the Mutator regions from [cut] up to [i]
    went to the Collector partition and nothing else moved, and the scan
    got to region 0 unless the reserve was met. *)
Definition reserved (cfg : Config) (to_reserve i : Z) (fs fs' : FreeSet.t) : Prop :=
  FreeSetSpec.invariant cfg fs' /\ FreeSetSpec.table_only fs fs' /\
  exists cut k,
    0 <= cut <= i /\
    moved Mutator Collector k (FreeSet._partitions fs) (FreeSet._partitions fs') /\
    (forall j, 0 <= j < num_regions cfg ->
               (member (FreeSet._partitions fs') Mutator j
                <-> member (FreeSet._partitions fs) Mutator j /\ (j < cut \/ i <= j))) /\
    (forall j, 0 <= j < num_regions cfg ->
               (member (FreeSet._partitions fs') Collector j
                <-> member (FreeSet._partitions fs) Collector j \/
                    (member (FreeSet._partitions fs) Mutator j /\ cut <= j < i))) /\
    (cut = 0 \/
     to_reserve <= Partitions.available_in (FreeSet._partitions fs') Collector).

End TransferSpec.


(* ================================================================= *)
(** ** What the scan of a rebuild takes *)

Module ScanSpec.

(** The test of [find_regions_with_alloc_capacity] on region [j] of the
    heap [h]: allocation is allowed in it or it is trash, and it offers
    more than [PLAB::min_size()] words. *)
Definition accepted (cfg : Config) (h : Heap.t) (j : Z) : bool :=
  let r := Heap.get_region h j in
  (Heap.is_alloc_allowed r || Heap.is_trash r) &&
  (FreeSet.alloc_capacity_region cfg r >? Word.wrap (PLAB_min_size cfg * HeapWordSize)).

Definition trashed (h : Heap.t) (j : Z) : bool := Heap.is_trash (Heap.get_region h j).

(** The number of indices in [idx, idx + n) that pass the test [f]. *)
Fixpoint count_in (f : Z -> bool) (n : nat) (idx : Z) : Z :=
  match n with
  | O => 0
  | S n' => (if f idx then 1 else 0) + count_in f n' (idx + 1)
  end.

End ScanSpec.

(* ================================================================= *)
(** ** What a humongous allocation takes and leaves *)

Module ContiguousSpec.

(** [num] of [allocate_contiguous]: the regions that the request takes. *)
Definition regions_needed (cfg : Config) (req : AllocRequest.t) : Z :=
  Word.to_ssize (Heap.required_regions cfg (Word.wrap (AllocRequest.size req * HeapWordSize))).

(** Region [i] of a humongous object of [words] words that starts in
    region [beg] and ends in region [end_], as the "Initialize regions"
    loop leaves it. *)
Definition humongous_region (cfg : Config) (words beg end_ i : Z) : Heap.region :=
  let remainder := Z.land words (Heap.region_size_words_mask cfg) in
  Heap.mk_region (if i =? beg then Heap.HumongousStart else Heap.HumongousCont)
                 (if (i =? end_) && negb (remainder =? 0) then remainder
                  else region_size_words cfg)
                 0.

(** A shared allocation of 200000 words: with regions of 1 MiB, two regions. *)
Definition shared_200000_words : AllocRequest.t :=
  AllocRequest.mk AllocRequest._alloc_shared 200000 0 0.

End ContiguousSpec.


(* ================================================================= *)
(** ** What the bounds check may refresh *)

Module BoundsSpec.

Import TableSpec.

(** [s'] differs from [s] at most in the bounds held for [p]; when the
    interval of [p] is in order in [s], at most in its two cached empty
    bounds, with [rightmost_empty] still below [_max]. *)
Definition refreshed (p : ShenandoahFreeSetPartitionId) (s s' : Partitions.t) : Prop :=
  hints_only p s s' /\
  (table_ok s -> interval_ok s p -> empties_only p s s').

(** The table has its size and its two bitmaps. *)
Definition bitmaps_kept (s s' : Partitions.t) : Prop :=
  Partitions._max s' = Partitions._max s /\
  Partitions._membership s' = Partitions._membership s.

End BoundsSpec.


(* ================================================================= *)
(** ** What an allocation in one region touches *)

Module RegionSpec.

(** The free set has the bitmaps of its table, and the heap its
    regions, but for region [idx]. *)
Definition others_kept (idx : Z) (fs fs' : FreeSet.t) : Prop :=
  BoundsSpec.bitmaps_kept (FreeSet._partitions fs) (FreeSet._partitions fs') /\
  forall j, j <> idx ->
            Heap.get_region (FreeSet._heap fs') j = Heap.get_region (FreeSet._heap fs) j.

(** The early exit of [try_allocate_in]: a trash region cannot be
    recycled while concurrent weak root processing is in progress. *)
Definition blocked_by_weak_roots (fs : FreeSet.t) (idx : Z) : bool :=
  Heap.concurrent_weak_root_in_progress (FreeSet._heap fs) &&
  Heap.is_trash (Heap.get_region (FreeSet._heap fs) idx).

(** The test that [try_allocate_in] makes after the allocation [a]:
    what is left of region [idx] is too small to be kept. *)
Definition exhausted (cfg : Config) (a : FreeSet.allocation) (fs' : FreeSet.t) (idx : Z)
  : bool :=
  ((match FreeSet.result a with None => true | Some _ => false end) &&
   (FreeSet.alloc_capacity cfg fs' idx <? min_capacity cfg))
  || (FreeSet.alloc_capacity cfg fs' idx <? Word.wrap (PLAB_min_size cfg * HeapWordSize)).

End RegionSpec.

(* ================================================================= *)
(** ** The searches for a run of set bits that go downwards

    [count_leading_ones], [is_backward_consecutive_ones],
    [find_prev_consecutive_bits] and
    [find_index_of_previous_available_cluster_of_regions], with the
    assertions they make on entry.  The bitmap is read and never
    written; [shl_oob] is as in [is_forward_consecutive_ones]. *)

Module BackwardSearch.

Import Word Run.
Local Open Scope run_scope.

Section Ops.

Variable dbg : bool.
Variable shl_oob : Z -> Z.

(** [assert((idx >= 0) && (idx < _num_bits), "precondition")] *)
Definition precondition (idx : Z) : M SimpleBitMap.t unit :=
  bm <- get ;;
  assert_ dbg (SimpleBitMap.index_in_range bm idx) "precondition".

(** [for (counted_ones = 0; element_bits & the_bit; counted_ones++) the_bit <<= 1;] *)
Fixpoint count_leading_ones_loop (fuel : nat) (element_bits the_bit counted_ones : Z)
  : M SimpleBitMap.t Z :=
  match fuel with
  | O => fun _ => OutOfFuel
  | S fuel' =>
      if Z.land element_bits the_bit =? 0 then ret counted_ones
      else count_leading_ones_loop fuel' element_bits (wrap (Z.shiftl the_bit 1))
                                   (counted_ones + 1)
  end.

Fixpoint count_leading_ones (fuel : nat) (start_idx : Z) : M SimpleBitMap.t Z :=
  match fuel with
  | O => fun _ => OutOfFuel
  | S fuel' =>
      precondition start_idx ;;
      bm <- get ;;
      let array_idx := SimpleBitMap.array_index start_idx in
      let element_bits := SimpleBitMap._bitmap bm array_idx in
      let bit_number := SimpleBitMap.bit_index start_idx in
      let the_bit := one_shl bit_number in
      let omit_mask := wrap (the_bit - 1) in
      let mask := Z.land all_ones omit_mask in
      if Z.land element_bits mask =? mask then
        let counted_ones := wrap (SimpleBitMap._bits_per_array_element - bit_number) in
        rest <- count_leading_ones fuel' (to_ssize (wrap (start_idx + counted_ones))) ;;
        ret (wrap (counted_ones + rest))
      else
        count_leading_ones_loop 65 element_bits the_bit 0
  end.

Fixpoint is_backward_consecutive_ones (fuel : nat) (last_idx count : Z)
  : M SimpleBitMap.t bool :=
  match fuel with
  | O => fun _ => OutOfFuel
  | S fuel' =>
      precondition last_idx ;;
      assert_ dbg (last_idx - count >=? -1) "precondition" ;;
      bm <- get ;;
      let array_idx := SimpleBitMap.array_index last_idx in
      let bit_number := SimpleBitMap.bit_index last_idx in
      let element_bits := SimpleBitMap._bitmap bm array_idx in
      if to_ssize (wrap (bit_number + 1)) >=? count then
        (* All relevant bits reside within this array element *)
        let overreach_mask :=
          wrap (SimpleBitMap.one_shl_any shl_oob (wrap (bit_number + 1)) - 1) in
        let exclude_mask :=
          wrap (SimpleBitMap.one_shl_any shl_oob (wrap (bit_number + 1 - count)) - 1) in
        let exact_mask := Z.land overreach_mask (not exclude_mask) in
        ret (Z.land element_bits exact_mask =? exact_mask)
      else
        (* Need to exactly match all relevant bits of this array element,
           plus relevant bits of following array elements *)
        let exact_mask :=
          wrap (SimpleBitMap.one_shl_any shl_oob (wrap (bit_number + 1)) - 1) in
        if Z.land element_bits exact_mask =? exact_mask then
          let matched_bits := wrap (bit_number + 1) in
          is_backward_consecutive_ones fuel'
            (to_ssize (wrap (last_idx - matched_bits)))
            (to_ssize (wrap (count - matched_bits)))
        else ret false
  end.

(** [if (bit_number < 63) { mask_in = (1 << (bit_number + 1)) - 1; element_bits &= mask_in; }] *)
Definition mask_above (element_bits bit_number : Z) : Z :=
  if bit_number <? 63 then
    let mask_in := wrap (one_shl (bit_number + 1) - 1) in
    Z.land element_bits mask_in
  else element_bits.

(** The [while (last_idx >= last_boundary)] loop; its variables are
    [last_idx], [array_idx], [bit_number] and [element_bits]. *)
Fixpoint find_prev_consecutive_bits_loop (fuel : nat)
         (num_bits boundary_idx last_boundary : Z)
         (last_idx array_idx bit_number element_bits : Z) : M SimpleBitMap.t Z :=
  match fuel with
  | O => fun _ => OutOfFuel
  | S fuel' =>
      if last_idx >=? last_boundary then
        if element_bits =? 0 then
          (* move to the previous element *)
          bm <- get ;;
          let last_idx' := to_ssize (wrap (last_idx - wrap (bit_number + 1))) in
          let array_idx' := array_idx - 1 in
          find_prev_consecutive_bits_loop fuel' num_bits boundary_idx last_boundary
            last_idx' array_idx' 63 (SimpleBitMap._bitmap bm array_idx')
        else
          b <- is_backward_consecutive_ones
                 (S (Z.to_nat (num_bits / SimpleBitMap._bits_per_array_element + 1)))
                 last_idx (to_ssize num_bits) ;;
          if b : bool then ret (to_ssize (wrap (last_idx + 1 - num_bits)))
          else
            (* There is at least one zero bit in this span.  Align the next
               probe at the end of leading ones for probed span. *)
            leading_ones <- count_leading_ones
                              (S (Z.to_nat (num_bits / SimpleBitMap._bits_per_array_element + 1)))
                              (to_ssize (wrap (last_idx - wrap (num_bits - 1)))) ;;
            bm <- get ;;
            let last_idx' := to_ssize (wrap (last_idx - wrap (num_bits - leading_ones))) in
            let array_idx' := to_ssize (SimpleBitMap.array_index last_idx') in
            let bit_number' := SimpleBitMap.bit_index last_idx' in
            let element_bits' := SimpleBitMap._bitmap bm array_idx' in
            find_prev_consecutive_bits_loop fuel' num_bits boundary_idx last_boundary
              last_idx' array_idx' bit_number' (mask_above element_bits' bit_number')
      else
        (* No match found. *)
        ret boundary_idx
  end.

Definition find_prev_consecutive_bits (num_bits last_idx boundary_idx : Z)
  : M SimpleBitMap.t Z :=
  precondition last_idx ;;
  bm <- get ;;
  (* Stop looking if there are not num_bits remaining in probe space. *)
  let last_boundary := to_ssize (wrap (boundary_idx + num_bits)) in
  let array_idx := to_ssize (SimpleBitMap.array_index last_idx) in
  let bit_number := SimpleBitMap.bit_index last_idx in
  let element_bits := mask_above (SimpleBitMap._bitmap bm array_idx) bit_number in
  find_prev_consecutive_bits_loop
    (S (Z.to_nat (last_idx - boundary_idx + 1))) num_bits boundary_idx last_boundary
    last_idx array_idx bit_number element_bits.

(** Return the index of the previous available cluster of cluster_size
    regions <= last_index, or -1 if not found. *)
Definition find_index_of_previous_available_cluster_of_regions
           which_partition (last_index cluster_size : Z) : M Partitions.t Z :=
  leftmost_idx <- Partitions.leftmost dbg which_partition ;;
  (* if (leftmost_idx == max) then (last_index < leftmost_idx) *)
  if last_index <? leftmost_idx then ret (-1)
  else
    result <- zoom (fun s => Partitions._membership s which_partition) (fun s _ => s)
                   (find_prev_consecutive_bits cluster_size last_index (leftmost_idx - 1)) ;;
    ret (if result <=? leftmost_idx then -1 else result).

End Ops.

End BackwardSearch.

(* ================================================================= *)
(** ** What [assert_bounds] checks

    The loop of [assert_bounds] records the lowest and highest region of
    each partition; the checks after it compare them with the table. *)

Module CheckSpec.

Import TableSpec.

(** What the loop of [assert_bounds] has seen of the regions below [i]:
    none is in both partitions, and each free one has capacity and lies
    within the bounds observed so far. *)
Definition seen (alloc_capacity : Z -> Z) (s : Partitions.t) (i : Z)
           (b : Partitions.observed_bounds) : Prop :=
  forall j, 0 <= j < i ->
    ~ (member s Mutator j /\ member s Collector j) /\
    forall p, Partitions.lt_NumPartitions p = true -> member s p j ->
      Partitions.leftmosts b p <= j <= Partitions.rightmosts b p /\ 0 < alloc_capacity j.

(** What the checks of one partition have established of the table. *)
Definition bounded (s : Partitions.t) (b : Partitions.observed_bounds)
           (p : ShenandoahFreeSetPartitionId) : Prop :=
  Partitions._rightmosts s p < Partitions._max s /\
  (Partitions._max s <= Partitions._leftmosts s p \/
   (0 <= Partitions._leftmosts s p /\
    member s p (Partitions._leftmosts s p) /\
    member s p (Partitions._rightmosts s p))) /\
  (Partitions.leftmosts b p < Partitions._max s ->
   Partitions._leftmosts s p <= Partitions.leftmosts b p) /\
  Partitions.rightmosts b p <= Partitions._rightmosts s p.

End CheckSpec.

(* ================================================================= *)
(** ** Spans that end on the last bit of a word

    For a span that ends on the last bit of a word, the run tests build
    their mask from [(size_t) 1 << 64].  Where that shift yields 1 (the
    shift count taken modulo 64), the mask is empty and the bits of the
    span in that word are not examined. *)

Module ShiftSpec.

(** Of the span [i, i + k): the number of leading bits that lie below
    the word in which the span ends, when it ends on the last bit of a
    word; all [k] bits otherwise. *)
Definition examined (i k : Z) : Z :=
  if (i + k) mod 64 =? 0 then k - 64 else k.

(** The bits of [i, i + k) are set, but for those in the last word of a
    span that ends on the last bit of a word. *)
Definition span_accepted (bm : SimpleBitMap.t) (i k : Z) : Prop :=
  Spec.all_set bm i (examined i k).

(** [r] is an accepted position in [lo, hi], and no run of [k] set bits
    starts in [lo, r). *)
Definition first_span_accepted (bm : SimpleBitMap.t) (k lo hi r : Z) : Prop :=
  lo <= r <= hi /\ span_accepted bm r k /\ forall i, lo <= i < r -> ~ Spec.all_set bm i k.

(** The bits of the span of [count] bits ending at [last] that lie in
    the word of [last] are set, or [last] is the last bit of a word. *)
Definition span_accepted_backward (bm : SimpleBitMap.t) (last count : Z) : Prop :=
  last mod 64 = 63 \/
  forall j, last - count < j <= last -> 64 * (last / 64) <= j ->
            SimpleBitMap.is_set bm j = true.

(** A table of 128 regions of 1 MiB whose Mutator partition holds the
    regions 62 and 64 and whose Collector partition holds region 63. *)
Definition regions_62_to_64 : Partitions.t :=
  Partitions.mk 128 Scenario.MiB
    (fun p => match p with
              | Mutator => fold_left SimpleBitMap.set_bit [62; 64]
                                     (SimpleBitMap.create (fun _ => 0) 128)
              | Collector => SimpleBitMap.set_bit (SimpleBitMap.create (fun _ => 0) 128) 63
              | NotFree => SimpleBitMap.create (fun _ => 0) 128
              end)
    (fun p => match p with Mutator => 62 | Collector => 63 | NotFree => 128 end)
    (fun p => match p with Mutator => 64 | Collector => 63 | NotFree => -1 end)
    (fun p => match p with Mutator => 62 | Collector => 63 | NotFree => 128 end)
    (fun p => match p with Mutator => 64 | Collector => 63 | NotFree => -1 end)
    (fun p => match p with
              | Mutator => 2 * Scenario.MiB | Collector => Scenario.MiB | NotFree => 0
              end)
    (fun _ => 0)
    (fun p => match p with Mutator => 2 | Collector => 1 | NotFree => 0 end).

(** The sizes of [Scenario.cfg] for a heap of 128 regions. *)
Definition cfg128 : Config :=
  mk_Config 128 Scenario.MiB (Scenario.MiB / HeapWordSize)
            (Scenario.MiB / 2 / HeapWordSize) (128 * Scenario.MiB)
            256 1 20 174762 true.

(** That table over a heap of 128 empty regions. *)
Definition free_set_62_to_64 : FreeSet.t :=
  FreeSet.mk (Scenario.all_empty 0 false) regions_62_to_64 0 false.

End ShiftSpec.

(* ================================================================= *)
(** ** Counting the non-empty regions at the two ends of the Mutator range

    The numbers that the specification names for the choice of the scan
    direction in [allocate_single]: how many non-empty regions lie
    between [leftmost] and [leftmost_empty], and how many between
    [rightmost_empty] and [rightmost].  They are counted here in the two
    ways the words allow, as regions of the Mutator partition and as
    regions of the heap. *)

Module BiasSpec.

Local Open Scope run_scope.

Section Counts.

Variable cfg : Config.

(** Region [idx] offers less than a whole region. *)
Definition non_empty (fs : FreeSet.t) (idx : Z) : bool :=
  negb (FreeSet.alloc_capacity cfg fs idx =? region_size_bytes cfg).

(** The number of non-empty regions of the heap with an index in
    [lo, hi). *)
Definition non_empty_regions (fs : FreeSet.t) (lo hi : Z) : Z :=
  Z.of_nat (List.length (filter (fun idx => (lo <=? idx) && (idx <? hi) && non_empty fs idx)
                           (Lifecycle.region_indices (num_regions cfg)))).

(** The number of non-empty regions of the Mutator partition with an
    index in [lo, hi). *)
Definition non_empty_members (fs : FreeSet.t) (lo hi : Z) : Z :=
  Z.of_nat (List.length (filter (fun idx => (lo <=? idx) && (idx <? hi) && non_empty fs idx &&
                                       Lifecycle.in_partition fs Mutator idx)
                           (Lifecycle.region_indices (num_regions cfg)))).

End Counts.

(** Regions 0 and 7 to 9 hold 1000 words each, region 6 is empty, the
    regions 1 to 5, 10 and 11 are full, and the regions 12 to 15 are
    empty.  [rebuild] leaves the regions 0 and 6 to 9 in the Mutator
    partition and the regions 12 to 15 in the Collector reserve. *)
Definition one_used_region_on_the_left : Heap.t :=
  Heap.mk (fun j => if (j =? 0) || ((7 <=? j) && (j <=? 9))
                    then Heap.mk_region Heap.Regular 1000 0
                    else if (j =? 6) || (12 <=? j)
                         then Heap.mk_region Heap.Empty 0 0
                         else Heap.mk_region Heap.Regular (Scenario.MiB / HeapWordSize) 0)
          (4 * 8000 + 7 * Scenario.MiB) false.

(** The regions 4 to 9 hold 1000 words each, the regions 0 to 3, 10 and
    11 are full, and the regions 12 to 15 are empty.  [rebuild] leaves
    the regions 4 to 9 in the Mutator partition, none of them empty, and
    the regions 12 to 15 in the Collector reserve. *)
Definition no_empty_mutator_region : Heap.t :=
  Heap.mk (fun j => if (4 <=? j) && (j <=? 9)
                    then Heap.mk_region Heap.Regular 1000 0
                    else if 12 <=? j
                         then Heap.mk_region Heap.Empty 0 0
                         else Heap.mk_region Heap.Regular (Scenario.MiB / HeapWordSize) 0)
          (6 * 8000 + 6 * Scenario.MiB) false.

(** The free set constructed for a heap of 16 regions, after [rebuild]. *)
Definition rebuilt (dbg : bool) (heap : Heap.t) : FreeSet.t :=
  let fs := FreeSet.construct Scenario.cfg Scenario.zeroed heap 16 in
  match FreeSet.rebuild dbg Scenario.cfg fs with
  | Ret _ fs' => fs'
  | _ => fs
  end.

(** What [allocate_single] reads for its choice, in the order of the
    calls: [leftmost_empty], [leftmost], [rightmost], [rightmost_empty]. *)
Definition bounds (dbg : bool) (fs : FreeSet.t) : option (Z * Z * Z * Z) :=
  match (le <- FreeSet.p_leftmost_empty dbg Scenario.cfg Mutator ;;
         l <- FreeSet.p_leftmost dbg Scenario.cfg Mutator ;;
         r <- FreeSet.p_rightmost dbg Scenario.cfg Mutator ;;
         re <- FreeSet.p_rightmost_empty dbg Scenario.cfg Mutator ;;
         Run.ret (le, l, r, re)) fs with
  | Ret b _ => Some b
  | _ => None
  end.

(** The direction and the counter after a TLAB request of 128 words. *)
Definition direction_after (dbg : bool) (fs : FreeSet.t) : option (bool * Z) :=
  match FreeSet.allocate_single dbg Scenario.cfg Scenario.tlab_1KiB false fs with
  | Ret _ fs' => Some (FreeSet._right_to_left_bias fs', FreeSet._alloc_bias_weight fs')
  | _ => None
  end.

End BiasSpec.

(* ================================================================= *)
(** * Properties *)

(** ** Dispatch in [allocate] *)

(** C9.  A LAB request (TLAB or GC-lab) above the humongous threshold: a
    debug build stops on the fatal assertion; a product build returns
    [nullptr] with [in_new_region = false], its request and the free set
    unchanged.  Neither [allocate_single] nor [allocate_contiguous] is
    entered. *)
Theorem allocate_lab_above_humongous_threshold :
  forall cfg shl_oob req in_new_region fs,
    AllocRequest.is_lab_alloc req = true ->
    AllocRequest.size req > humongous_threshold_words cfg ->
    FreeSet.allocate true cfg shl_oob req in_new_region fs
    = Fatal "Trying to allocate TLAB larger than the humongous threshold"
    /\ FreeSet.allocate false cfg shl_oob req in_new_region fs
       = Ret (FreeSet.mk_allocation None req false) fs.
Proof.
  intros cfg shl_oob req inr fs Hlab Hsize.
  apply Z.gt_lt, Z.gtb_lt in Hsize.
  unfold FreeSet.allocate. rewrite Hsize.
  unfold AllocRequest.is_lab_alloc in Hlab.
  destruct (AllocRequest.type req); try discriminate; split; reflexivity.
Qed.

Lemma allocate_lab_above_humongous_threshold_witness :
  let cfg := mk_Config 16 1048576 131072 65536 16777216 256 1 20 174762 true in
  let req := AllocRequest.mk AllocRequest._alloc_tlab 70000 512 0 in
  let fs := FreeSet.mk (Heap.mk (fun _ => Heap.mk_region Heap.Empty 0 0) 0 false)
              (Partitions.mk 16 1048576 (fun _ => SimpleBitMap.mk 16 1 (fun _ => 0))
                 (fun _ => 16) (fun _ => -1) (fun _ => 16) (fun _ => -1)
                 (fun _ => 0) (fun _ => 0) (fun _ => 0)) 0 false in
  FreeSet.allocate true cfg (fun _ => 0) req true fs
  = Fatal "Trying to allocate TLAB larger than the humongous threshold"
  /\ FreeSet.allocate false cfg (fun _ => 0) req true fs
     = Ret (FreeSet.mk_allocation None req false) fs.
Proof.
  intros cfg req fs.
  apply (allocate_lab_above_humongous_threshold cfg (fun _ => 0) req true fs).
  - reflexivity.
  - reflexivity.
Defined.

(** C10.  A shared-GC request above the humongous threshold is handed to
    [allocate_contiguous], whose entry assertion
    [req.is_mutator_alloc()] is false for it: every such call of the
    public [allocate] ends in that assertion in a debug build. *)
Theorem allocate_shared_gc_humongous_violates_entry_assertion :
  forall dbg cfg shl_oob req in_new_region fs,
    AllocRequest.type req = AllocRequest._alloc_shared_gc ->
    AllocRequest.size req > humongous_threshold_words cfg ->
    FreeSet.allocate dbg cfg shl_oob req in_new_region fs
    = Run.bind (FreeSet.allocate_contiguous dbg cfg shl_oob req)
               (fun a => Run.ret (FreeSet.mk_allocation (fst a) (snd a) true)) fs
    /\ AllocRequest.is_mutator_alloc req = false
    /\ FreeSet.allocate_contiguous true cfg shl_oob req fs
       = Fatal "All humongous allocations are performed by mutator"
    /\ FreeSet.allocate true cfg shl_oob req in_new_region fs
       = Fatal "All humongous allocations are performed by mutator".
Proof.
  intros dbg cfg shl_oob req inr fs Hty Hsize.
  apply Z.gt_lt, Z.gtb_lt in Hsize.
  assert (Hmut : AllocRequest.is_mutator_alloc req = false)
    by (unfold AllocRequest.is_mutator_alloc; rewrite Hty; reflexivity).
  assert (Hc : FreeSet.allocate_contiguous true cfg shl_oob req fs
               = Fatal "All humongous allocations are performed by mutator").
  { unfold FreeSet.allocate_contiguous, Run.bind, Run.assert_, Run.assertM, Run.ret.
    rewrite Hmut. reflexivity. }
  repeat split.
  - unfold FreeSet.allocate. rewrite Hsize, Hty. reflexivity.
  - exact Hmut.
  - exact Hc.
  - unfold FreeSet.allocate. rewrite Hsize, Hty.
    unfold Run.bind at 1. rewrite Hc. reflexivity.
Qed.

Lemma allocate_shared_gc_humongous_violates_entry_assertion_witness :
  let cfg := mk_Config 16 1048576 131072 65536 16777216 256 1 20 174762 true in
  let req := AllocRequest.mk AllocRequest._alloc_shared_gc 70000 0 0 in
  let fs := FreeSet.mk (Heap.mk (fun _ => Heap.mk_region Heap.Empty 0 0) 0 false)
              (Partitions.mk 16 1048576 (fun _ => SimpleBitMap.mk 16 1 (fun _ => 0))
                 (fun _ => 16) (fun _ => -1) (fun _ => 16) (fun _ => -1)
                 (fun _ => 0) (fun _ => 0) (fun _ => 0)) 0 false in
  FreeSet.allocate true cfg (fun _ => 0) req false fs
  = Fatal "All humongous allocations are performed by mutator".
Proof.
  intros cfg req fs.
  apply (allocate_shared_gc_humongous_violates_entry_assertion
           true cfg (fun _ => 0) req false fs).
  - reflexivity.
  - reflexivity.
Defined.

(** ** Rebuild on the 16-region scenario *)

(** One step of the scan of [find_regions_with_alloc_capacity] on an empty
    region: the region joins the Mutator bitmap and every running bound
    takes it in. *)
Lemma find_regions_visit_empty dbg cfg rs idx l fs :
  Heap.get_region (FreeSet._heap fs) idx = Heap.mk_region Heap.Empty 0 0 ->
  rs = region_size_bytes cfg -> 0 < rs < 2 ^ 64 ->
  Word.wrap (PLAB_min_size cfg * HeapWordSize) < rs ->
  SimpleBitMap.index_in_range
    (Partitions._membership (FreeSet._partitions fs) Mutator) idx = true ->
  FreeSet.find_regions_visit dbg cfg rs idx l fs =
  Ret (FreeSet.mk_scan_locals (FreeSet.cset_regions l)
         (if idx <? FreeSet.mutator_leftmost l then idx else FreeSet.mutator_leftmost l)
         (if idx >? FreeSet.mutator_rightmost l then idx else FreeSet.mutator_rightmost l)
         (if idx <? FreeSet.mutator_leftmost_empty l then idx
          else FreeSet.mutator_leftmost_empty l)
         (if idx >? FreeSet.mutator_rightmost_empty l then idx
          else FreeSet.mutator_rightmost_empty l)
         (Word.wrap (FreeSet.mutator_regions l + 1))
         (Word.wrap (FreeSet.mutator_used l + 0)))
      (FreeSet.with_partitions fs
         (Partitions.with_membership (FreeSet._partitions fs)
            (Partitions.upd (Partitions._membership (FreeSet._partitions fs)) Mutator
               (SimpleBitMap.set_bit
                  (Partitions._membership (FreeSet._partitions fs) Mutator) idx)))).
Proof.
  intros Hr Hrs Hb Hp Hi.
  unfold FreeSet.find_regions_visit, FreeSet.get_region, Run.bind, Run.gets. rewrite Hr.
  cbn [Heap.is_trash Heap.state Heap.is_alloc_allowed orb].
  unfold FreeSet.alloc_capacity_region. cbn [Heap.is_trash Heap.state].
  unfold Heap.free, Heap.used. cbn [Heap.top]. rewrite Z.mul_0_l, Z.sub_0_r.
  assert (Hw : Word.wrap (region_size_bytes cfg) = rs).
  { unfold Word.wrap, Word.modulus. rewrite Z.mod_small; lia. }
  rewrite Hw.
  assert (Hgt : (rs >? Word.wrap (PLAB_min_size cfg * HeapWordSize)) = true)
    by (apply Z.gtb_lt; lia).
  rewrite Hgt, Z.eqb_refl. cbn [andb].
  unfold FreeSet.partitions, Run.zoom, Partitions.raw_set_membership, Partitions.bm_set_bit,
    Run.bind, Run.get, Run.assert_, Run.assertM, Run.ret, Partitions.set_bitmap, Run.modify.
  rewrite Hi, Z.sub_diag.
  destruct dbg; reflexivity.
Qed.

Ltac visit_empty_region H :=
  unfold Run.bind at 1;
  match goal with
  | |- context [FreeSet.find_regions_visit ?d ?c ?r ?i ?l ?fs] =>
      let i' := eval vm_compute in i in
      let l' := eval vm_compute in l in
      let fs' := eval vm_compute in fs in
      change (FreeSet.find_regions_visit d c r i l fs)
        with (FreeSet.find_regions_visit d c r i' l' fs');
      rewrite (find_regions_visit_empty d c r i' l' fs');
      [ | reflexivity | reflexivity | (unfold Scenario.MiB; lia) | exact H | reflexivity ]
  end;
  cbv iota beta.

Lemma empty_rebuild_counts_and_bounds :
  forall dbg plab align min_cap overflow raw heap_used weak_roots,
    Word.wrap (plab * HeapWordSize) < Scenario.MiB ->
    let cfg := Scenario.cfg_with plab align min_cap overflow in
    Scenario.counts_and_bounds
      (FreeSet.rebuild dbg cfg
         (FreeSet.construct cfg raw (Scenario.all_empty heap_used weak_roots) 16))
    = Some (12, 4, (0, 11), (12, 15)).
Proof.
  intros dbg plab align minc ovf raw u w Hplab cfg.
  unfold FreeSet.rebuild, FreeSet.prepare_to_rebuild, FreeSet.find_regions_with_alloc_capacity.
  set (fs0 := FreeSet.construct cfg raw (Scenario.all_empty u w) 16).
  unfold Run.bind at 1. unfold Run.bind at 1.
  set (fs1 := FreeSet.clear_internal cfg fs0). vm_compute in fs1. subst fs1. cbv iota beta.
  unfold Run.bind at 1. unfold Run.get at 1. cbv iota beta.
  unfold Run.bind at 1.
  cbn [FreeSet._partitions Partitions._region_size_bytes Partitions._max num_regions cfg
       Scenario.cfg_with].
  change (Z.to_nat 16) with 16%nat. change (Word.wrap 16) with 16.
  cbn [Run.for_range].
  do 16 (visit_empty_region Hplab).
  unfold Run.ret at 1.
  unfold Run.bind at 1.
  match goal with
  | |- context [FreeSet.partitions ?c ?f ?s] => set (o := FreeSet.partitions c f s)
  end.
  vm_compute in o. subst o. cbv iota beta.
  unfold Run.ret at 1.
  unfold FreeSet.finish_rebuild, FreeSet.reserve_regions.
  cbn [num_regions max_capacity ShenandoahEvacReserve cfg Scenario.cfg_with].
  change (Z.to_nat 16) with 16%nat.
  destruct dbg; vm_compute; reflexivity.
Qed.

(** C4 (as amended).  With 16 empty regions of 1 MiB and an evacuation
    reserve of 20%, [rebuild] returns with [count[Mutator] = 12],
    [count[Collector] = 4], Mutator interval [0, 11] and Collector
    interval [12, 15], in debug and product builds alike: the reserve is
    3355443 bytes, three regions hold 3145728, so a fourth is moved. *)
Theorem empty_rebuild_reserves_four_regions :
  forall dbg plab align min_cap overflow raw heap_used weak_roots,
    Word.wrap (plab * HeapWordSize) < Scenario.MiB ->
    let cfg := Scenario.cfg_with plab align min_cap overflow in
    exists fs',
      FreeSet.rebuild dbg cfg
        (FreeSet.construct cfg raw (Scenario.all_empty heap_used weak_roots) 16)
      = Ret tt fs'
      /\ Partitions.count (FreeSet._partitions fs') Mutator = 12
      /\ Partitions.count (FreeSet._partitions fs') Collector = 4
      /\ Partitions._leftmosts (FreeSet._partitions fs') Mutator = 0
      /\ Partitions._rightmosts (FreeSet._partitions fs') Mutator = 11
      /\ Partitions._leftmosts (FreeSet._partitions fs') Collector = 12
      /\ Partitions._rightmosts (FreeSet._partitions fs') Collector = 15.
Proof.
  intros dbg plab align minc ovf raw u w Hplab cfg.
  pose proof (empty_rebuild_counts_and_bounds dbg plab align minc ovf raw u w Hplab) as H.
  cbv zeta in H. fold cfg in H.
  destruct (FreeSet.rebuild dbg cfg _) as [[] fs'| |]; try discriminate.
  exists fs'. unfold Scenario.counts_and_bounds in H.
  injection H as H1 H2 H3 H4 H5 H6. repeat split; assumption.
Qed.

Lemma empty_rebuild_reserves_four_regions_witness :
  exists fs',
    FreeSet.rebuild true Scenario.cfg
      (FreeSet.construct Scenario.cfg Scenario.zeroed (Scenario.all_empty 0 false) 16)
    = Ret tt fs'
    /\ Partitions.count (FreeSet._partitions fs') Mutator = 12
    /\ Partitions.count (FreeSet._partitions fs') Collector = 4
    /\ Partitions._leftmosts (FreeSet._partitions fs') Mutator = 0
    /\ Partitions._rightmosts (FreeSet._partitions fs') Mutator = 11
    /\ Partitions._leftmosts (FreeSet._partitions fs') Collector = 12
    /\ Partitions._rightmosts (FreeSet._partitions fs') Collector = 15.
Proof.
  apply (empty_rebuild_reserves_four_regions true 256 1 174762 true
           Scenario.zeroed 0 false).
  vm_compute. reflexivity.
Defined.

(** C4 (as stated) fails: the scenario's rebuild does not end with 13
    Mutator and 3 Collector regions. *)
Lemma empty_rebuild_is_not_13_and_3 :
  ~ (exists fs',
        FreeSet.rebuild true Scenario.cfg
          (FreeSet.construct Scenario.cfg Scenario.zeroed (Scenario.all_empty 0 false) 16)
        = Ret tt fs'
        /\ Partitions.count (FreeSet._partitions fs') Mutator = 13
        /\ Partitions.count (FreeSet._partitions fs') Collector = 3
        /\ Partitions._leftmosts (FreeSet._partitions fs') Mutator = 0
        /\ Partitions._rightmosts (FreeSet._partitions fs') Mutator = 12
        /\ Partitions._leftmosts (FreeSet._partitions fs') Collector = 13
        /\ Partitions._rightmosts (FreeSet._partitions fs') Collector = 15).
Proof.
  intros [fs' [Hrun [Hm _]]].
  assert (H : Scenario.counts_and_bounds
                (FreeSet.rebuild true Scenario.cfg
                   (FreeSet.construct Scenario.cfg Scenario.zeroed
                      (Scenario.all_empty 0 false) 16))
              = Some (12, 4, (0, 11), (12, 15))) by (vm_compute; reflexivity).
  rewrite Hrun in H. unfold Scenario.counts_and_bounds in H.
  rewrite Hm in H. discriminate.
Qed.

(** C5 at its failing input.  When no region qualifies for the Mutator
    partition, the local [mutator_rightmost] of
    [find_regions_with_alloc_capacity] keeps its initial value 0 and
    [establish_intervals] stores it: after [rebuild] the Mutator partition
    holds no region, its [leftmost] is [max_regions], but its [rightmost]
    is 0 and not -1.  The Collector partition, reset by
    [establish_intervals] itself, has the canonical [max_regions, -1]. *)
Lemma rebuild_without_mutator_regions_leaves_rightmost_zero :
  forall dbg,
    Scenario.counts_and_bounds
      (FreeSet.rebuild dbg Scenario.cfg
         (FreeSet.construct Scenario.cfg Scenario.zeroed Scenario.all_full 16))
    = Some (0, 0, (16, 0), (16, -1)).
Proof.
  intros [|]; vm_compute; reflexivity.
Qed.

(* ================================================================= *)
(** ** Machine words: arithmetic and bits *)

Lemma modulus_eq : Word.modulus = 18446744073709551616.
Proof. reflexivity. Qed.

Lemma half_modulus_eq : Word.half_modulus = 9223372036854775808.
Proof. reflexivity. Qed.

Lemma wrap_small x : 0 <= x < Word.modulus -> Word.wrap x = x.
Proof. intros H. unfold Word.wrap. apply Z.mod_small. exact H. Qed.

Lemma wrap_range x : 0 <= Word.wrap x < Word.modulus.
Proof. unfold Word.wrap. apply Z.mod_pos_bound. reflexivity. Qed.

Lemma to_ssize_small x : 0 <= x < Word.half_modulus -> Word.to_ssize x = x.
Proof.
  intros H. unfold Word.to_ssize.
  destruct (Z.ltb_spec x Word.half_modulus); [reflexivity | lia].
Qed.

(** A signed value that went through [size_t] arithmetic and back. *)
Lemma to_ssize_wrap x :
  - Word.half_modulus <= x < Word.half_modulus -> Word.to_ssize (Word.wrap x) = x.
Proof.
  intros H. rewrite half_modulus_eq in H. unfold Word.to_ssize, Word.wrap.
  rewrite half_modulus_eq, modulus_eq.
  destruct (Z_lt_le_dec x 0).
  - replace (x mod 18446744073709551616) with (x + 18446744073709551616).
    + destruct (Z.ltb_spec (x + 18446744073709551616) 9223372036854775808); lia.
    + apply Z.mod_unique with (q := -1); lia.
  - rewrite Z.mod_small by lia.
    destruct (Z.ltb_spec x 9223372036854775808); lia.
Qed.

Lemma one_shl_pow2 b : 0 <= b < 64 -> Word.one_shl b = 2 ^ b.
Proof.
  intros H. unfold Word.one_shl. rewrite Z.shiftl_1_l.
  apply wrap_small. split; [apply Z.pow_nonneg; lia |].
  unfold Word.modulus. apply Z.pow_lt_mono_r; lia.
Qed.

Lemma pow2_range b : 0 <= b < 64 -> 0 < 2 ^ b < Word.modulus.
Proof.
  intros H. split; [apply Z.pow_pos_nonneg; lia |].
  unfold Word.modulus. apply Z.pow_lt_mono_r; lia.
Qed.

Lemma land_pow2 w b :
  0 <= b -> Z.land w (2 ^ b) = if Z.testbit w b then 2 ^ b else 0.
Proof.
  intros Hb. apply Z.bits_inj'. intros n Hn.
  rewrite Z.land_spec, Z.pow2_bits_eqb by lia.
  destruct (Z.eqb_spec b n) as [->|Hne].
  - destruct (Z.testbit w n); [rewrite Z.pow2_bits_true by lia | rewrite Z.bits_0];
      reflexivity.
  - rewrite andb_false_r.
    destruct (Z.testbit w b); [rewrite Z.pow2_bits_false by lia | rewrite Z.bits_0];
      reflexivity.
Qed.

Lemma land_pow2_eqb w b :
  0 <= b -> (Z.land w (2 ^ b) =? 0) = negb (Z.testbit w b).
Proof.
  intros Hb. rewrite land_pow2 by exact Hb.
  destruct (Z.testbit w b); [| reflexivity].
  apply Z.eqb_neq. pose proof (Z.pow_pos_nonneg 2 b). lia.
Qed.

(** A word is in range exactly when it has no bit at or above 64. *)
Lemma word_high_bits w n : 0 <= w < Word.modulus -> 64 <= n -> Z.testbit w n = false.
Proof.
  intros Hw Hn. rewrite <- (Z.mod_small w (2 ^ 64)) by exact Hw.
  apply Z.mod_pow2_bits_high. lia.
Qed.

Lemma word_of_bits w :
  0 <= w -> (forall n, 64 <= n -> Z.testbit w n = false) -> 0 <= w < Word.modulus.
Proof.
  intros Hw Hbits. split; [exact Hw |].
  assert (E : w mod 2 ^ 64 = w).
  { apply Z.bits_inj'. intros n Hn.
    destruct (Z_lt_le_dec n 64).
    - apply Z.mod_pow2_bits_low. lia.
    - rewrite Z.mod_pow2_bits_high by lia. symmetry. apply Hbits. lia. }
  rewrite <- E. apply Z.mod_pos_bound. reflexivity.
Qed.

Lemma not_bits x n : 0 <= n < 64 -> Z.testbit (Word.not x) n = negb (Z.testbit x n).
Proof.
  intros Hn. unfold Word.not, Word.wrap, Word.modulus.
  rewrite Z.mod_pow2_bits_low by lia. apply Z.lnot_spec. lia.
Qed.

Lemma not_range x : 0 <= Word.not x < Word.modulus.
Proof. apply wrap_range. Qed.

Lemma lor_range a b :
  0 <= a < Word.modulus -> 0 <= b < Word.modulus -> 0 <= Z.lor a b < Word.modulus.
Proof.
  intros Ha Hb. apply word_of_bits.
  - apply Z.lor_nonneg. lia.
  - intros n Hn. rewrite Z.lor_spec, (word_high_bits a), (word_high_bits b) by assumption.
    reflexivity.
Qed.

Lemma land_range a b : 0 <= a < Word.modulus -> 0 <= Z.land a b < Word.modulus.
Proof.
  intros Ha. apply word_of_bits.
  - apply Z.land_nonneg. lia.
  - intros n Hn. rewrite Z.land_spec, (word_high_bits a) by assumption. reflexivity.
Qed.

(** [(1 << b) - 1]: the bits below [b]. *)
Lemma ones_below_bits b n :
  0 <= b -> 0 <= n -> Z.testbit (2 ^ b - 1) n = (n <? b).
Proof.
  intros Hb Hn.
  replace (2 ^ b - 1) with (Z.ones b) by (rewrite Z.ones_equiv; lia).
  destruct (Z.ltb_spec n b).
  - apply Z.ones_spec_low. lia.
  - apply Z.ones_spec_high. lia.
Qed.

Lemma ones_below_range b : 0 <= b <= 64 -> 0 <= 2 ^ b - 1 < Word.modulus.
Proof.
  intros Hb. pose proof (Z.pow_pos_nonneg 2 b).
  assert (2 ^ b <= 2 ^ 64) by (apply Z.pow_le_mono_r; lia).
  unfold Word.modulus. lia.
Qed.

(** [w & m == m]: every bit of the mask is set in the word. *)
Lemma land_eq_mask w m :
  0 <= m ->
  (Z.land w m =? m) = true <-> (forall n, 0 <= n -> Z.testbit m n = true -> Z.testbit w n = true).
Proof.
  intros Hm. rewrite Z.eqb_eq. split.
  - intros E n Hn Hb. rewrite <- E in Hb. rewrite Z.land_spec in Hb.
    apply andb_prop in Hb. tauto.
  - intros H. apply Z.bits_inj'. intros n Hn. rewrite Z.land_spec.
    destruct (Z.testbit m n) eqn:E.
    + rewrite (H n Hn E). reflexivity.
    + apply andb_false_r.
Qed.

Lemma eqb_zero_bits w :
  0 <= w -> (w =? 0) = true <-> (forall n, 0 <= n -> Z.testbit w n = false).
Proof.
  intros Hw. rewrite Z.eqb_eq. split.
  - intros -> n _. apply Z.bits_0.
  - intros H. apply Z.bits_inj'. intros n Hn. rewrite Z.bits_0. apply H. exact Hn.
Qed.

(* ================================================================= *)
(** ** Single bits of the bitmap *)

Lemma array_index_nonneg i : 0 <= i < Word.modulus -> SimpleBitMap.array_index i = i / 64.
Proof. intros H. unfold SimpleBitMap.array_index. rewrite wrap_small by exact H. reflexivity. Qed.

Lemma bit_index_nonneg i : 0 <= i < Word.modulus -> SimpleBitMap.bit_index i = i mod 64.
Proof. intros H. unfold SimpleBitMap.bit_index. rewrite wrap_small by exact H. reflexivity. Qed.

Lemma bit_index_range i : 0 <= SimpleBitMap.bit_index i < 64.
Proof. unfold SimpleBitMap.bit_index. apply Z.mod_pos_bound. reflexivity. Qed.

Lemma is_set_testbit bm i :
  SimpleBitMap.is_set bm i
  = Z.testbit (SimpleBitMap._bitmap bm (SimpleBitMap.array_index i)) (SimpleBitMap.bit_index i).
Proof.
  unfold SimpleBitMap.is_set. pose proof (bit_index_range i).
  rewrite one_shl_pow2, land_pow2_eqb by lia. apply negb_involutive.
Qed.

Lemma index_split i j :
  (i / 64 = j / 64 /\ i mod 64 = j mod 64) <-> i = j.
Proof.
  split; [| intros ->; tauto]. intros [Hd Hm].
  rewrite (Z.div_mod i 64), (Z.div_mod j 64) by lia. rewrite Hd, Hm. reflexivity.
Qed.

Lemma is_set_set_bit bm i j :
  0 <= i < Word.modulus -> 0 <= j < Word.modulus ->
  SimpleBitMap.is_set (SimpleBitMap.set_bit bm i) j = (i =? j) || SimpleBitMap.is_set bm j.
Proof.
  intros Hi Hj. rewrite !is_set_testbit. unfold SimpleBitMap.set_bit, SimpleBitMap.store.
  cbn [SimpleBitMap._bitmap].
  pose proof (bit_index_range i). pose proof (bit_index_range j).
  rewrite one_shl_pow2 by lia.
  rewrite !array_index_nonneg, !bit_index_nonneg in * by assumption.
  destruct (Z.eqb_spec (j / 64) (i / 64)) as [E|E].
  - rewrite Z.lor_spec, Z.pow2_bits_eqb by lia. rewrite E.
    destruct (Z.eqb_spec (i mod 64) (j mod 64)) as [E'|E'].
    + assert (i = j) by (apply index_split; split; congruence). subst.
      rewrite Z.eqb_refl. apply orb_true_r.
    + destruct (Z.eqb_spec i j); [subst; contradiction |].
      rewrite orb_false_r. reflexivity.
  - destruct (Z.eqb_spec i j); [subst; contradiction | reflexivity].
Qed.

Lemma is_set_clear_bit bm i j :
  0 <= i < Word.modulus -> 0 <= j < Word.modulus ->
  SimpleBitMap.is_set (SimpleBitMap.clear_bit bm i) j
  = negb (i =? j) && SimpleBitMap.is_set bm j.
Proof.
  intros Hi Hj. rewrite !is_set_testbit. unfold SimpleBitMap.clear_bit, SimpleBitMap.store.
  cbn [SimpleBitMap._bitmap].
  pose proof (bit_index_range i). pose proof (bit_index_range j).
  rewrite one_shl_pow2 by lia.
  rewrite !array_index_nonneg, !bit_index_nonneg in * by assumption.
  destruct (Z.eqb_spec (j / 64) (i / 64)) as [E|E].
  - rewrite Z.land_spec, not_bits, Z.pow2_bits_eqb by lia. rewrite E.
    destruct (Z.eqb_spec (i mod 64) (j mod 64)) as [E'|E'].
    + assert (i = j) by (apply index_split; split; congruence). subst.
      rewrite Z.eqb_refl. apply andb_false_r.
    + destruct (Z.eqb_spec i j); [subst; contradiction |].
      rewrite andb_true_r. reflexivity.
  - destruct (Z.eqb_spec i j); [subst; contradiction | reflexivity].
Qed.

Lemma words_ok_set_bit bm i : Spec.words_ok bm -> Spec.words_ok (SimpleBitMap.set_bit bm i).
Proof.
  intros H j. unfold SimpleBitMap.set_bit, SimpleBitMap.store. cbn [SimpleBitMap._bitmap].
  destruct (j =? SimpleBitMap.array_index i); [| apply H].
  apply lor_range; [apply H |]. pose proof (bit_index_range i).
  rewrite one_shl_pow2 by lia. pose proof (pow2_range (SimpleBitMap.bit_index i)). lia.
Qed.

Lemma words_ok_clear_bit bm i : Spec.words_ok bm -> Spec.words_ok (SimpleBitMap.clear_bit bm i).
Proof.
  intros H j. unfold SimpleBitMap.clear_bit, SimpleBitMap.store. cbn [SimpleBitMap._bitmap].
  destruct (j =? SimpleBitMap.array_index i); [| apply H].
  apply land_range. apply H.
Qed.

Lemma words_ok_clear_all bm : Spec.words_ok bm -> Spec.words_ok (SimpleBitMap.clear_all bm).
Proof.
  intros H j. unfold SimpleBitMap.clear_all. cbn [SimpleBitMap._bitmap].
  destruct ((0 <=? j) && (j <? SimpleBitMap._num_words bm)); [| apply H].
  rewrite modulus_eq. lia.
Qed.

Lemma is_set_clear_all bm j :
  0 <= j < 64 * SimpleBitMap._num_words bm -> j < Word.modulus ->
  SimpleBitMap.is_set (SimpleBitMap.clear_all bm) j = false.
Proof.
  intros Hj Hm. rewrite is_set_testbit. unfold SimpleBitMap.clear_all.
  cbn [SimpleBitMap._bitmap]. rewrite array_index_nonneg by lia.
  assert (0 <= j / 64 < SimpleBitMap._num_words bm).
  { split; [apply Z.div_pos; lia | apply Z.div_lt_upper_bound; lia]. }
  destruct (Z.leb_spec 0 (j / 64)); [| lia].
  destruct (Z.ltb_spec (j / 64) (SimpleBitMap._num_words bm)); [| lia].
  apply Z.bits_0.
Qed.

Lemma num_bits_set_bit bm i :
  SimpleBitMap._num_bits (SimpleBitMap.set_bit bm i) = SimpleBitMap._num_bits bm.
Proof. reflexivity. Qed.

Lemma num_bits_clear_bit bm i :
  SimpleBitMap._num_bits (SimpleBitMap.clear_bit bm i) = SimpleBitMap._num_bits bm.
Proof. reflexivity. Qed.

(* ================================================================= *)
(** ** Searching for the next and the previous set bit *)

(** [lia] with division and modulo by constants. *)
Ltac Zify.zify_post_hook ::= Z.to_euclidean_division_equations.

Lemma nonzero_word_has_bit w :
  0 <= w < Word.modulus -> w <> 0 -> exists b, 0 <= b < 64 /\ Z.testbit w b = true.
Proof.
  intros Hw Hz. exists (Z.log2 w). split.
  - split; [apply Z.log2_nonneg |]. apply Z.log2_lt_pow2; [lia | exact (proj2 Hw)].
  - apply Z.bit_log2. lia.
Qed.

(** Scanning upwards from [bn] over [n] positions either meets a first set
    bit or finds none. *)
Lemma first_set_bit_upwards w bn (n : nat) :
  (exists b, bn <= b < bn + Z.of_nat n /\ Z.testbit w b = true /\
             forall b', bn <= b' < b -> Z.testbit w b' = false)
  \/ (forall b', bn <= b' < bn + Z.of_nat n -> Z.testbit w b' = false).
Proof.
  induction n as [|n IHn].
  - right. intros; lia.
  - destruct IHn as [[b [H1 [H2 H3]]]|IHn].
    + left. exists b. repeat split; try lia; assumption.
    + destruct (Z.testbit w (bn + Z.of_nat n)) eqn:En.
      * left. exists (bn + Z.of_nat n). repeat split; try lia; assumption.
      * right. intros b' Hb'.
        destruct (Z.eq_dec b' (bn + Z.of_nat n)); [subst; exact En | apply IHn; lia].
Qed.

(** Scanning downwards from [bn]. *)
Lemma first_set_bit_downwards w bn (n : nat) :
  (exists b, bn - Z.of_nat n < b <= bn /\ Z.testbit w b = true /\
             forall b', b < b' <= bn -> Z.testbit w b' = false)
  \/ (forall b', bn - Z.of_nat n < b' <= bn -> Z.testbit w b' = false).
Proof.
  induction n as [|n IHn].
  - right. intros; lia.
  - destruct IHn as [[b [H1 [H2 H3]]]|IHn].
    + left. exists b. repeat split; try lia; assumption.
    + destruct (Z.testbit w (bn - Z.of_nat n)) eqn:En.
      * left. exists (bn - Z.of_nat n). repeat split; try lia; assumption.
      * right. intros b' Hb'.
        destruct (Z.eq_dec b' (bn - Z.of_nat n)); [subst; exact En | apply IHn; lia].
Qed.

Lemma find_next_set_bit_scan_found fuel eb ai boundary bn b :
  0 <= bn <= b -> b < 64 -> 0 <= ai -> ai * 64 + 64 <= Word.half_modulus ->
  Z.testbit eb b = true ->
  (forall b', bn <= b' < b -> Z.testbit eb b' = false) ->
  (Z.to_nat (b - bn) < fuel)%nat ->
  SimpleBitMap.find_next_set_bit_scan fuel eb ai boundary (2 ^ bn) bn
  = Some (if ai * 64 + b <? boundary then ai * 64 + b else boundary).
Proof.
  revert bn. induction fuel as [|fuel IH]; intros bn Hbn Hb Hai Hrange Hset Hclear Hfuel; [lia |].
  cbn [SimpleBitMap.find_next_set_bit_scan]. unfold SimpleBitMap._bits_per_array_element.
  destruct (Z.ltb_spec bn 64); [| lia].
  rewrite land_pow2_eqb by lia. rewrite negb_involutive.
  destruct (Z.eq_dec bn b) as [->|Hne].
  - rewrite Hset. rewrite to_ssize_wrap by (rewrite half_modulus_eq in *; lia).
    destruct (ai * 64 + b <? boundary); reflexivity.
  - rewrite (Hclear bn) by lia.
    replace (Word.wrap (Z.shiftl (2 ^ bn) 1)) with (2 ^ (bn + 1)).
    + apply IH; try lia; try assumption. intros b' Hb'. apply Hclear. lia.
    + rewrite Z.shiftl_mul_pow2 by lia. rewrite <- Z.pow_add_r by lia.
      symmetry. apply wrap_small. pose proof (pow2_range (bn + 1)). lia.
Qed.

Lemma mask_low_bits eb bn n :
  0 <= bn < 64 -> 0 <= n < 64 ->
  Z.testbit (if bn >? 0 then Z.land eb (Word.not (Word.wrap (Word.one_shl bn - 1))) else eb) n
  = Z.testbit eb n && (bn <=? n).
Proof.
  intros Hbn Hn. destruct (Z.gtb_spec bn 0).
  - rewrite Z.land_spec, not_bits by lia. rewrite one_shl_pow2 by lia.
    rewrite wrap_small by (apply ones_below_range; lia).
    rewrite ones_below_bits by lia.
    destruct (Z.ltb_spec n bn), (Z.leb_spec bn n); try lia; reflexivity.
  - assert (bn = 0) by lia. subst. destruct (Z.leb_spec 0 n); [| lia].
    rewrite andb_true_r. reflexivity.
Qed.

Lemma mask_low_range eb bn :
  0 <= eb < Word.modulus ->
  0 <= (if bn >? 0 then Z.land eb (Word.not (Word.wrap (Word.one_shl bn - 1))) else eb)
  < Word.modulus.
Proof. intros H. destruct (bn >? 0); [apply land_range |]; exact H. Qed.

Lemma find_next_set_bit_loop_spec fuel bm start boundary :
  Spec.words_ok bm -> 0 <= start < boundary -> boundary < 2 ^ 62 ->
  (Z.to_nat (boundary - start) < fuel)%nat ->
  exists r, SimpleBitMap.find_next_set_bit_loop fuel bm start boundary = Some r /\
            start <= r <= boundary /\ Spec.none_set bm start r /\
            (r < boundary -> SimpleBitMap.is_set bm r = true).
Proof.
  intros Hok. revert start. induction fuel as [|fuel IH]; intros start Hs Hb Hfuel; [lia |].
  cbn [SimpleBitMap.find_next_set_bit_loop]. unfold SimpleBitMap._bits_per_array_element.
  assert (Hm : 0 <= start < Word.modulus) by (rewrite modulus_eq; lia).
  rewrite array_index_nonneg, bit_index_nonneg by exact Hm.
  set (ai := start / 64). set (bn := start mod 64).
  assert (Hbn : 0 <= bn < 64) by (subst bn; lia).
  assert (Hai : 0 <= ai) by (subst ai; lia).
  assert (Hst : start = ai * 64 + bn) by (subst ai bn; lia).
  set (eb := if bn >? 0 then _ else _).
  assert (Heb : 0 <= eb < Word.modulus) by (apply mask_low_range, Hok).
  assert (Hbits : forall n, 0 <= n < 64 -> Z.testbit eb n
                            = Z.testbit (SimpleBitMap._bitmap bm ai) n && (bn <=? n))
    by (intros n Hn; apply mask_low_bits; assumption).
  assert (Hword : forall j, ai * 64 <= j < ai * 64 + 64 ->
                    SimpleBitMap.is_set bm j = Z.testbit (SimpleBitMap._bitmap bm ai) (j - ai * 64)).
  { intros j Hj. rewrite is_set_testbit, array_index_nonneg, bit_index_nonneg
      by (rewrite modulus_eq; lia).
    replace (j / 64) with ai by lia. replace (j mod 64) with (j - ai * 64) by lia. reflexivity. }
  destruct (Z.eqb_spec eb 0) as [Hz|Hnz]; cbn [negb].
  - (* nothing here: next element *)
    assert (Hnone : Spec.none_set bm start (ai * 64 + 64)).
    { intros j Hj. rewrite Hword by lia.
      assert (Z.testbit eb (j - ai * 64) = false) by (rewrite Hz; apply Z.bits_0).
      rewrite Hbits in H by lia. destruct (Z.leb_spec bn (j - ai * 64)); [| lia].
      rewrite andb_true_r in H. exact H. }
    rewrite (wrap_small (64 - bn)) by (rewrite modulus_eq; lia).
    rewrite to_ssize_wrap by (rewrite half_modulus_eq; lia).
    destruct (Z.ltb_spec (start + (64 - bn)) boundary) as [Hlt|Hge].
    + destruct (IH (start + (64 - bn))) as [r [Hr [Hrange [Hn Hs']]]]; try lia.
      exists r. split; [exact Hr |]. split; [lia |]. split; [| exact Hs'].
      intros j Hj. destruct (Z_lt_le_dec j (start + (64 - bn))).
      * apply Hnone. lia.
      * apply Hn. lia.
    + exists boundary. split; [reflexivity |]. split; [lia |]. split; [| lia].
      intros j Hj. apply Hnone. lia.
  - (* the next set bit is in this element *)
    destruct (nonzero_word_has_bit eb Heb Hnz) as [b0 [Hb0 Hset0]].
    assert (Hb0' : bn <= b0).
    { rewrite Hbits in Hset0 by lia. apply andb_prop in Hset0. lia. }
    destruct (first_set_bit_upwards eb bn (Z.to_nat (64 - bn))) as [[b [Hb1 [Hb2 Hb3]]]|Hnone].
    2:{ rewrite Hnone in Hset0 by lia. discriminate. }
    rewrite one_shl_pow2 by lia.
    rewrite (find_next_set_bit_scan_found 65 eb ai boundary bn b); try lia; try assumption.
    2:{ rewrite half_modulus_eq. lia. }
    assert (Hset : SimpleBitMap.is_set bm (ai * 64 + b) = true).
    { rewrite Hword by lia. replace (ai * 64 + b - ai * 64) with b by lia.
      rewrite Hbits in Hb2 by lia. apply andb_prop in Hb2. tauto. }
    assert (Hnone : Spec.none_set bm start (ai * 64 + b)).
    { intros j Hj. rewrite Hword by lia.
      specialize (Hb3 (j - ai * 64)). rewrite Hbits in Hb3 by lia.
      destruct (Z.leb_spec bn (j - ai * 64)); [| lia].
      rewrite andb_true_r in Hb3. apply Hb3. lia. }
    destruct (Z.ltb_spec (ai * 64 + b) boundary).
    + exists (ai * 64 + b). split; [reflexivity |]. split; [lia |]. split; [exact Hnone |].
      intros _. exact Hset.
    + exists boundary. split; [reflexivity |]. split; [lia |]. split; [| lia].
      intros j Hj. apply Hnone. lia.
Qed.

Lemma find_prev_set_bit_scan_found fuel eb ai boundary bn b :
  0 <= b <= bn -> bn < 64 -> 0 <= ai -> ai * 64 + 64 <= Word.half_modulus ->
  Z.testbit eb b = true ->
  (forall b', b < b' <= bn -> Z.testbit eb b' = false) ->
  (Z.to_nat (bn - b) < fuel)%nat ->
  SimpleBitMap.find_prev_set_bit_scan fuel eb ai boundary (2 ^ bn) bn bn
  = Some (if ai * 64 + b >? boundary then ai * 64 + b else boundary).
Proof.
  revert bn. induction fuel as [|fuel IH]; intros bn Hbn Hb Hai Hrange Hset Hclear Hfuel; [lia |].
  cbn [SimpleBitMap.find_prev_set_bit_scan]. unfold SimpleBitMap._bits_per_array_element.
  destruct (Z.geb_spec bn 0); [| lia].
  rewrite land_pow2_eqb by lia. rewrite negb_involutive.
  destruct (Z.eq_dec bn b) as [->|Hne].
  - rewrite Hset. rewrite to_ssize_wrap by (rewrite half_modulus_eq in *; lia).
    destruct (ai * 64 + b >? boundary); reflexivity.
  - rewrite (Hclear bn) by lia.
    replace (Z.shiftr (2 ^ bn) 1) with (2 ^ (bn - 1)).
    + rewrite (wrap_small (bn - 1)) by (rewrite modulus_eq; lia).
      apply IH; try lia; try assumption. intros b' Hb'. apply Hclear. lia.
    + rewrite Z.shiftr_div_pow2 by lia. 
      replace (2 ^ bn) with (2 ^ (bn - 1) * 2 ^ 1) by (rewrite <- Z.pow_add_r by lia; f_equal; lia).
      rewrite Z.div_mul by lia. reflexivity.
Qed.

Lemma mask_high_bits eb bn n :
  0 <= bn < 64 -> 0 <= n < 64 ->
  Z.testbit (if bn <? 63 then Z.land eb (Word.wrap (Word.one_shl (bn + 1) - 1)) else eb) n
  = Z.testbit eb n && (n <=? bn).
Proof.
  intros Hbn Hn. destruct (Z.ltb_spec bn 63).
  - rewrite Z.land_spec. rewrite one_shl_pow2 by lia.
    rewrite wrap_small by (apply ones_below_range; lia).
    rewrite ones_below_bits by lia.
    destruct (Z.ltb_spec n (bn + 1)), (Z.leb_spec n bn); try lia; reflexivity.
  - destruct (Z.leb_spec n bn); [| lia]. rewrite andb_true_r. reflexivity.
Qed.

Lemma mask_high_range eb bn :
  0 <= eb < Word.modulus ->
  0 <= (if bn <? 63 then Z.land eb (Word.wrap (Word.one_shl (bn + 1) - 1)) else eb)
  < Word.modulus.
Proof. intros H. destruct (bn <? 63); [apply land_range |]; exact H. Qed.

Lemma find_prev_set_bit_loop_spec fuel bm last boundary :
  Spec.words_ok bm -> -1 <= boundary < last -> last < 2 ^ 62 ->
  (Z.to_nat (last - boundary) < fuel)%nat ->
  exists r, SimpleBitMap.find_prev_set_bit_loop fuel bm last boundary = Some r /\
            boundary <= r <= last /\ Spec.none_set bm (r + 1) (last + 1) /\
            (boundary < r -> SimpleBitMap.is_set bm r = true).
Proof.
  intros Hok. revert last. induction fuel as [|fuel IH]; intros last Hs Hb Hfuel; [lia |].
  cbn [SimpleBitMap.find_prev_set_bit_loop]. unfold SimpleBitMap._bits_per_array_element.
  assert (Hm : 0 <= last < Word.modulus) by (rewrite modulus_eq; lia).
  rewrite array_index_nonneg, bit_index_nonneg by exact Hm.
  set (ai := last / 64). set (bn := last mod 64).
  assert (Hbn : 0 <= bn < 64) by (subst bn; lia).
  assert (Hai : 0 <= ai) by (subst ai; lia).
  assert (Hst : last = ai * 64 + bn) by (subst ai bn; lia).
  rewrite (to_ssize_small ai) by (rewrite half_modulus_eq; lia).
  set (eb := if bn <? 63 then _ else _).
  assert (Heb : 0 <= eb < Word.modulus) by (apply mask_high_range, Hok).
  assert (Hbits : forall n, 0 <= n < 64 -> Z.testbit eb n
                            = Z.testbit (SimpleBitMap._bitmap bm ai) n && (n <=? bn))
    by (intros n Hn; apply mask_high_bits; assumption).
  assert (Hword : forall j, ai * 64 <= j < ai * 64 + 64 ->
                    SimpleBitMap.is_set bm j = Z.testbit (SimpleBitMap._bitmap bm ai) (j - ai * 64)).
  { intros j Hj. rewrite is_set_testbit, array_index_nonneg, bit_index_nonneg
      by (rewrite modulus_eq; lia).
    replace (j / 64) with ai by lia. replace (j mod 64) with (j - ai * 64) by lia. reflexivity. }
  destruct (Z.eqb_spec eb 0) as [Hz|Hnz]; cbn [negb].
  - assert (Hnone : Spec.none_set bm (ai * 64) (last + 1)).
    { intros j Hj. rewrite Hword by lia.
      assert (Z.testbit eb (j - ai * 64) = false) by (rewrite Hz; apply Z.bits_0).
      rewrite Hbits in H by lia. destruct (Z.leb_spec (j - ai * 64) bn); [| lia].
      rewrite andb_true_r in H. exact H. }
    rewrite (wrap_small (bn + 1)) by (rewrite modulus_eq; lia).
    rewrite to_ssize_wrap by (rewrite half_modulus_eq; lia).
    destruct (Z.gtb_spec (last - (bn + 1)) boundary) as [Hlt|Hge].
    + destruct (IH (last - (bn + 1))) as [r [Hr [Hrange [Hn Hs']]]]; try lia.
      exists r. split; [exact Hr |]. split; [lia |]. split; [| exact Hs'].
      intros j Hj. destruct (Z_lt_le_dec j (ai * 64)).
      * apply Hn. lia.
      * apply Hnone. lia.
    + exists boundary. split; [reflexivity |]. split; [lia |]. split; [| lia].
      intros j Hj. apply Hnone. lia.
  - destruct (nonzero_word_has_bit eb Heb Hnz) as [b0 [Hb0 Hset0]].
    assert (Hb0' : b0 <= bn).
    { rewrite Hbits in Hset0 by lia. apply andb_prop in Hset0. lia. }
    destruct (first_set_bit_downwards eb bn (Z.to_nat (bn + 1))) as [[b [Hb1 [Hb2 Hb3]]]|Hnone].
    2:{ rewrite Hnone in Hset0 by lia. discriminate. }
    rewrite one_shl_pow2 by lia.
    rewrite (to_ssize_small bn) by (rewrite half_modulus_eq; lia).
    rewrite (find_prev_set_bit_scan_found 65 eb ai boundary bn b); try lia; try assumption.
    2:{ rewrite half_modulus_eq. lia. }
    assert (Hset : SimpleBitMap.is_set bm (ai * 64 + b) = true).
    { rewrite Hword by lia. replace (ai * 64 + b - ai * 64) with b by lia.
      rewrite Hbits in Hb2 by lia. apply andb_prop in Hb2. tauto. }
    assert (Hnone : Spec.none_set bm (ai * 64 + b + 1) (last + 1)).
    { intros j Hj. rewrite Hword by lia.
      specialize (Hb3 (j - ai * 64)). rewrite Hbits in Hb3 by lia.
      destruct (Z.leb_spec (j - ai * 64) bn); [| lia].
      rewrite andb_true_r in Hb3. apply Hb3. lia. }
    destruct (Z.gtb_spec (ai * 64 + b) boundary).
    + exists (ai * 64 + b). split; [reflexivity |]. split; [lia |]. split; [exact Hnone |].
      intros _. exact Hset.
    + exists boundary. split; [reflexivity |]. split; [lia |]. split; [| lia].
      intros j Hj. apply Hnone. lia.
Qed.

Lemma find_next_set_bit_spec bm start boundary :
  Spec.words_ok bm -> 0 <= start < boundary -> boundary < 2 ^ 62 ->
  exists r, SimpleBitMap.find_next_set_bit bm start boundary = Some r /\
            start <= r <= boundary /\ Spec.none_set bm start r /\
            (r < boundary -> SimpleBitMap.is_set bm r = true).
Proof.
  intros Hok Hs Hb. apply find_next_set_bit_loop_spec; try assumption. lia.
Qed.

Lemma find_prev_set_bit_spec bm last boundary :
  Spec.words_ok bm -> -1 <= boundary < last -> last < 2 ^ 62 ->
  exists r, SimpleBitMap.find_prev_set_bit bm last boundary = Some r /\
            boundary <= r <= last /\ Spec.none_set bm (r + 1) (last + 1) /\
            (boundary < r -> SimpleBitMap.is_set bm r = true).
Proof.
  intros Hok Hs Hb. apply find_prev_set_bit_loop_spec; try assumption. lia.
Qed.

(* ================================================================= *)
(** ** The forward search for a run of set bits *)

(** The mask with exactly the bits [lo, hi). *)
Lemma span_mask_bits lo hi n :
  0 <= lo <= hi -> hi <= 64 -> 0 <= n < 64 ->
  Z.testbit (Z.land (2 ^ hi - 1) (Word.not (2 ^ lo - 1))) n = (lo <=? n) && (n <? hi).
Proof.
  intros Hlo Hhi Hn. rewrite Z.land_spec, not_bits, !ones_below_bits by lia.
  destruct (Z.ltb_spec n hi), (Z.ltb_spec n lo), (Z.leb_spec lo n); try lia; reflexivity.
Qed.

Lemma span_mask_nonneg lo hi : 0 <= hi -> 0 <= Z.land (2 ^ hi - 1) (Word.not (2 ^ lo - 1)).
Proof.
  intros H. apply Z.land_nonneg. left. pose proof (Z.pow_pos_nonneg 2 hi). lia.
Qed.

Lemma span_mask_high lo hi n :
  0 <= hi <= 64 -> 64 <= n -> Z.testbit (Z.land (2 ^ hi - 1) (Word.not (2 ^ lo - 1))) n = false.
Proof.
  intros Hhi Hn. rewrite Z.land_spec, ones_below_bits by lia.
  destruct (Z.ltb_spec n hi); [lia | reflexivity].
Qed.

(** A word matches the span mask exactly when its bits [lo, hi) are set. *)
Lemma land_span_mask w lo hi :
  0 <= lo <= hi -> hi <= 64 ->
  (Z.land w (Z.land (2 ^ hi - 1) (Word.not (2 ^ lo - 1)))
   =? Z.land (2 ^ hi - 1) (Word.not (2 ^ lo - 1))) = true
  <-> (forall n, lo <= n < hi -> Z.testbit w n = true).
Proof.
  intros Hlo Hhi. rewrite land_eq_mask by (apply span_mask_nonneg; lia). split.
  - intros H n Hn. apply H; [lia |]. rewrite span_mask_bits by lia.
    destruct (Z.leb_spec lo n), (Z.ltb_spec n hi); try lia; reflexivity.
  - intros H n Hn Hb. destruct (Z_lt_le_dec n 64).
    + rewrite span_mask_bits in Hb by lia. apply andb_prop in Hb. apply H. lia.
    + rewrite span_mask_high in Hb by lia. discriminate.
Qed.

Lemma is_set_in_word bm ai j :
  0 <= ai -> ai * 64 <= j < ai * 64 + 64 -> j < Word.modulus ->
  SimpleBitMap.is_set bm j = Z.testbit (SimpleBitMap._bitmap bm ai) (j - ai * 64).
Proof.
  intros Hai Hj Hm. rewrite is_set_testbit, array_index_nonneg, bit_index_nonneg by lia.
  replace (j / 64) with ai by lia. replace (j mod 64) with (j - ai * 64) by lia. reflexivity.
Qed.

Section ForwardRunProofs.

Variable shl_oob : Z -> Z.
Hypothesis shl_oob_64 : shl_oob 64 = 0.

Lemma overreach_mask_value n :
  0 <= n <= 64 ->
  Word.wrap (SimpleBitMap.one_shl_any shl_oob (Word.wrap n) - 1) = 2 ^ n - 1.
Proof.
  intros Hn. rewrite (wrap_small n) by (rewrite modulus_eq; lia).
  unfold SimpleBitMap.one_shl_any.
  destruct (Z.leb_spec 0 n); [| lia]. destruct (Z.ltb_spec n 64); cbn [andb].
  - rewrite one_shl_pow2 by lia. apply wrap_small. apply ones_below_range. lia.
  - assert (n = 64) by lia. subst. rewrite shl_oob_64. reflexivity.
Qed.

End ForwardRunProofs.

(** The highest clear bit of a span that is not all set. *)
Lemma highest_clear_bit bm s (n : nat) :
  (exists z, s <= z < s + Z.of_nat n /\ SimpleBitMap.is_set bm z = false /\
             forall j, z < j < s + Z.of_nat n -> SimpleBitMap.is_set bm j = true)
  \/ Spec.all_set bm s (Z.of_nat n).
Proof.
  induction n as [|n IHn].
  - right. intros j Hj. lia.
  - destruct (SimpleBitMap.is_set bm (s + Z.of_nat n)) eqn:E.
    + destruct IHn as [[z [H1 [H2 H3]]]|IHn].
      * left. exists z. repeat split; try lia; try assumption.
        intros j Hj. destruct (Z.eq_dec j (s + Z.of_nat n)); [subst; exact E | apply H3; lia].
      * right. intros j Hj.
        destruct (Z.eq_dec j (s + Z.of_nat n)); [subst; exact E | apply IHn; lia].
    + left. exists (s + Z.of_nat n). repeat split; try lia; try assumption.
Qed.

Lemma count_trailing_ones_loop_spec fuel eb b zb c :
  0 <= zb <= b -> b < 64 ->
  Z.testbit eb zb = false ->
  (forall n, zb < n <= b -> Z.testbit eb n = true) ->
  (Z.to_nat (b - zb) < fuel)%nat ->
  SimpleBitMap.count_trailing_ones_loop fuel eb (2 ^ b) c = Some (c + (b - zb)).
Proof.
  revert b c. induction fuel as [|fuel IH]; intros b c Hzb Hb Hz Hones Hfuel; [lia |].
  cbn [SimpleBitMap.count_trailing_ones_loop].
  rewrite land_pow2_eqb by lia.
  destruct (Z.eq_dec b zb) as [->|Hne].
  - rewrite Hz. cbn [negb]. f_equal. lia.
  - rewrite (Hones b) by lia. cbn [negb].
    replace (Z.shiftr (2 ^ b) 1) with (2 ^ (b - 1)).
    + rewrite (IH (b - 1) (c + 1)); try lia; try assumption.
      * f_equal. lia.
      * intros n Hn. apply Hones. lia.
    + rewrite Z.shiftr_div_pow2 by lia.
      replace (2 ^ b) with (2 ^ (b - 1) * 2 ^ 1) by (rewrite <- Z.pow_add_r by lia; f_equal; lia).
      rewrite Z.div_mul by lia. reflexivity.
Qed.

Lemma count_trailing_ones_spec fuel bm last z :
  Spec.words_ok bm -> 0 <= z <= last -> last < 2 ^ 62 ->
  SimpleBitMap.is_set bm z = false ->
  (forall j, z < j <= last -> SimpleBitMap.is_set bm j = true) ->
  (Z.to_nat (last / 64 - z / 64) < fuel)%nat ->
  SimpleBitMap.count_trailing_ones fuel bm last = Some (last - z).
Proof.
  intros Hok. revert last.
  induction fuel as [|fuel IH]; intros last Hz Hl Hclear Hones Hfuel; [lia |].
  cbn [SimpleBitMap.count_trailing_ones].
  assert (Hm : 0 <= last < Word.modulus) by (rewrite modulus_eq; lia).
  rewrite array_index_nonneg, bit_index_nonneg by exact Hm.
  set (ai := last / 64). set (bn := last mod 64).
  assert (Hbn : 0 <= bn < 64) by (subst bn; lia).
  assert (Hai : 0 <= ai) by (subst ai; lia).
  assert (Hst : last = ai * 64 + bn) by (subst ai bn; lia).
  rewrite one_shl_pow2 by lia.
  assert (Hmaskv : Word.wrap (2 ^ bn * 2 - 1) = 2 ^ (bn + 1) - 1).
  { replace (2 ^ bn * 2) with (2 ^ (bn + 1)) by (rewrite Z.pow_add_r by lia; reflexivity).
    destruct (Z.eq_dec bn 63) as [E63|]; [rewrite E63; reflexivity |].
    apply wrap_small, ones_below_range. lia. }
  rewrite Hmaskv.
  assert (Hmask : (Z.land (SimpleBitMap._bitmap bm ai) (2 ^ (bn + 1) - 1) =? 2 ^ (bn + 1) - 1) = true
                  <-> (forall n, 0 <= n <= bn -> Z.testbit (SimpleBitMap._bitmap bm ai) n = true)).
  { rewrite land_eq_mask by (pose proof (Z.pow_pos_nonneg 2 (bn + 1)); lia). split.
    - intros H n Hn. apply H; [lia |]. rewrite ones_below_bits by lia.
      destruct (Z.ltb_spec n (bn + 1)); [reflexivity | lia].
    - intros H n Hn Hb. rewrite ones_below_bits in Hb by lia.
      destruct (Z.ltb_spec n (bn + 1)); [| discriminate]. apply H. lia. }
  destruct (Z.land (SimpleBitMap._bitmap bm ai) _ =? _) eqn:E.
  - pose proof (proj1 Hmask eq_refl) as Hall. clear Hmask.
    assert (Hzlow : z < ai * 64).
    { destruct (Z_lt_le_dec z (ai * 64)); [assumption |]. exfalso.
      rewrite (is_set_in_word bm ai) in Hclear by lia.
      rewrite Hall in Hclear by lia. discriminate. }
    rewrite to_ssize_wrap by (rewrite half_modulus_eq; lia).
    rewrite (IH (last - (bn + 1))); try lia; try assumption.
    + f_equal. rewrite wrap_small by (rewrite modulus_eq; lia). lia.
    + intros j Hj. apply Hones. lia.
  - assert (Hzhigh : ai * 64 <= z).
    { destruct (Z_lt_le_dec z (ai * 64)); [| assumption]. exfalso.
      assert (E' : false = true); [| discriminate].
      apply Hmask. intros n Hn. specialize (Hones (ai * 64 + n)).
      rewrite (is_set_in_word bm ai) in Hones by lia.
      replace (ai * 64 + n - ai * 64) with n in Hones by lia. apply Hones. lia. }
    rewrite (count_trailing_ones_loop_spec 65 _ bn (z - ai * 64) 0); try lia.
    + f_equal. lia.
    + rewrite <- (is_set_in_word bm ai) by lia. exact Hclear.
    + intros n Hn. specialize (Hones (ai * 64 + n)).
      rewrite (is_set_in_word bm ai) in Hones by lia.
      replace (ai * 64 + n - ai * 64) with n in Hones by lia. apply Hones. lia.
Qed.

Lemma words_ok_create memory n : Spec.words_ok (SimpleBitMap.mk 0 0 memory) ->
  Spec.words_ok (SimpleBitMap.create memory n).
Proof.
  intros H. unfold SimpleBitMap.create. apply words_ok_clear_all. exact H.
Qed.

Lemma words_ok_two_runs : Spec.words_ok Example.two_runs_of_128.
Proof.
  unfold Example.two_runs_of_128. cbn [fold_left].
  repeat apply words_ok_set_bit. apply words_ok_create.
  intros j. cbn [SimpleBitMap._bitmap]. rewrite modulus_eq. lia.
Qed.

(** A search for a run of length 0 does not fail: with bit 0 set, the
    search in [0, 64) returns [start = 0], not [end = 64]. *)
Lemma find_next_consecutive_bits_of_length_zero :
  SimpleBitMap.find_next_consecutive_bits Example.shl_truncating Example.bit0_of_64 0 0 64
  = Some 0
  /\ SimpleBitMap.find_next_consecutive_bits Example.shl_truncating Example.bit0_of_64 0 0 64
     <> Some 64.
Proof. split; [vm_compute; reflexivity | vm_compute; discriminate]. Qed.

(** The result of the search on the example map: the run at 70. *)
Example find_next_consecutive_bits_two_runs :
  SimpleBitMap.find_next_consecutive_bits Example.shl_truncating
    Example.two_runs_of_128 3 0 128 = Some 70.
Proof. vm_compute. reflexivity. Qed.

(** Where [(size_t) 1 << 64] is evaluated as [1 << (64 mod 64)], the mask
    of a span that ends on the last bit of a word is empty, and the span
    is accepted whatever its bits: bits 62 and 63 are reported as a run
    although bit 63 is clear. *)
Remark find_next_consecutive_bits_when_shift_count_wraps :
  SimpleBitMap.is_set Example.bit62_of_64 63 = false
  /\ SimpleBitMap.find_next_consecutive_bits Example.shl_count_mod_64
       Example.bit62_of_64 2 62 64 = Some 62
  /\ SimpleBitMap.find_next_consecutive_bits Example.shl_truncating
       Example.bit62_of_64 2 62 64 = Some 64.
Proof. repeat split; vm_compute; reflexivity. Qed.

(* ================================================================= *)
(** ** The empty bounds after a region is moved into a partition *)

(** C7 at its failing input.  [expand_interval_if_boundary_modified]
    first lets [leftmost_empty] find the new region 3 and then calls
    [rightmost_empty], whose scan starts at the stale bound 2, finds no
    empty region at or below it, and on that path resets
    [_leftmosts_empty] to [_max].  Afterwards region 3 is a member of the
    Mutator partition with [alloc_capacity = region_size_bytes], yet
    [leftmost_empty(Mutator)] returns [max_regions = 4]; a one-region
    humongous request then fails, and [assert_bounds] of a debug build
    reports "free empty regions before the leftmost". *)
Lemma leftmost_empty_misses_returned_region :
  forall dbg,
    Scenario.leftmost_empty_after dbg (Scenario.collector_region_returned dbg)
    = Some (true, Scenario.MiB, 4, 4)
    /\ Scenario.result_of
         (Scenario.and_then (Scenario.collector_region_returned dbg)
            (FreeSet.allocate dbg Scenario.cfg4 (fun _ => 0)
               Scenario.humongous_70000_words false))
       = Some None
    /\ Scenario.failure_of
         (Scenario.and_then (Scenario.collector_region_returned dbg)
            (FreeSet.p_assert_bounds true Scenario.cfg4))
       = Some "free empty regions before the leftmost"%string.
Proof.
  intros [|]; repeat split; vm_compute; reflexivity.
Qed.

(* ================================================================= *)
(** ** The partition table: running the code *)

Import TableSpec.

(** ** Running monadic code *)

Lemma bind_eq {S A B} (m : Run.M S A) (k : A -> Run.M S B) s a s' :
  m s = Ret a s' -> Run.bind m k s = k a s'.
Proof. intros E. unfold Run.bind. rewrite E. reflexivity. Qed.

Lemma bind_get {S B} (k : S -> Run.M S B) s : Run.bind Run.get k s = k s s.
Proof. reflexivity. Qed.

Lemma bind_ret {S A B} (a : A) (k : A -> Run.M S B) s : Run.bind (Run.ret a) k s = k a s.
Proof. reflexivity. Qed.

Lemma bind_modify {S B} (f : S -> S) (k : unit -> Run.M S B) s :
  Run.bind (Run.modify f) k s = k tt (f s).
Proof. reflexivity. Qed.

Lemma assert_true {S} dbg msg (s : S) : Run.assert_ dbg true msg s = Ret tt s.
Proof. destruct dbg; reflexivity. Qed.

Lemma assertM_true {S} dbg (cond : Run.M S bool) msg (s : S) :
  cond s = Ret true s -> Run.assertM dbg cond msg s = Ret tt s.
Proof.
  intros E. unfold Run.assertM. destruct dbg; [| reflexivity].
  rewrite (bind_eq _ _ _ _ _ E). reflexivity.
Qed.

Lemma partition_eqb_eq p q : Partitions.partition_eqb p q = true <-> p = q.
Proof. destruct p, q; cbn; split; congruence. Qed.

Lemma partition_eqb_refl p : Partitions.partition_eqb p p = true.
Proof. destruct p; reflexivity. Qed.

Lemma partition_eqb_neq p q : p <> q -> Partitions.partition_eqb p q = false.
Proof. destruct p, q; cbn; congruence. Qed.

Lemma upd_same {A} (a : Partitions.per_partition A) p v : Partitions.upd a p v p = v.
Proof. unfold Partitions.upd. rewrite partition_eqb_refl. reflexivity. Qed.

Lemma upd_other {A} (a : Partitions.per_partition A) p q v :
  q <> p -> Partitions.upd a p v q = a q.
Proof. intros H. unfold Partitions.upd. rewrite partition_eqb_neq by exact H. reflexivity. Qed.

(** ** State relations *)

Lemma hints_only_refl p s : hints_only p s s.
Proof. unfold hints_only. repeat split; reflexivity. Qed.

Lemma hints_only_trans p s1 s2 s3 :
  hints_only p s1 s2 -> hints_only p s2 s3 -> hints_only p s1 s3.
Proof.
  unfold hints_only. intros (A1 & A2 & A3 & A4 & A5 & A6 & A7) (B1 & B2 & B3 & B4 & B5 & B6 & B7).
  repeat split; try congruence;
    destruct (A7 q H) as (C1 & C2 & C3 & C4); destruct (B7 q H) as (D1 & D2 & D3 & D4);
    congruence.
Qed.

Lemma empties_only_refl p s : empties_only p s s.
Proof. unfold empties_only. repeat split; try reflexivity; try apply hints_only_refl. tauto. Qed.

Lemma empties_only_trans p s1 s2 s3 :
  empties_only p s1 s2 -> empties_only p s2 s3 -> empties_only p s1 s3.
Proof.
  intros (A1 & A2 & A3 & A4) (B1 & B2 & B3 & B4).
  split; [eapply hints_only_trans; eassumption |].
  repeat split; try congruence. intros H.
  assert (E : Partitions._max s2 = Partitions._max s1) by apply A1.
  rewrite <- E. apply B4. rewrite E. apply A4. exact H.
Qed.

Lemma set_leftmost_empty_empties_only p v s :
  empties_only p s (Partitions.with_leftmosts_empty s (Partitions.upd (Partitions._leftmosts_empty s) p v)).
Proof.
  unfold empties_only, hints_only. cbn. repeat split; try reflexivity; try tauto.
  apply upd_other. assumption.
Qed.

Lemma set_rightmost_empty_empties_only p v s :
  v < Partitions._max s ->
  empties_only p s (Partitions.with_rightmosts_empty s (Partitions.upd (Partitions._rightmosts_empty s) p v)).
Proof.
  intros Hv. unfold empties_only, hints_only. cbn. repeat split; try reflexivity.
  - apply upd_other. assumption.
  - intros _. rewrite upd_same. exact Hv.
Qed.

(** ** Queries *)

Section TableQueries.

Variable dbg : bool.

Lemma leftmost_eq p s :
  Partitions.lt_NumPartitions p = true ->
  Partitions.leftmost dbg p s
  = Ret (if Partitions._leftmosts s p >=? Partitions._max s
         then Partitions._max s else Partitions._leftmosts s p) s.
Proof.
  intros Hp. unfold Partitions.leftmost. rewrite Hp.
  rewrite (bind_eq _ _ _ _ _ (assert_true dbg _ s)), bind_get.
  destruct (_ >=? _); reflexivity.
Qed.

Lemma leftmost_in_range p s :
  Partitions.lt_NumPartitions p = true -> Partitions._leftmosts s p <= Partitions._max s ->
  Partitions.leftmost dbg p s = Ret (Partitions._leftmosts s p) s.
Proof.
  intros Hp Hl. rewrite leftmost_eq by exact Hp.
  destruct (Z.geb_spec (Partitions._leftmosts s p) (Partitions._max s)); [| reflexivity].
  f_equal. lia.
Qed.

Lemma rightmost_eq p s :
  Partitions.lt_NumPartitions p = true ->
  Partitions.rightmost dbg p s = Ret (Partitions._rightmosts s p) s.
Proof.
  intros Hp. unfold Partitions.rightmost. rewrite Hp.
  rewrite (bind_eq _ _ _ _ _ (assert_true dbg _ s)), bind_get. reflexivity.
Qed.

Lemma bm_is_set_eq p idx s :
  table_ok s -> Partitions.lt_NumPartitions p = true -> 0 <= idx < Partitions._max s ->
  Partitions.bm_is_set dbg p idx s = Ret (SimpleBitMap.is_set (Partitions._membership s p) idx) s.
Proof.
  intros [_ Hok] Hp Hidx. destruct (Hok p Hp) as (Hn & _ & _).
  unfold Partitions.bm_is_set. rewrite bind_get.
  unfold SimpleBitMap.index_in_range. rewrite Hn.
  destruct (Z.leb_spec 0 idx); [| lia]. destruct (Z.ltb_spec idx (Partitions._max s)); [| lia].
  cbn [andb]. rewrite (bind_eq _ _ _ _ _ (assert_true dbg _ s)). reflexivity.
Qed.

Lemma bm_find_next_set_bit_eq p st b s :
  table_ok s -> Partitions.lt_NumPartitions p = true ->
  0 <= st < Partitions._max s -> st < b <= Partitions._max s ->
  Partitions.bm_find_next_set_bit dbg p st b s
  = Run.of_option (SimpleBitMap.find_next_set_bit (Partitions._membership s p) st b) s.
Proof.
  intros [_ Hok] Hp Hst Hb. destruct (Hok p Hp) as (Hn & _ & _).
  unfold Partitions.bm_find_next_set_bit. rewrite bind_get.
  unfold SimpleBitMap.index_in_range, SimpleBitMap.find_next_set_bit_boundary_ok. rewrite Hn.
  destruct (Z.leb_spec 0 st); [| lia]. destruct (Z.ltb_spec st (Partitions._max s)); [| lia].
  destruct (Z.gtb_spec b st); [| lia]. destruct (Z.leb_spec b (Partitions._max s)); [| lia].
  cbn [andb]. rewrite (bind_eq _ _ _ _ _ (assert_true dbg _ s)).
  rewrite (bind_eq _ _ _ _ _ (assert_true dbg _ s)). reflexivity.
Qed.

Lemma bm_find_prev_set_bit_eq p la s :
  table_ok s -> Partitions.lt_NumPartitions p = true ->
  0 <= la < Partitions._max s ->
  Partitions.bm_find_prev_set_bit dbg p la (-1) s
  = Run.of_option (SimpleBitMap.find_prev_set_bit (Partitions._membership s p) la (-1)) s.
Proof.
  intros [_ Hok] Hp Hla. destruct (Hok p Hp) as (Hn & _ & _).
  unfold Partitions.bm_find_prev_set_bit. rewrite bind_get.
  unfold SimpleBitMap.index_in_range, SimpleBitMap.find_prev_set_bit_boundary_ok. rewrite Hn.
  destruct (Z.leb_spec 0 la); [| lia]. destruct (Z.ltb_spec la (Partitions._max s)); [| lia].
  destruct (Z.geb_spec (-1) (-1)); [| lia]. destruct (Z.ltb_spec (-1) la); [| lia].
  cbn [andb]. rewrite (bind_eq _ _ _ _ _ (assert_true dbg _ s)).
  rewrite (bind_eq _ _ _ _ _ (assert_true dbg _ s)). reflexivity.
Qed.

(** [find_index_of_next_available_region]: the first member at or after
    [start_index] (and at or after [leftmost]), or [_max]. *)
Lemma find_index_of_next_available_region_spec p start s :
  table_ok s -> Partitions.lt_NumPartitions p = true ->
  0 <= Partitions._leftmosts s p <= Partitions._max s ->
  Partitions._rightmosts s p < Partitions._max s ->
  exists r,
    Partitions.find_index_of_next_available_region dbg p start s = Ret r s /\
    ((r = Partitions._max s /\
      forall j, Z.max start (Partitions._leftmosts s p) <= j <= Partitions._rightmosts s p ->
                ~ member s p j)
     \/
     (Z.max start (Partitions._leftmosts s p) <= r <= Partitions._rightmosts s p /\
      member s p r /\
      forall j, Z.max start (Partitions._leftmosts s p) <= j < r -> ~ member s p j)).
Proof.
  intros Hok Hp HL HR. destruct Hok as [Hmax Hok]. destruct (Hok p Hp) as (Hn & Hw & _).
  unfold Partitions.find_index_of_next_available_region.
  rewrite (bind_eq _ _ _ _ _ (rightmost_eq p s Hp)).
  rewrite (bind_eq _ _ _ _ _ (leftmost_in_range p s Hp (proj2 HL))).
  rewrite bind_get.
  set (L := Partitions._leftmosts s p) in *. set (R := Partitions._rightmosts s p) in *.
  set (N := Partitions._max s) in *.
  destruct (Z.ltb_spec R L) as [Hlt|Hge]; cbn [orb].
  { exists N. split; [reflexivity |]. left. split; [reflexivity |]. intros j Hj. lia. }
  destruct (Z.gtb_spec start R) as [Hgt|Hle].
  { exists N. split; [reflexivity |]. left. split; [reflexivity |]. intros j Hj. lia. }
  set (st := if start <? L then L else start).
  assert (Hst : st = Z.max start L) by (subst st; destruct (Z.ltb_spec start L); lia).
  destruct (find_next_set_bit_spec (Partitions._membership s p) st (R + 1)) as [r [Hr [Hrange [Hnone Hset]]]];
    try assumption; try lia.
  rewrite bind_eq with (a := r) (s' := s).
  2:{ rewrite bm_find_next_set_bit_eq; [fold st; rewrite Hr; reflexivity | split; assumption | assumption | fold L; lia | fold L R N; lia]. }
  unfold Run.ret. eexists. split; [reflexivity |].
  destruct (Z.gtb_spec r R).
  - left. split; [reflexivity |]. intros j Hj Hm. unfold member in Hm.
    rewrite Hnone in Hm by lia. discriminate.
  - right. split; [lia |]. split; [apply Hset; lia |]. intros j Hj Hm. unfold member in Hm.
    rewrite Hnone in Hm by lia. discriminate.
Qed.

(** [find_index_of_previous_available_region]: the last member at or
    before [last_index] (and at or before [rightmost]), or -1. *)
Lemma find_index_of_previous_available_region_spec p last s :
  table_ok s -> Partitions.lt_NumPartitions p = true ->
  0 <= Partitions._leftmosts s p <= Partitions._max s ->
  Partitions._rightmosts s p < Partitions._max s ->
  (Partitions._leftmosts s p < Partitions._max s -> 0 <= Partitions._rightmosts s p) ->
  last < Partitions._max s ->
  exists r,
    Partitions.find_index_of_previous_available_region dbg p last s = Ret r s /\
    ((r = -1 /\
      forall j, Partitions._leftmosts s p <= j <= Z.min last (Partitions._rightmosts s p) ->
                ~ member s p j)
     \/
     (Partitions._leftmosts s p <= r <= Z.min last (Partitions._rightmosts s p) /\
      member s p r /\
      forall j, r < j <= Z.min last (Partitions._rightmosts s p) -> ~ member s p j)).
Proof.
  intros Hok Hp HL HR HLR Hlast. destruct Hok as [Hmax Hok]. destruct (Hok p Hp) as (Hn & Hw & _).
  unfold Partitions.find_index_of_previous_available_region.
  rewrite (bind_eq _ _ _ _ _ (rightmost_eq p s Hp)).
  rewrite (bind_eq _ _ _ _ _ (leftmost_in_range p s Hp (proj2 HL))).
  set (L := Partitions._leftmosts s p) in *. set (R := Partitions._rightmosts s p) in *.
  set (N := Partitions._max s) in *.
  destruct (Z.ltb_spec last L) as [Hlt|Hge].
  { exists (-1). split; [reflexivity |]. left. split; [reflexivity |]. intros j Hj. lia. }
  set (la := if last >? R then R else last).
  assert (Hla : la = Z.min last R) by (subst la; destruct (Z.gtb_spec last R); lia).
  destruct (find_prev_set_bit_spec (Partitions._membership s p) la (-1)) as [r [Hr [Hrange [Hnone Hset]]]];
    try assumption; try lia.
  rewrite bind_eq with (a := r) (s' := s).
  2:{ rewrite bm_find_prev_set_bit_eq; [fold la; rewrite Hr; reflexivity | split; assumption | assumption | fold L R N; lia]. }
  unfold Run.ret. eexists. split; [reflexivity |].
  destruct (Z.ltb_spec r L).
  - left. split; [reflexivity |]. intros j Hj Hm. unfold member in Hm.
    rewrite Hnone in Hm by lia. discriminate.
  - right. split; [lia |]. split; [apply Hset; lia |]. intros j Hj Hm. unfold member in Hm.
    rewrite Hnone in Hm by lia. discriminate.
Qed.

End TableQueries.

(* ================================================================= *)
(** ** Reasoning about runs *)

Import Triple.

Lemma bind_inv {S A B} (m : Run.M S A) (k : A -> Run.M S B) s b s' :
  Run.bind m k s = Ret b s' -> exists a s1, m s = Ret a s1 /\ k a s1 = Ret b s'.
Proof.
  unfold Run.bind. destruct (m s) as [a s1| |]; intros E; try discriminate.
  exists a, s1. split; [reflexivity | exact E].
Qed.

Lemma post_conseq {S A} (m : Run.M S A) s (Q Q' : A -> S -> Prop) :
  post m s Q -> (forall a s', Q a s' -> Q' a s') -> post m s Q'.
Proof. intros H HQ a s' E. apply HQ, H, E. Qed.

Lemma post_ret {S A} (a : A) (s : S) (Q : A -> S -> Prop) : Q a s -> post (Run.ret a) s Q.
Proof. intros H a' s' E. inversion E; subst. exact H. Qed.

Lemma post_get {S} (s : S) (Q : S -> S -> Prop) : Q s s -> post Run.get s Q.
Proof. intros H a' s' E. inversion E; subst. exact H. Qed.

Lemma post_gets {S A} (f : S -> A) (s : S) (Q : A -> S -> Prop) :
  Q (f s) s -> post (Run.gets f) s Q.
Proof. intros H a' s' E. inversion E; subst. exact H. Qed.

Lemma post_modify {S} (f : S -> S) (s : S) (Q : unit -> S -> Prop) :
  Q tt (f s) -> post (Run.modify f) s Q.
Proof. intros H a' s' E. inversion E; subst. exact H. Qed.

Lemma post_fatal {S A} msg (s : S) (Q : A -> S -> Prop) : post (Run.fatal msg) s Q.
Proof. intros a' s' E. discriminate. Qed.

Lemma post_of_option {S A} (o : option A) (s : S) (Q : A -> S -> Prop) :
  (forall a, o = Some a -> Q a s) -> post (Run.of_option o) s Q.
Proof. intros H a' s' E. destruct o; inversion E; subst. apply H. reflexivity. Qed.

Lemma post_bind {S A B} (m : Run.M S A) (k : A -> Run.M S B) s (Q : B -> S -> Prop) :
  post m s (fun a s1 => post (k a) s1 Q) -> post (Run.bind m k) s Q.
Proof.
  intros H b s' E. apply bind_inv in E. destruct E as (a & s1 & E1 & E2).
  exact (H a s1 E1 b s' E2).
Qed.

Lemma post_frame {S A} (R : S -> S -> Prop) (m : Run.M S A) s (Q : A -> S -> Prop) :
  frames R m -> (forall a s', R s s' -> Q a s') -> post m s Q.
Proof. intros H HQ a s' E. apply HQ. exact (H s a s' E). Qed.

Lemma post_zoom {S T A} (proj : S -> T) (inj : S -> T -> S) (m : Run.M T A) s
      (Q : A -> S -> Prop) :
  post m (proj s) (fun a t' => Q a (inj s t')) -> post (Run.zoom proj inj m) s Q.
Proof.
  intros H a s' E. unfold Run.zoom in E.
  destruct (m (proj s)) as [a1 t1| |] eqn:Em; inversion E; subst. apply H. exact Em.
Qed.

(** An assertion that returned has left the state as its condition left it. *)
Lemma post_assertM {S} dbg (cond : Run.M S bool) msg (s : S) (Q : unit -> S -> Prop) :
  Q tt s -> post cond s (fun _ s' => Q tt s') -> post (Run.assertM dbg cond msg) s Q.
Proof.
  intros H Hc. unfold Run.assertM. destruct dbg; [| apply post_ret; exact H].
  apply post_bind. eapply post_conseq; [exact Hc |]. cbn. intros [|] s' HQ.
  - apply post_ret. exact HQ.
  - apply post_fatal.
Qed.

Lemma post_assert {S} dbg (cond : bool) msg (s : S) (Q : unit -> S -> Prop) :
  Q tt s -> post (Run.assert_ dbg cond msg) s Q.
Proof.
  intros H. unfold Run.assert_. apply post_assertM; [exact H |]. apply post_ret. exact H.
Qed.

Section Frames.

Context {S : Type} (R : S -> S -> Prop) `{!PreOrder R}.

Let R_refl : forall s, R s s := fun s => reflexivity s.
Let R_trans : forall s1 s2 s3, R s1 s2 -> R s2 s3 -> R s1 s3 :=
  fun s1 s2 s3 H1 H2 => transitivity H1 H2.

Lemma frames_pure {A} (m : Run.M S A) : frames eq m -> frames R m.
Proof. intros H s a s' E. rewrite <- (H s a s' E). apply R_refl. Qed.

Lemma frames_ret {A} (a : A) : frames R (Run.ret a).
Proof. intros s. apply post_ret. apply R_refl. Qed.

Lemma frames_get : frames R Run.get.
Proof. intros s. apply post_get. apply R_refl. Qed.

Lemma frames_gets {A} (f : S -> A) : frames R (Run.gets f).
Proof. intros s. apply post_gets. apply R_refl. Qed.

Lemma frames_fatal {A} msg : frames R (@Run.fatal S A msg).
Proof. intros s. apply post_fatal. Qed.

Lemma frames_of_option {A} (o : option A) : frames R (Run.of_option o).
Proof. intros s. apply post_of_option. intros. apply R_refl. Qed.

Lemma frames_modify (f : S -> S) : (forall s, R s (f s)) -> frames R (Run.modify f).
Proof. intros H s. apply post_modify. apply H. Qed.

Lemma frames_bind {A B} (m : Run.M S A) (k : A -> Run.M S B) :
  frames R m -> (forall a, frames R (k a)) -> frames R (Run.bind m k).
Proof.
  intros Hm Hk s. apply post_bind. intros a s1 E1 b s2 E2.
  eapply R_trans; [exact (Hm s a s1 E1) | exact (Hk a s1 b s2 E2)].
Qed.

Lemma frames_assertM dbg (cond : Run.M S bool) msg :
  frames R cond -> frames R (Run.assertM dbg cond msg).
Proof.
  intros Hc s. apply post_assertM; [apply R_refl |].
  intros a s' E. exact (Hc s a s' E).
Qed.

Lemma frames_assert dbg (cond : bool) msg : frames R (@Run.assert_ S dbg cond msg).
Proof. intros s. apply post_assert. apply R_refl. Qed.

Lemma frames_for_range {A} (body : Z -> A -> Run.M S A) :
  (forall idx acc, frames R (body idx acc)) ->
  forall n idx acc, frames R (Run.for_range n idx acc body).
Proof.
  intros Hb. induction n as [|n IH]; intros idx acc; cbn [Run.for_range].
  - apply frames_ret.
  - apply frames_bind; [apply Hb | intros a; apply IH].
Qed.

Lemma frames_out_of_fuel {A} : frames R (fun _ : S => @OutOfFuel S A).
Proof. intros s a s' E. discriminate. Qed.

End Frames.

Lemma frames_zoom {S T A} (R : S -> S -> Prop) (R' : T -> T -> Prop)
      (proj : S -> T) (inj : S -> T -> S) (m : Run.M T A) :
  frames R' m -> (forall s t', R' (proj s) t' -> R s (inj s t')) ->
  frames R (Run.zoom proj inj m).
Proof.
  intros Hm H s. apply post_zoom. intros a t' E. apply H. exact (Hm (proj s) a t' E).
Qed.

Ltac frames_step :=
  lazymatch goal with
  | |- frames _ (Run.bind _ _) => apply frames_bind; [exact _ | | intro]
  | |- frames _ (Run.ret _) => apply frames_ret; exact _
  | |- frames _ Run.get => apply frames_get; exact _
  | |- frames _ (Run.gets _) => apply frames_gets; exact _
  | |- frames _ (Run.fatal _) => apply frames_fatal
  | |- frames _ (Run.of_option _) => apply frames_of_option; exact _
  | |- frames _ (Run.assertM _ _ _) => apply frames_assertM; [exact _ |]
  | |- frames _ (Run.assert_ _ _ _) => apply frames_assert; exact _
  | |- frames _ (Run.for_range _ _ _ _) => apply frames_for_range; [exact _ | intros]
  | |- frames _ (fun _ => OutOfFuel) => apply frames_out_of_fuel
  | |- frames _ (if ?b then _ else _) => destruct b
  | |- frames _ (match ?x with _ => _ end) => destruct x
  end.

Create HintDb frames.

Ltac frames_auto :=
  repeat first
    [ frames_step
    | solve [ auto with frames ]
    | solve [ apply frames_pure; [exact _ | auto with frames] ] ].

(** *** Queries leave the table as it is *)

Section TableFrames.

Variable dbg : bool.
Variable alloc_capacity : Z -> Z.

Lemma leftmost_pure p : frames eq (Partitions.leftmost dbg p).
Proof. unfold Partitions.leftmost. frames_auto. Qed.

Lemma rightmost_pure p : frames eq (Partitions.rightmost dbg p).
Proof. unfold Partitions.rightmost. frames_auto. Qed.

Lemma bm_is_set_pure p idx : frames eq (Partitions.bm_is_set dbg p idx).
Proof. unfold Partitions.bm_is_set. frames_auto. Qed.

Lemma bm_find_next_set_bit_pure p i b : frames eq (Partitions.bm_find_next_set_bit dbg p i b).
Proof. unfold Partitions.bm_find_next_set_bit. frames_auto. Qed.

Lemma bm_find_prev_set_bit_pure p i b : frames eq (Partitions.bm_find_prev_set_bit dbg p i b).
Proof. unfold Partitions.bm_find_prev_set_bit. frames_auto. Qed.

Hint Resolve leftmost_pure rightmost_pure bm_is_set_pure bm_find_next_set_bit_pure
  bm_find_prev_set_bit_pure : frames.

Lemma is_empty_pure p : frames eq (Partitions.is_empty dbg p).
Proof. unfold Partitions.is_empty. frames_auto. Qed.

Lemma find_index_of_next_available_region_pure p i :
  frames eq (Partitions.find_index_of_next_available_region dbg p i).
Proof. unfold Partitions.find_index_of_next_available_region. frames_auto. Qed.

Lemma find_index_of_previous_available_region_pure p i :
  frames eq (Partitions.find_index_of_previous_available_region dbg p i).
Proof. unfold Partitions.find_index_of_previous_available_region. frames_auto. Qed.

Lemma membership_pure idx : frames eq (Partitions.membership dbg idx).
Proof. unfold Partitions.membership. frames_auto. Qed.

End TableFrames.

#[local] Hint Resolve leftmost_pure rightmost_pure bm_is_set_pure bm_find_next_set_bit_pure
  bm_find_prev_set_bit_pure is_empty_pure find_index_of_next_available_region_pure
  find_index_of_previous_available_region_pure membership_pure : frames.

(** *** The interval code changes the bounds of its partition only *)

#[local] Instance hints_only_preorder p : PreOrder (hints_only p).
Proof.
  split; [exact (hints_only_refl p) | exact (hints_only_trans p)].
Qed.

Section HintFrames.

Variable dbg : bool.
Variable alloc_capacity : Z -> Z.
Variable p : ShenandoahFreeSetPartitionId.

Lemma set_leftmost_frames v : frames (hints_only p) (Partitions.set_leftmost p v).
Proof.
  apply frames_modify. intros s. unfold hints_only. cbn. repeat split; try reflexivity.
  apply upd_other. assumption.
Qed.

Lemma set_rightmost_frames v : frames (hints_only p) (Partitions.set_rightmost p v).
Proof.
  apply frames_modify. intros s. unfold hints_only. cbn. repeat split; try reflexivity.
  apply upd_other. assumption.
Qed.

Lemma set_leftmost_empty_frames v : frames (hints_only p) (Partitions.set_leftmost_empty p v).
Proof.
  apply frames_modify. intros s. unfold hints_only. cbn. repeat split; try reflexivity.
  apply upd_other. assumption.
Qed.

Lemma set_rightmost_empty_frames v : frames (hints_only p) (Partitions.set_rightmost_empty p v).
Proof.
  apply frames_modify. intros s. unfold hints_only. cbn. repeat split; try reflexivity.
  apply upd_other. assumption.
Qed.

Hint Resolve set_leftmost_frames set_rightmost_frames set_leftmost_empty_frames
  set_rightmost_empty_frames : frames.

Lemma leftmost_empty_loop_frames fuel idx :
  frames (hints_only p) (Partitions.leftmost_empty_loop dbg alloc_capacity fuel p idx).
Proof.
  revert idx. induction fuel as [|fuel IH]; intros idx; cbn [Partitions.leftmost_empty_loop];
    unfold Partitions.in_free_set; frames_auto.
Qed.

Lemma rightmost_empty_loop_frames fuel idx :
  frames (hints_only p) (Partitions.rightmost_empty_loop dbg alloc_capacity fuel p idx).
Proof.
  revert idx. induction fuel as [|fuel IH]; intros idx; cbn [Partitions.rightmost_empty_loop];
    unfold Partitions.in_free_set; frames_auto.
Qed.

Hint Resolve leftmost_empty_loop_frames rightmost_empty_loop_frames : frames.

Lemma leftmost_empty_frames :
  frames (hints_only p) (Partitions.leftmost_empty dbg alloc_capacity p).
Proof. unfold Partitions.leftmost_empty. frames_auto. Qed.

Lemma rightmost_empty_frames :
  frames (hints_only p) (Partitions.rightmost_empty dbg alloc_capacity p).
Proof. unfold Partitions.rightmost_empty. frames_auto. Qed.

Hint Resolve leftmost_empty_frames rightmost_empty_frames : frames.

Lemma shrink_interval_if_range_modifies_either_boundary_frames lo hi :
  frames (hints_only p)
         (Partitions.shrink_interval_if_range_modifies_either_boundary
            dbg alloc_capacity p lo hi).
Proof.
  unfold Partitions.shrink_interval_if_range_modifies_either_boundary, Partitions.when.
  frames_auto.
Qed.

Lemma shrink_interval_if_boundary_modified_frames idx :
  frames (hints_only p)
         (Partitions.shrink_interval_if_boundary_modified dbg alloc_capacity p idx).
Proof.
  unfold Partitions.shrink_interval_if_boundary_modified, Partitions.when.
  frames_auto.
Qed.

Lemma expand_interval_if_boundary_modified_frames idx avail :
  frames (hints_only p)
         (Partitions.expand_interval_if_boundary_modified dbg alloc_capacity p idx avail).
Proof.
  unfold Partitions.expand_interval_if_boundary_modified, Partitions.when.
  frames_auto.
Qed.

End HintFrames.

#[local] Hint Resolve leftmost_empty_frames rightmost_empty_frames
  shrink_interval_if_range_modifies_either_boundary_frames
  shrink_interval_if_boundary_modified_frames
  expand_interval_if_boundary_modified_frames : frames.


(** *** Runs that return *)

Lemma returns_eq {S A} (m : Run.M S A) s a s' (Q : A -> S -> Prop) :
  m s = Ret a s' -> Q a s' -> returns m s Q.
Proof. intros E H. exists a, s'. split; assumption. Qed.

Lemma returns_conseq {S A} (m : Run.M S A) s (Q Q' : A -> S -> Prop) :
  returns m s Q -> (forall a s', Q a s' -> Q' a s') -> returns m s Q'.
Proof. intros (a & s' & E & H) HQ. exists a, s'. split; [exact E | apply HQ, H]. Qed.

Lemma returns_ret {S A} (a : A) (s : S) (Q : A -> S -> Prop) : Q a s -> returns (Run.ret a) s Q.
Proof. intros H. exists a, s. split; [reflexivity | exact H]. Qed.

Lemma returns_get {S} (s : S) (Q : S -> S -> Prop) : Q s s -> returns Run.get s Q.
Proof. intros H. exists s, s. split; [reflexivity | exact H]. Qed.

Lemma returns_modify {S} (f : S -> S) (s : S) (Q : unit -> S -> Prop) :
  Q tt (f s) -> returns (Run.modify f) s Q.
Proof. intros H. exists tt, (f s). split; [reflexivity | exact H]. Qed.

Lemma returns_bind {S A B} (m : Run.M S A) (k : A -> Run.M S B) s (Q : B -> S -> Prop) :
  returns m s (fun a s1 => returns (k a) s1 Q) -> returns (Run.bind m k) s Q.
Proof.
  intros (a & s1 & E & b & s2 & E2 & H). exists b, s2. split; [| exact H].
  rewrite (bind_eq _ _ _ _ _ E). exact E2.
Qed.

Lemma returns_assert {S} dbg (cond : bool) msg (s : S) (Q : unit -> S -> Prop) :
  cond = true -> Q tt s -> returns (Run.assert_ dbg cond msg) s Q.
Proof. intros -> H. apply returns_eq with (a := tt) (s' := s); [apply assert_true | exact H]. Qed.

Lemma returns_assertM {S} dbg (cond : Run.M S bool) msg (s : S) (Q : unit -> S -> Prop) :
  cond s = Ret true s -> Q tt s -> returns (Run.assertM dbg cond msg) s Q.
Proof.
  intros E H. apply returns_eq with (a := tt) (s' := s); [apply assertM_true; exact E | exact H].
Qed.

Lemma returns_same {S A} (m m' : Run.M S A) s (Q : A -> S -> Prop) :
  m s = m' s -> returns m' s Q -> returns m s Q.
Proof. unfold returns. intros ->. tauto. Qed.

Lemma returns_post {S A} (m : Run.M S A) s (Q Q' : A -> S -> Prop) :
  returns m s Q -> post m s Q' -> returns m s (fun a s' => Q a s' /\ Q' a s').
Proof.
  intros (a & s' & E & H) HP. exists a, s'. split; [exact E |]. split; [exact H | exact (HP a s' E)].
Qed.

(** *** Facts about the table that the bounds do not touch *)

Lemma hints_only_table_ok p s s' : hints_only p s s' -> table_ok s -> table_ok s'.
Proof.
  intros (E1 & _ & E3 & _) [Hm Hok]. split; rewrite E1, ?E3; assumption.
Qed.

Lemma hints_only_member p s s' q j : hints_only p s s' -> member s' q j <-> member s q j.
Proof. intros (_ & _ & E3 & _). unfold member. rewrite E3. tauto. Qed.

Lemma empties_only_hints p s s' : empties_only p s s' -> hints_only p s s'.
Proof. intros H. apply H. Qed.

#[local] Instance empties_only_preorder p : PreOrder (empties_only p).
Proof.
  split; [exact (empties_only_refl p) | exact (empties_only_trans p)].
Qed.

Section EmptyBounds.

Variable dbg : bool.
Variable alloc_capacity : Z -> Z.
Variable p : ShenandoahFreeSetPartitionId.
Hypothesis Hp : Partitions.lt_NumPartitions p = true.

Lemma in_free_set_member idx s :
  table_ok s -> 0 <= idx < Partitions._max s -> member s p idx ->
  Partitions.in_free_set dbg p idx s = Ret true s.
Proof.
  intros Hok Hidx Hm. unfold Partitions.in_free_set.
  rewrite bm_is_set_eq by assumption. rewrite Hm. reflexivity.
Qed.

Lemma leftmost_empty_loop_returns fuel idx s :
  table_ok s ->
  0 <= Partitions._leftmosts s p <= Partitions._max s ->
  Partitions._rightmosts s p < Partitions._max s ->
  (idx < Partitions._max s -> 0 <= idx /\ member s p idx) ->
  (Z.to_nat (Partitions._max s - idx) < fuel)%nat ->
  returns (Partitions.leftmost_empty_loop dbg alloc_capacity fuel p idx) s
          (fun _ s' => empties_only p s s').
Proof.
  intros Hok HL HR. revert idx.
  induction fuel as [|fuel IH]; intros idx Hidx Hfuel; [lia |].
  cbn [Partitions.leftmost_empty_loop].
  apply returns_bind, returns_get.
  destruct (Z.ltb_spec idx (Partitions._max s)) as [Hlt|Hge].
  - destruct (Hidx Hlt) as [H0 Hm].
    apply returns_bind, returns_assertM; [apply in_free_set_member; [assumption | lia | assumption] |].
    destruct (alloc_capacity idx =? Partitions._region_size_bytes s).
    + apply returns_bind, returns_modify, returns_ret.
      apply set_leftmost_empty_empties_only.
    + apply returns_bind.
      destruct (find_index_of_next_available_region_spec dbg p (idx + 1) s Hok Hp HL HR)
        as (r & Er & Hr).
      eapply returns_eq; [exact Er |].
      apply IH.
      * intros Hrlt. destruct Hr as [[Hr _]|(Hr & Hm' & _)]; [lia |]. split; [lia | exact Hm'].
      * destruct Hr as [[Hr _]|(Hr & _)]; lia.
  - apply returns_bind, returns_modify, returns_bind, returns_modify, returns_ret.
    eapply empties_only_trans; [apply set_leftmost_empty_empties_only |].
    apply set_rightmost_empty_empties_only. cbn. destruct Hok as [Hm _]. lia.
Qed.

Lemma leftmost_empty_returns s :
  table_ok s ->
  0 <= Partitions._leftmosts s p <= Partitions._max s ->
  Partitions._rightmosts s p < Partitions._max s ->
  returns (Partitions.leftmost_empty dbg alloc_capacity p) s
          (fun _ s' => empties_only p s s').
Proof.
  intros Hok HL HR. unfold Partitions.leftmost_empty.
  apply returns_bind, returns_assert; [exact Hp |].
  apply returns_bind, returns_get.
  destruct (_ =? _); [apply returns_ret, empties_only_refl |].
  apply returns_bind.
  destruct (find_index_of_next_available_region_spec dbg p
              (Partitions._leftmosts_empty s p) s Hok Hp HL HR) as (r & Er & Hr).
  eapply returns_eq; [exact Er |].
  apply leftmost_empty_loop_returns; try assumption.
  - intros Hrlt. destruct Hr as [[Hr _]|(Hr & Hm' & _)]; [lia |]. split; [lia | exact Hm'].
  - destruct Hr as [[Hr _]|(Hr & _)]; lia.
Qed.

Lemma rightmost_empty_loop_returns fuel idx s :
  table_ok s ->
  0 <= Partitions._leftmosts s p <= Partitions._max s ->
  Partitions._rightmosts s p < Partitions._max s ->
  (Partitions._leftmosts s p < Partitions._max s -> 0 <= Partitions._rightmosts s p) ->
  idx < Partitions._max s ->
  (0 <= idx -> member s p idx) ->
  (Z.to_nat (idx + 1) < fuel)%nat ->
  returns (Partitions.rightmost_empty_loop dbg alloc_capacity fuel p idx) s
          (fun _ s' => empties_only p s s').
Proof.
  intros Hok HL HR HLR. revert idx.
  induction fuel as [|fuel IH]; intros idx HidxN Hidx Hfuel; [lia |].
  cbn [Partitions.rightmost_empty_loop].
  apply returns_bind, returns_get.
  destruct (Z.geb_spec idx 0) as [Hge|Hlt].
  - apply returns_bind, returns_assertM;
      [apply in_free_set_member; [assumption | lia | apply Hidx; lia] |].
    destruct (alloc_capacity idx =? Partitions._region_size_bytes s).
    + apply returns_bind, returns_modify, returns_ret.
      apply set_rightmost_empty_empties_only. exact HidxN.
    + apply returns_bind.
      destruct (find_index_of_previous_available_region_spec dbg p (idx - 1) s
                  Hok Hp HL HR HLR ltac:(lia)) as (r & Er & Hr).
      eapply returns_eq; [exact Er |].
      apply IH.
      * destruct Hr as [[Hr _]|(Hr & _)]; lia.
      * intros Hr0. destruct Hr as [[Hr _]|(Hr & Hm' & _)]; [lia | exact Hm'].
      * destruct Hr as [[Hr _]|(Hr & _)]; lia.
  - apply returns_bind, returns_modify, returns_bind, returns_modify, returns_ret.
    eapply empties_only_trans; [apply set_leftmost_empty_empties_only |].
    apply set_rightmost_empty_empties_only. cbn. destruct Hok as [Hm _]. lia.
Qed.

Lemma rightmost_empty_returns s :
  table_ok s ->
  0 <= Partitions._leftmosts s p <= Partitions._max s ->
  Partitions._rightmosts s p < Partitions._max s ->
  (Partitions._leftmosts s p < Partitions._max s -> 0 <= Partitions._rightmosts s p) ->
  Partitions._rightmosts_empty s p < Partitions._max s ->
  returns (Partitions.rightmost_empty dbg alloc_capacity p) s
          (fun _ s' => empties_only p s s').
Proof.
  intros Hok HL HR HLR HRE. unfold Partitions.rightmost_empty.
  apply returns_bind, returns_assert; [exact Hp |].
  apply returns_bind, returns_get.
  destruct (_ <? _); [apply returns_ret, empties_only_refl |].
  apply returns_bind.
  destruct (find_index_of_previous_available_region_spec dbg p
              (Partitions._rightmosts_empty s p) s Hok Hp HL HR HLR HRE) as (r & Er & Hr).
  eapply returns_eq; [exact Er |].
  apply rightmost_empty_loop_returns; try assumption.
  - destruct Hr as [[Hr _]|(Hr & _)]; lia.
  - intros Hr0. destruct Hr as [[Hr _]|(Hr & Hm' & _)]; [lia | exact Hm'].
  - destruct Hr as [[Hr _]|(Hr & _)]; destruct Hok as [Hm _]; lia.
Qed.

End EmptyBounds.

(* ================================================================= *)
(** ** Shrinking and expanding the intervals *)

Local Open Scope run_scope.


Lemma set_leftmost_hints p v s :
  hints_only p s (Partitions.with_leftmosts s (Partitions.upd (Partitions._leftmosts s) p v)).
Proof.
  unfold hints_only. cbn. repeat split; try reflexivity. apply upd_other. assumption.
Qed.

Lemma set_rightmost_hints p v s :
  hints_only p s (Partitions.with_rightmosts s (Partitions.upd (Partitions._rightmosts s) p v)).
Proof.
  unfold hints_only. cbn. repeat split; try reflexivity. apply upd_other. assumption.
Qed.

Section Shrink.

Variable dbg : bool.
Variable alloc_capacity : Z -> Z.
Variable p : ShenandoahFreeSetPartitionId.
Hypothesis Hp : Partitions.lt_NumPartitions p = true.

Lemma not_removed_assertion idx s :
  table_ok s -> 0 <= idx < Partitions._max s -> ~ member s p idx ->
  (b <- Partitions.bm_is_set dbg p idx ;; Run.ret (negb b)) s = Ret true s.
Proof.
  intros Hok Hidx Hm. rewrite bind_eq with (a := false) (s' := s); [reflexivity |].
  rewrite bm_is_set_eq by assumption. f_equal. unfold member in Hm.
  destruct (SimpleBitMap.is_set _ _); congruence.
Qed.

(** The first half of the shrink functions: the left bound. *)
Lemma shrink_leftmost_returns lo hi s :
  table_ok s ->
  0 <= lo <= hi -> hi < Partitions._max s ->
  0 <= Partitions._leftmosts s p <= lo ->
  hi <= Partitions._rightmosts s p < Partitions._max s ->
  (forall j, lo <= j <= hi -> ~ member s p j) ->
  contains s p ->
  (Partitions._leftmosts s p < lo -> member s p (Partitions._leftmosts s p)) ->
  Partitions._rightmosts_empty s p < Partitions._max s ->
  returns
    (Partitions.when (lo =? Partitions._leftmosts s p)
       (Run.assertM dbg (b <- Partitions.bm_is_set dbg p lo ;; Run.ret (negb b))
                    "Do not shrink interval if region not removed" ;;
        (if hi + 1 =? Partitions._max s then Partitions.set_leftmost p (Partitions._max s)
         else
           i <- Partitions.find_index_of_next_available_region dbg p (hi + 1) ;;
           Partitions.set_leftmost p i) ;;
        le <- Partitions.leftmost_empty dbg alloc_capacity p ;;
        l <- Partitions.leftmost dbg p ;;
        Partitions.when (le <? l) (Partitions.set_leftmost_empty p l)))
    s
    (fun _ s' => hints_only p s s' /\
                 Partitions._rightmosts s' p = Partitions._rightmosts s p /\
                 Partitions._rightmosts_empty s' p < Partitions._max s /\
                 leftmost_tight s' p).
Proof.
  intros Hok Hlohi HhiN HL HR Hhole Hcont HLm HRE.
  assert (HN := proj1 Hok).
  unfold Partitions.when at 1.
  destruct (Z.eqb_spec lo (Partitions._leftmosts s p)) as [Heq|Hne].
  2:{ apply returns_ret. split; [apply hints_only_refl |]. split; [reflexivity |].
      split; [assumption |]. right. split; [lia |]. split; [apply HLm; lia |].
      intros j Hj Hm. apply (Hcont j Hj Hm). }
  apply returns_bind, returns_assertM; [apply not_removed_assertion; [assumption | lia |] |].
  { apply Hhole. lia. }
  apply returns_bind.
  assert (Hfirst : exists r,
    (if hi + 1 =? Partitions._max s then Partitions.set_leftmost p (Partitions._max s)
     else
       i <- Partitions.find_index_of_next_available_region dbg p (hi + 1) ;;
       Partitions.set_leftmost p i) s
    = Ret tt (Partitions.with_leftmosts s (Partitions.upd (Partitions._leftmosts s) p r)) /\
    ((r = Partitions._max s /\ forall j, 0 <= j < Partitions._max s -> ~ member s p j)
     \/ (0 <= r < Partitions._max s /\ member s p r /\
         forall j, 0 <= j < Partitions._max s -> member s p j -> r <= j))).
  { destruct (Z.eqb_spec (hi + 1) (Partitions._max s)) as [Hlast|Hnl].
    - exists (Partitions._max s). split; [reflexivity |]. left. split; [reflexivity |].
      intros j Hj Hm. pose proof (Hcont j Hj Hm). apply (Hhole j); [lia | exact Hm].
    - destruct (find_index_of_next_available_region_spec dbg p (hi + 1) s Hok Hp
                  ltac:(lia) ltac:(lia)) as (r & Er & Hr).
      exists r. split; [rewrite (bind_eq _ _ _ _ _ Er); reflexivity |].
      destruct Hr as [[Hr Hnone]|(Hr & Hm & Hnone)].
      + left. split; [exact Hr |]. intros j Hj Hmj. pose proof (Hcont j Hj Hmj).
        destruct (Z.le_gt_cases j hi); [apply (Hhole j); [lia | exact Hmj] |].
        apply (Hnone j); [lia | exact Hmj].
      + right. split; [lia |]. split; [exact Hm |]. intros j Hj Hmj.
        pose proof (Hcont j Hj Hmj).
        destruct (Z.le_gt_cases r j); [assumption |]. exfalso.
        destruct (Z.le_gt_cases j hi); [apply (Hhole j); [lia | exact Hmj] |].
        apply (Hnone j); [lia | exact Hmj]. }
  destruct Hfirst as (r & Er & Hr).
  eapply returns_eq; [exact Er |].
  set (s1 := Partitions.with_leftmosts s _).
  assert (H1 : hints_only p s s1) by apply set_leftmost_hints.
  assert (Hok1 : table_ok s1) by (eapply hints_only_table_ok; eassumption).
  assert (HL1 : Partitions._leftmosts s1 p = r) by (subst s1; cbn; apply upd_same).
  assert (HR1 : Partitions._rightmosts s1 p = Partitions._rightmosts s p) by reflexivity.
  assert (HN1 : Partitions._max s1 = Partitions._max s) by reflexivity.
  apply returns_bind.
  eapply returns_conseq.
  { apply (leftmost_empty_returns dbg alloc_capacity p Hp s1 Hok1).
    - rewrite HL1, HN1. destruct Hr as [[-> _]|(Hr & _)]; lia.
    - rewrite HR1, HN1. lia. }
  cbv beta. intros le s2 (H2 & HL2 & HR2 & HRE2).
  assert (HN2 : Partitions._max s2 = Partitions._max s) by (rewrite <- HN1; apply H2).
  apply returns_bind.
  eapply returns_eq.
  { apply leftmost_in_range; [exact Hp |]. rewrite HL2, HL1, HN2.
    destruct Hr as [[-> _]|(Hr & _)]; lia. }
  assert (Htight2 : forall s3, hints_only p s2 s3 -> Partitions._leftmosts s3 p = r ->
                               leftmost_tight s3 p).
  { intros s3 H3 HL3.
    assert (H03 : hints_only p s s3).
    { eapply hints_only_trans; [exact H1 |]. eapply hints_only_trans; eassumption. }
    assert (HN3 : Partitions._max s3 = Partitions._max s) by apply H03.
    unfold leftmost_tight. rewrite HL3, HN3.
    destruct Hr as [[Hr Hnone]|(Hr & Hm & Hmin)]; [left | right].
    - split; [exact Hr |]. intros j Hj Hmj. apply (Hnone j Hj).
      apply (hints_only_member p s s3); assumption.
    - split; [exact Hr |]. split; [apply (hints_only_member p s s3); assumption |].
      intros j Hj Hmj. apply Hmin; [exact Hj |]. apply (hints_only_member p s s3); assumption. }
  unfold Partitions.when. destruct (le <? _).
  - apply returns_modify.
    set (s3 := Partitions.with_leftmosts_empty s2 _).
    assert (H3 : hints_only p s2 s3) by apply set_leftmost_empty_empties_only.
    split; [eapply hints_only_trans; [exact H1 |]; eapply hints_only_trans; eassumption |].
    split; [subst s3; cbn; congruence |].
    split; [subst s3; cbn; rewrite <- HN1; apply HRE2; rewrite HN1; exact HRE |].
    apply Htight2; [exact H3 | subst s3; cbn; congruence].
  - apply returns_ret.
    split; [eapply hints_only_trans; eassumption |].
    split; [congruence |].
    split; [rewrite <- HN1; apply HRE2; rewrite HN1; exact HRE |].
    apply Htight2; [apply hints_only_refl | congruence].
Qed.

(** The second half: the right bound. *)
Lemma shrink_rightmost_returns lo hi s :
  table_ok s ->
  0 <= lo <= hi -> hi < Partitions._max s ->
  hi <= Partitions._rightmosts s p < Partitions._max s ->
  (forall j, lo <= j <= hi -> ~ member s p j) ->
  (forall j, 0 <= j < Partitions._max s -> member s p j -> j <= Partitions._rightmosts s p) ->
  (hi < Partitions._rightmosts s p -> member s p (Partitions._rightmosts s p)) ->
  leftmost_tight s p ->
  Partitions._rightmosts_empty s p < Partitions._max s ->
  returns
    (Partitions.when (hi =? Partitions._rightmosts s p)
       (Run.assertM dbg (b <- Partitions.bm_is_set dbg p hi ;; Run.ret (negb b))
                    "Do not shrink interval if region not removed" ;;
        (if lo =? 0 then Partitions.set_rightmost p (-1)
         else
           i <- Partitions.find_index_of_previous_available_region dbg p (lo - 1) ;;
           Partitions.set_rightmost p i) ;;
        re <- Partitions.rightmost_empty dbg alloc_capacity p ;;
        r <- Partitions.rightmost dbg p ;;
        Partitions.when (re >? r) (Partitions.set_rightmost_empty p r)))
    s
    (fun _ s' => hints_only p s s' /\
                 Partitions._leftmosts s' p = Partitions._leftmosts s p /\
                 Partitions._rightmosts_empty s' p < Partitions._max s /\
                 rightmost_tight s' p).
Proof.
  intros Hok Hlohi HhiN HR Hhole Hcont HRm Hleft HRE.
  assert (HN := proj1 Hok).
  assert (HL : 0 <= Partitions._leftmosts s p <= Partitions._max s).
  { destruct Hleft as [[-> _]|(H & _)]; lia. }
  unfold Partitions.when at 1.
  destruct (Z.eqb_spec hi (Partitions._rightmosts s p)) as [Heq|Hne].
  2:{ apply returns_ret. split; [apply hints_only_refl |]. split; [reflexivity |].
      split; [assumption |]. right. split; [lia |]. split; [apply HRm; lia |]. exact Hcont. }
  apply returns_bind, returns_assertM; [apply not_removed_assertion; [assumption | lia |] |].
  { apply Hhole. lia. }
  apply returns_bind.
  assert (Hlast : exists r,
    (if lo =? 0 then Partitions.set_rightmost p (-1)
     else
       i <- Partitions.find_index_of_previous_available_region dbg p (lo - 1) ;;
       Partitions.set_rightmost p i) s
    = Ret tt (Partitions.with_rightmosts s (Partitions.upd (Partitions._rightmosts s) p r)) /\
    ((r = -1 /\ forall j, 0 <= j < Partitions._max s -> ~ member s p j)
     \/ (0 <= r < Partitions._max s /\ member s p r /\
         forall j, 0 <= j < Partitions._max s -> member s p j -> j <= r))).
  { assert (Hbelow : forall j, 0 <= j < Partitions._max s -> member s p j -> j < lo).
    { intros j Hj Hm. pose proof (Hcont j Hj Hm).
      destruct (Z.lt_ge_cases j lo); [assumption |]. exfalso. apply (Hhole j); [lia | exact Hm]. }
    destruct (Z.eqb_spec lo 0) as [Hzero|Hnz].
    - exists (-1). split; [reflexivity |]. left. split; [reflexivity |].
      intros j Hj Hm. pose proof (Hbelow j Hj Hm). lia.
    - destruct (find_index_of_previous_available_region_spec dbg p (lo - 1) s Hok Hp
                  HL ltac:(lia) ltac:(lia) ltac:(lia)) as (r & Er & Hr).
      exists r. split; [rewrite (bind_eq _ _ _ _ _ Er); reflexivity |].
      destruct Hr as [[Hr Hnone]|(Hr & Hm & Hnone)].
      + left. split; [exact Hr |]. intros j Hj Hmj. pose proof (Hbelow j Hj Hmj).
        destruct Hleft as [[_ Hno]|(_ & _ & Hmin)]; [exact (Hno j Hj Hmj) |].
        pose proof (Hmin j Hj Hmj). apply (Hnone j); [lia | exact Hmj].
      + right. split; [lia |]. split; [exact Hm |]. intros j Hj Hmj.
        pose proof (Hbelow j Hj Hmj).
        destruct (Z.le_gt_cases j r); [assumption |]. exfalso.
        apply (Hnone j); [lia | exact Hmj]. }
  destruct Hlast as (r & Er & Hr).
  eapply returns_eq; [exact Er |].
  set (s1 := Partitions.with_rightmosts s _).
  assert (H1 : hints_only p s s1) by apply set_rightmost_hints.
  assert (Hok1 : table_ok s1) by (eapply hints_only_table_ok; eassumption).
  assert (HR1 : Partitions._rightmosts s1 p = r) by (subst s1; cbn; apply upd_same).
  assert (HL1 : Partitions._leftmosts s1 p = Partitions._leftmosts s p) by reflexivity.
  assert (HN1 : Partitions._max s1 = Partitions._max s) by reflexivity.
  apply returns_bind.
  eapply returns_conseq.
  { apply (rightmost_empty_returns dbg alloc_capacity p Hp s1 Hok1).
    - rewrite HL1, HN1. exact HL.
    - rewrite HR1, HN1. destruct Hr as [[-> _]|(Hr & _)]; lia.
    - rewrite HL1, HR1, HN1. intros HLlt.
      destruct Hr as [[_ Hnone]|(Hr & _)]; [| lia]. exfalso.
      destruct Hleft as [[HLN _]|(HLr & HLm & _)]; [lia |]. exact (Hnone _ HLr HLm).
    - exact HRE. }
  cbv beta. intros re s2 (H2 & HL2 & HR2 & HRE2).
  assert (HN2 : Partitions._max s2 = Partitions._max s) by (rewrite <- HN1; apply H2).
  apply returns_bind.
  eapply returns_eq; [apply rightmost_eq; exact Hp |].
  assert (Htight2 : forall s3, hints_only p s2 s3 -> Partitions._rightmosts s3 p = r ->
                               rightmost_tight s3 p).
  { intros s3 H3 HR3.
    assert (H03 : hints_only p s s3).
    { eapply hints_only_trans; [exact H1 |]. eapply hints_only_trans; eassumption. }
    assert (HN3 : Partitions._max s3 = Partitions._max s) by apply H03.
    unfold rightmost_tight. rewrite HR3, HN3.
    destruct Hr as [[Hr Hnone]|(Hr & Hm & Hmax)]; [left | right].
    - split; [exact Hr |]. intros j Hj Hmj. apply (Hnone j Hj).
      apply (hints_only_member p s s3); assumption.
    - split; [exact Hr |]. split; [apply (hints_only_member p s s3); assumption |].
      intros j Hj Hmj. apply Hmax; [exact Hj |]. apply (hints_only_member p s s3); assumption. }
  assert (HrN : r < Partitions._max s) by (destruct Hr as [[-> _]|(Hr & _)]; lia).
  unfold Partitions.when. destruct (re >? _).
  - apply returns_modify.
    set (s3 := Partitions.with_rightmosts_empty s2 _).
    assert (H3 : hints_only p s2 s3).
    { apply set_rightmost_empty_empties_only. rewrite HR2, HR1, HN2. exact HrN. }
    split; [eapply hints_only_trans; [exact H1 |]; eapply hints_only_trans; eassumption |].
    split; [subst s3; cbn; congruence |].
    split; [subst s3; cbn; rewrite upd_same, HR2, HR1; exact HrN |].
    apply Htight2; [exact H3 | subst s3; cbn; congruence].
  - apply returns_ret.
    split; [eapply hints_only_trans; eassumption |].
    split; [congruence |].
    split; [rewrite <- HN1; apply HRE2; rewrite HN1; exact HRE |].
    apply Htight2; [apply hints_only_refl | congruence].
Qed.

Lemma tight_interval_ok s :
  1 <= Partitions._max s ->
  leftmost_tight s p -> rightmost_tight s p ->
  Partitions._rightmosts_empty s p < Partitions._max s ->
  interval_ok s p.
Proof.
  intros HN HL HR HRE. unfold interval_ok.
  destruct HL as [[HLN Hnone]|(HLr & HLm & Hmin)].
  - destruct HR as [[HRN _]|(HRr & HRm & _)]; [| exfalso; exact (Hnone _ HRr HRm)].
    split; [intros j Hj Hm; exfalso; exact (Hnone j Hj Hm) |].
    split; [exact HRE |]. left. split; [exact HLN | left; exact HRN].
  - destruct HR as [[HRN Hnone]|(HRr & HRm & Hmax)]; [exfalso; exact (Hnone _ HLr HLm) |].
    split; [intros j Hj Hm; split; [apply Hmin | apply Hmax]; assumption |].
    split; [exact HRE |]. right.
    pose proof (Hmax _ HLr HLm). repeat split; try assumption; lia.
Qed.

(** After the regions [lo..hi], which lay within the interval of [p], were
    removed from [p], the range form of shrink returns, and the interval
    of [p] is the canonical empty one or is bounded by two members. *)
Lemma shrink_interval_if_range_modifies_either_boundary_returns lo hi s :
  table_ok s ->
  0 <= lo <= hi -> hi < Partitions._max s ->
  0 <= Partitions._leftmosts s p <= lo ->
  hi <= Partitions._rightmosts s p < Partitions._max s ->
  (forall j, lo <= j <= hi -> ~ member s p j) ->
  contains s p ->
  (Partitions._leftmosts s p < lo -> member s p (Partitions._leftmosts s p)) ->
  (hi < Partitions._rightmosts s p -> member s p (Partitions._rightmosts s p)) ->
  Partitions._rightmosts_empty s p < Partitions._max s ->
  returns (Partitions.shrink_interval_if_range_modifies_either_boundary
             dbg alloc_capacity p lo hi) s
          (fun _ s' => hints_only p s s' /\ interval_ok s' p).
Proof.
  intros Hok Hlohi HhiN HL HR Hhole Hcont HLm HRm HRE.
  assert (HN := proj1 Hok).
  unfold Partitions.shrink_interval_if_range_modifies_either_boundary.
  apply returns_bind, returns_get.
  apply returns_bind, returns_assert.
  { destruct (Z.leb_spec lo hi); [| lia]. destruct (Z.geb_spec lo 0); [| lia].
    destruct (Z.ltb_spec hi (Partitions._max s)); [reflexivity | lia]. }
  apply returns_bind.
  eapply returns_eq; [apply leftmost_in_range; [exact Hp | lia] |].
  apply returns_bind.
  eapply returns_conseq; [apply shrink_leftmost_returns; assumption |].
  cbv beta. intros _ sA (HA & HRA & HREA & HtA).
  assert (HNA : Partitions._max sA = Partitions._max s) by apply HA.
  assert (HokA : table_ok sA) by (eapply hints_only_table_ok; eassumption).
  apply returns_bind.
  eapply returns_eq; [apply rightmost_eq; exact Hp |].
  apply returns_bind.
  eapply returns_conseq.
  { apply shrink_rightmost_returns; try assumption; rewrite ?HRA, ?HNA; try assumption.
    - intros j Hj Hm. apply (Hhole j Hj). apply (hints_only_member p s sA); assumption.
    - intros j Hj Hm. apply Hcont; [exact Hj |]. apply (hints_only_member p s sA); assumption.
    - intros H. apply (hints_only_member p s sA); [assumption |]. apply HRm. exact H. }
  cbv beta. intros _ sB (HB & HLB & HREB & HtB).
  assert (HNB : Partitions._max sB = Partitions._max s) by (rewrite <- HNA; apply HB).
  assert (HtAB : leftmost_tight sB p).
  { unfold leftmost_tight. rewrite HLB, HNB, <- HNA.
    destruct HtA as [[H1 H2]|(H1 & H2 & H3)]; [left | right].
    - split; [exact H1 |]. intros j Hj Hm. apply (H2 j Hj).
      apply (hints_only_member p sA sB); assumption.
    - split; [exact H1 |]. split; [apply (hints_only_member p sA sB); assumption |].
      intros j Hj Hm. apply H3; [exact Hj |]. apply (hints_only_member p sA sB); assumption. }
  assert (H0B : hints_only p s sB) by (eapply hints_only_trans; eassumption).
  apply returns_bind.
  eapply returns_eq.
  { apply leftmost_in_range; [exact Hp |].
    destruct HtAB as [[-> _]|(H & _)]; lia. }
  apply returns_bind.
  eapply returns_eq; [apply rightmost_eq; exact Hp |].
  apply returns_bind, returns_get.
  unfold Partitions.when.
  destruct (Z.gtb_spec (Partitions._leftmosts sB p) (Partitions._rightmosts sB p)) as [Hgt|Hle].
  - apply returns_bind, returns_modify, returns_bind, returns_modify,
      returns_bind, returns_modify, returns_modify.
    split.
    + eapply hints_only_trans; [exact H0B |].
      eapply hints_only_trans; [apply set_leftmost_hints |].
      eapply hints_only_trans; [apply set_rightmost_hints |].
      eapply hints_only_trans; [apply set_leftmost_empty_empties_only |].
      apply set_rightmost_empty_empties_only. cbn. lia.
    + unfold interval_ok, contains, member. cbn. rewrite !upd_same.
      assert (Hnone : forall j, 0 <= j < Partitions._max sB -> ~ member sB p j).
      { destruct HtAB as [[_ H]|(H1 & H2 & _)]; [exact H |].
        destruct HtB as [[_ H]|(H3 & H4 & H5)]; [exact H |].
        pose proof (H5 _ H1 H2). lia. }
      split; [intros j Hj Hm; exfalso; exact (Hnone j Hj Hm) |].
      split; [lia |]. left. split; [reflexivity | left; reflexivity].
  - apply returns_ret. split; [exact H0B |].
    apply tight_interval_ok; try assumption; lia.
Qed.

Lemma shrink_interval_if_boundary_modified_range idx s :
  0 <= idx < Partitions._max s ->
  Partitions.shrink_interval_if_boundary_modified dbg alloc_capacity p idx s
  = Partitions.shrink_interval_if_range_modifies_either_boundary dbg alloc_capacity p idx idx s.
Proof.
  intros Hidx.
  unfold Partitions.shrink_interval_if_boundary_modified,
    Partitions.shrink_interval_if_range_modifies_either_boundary.
  rewrite !bind_get.
  destruct (Z.leb_spec idx idx); [| lia]. destruct (Z.geb_spec idx 0); [| lia].
  destruct (Z.ltb_spec idx (Partitions._max s)); [| lia]. cbn [andb].
  rewrite !(bind_eq _ _ _ _ _ (assert_true dbg _ s)). reflexivity.
Qed.

End Shrink.


Lemma interval_ok_hints p s s' :
  hints_only p s s' ->
  Partitions._leftmosts s' p = Partitions._leftmosts s p ->
  Partitions._rightmosts s' p = Partitions._rightmosts s p ->
  Partitions._rightmosts_empty s' p < Partitions._max s ->
  interval_ok s p -> interval_ok s' p.
Proof.
  intros H HL HR HRE (Hc & _ & Hs).
  assert (HN : Partitions._max s' = Partitions._max s) by apply H.
  assert (Hm : forall j, member s' p j <-> member s p j)
    by (intros j; apply (hints_only_member p s s'); exact H).
  unfold interval_ok, contains. rewrite HL, HR, HN.
  split; [intros j Hj Hmj; apply Hc; [exact Hj | apply Hm; exact Hmj] |].
  split; [exact HRE |].
  destruct Hs as [Hs|(H1 & H2 & H3 & H4)]; [left; exact Hs | right].
  repeat split; try lia; apply Hm; assumption.
Qed.

Section Expand.

Variable dbg : bool.
Variable alloc_capacity : Z -> Z.
Variable p : ShenandoahFreeSetPartitionId.
Hypothesis Hp : Partitions.lt_NumPartitions p = true.

(** The second half of expand: the bounds of the empty regions. *)
Lemma expand_empty_bounds_returns idx avail s :
  table_ok s -> 0 <= idx < Partitions._max s ->
  interval_ok s p ->
  Partitions._leftmosts s p < Partitions._max s ->
  returns
    (s0 <- Run.get ;;
     Partitions.when (avail =? Partitions._region_size_bytes s0)
       (le <- Partitions.leftmost_empty dbg alloc_capacity p ;;
        Partitions.when (le >? idx) (Partitions.set_leftmost_empty p idx) ;;
        re <- Partitions.rightmost_empty dbg alloc_capacity p ;;
        Partitions.when (re <? idx) (Partitions.set_rightmost_empty p idx)))
    s
    (fun _ s' => hints_only p s s' /\ interval_ok s' p).
Proof.
  intros Hok Hidx Hint HLN.
  assert (HN := proj1 Hok).
  assert (Hb : 0 <= Partitions._leftmosts s p <= Partitions._rightmosts s p /\
               Partitions._rightmosts s p < Partitions._max s).
  { destruct Hint as (_ & _ & [[H _]|H]); lia. }
  assert (HRE : Partitions._rightmosts_empty s p < Partitions._max s) by apply Hint.
  apply returns_bind, returns_get.
  unfold Partitions.when at 1.
  destruct (avail =? _); [| apply returns_ret; split; [apply hints_only_refl | exact Hint]].
  apply returns_bind.
  eapply returns_conseq; [apply (leftmost_empty_returns dbg alloc_capacity p Hp s Hok); lia |].
  cbv beta. intros le s1 H1.
  apply returns_bind.
  assert (Hmid : returns (Partitions.when (le >? idx) (Partitions.set_leftmost_empty p idx)) s1
                         (fun _ s2 => empties_only p s s2)).
  { unfold Partitions.when. destruct (le >? idx).
    - apply returns_modify. eapply empties_only_trans; [exact H1 |].
      apply set_leftmost_empty_empties_only.
    - apply returns_ret. exact H1. }
  eapply returns_conseq; [exact Hmid |].
  cbv beta. intros _ s2 H2. destruct H2 as (H2 & HL2 & HR2 & HRE2).
  assert (HN2 : Partitions._max s2 = Partitions._max s) by apply H2.
  assert (Hok2 : table_ok s2) by (eapply hints_only_table_ok; eassumption).
  apply returns_bind.
  eapply returns_conseq.
  { apply (rightmost_empty_returns dbg alloc_capacity p Hp s2 Hok2);
      rewrite ?HL2, ?HR2, ?HN2; lia. }
  cbv beta. intros re s3 (H3 & HL3 & HR3 & HRE3).
  assert (HN3 : Partitions._max s3 = Partitions._max s) by (rewrite <- HN2; apply H3).
  assert (H03 : hints_only p s s3) by (eapply hints_only_trans; eassumption).
  unfold Partitions.when. destruct (re <? idx).
  - apply returns_modify.
    set (s4 := Partitions.with_rightmosts_empty s3 _).
    assert (H4 : hints_only p s3 s4).
    { apply set_rightmost_empty_empties_only. lia. }
    assert (H04 : hints_only p s s4) by (eapply hints_only_trans; eassumption).
    split; [exact H04 |].
    apply (interval_ok_hints p s s4); try assumption.
    + subst s4. cbn. congruence.
    + subst s4. cbn. congruence.
    + subst s4. cbn. rewrite upd_same. lia.
  - apply returns_ret. split; [exact H03 |].
    apply (interval_ok_hints p s s3); try assumption; try congruence.
    rewrite <- HN2. apply HRE3. rewrite HN2. apply HRE2. exact HRE.
Qed.

(** After region [idx] was added to [p], expand returns, and the interval
    of [p] is bounded by two members. *)
Lemma expand_interval_if_boundary_modified_returns idx avail s :
  table_ok s -> 0 <= idx < Partitions._max s ->
  member s p idx ->
  (forall j, 0 <= j < Partitions._max s -> member s p j -> j <> idx ->
             Partitions._leftmosts s p <= j <= Partitions._rightmosts s p) ->
  ((Partitions._leftmosts s p = Partitions._max s /\
    (Partitions._rightmosts s p = -1 \/ Partitions._rightmosts s p = 0))
   \/
   (0 <= Partitions._leftmosts s p <= Partitions._rightmosts s p /\
    Partitions._rightmosts s p < Partitions._max s /\
    member s p (Partitions._leftmosts s p) /\
    member s p (Partitions._rightmosts s p))) ->
  Partitions._rightmosts_empty s p < Partitions._max s ->
  returns (Partitions.expand_interval_if_boundary_modified dbg alloc_capacity p idx avail) s
          (fun _ s' => hints_only p s s' /\ interval_ok s' p).
Proof.
  intros Hok Hidx Hm Hcont Hshape HRE.
  assert (HN := proj1 Hok).
  unfold Partitions.expand_interval_if_boundary_modified.
  apply returns_bind.
  eapply returns_eq.
  { apply leftmost_in_range; [exact Hp |]. destruct Hshape as [[-> _]|H]; lia. }
  apply returns_bind.
  set (L := Partitions._leftmosts s p) in *. set (R := Partitions._rightmosts s p) in *.
  set (sA := if L >? idx
             then Partitions.with_leftmosts s (Partitions.upd (Partitions._leftmosts s) p idx)
             else s).
  apply returns_eq with (a := tt) (s' := sA).
  { subst sA. unfold Partitions.when. destruct (L >? idx); reflexivity. }
  assert (HA : hints_only p s sA).
  { subst sA. destruct (L >? idx); [apply set_leftmost_hints | apply hints_only_refl]. }
  assert (HLA : Partitions._leftmosts sA p = Z.min L idx).
  { subst sA. destruct (Z.gtb_spec L idx); [cbn; rewrite upd_same |]; fold L; lia. }
  assert (HRA : Partitions._rightmosts sA p = R).
  { subst sA. destruct (L >? idx); reflexivity. }
  assert (HREA : Partitions._rightmosts_empty sA p = Partitions._rightmosts_empty s p).
  { subst sA. destruct (L >? idx); reflexivity. }
  clearbody sA.
  apply returns_bind.
  eapply returns_eq; [apply rightmost_eq; exact Hp |].
  apply returns_bind. rewrite HRA.
  set (sB := if R <? idx
             then Partitions.with_rightmosts sA (Partitions.upd (Partitions._rightmosts sA) p idx)
             else sA).
  apply returns_eq with (a := tt) (s' := sB).
  { subst sB. unfold Partitions.when. destruct (R <? idx); reflexivity. }
  assert (HB : hints_only p sA sB).
  { subst sB. destruct (R <? idx); [apply set_rightmost_hints | apply hints_only_refl]. }
  assert (HLB : Partitions._leftmosts sB p = Z.min L idx).
  { subst sB. destruct (R <? idx); [cbn |]; exact HLA. }
  assert (HRB : Partitions._rightmosts sB p = Z.max R idx).
  { subst sB. destruct (Z.ltb_spec R idx); [cbn; rewrite upd_same |]; lia. }
  assert (HREB : Partitions._rightmosts_empty sB p = Partitions._rightmosts_empty s p).
  { subst sB. destruct (R <? idx); [cbn |]; exact HREA. }
  clearbody sB.
  assert (H0B : hints_only p s sB) by (eapply hints_only_trans; eassumption).
  assert (HNB : Partitions._max sB = Partitions._max s) by apply H0B.
  assert (HokB : table_ok sB) by (eapply hints_only_table_ok; eassumption).
  assert (HmB : forall j, member sB p j <-> member s p j)
    by (intros j; apply (hints_only_member p s sB); exact H0B).
  assert (HintB : interval_ok sB p).
  { unfold interval_ok, contains. rewrite HLB, HRB, HREB, HNB.
    split.
    { intros j Hj Hmj. destruct (Z.eq_dec j idx) as [->|Hne]; [lia |].
      pose proof (Hcont j Hj (proj1 (HmB j) Hmj) Hne). lia. }
    split; [exact HRE |]. right.
    destruct Hshape as [[HL HR]|(H1 & H2 & H3 & H4)].
    - replace (Z.min L idx) with idx by lia. replace (Z.max R idx) with idx by lia.
      repeat split; try lia; apply HmB; exact Hm.
    - repeat split; try lia.
      + destruct (Z.min_spec L idx) as [[_ ->]|[_ ->]]; apply HmB; assumption.
      + destruct (Z.max_spec R idx) as [[_ ->]|[_ ->]]; apply HmB; assumption. }
  eapply returns_conseq.
  { apply expand_empty_bounds_returns; try assumption; rewrite ?HNB, ?HLB; lia. }
  cbv beta. intros _ s' (H' & Hint'). split; [| exact Hint'].
  eapply hints_only_trans; eassumption.
Qed.

End Expand.

(* ================================================================= *)

(** ** The operations on the partition table *)

Lemma bitmap_ok_clear_bit n bm i : bitmap_ok n bm -> bitmap_ok n (SimpleBitMap.clear_bit bm i).
Proof.
  intros (H1 & H2 & H3). split; [exact H1 |]. split; [apply words_ok_clear_bit; exact H2 | exact H3].
Qed.

Lemma bitmap_ok_set_bit n bm i : bitmap_ok n bm -> bitmap_ok n (SimpleBitMap.set_bit bm i).
Proof.
  intros (H1 & H2 & H3). split; [exact H1 |]. split; [apply words_ok_set_bit; exact H2 | exact H3].
Qed.

Lemma bitmap_ok_clear_all n bm : bitmap_ok n bm -> bitmap_ok n (SimpleBitMap.clear_all bm).
Proof.
  intros (H1 & H2 & H3). split; [exact H1 |]. split; [apply words_ok_clear_all; exact H2 | exact H3].
Qed.

Lemma pow62_modulus : 2 ^ 62 < Word.modulus.
Proof. rewrite modulus_eq. lia. Qed.

Lemma hints_only_kept p s s' q : hints_only p s s' -> q <> p -> kept q s s'.
Proof.
  intros (_ & _ & E3 & E4 & E5 & E6 & H) Hq. destruct (H q Hq) as (B1 & B2 & B3 & B4).
  unfold kept. rewrite E3, E4, E5, E6. repeat split; assumption.
Qed.

Lemma interval_ok_kept q s s' :
  Partitions._max s' = Partitions._max s -> kept q s s' -> interval_ok s q -> interval_ok s' q.
Proof.
  intros HN (E1 & E2 & E3 & _ & E5 & _) H.
  unfold interval_ok, contains, member in *. rewrite E1, E2, E3, E5, HN. exact H.
Qed.

Lemma kept_refl q s : kept q s s.
Proof. unfold kept. repeat split; reflexivity. Qed.

Lemma kept_trans q s1 s2 s3 : kept q s1 s2 -> kept q s2 s3 -> kept q s1 s3.
Proof. unfold kept. intros H1 H2. repeat split; intuition congruence. Qed.

Lemma wrap_le x : 0 <= x -> 0 <= Word.wrap x <= x.
Proof. intros H. unfold Word.wrap. rewrite modulus_eq. lia. Qed.

Lemma wrap_nonneg x : 0 <= Word.wrap x.
Proof. unfold Word.wrap. rewrite modulus_eq. lia. Qed.

(** The table after one bitmap of it was replaced. *)
Lemma table_ok_with_membership s p bm :
  table_ok s -> bitmap_ok (Partitions._max s) bm ->
  table_ok (Partitions.with_membership s (Partitions.upd (Partitions._membership s) p bm)).
Proof.
  intros [HN Hok] Hbm. split; [exact HN |]. intros q Hq. cbn.
  unfold Partitions.upd. destruct (Partitions.partition_eqb q p); [exact Hbm | apply Hok, Hq].
Qed.

Lemma member_clear_bit s p idx q j :
  0 <= idx < Word.modulus -> 0 <= j < Word.modulus ->
  member (Partitions.with_membership s
            (Partitions.upd (Partitions._membership s) p
               (SimpleBitMap.clear_bit (Partitions._membership s p) idx))) q j
  <-> member s q j /\ ~ (q = p /\ j = idx).
Proof.
  intros Hidx Hj. unfold member. cbn. unfold Partitions.upd.
  destruct (Partitions.partition_eqb q p) eqn:E.
  - apply partition_eqb_eq in E. subst q. rewrite is_set_clear_bit by assumption.
    destruct (Z.eqb_spec idx j); destruct (SimpleBitMap.is_set _ j); cbn; intuition congruence.
  - assert (q <> p) by (intros ->; rewrite partition_eqb_refl in E; discriminate). tauto.
Qed.

Lemma member_set_bit s p idx q j :
  0 <= idx < Word.modulus -> 0 <= j < Word.modulus ->
  member (Partitions.with_membership s
            (Partitions.upd (Partitions._membership s) p
               (SimpleBitMap.set_bit (Partitions._membership s p) idx))) q j
  <-> member s q j \/ (q = p /\ j = idx).
Proof.
  intros Hidx Hj. unfold member. cbn. unfold Partitions.upd.
  destruct (Partitions.partition_eqb q p) eqn:E.
  - apply partition_eqb_eq in E. subst q. rewrite is_set_set_bit by assumption.
    destruct (Z.eqb_spec idx j); destruct (SimpleBitMap.is_set _ j); cbn; intuition congruence.
  - assert (q <> p) by (intros ->; rewrite partition_eqb_refl in E; discriminate).
    intuition congruence.
Qed.

Section BitOps.

Variable dbg : bool.

Lemma increase_used_returns p bytes s :
  Partitions.lt_NumPartitions p = true ->
  0 <= Partitions._used s p -> 0 <= bytes ->
  Partitions._used s p + bytes <= Partitions._capacity s p ->
  Partitions.increase_used dbg p bytes s
  = Ret tt (Partitions.with_used s (Partitions.upd (Partitions._used s) p
                                      (Word.wrap (Partitions._used s p + bytes)))).
Proof.
  intros Hp Hu Hb Hc. unfold Partitions.increase_used.
  rewrite Hp, (bind_eq _ _ _ _ _ (assert_true dbg _ s)), bind_get.
  unfold Partitions.set_used. rewrite bind_modify, bind_get. cbn.
  rewrite upd_same.
  pose proof (wrap_le (Partitions._used s p + bytes) ltac:(lia)).
  destruct (Z.leb_spec (Word.wrap (Partitions._used s p + bytes)) (Partitions._capacity s p));
    [| lia].
  apply assert_true.
Qed.

Lemma bm_clear_bit_eq p idx s :
  table_ok s -> Partitions.lt_NumPartitions p = true -> 0 <= idx < Partitions._max s ->
  Partitions.bm_clear_bit dbg p idx s
  = Ret tt (Partitions.with_membership s
              (Partitions.upd (Partitions._membership s) p
                 (SimpleBitMap.clear_bit (Partitions._membership s p) idx))).
Proof.
  intros [_ Hok] Hp Hidx. destruct (Hok p Hp) as (Hn & _ & _).
  unfold Partitions.bm_clear_bit. rewrite bind_get.
  unfold SimpleBitMap.index_in_range. rewrite Hn.
  destruct (Z.leb_spec 0 idx); [| lia]. destruct (Z.ltb_spec idx (Partitions._max s)); [| lia].
  cbn [andb]. rewrite (bind_eq _ _ _ _ _ (assert_true dbg _ s)). reflexivity.
Qed.

Lemma bm_set_bit_eq p idx s :
  table_ok s -> Partitions.lt_NumPartitions p = true -> 0 <= idx < Partitions._max s ->
  Partitions.bm_set_bit dbg p idx s
  = Ret tt (Partitions.with_membership s
              (Partitions.upd (Partitions._membership s) p
                 (SimpleBitMap.set_bit (Partitions._membership s p) idx))).
Proof.
  intros [_ Hok] Hp Hidx. destruct (Hok p Hp) as (Hn & _ & _).
  unfold Partitions.bm_set_bit. rewrite bind_get.
  unfold SimpleBitMap.index_in_range. rewrite Hn.
  destruct (Z.leb_spec 0 idx); [| lia]. destruct (Z.ltb_spec idx (Partitions._max s)); [| lia].
  cbn [andb]. rewrite (bind_eq _ _ _ _ _ (assert_true dbg _ s)). reflexivity.
Qed.

End BitOps.

Section Retire.

Variable dbg : bool.
Variable alloc_capacity : Z -> Z.

(** [retire_from_partition]: the call returns; the bit of [idx] is
    cleared, the remnant is added to [used], the count is decremented,
    the capacity stays, and the interval of [p] is again tight. *)
Lemma retire_from_partition_returns p idx used_bytes s :
  table_ok s -> Partitions.lt_NumPartitions p = true ->
  0 <= idx < Partitions._max s -> member s p idx -> interval_ok s p ->
  0 <= Partitions._used s p ->
  (used_bytes < Partitions._region_size_bytes s ->
   Partitions._used s p + (Partitions._region_size_bytes s - used_bytes)
   <= Partitions._capacity s p) ->
  returns (Partitions.retire_from_partition dbg alloc_capacity p idx used_bytes) s
    (fun _ s' =>
       same_size s s' /\
       (forall q, q <> p -> kept q s s') /\
       Partitions._membership s' p = SimpleBitMap.clear_bit (Partitions._membership s p) idx /\
       Partitions._capacity s' p = Partitions._capacity s p /\
       Partitions._used s' p
       = (if used_bytes <? Partitions._region_size_bytes s
          then Word.wrap (Partitions._used s p
                          + Word.wrap (Partitions._region_size_bytes s - used_bytes))
          else Partitions._used s p) /\
       Partitions._region_counts s' p = Word.wrap (Partitions._region_counts s p - 1) /\
       interval_ok s' p).
Proof.
  intros Hok Hp Hidx Hm Hint Hused Hcap.
  assert (HN := proj1 Hok). pose proof pow62_modulus as H62.
  unfold Partitions.retire_from_partition.
  apply returns_bind, returns_get.
  apply returns_bind, returns_assert; [destruct (Z.ltb_spec idx (Partitions._max s)); [reflexivity | lia] |].
  apply returns_bind, returns_assert; [exact Hp |].
  apply returns_bind, returns_assertM; [apply in_free_set_member; assumption |].
  apply returns_bind.
  set (rs := Partitions._region_size_bytes s) in *.
  set (s1 := if used_bytes <? rs
             then Partitions.with_used s
                    (Partitions.upd (Partitions._used s) p
                       (Word.wrap (Partitions._used s p + Word.wrap (rs - used_bytes))))
             else s).
  apply returns_eq with (a := tt) (s' := s1).
  { subst s1. unfold Partitions.when. destruct (Z.ltb_spec used_bytes rs); [| reflexivity].
    pose proof (wrap_le (rs - used_bytes) ltac:(lia)).
    apply increase_used_returns; try assumption; try lia. }
  assert (E1 : Partitions._membership s1 = Partitions._membership s /\
               Partitions._max s1 = Partitions._max s /\
               Partitions._leftmosts s1 = Partitions._leftmosts s /\
               Partitions._rightmosts s1 = Partitions._rightmosts s /\
               Partitions._leftmosts_empty s1 = Partitions._leftmosts_empty s /\
               Partitions._rightmosts_empty s1 = Partitions._rightmosts_empty s /\
               Partitions._capacity s1 = Partitions._capacity s /\
               Partitions._region_counts s1 = Partitions._region_counts s /\
               Partitions._region_size_bytes s1 = rs /\
               (forall q, q <> p -> Partitions._used s1 q = Partitions._used s q) /\
               Partitions._used s1 p
               = (if used_bytes <? rs
                  then Word.wrap (Partitions._used s p + Word.wrap (rs - used_bytes))
                  else Partitions._used s p)).
  { subst s1. destruct (used_bytes <? rs); cbn; repeat split; try reflexivity.
    - intros q Hq. apply upd_other. exact Hq.
    - apply upd_same. }
  clearbody s1.
  destruct E1 as (Em & EN & EL & ER & ELE & ERE & EC & ECn & Ers & EUo & EUp).
  assert (Hok1 : table_ok s1).
  { split; [rewrite EN; exact HN |]. rewrite EN, Em. apply Hok. }
  apply returns_bind.
  eapply returns_eq; [apply bm_clear_bit_eq; [exact Hok1 | exact Hp | rewrite EN; exact Hidx] |].
  set (s2 := Partitions.with_membership s1 _).
  assert (Hmem2 : forall q j, 0 <= j < Partitions._max s ->
                              member s2 q j <-> member s q j /\ ~ (q = p /\ j = idx)).
  { intros q j Hj. subst s2. rewrite member_clear_bit by lia. unfold member. rewrite Em. tauto. }
  assert (Hok2 : table_ok s2).
  { apply table_ok_with_membership; [exact Hok1 |]. apply bitmap_ok_clear_bit.
    destruct Hok1 as [_ H]. apply H, Hp. }
  assert (HI : 0 <= Partitions._leftmosts s p <= idx /\
               idx <= Partitions._rightmosts s p < Partitions._max s /\
               member s p (Partitions._leftmosts s p) /\
               member s p (Partitions._rightmosts s p)).
  { destruct Hint as (Hc & _ & Hs). pose proof (Hc idx Hidx Hm).
    destruct Hs as [[HL _]|(H1 & H2 & H3 & H4)]; [lia |]. repeat split; try assumption; lia. }
  destruct HI as (HL & HR & HLm & HRm).
  apply returns_bind.
  eapply returns_same;
    [apply shrink_interval_if_boundary_modified_range; cbn; rewrite EN; exact Hidx |].
  eapply returns_conseq.
  { apply (shrink_interval_if_range_modifies_either_boundary_returns
             dbg alloc_capacity p Hp idx idx s2 Hok2); cbn; rewrite ?EN, ?EL, ?ER, ?ERE;
      try lia.
    - intros j Hj. replace j with idx by lia. intros H. apply Hmem2 in H; [| exact Hidx].
      apply H. split; reflexivity.
    - intros j Hj H. cbn in Hj. rewrite EN in Hj.
      apply Hmem2 in H; [| exact Hj].
      change (Partitions._leftmosts s1 p <= j <= Partitions._rightmosts s1 p).
      rewrite EL, ER. apply Hint; [exact Hj | apply H].
    - intros Hlt. apply Hmem2; [lia |]. split; [exact HLm | intros [_ E]; lia].
    - intros Hlt. apply Hmem2; [lia |]. split; [exact HRm | intros [_ E]; lia].
    - apply Hint. }
  cbv beta. intros _ s3 (H3 & Hint3).
  apply returns_bind, returns_get. apply returns_modify.
  destruct H3 as (HN3 & Hrs3 & Hm3 & Hc3 & Hu3 & Hcn3 & Hq3).
  clear Hmem2 Hok2. subst s2 rs. cbn in HN3, Hrs3, Hm3, Hc3, Hu3, Hcn3.
  split; [split; cbn; congruence |].
  split.
  { intros q Hq. destruct (Hq3 q Hq) as (B1 & B2 & B3 & B4). cbn in B1, B2, B3, B4.
    unfold kept. cbn. rewrite Hm3, Hc3, Hu3, Hcn3, B1, B2, B3, B4, EL, ER, ELE, ERE, EC, ECn.
    rewrite !upd_other by exact Hq. rewrite Em, (EUo q Hq). repeat split; reflexivity. }
  cbn. rewrite Hm3, Hc3, Hu3, Hcn3, !upd_same, EC, ECn, EUp, Em.
  do 4 (split; [reflexivity |]). exact Hint3.
Qed.

End Retire.


Lemma returns_inv {S A} (m : Run.M S A) s a s' (Q : A -> S -> Prop) :
  returns m s Q -> m s = Ret a s' -> Q a s'.
Proof. intros (a1 & s1 & E & H) E'. rewrite E in E'. inversion E'; subst. exact H. Qed.

Section Membership.

Variable dbg : bool.

(** [membership] names the partition that holds [idx]. *)
Lemma membership_eq idx s :
  table_ok s -> disjoint s -> 0 <= idx < Partitions._max s ->
  Partitions.membership dbg idx s
  = Ret (if SimpleBitMap.is_set (Partitions._membership s Collector) idx then Collector
         else if SimpleBitMap.is_set (Partitions._membership s Mutator) idx then Mutator
         else NotFree) s.
Proof.
  intros Hok Hdis Hidx. unfold Partitions.membership.
  rewrite bind_get.
  destruct (Z.ltb_spec idx (Partitions._max s)); [| lia].
  rewrite (bind_eq _ _ _ _ _ (assert_true dbg _ s)).
  rewrite (bind_eq _ _ _ _ _ (bm_is_set_eq dbg Mutator idx s Hok eq_refl Hidx)).
  specialize (Hdis idx Hidx). unfold member in Hdis.
  destruct (SimpleBitMap.is_set (Partitions._membership s Mutator) idx) eqn:EM.
  - cbn [Partitions.partition_eqb].
    rewrite bind_eq with (a := Mutator) (s' := s)
      by (rewrite (bind_eq _ _ _ _ _ (assert_true dbg _ s)); reflexivity).
    rewrite (bind_eq _ _ _ _ _ (bm_is_set_eq dbg Collector idx s Hok eq_refl Hidx)).
    destruct (SimpleBitMap.is_set (Partitions._membership s Collector) idx) eqn:EC.
    + exfalso. apply Hdis. split; reflexivity.
    + reflexivity.
  - rewrite bind_ret.
    rewrite (bind_eq _ _ _ _ _ (bm_is_set_eq dbg Collector idx s Hok eq_refl Hidx)).
    destruct (SimpleBitMap.is_set (Partitions._membership s Collector) idx) eqn:EC.
    + cbn [Partitions.partition_eqb].
      rewrite (bind_eq _ _ _ _ _ (assert_true dbg _ s)). reflexivity.
    + reflexivity.
Qed.

End Membership.

Section MakeFree.

Variable dbg : bool.
Variable alloc_capacity : Z -> Z.

(** [make_free]: the call returns; the bit of [idx] is set, capacity,
    used and count are increased, and the interval of [p] is tight. *)
Lemma make_free_returns idx p avail s :
  table_ok s -> disjoint s -> Partitions.lt_NumPartitions p = true ->
  0 <= idx < Partitions._max s ->
  ~ member s Mutator idx -> ~ member s Collector idx ->
  avail <= Partitions._region_size_bytes s ->
  interval_ok s p ->
  returns (Partitions.make_free dbg alloc_capacity idx p avail) s
    (fun _ s' =>
       same_size s s' /\
       (forall q, q <> p -> kept q s s') /\
       Partitions._membership s' p = SimpleBitMap.set_bit (Partitions._membership s p) idx /\
       Partitions._capacity s' p
       = Word.wrap (Partitions._capacity s p + Partitions._region_size_bytes s) /\
       Partitions._used s' p
       = Word.wrap (Partitions._used s p + Word.wrap (Partitions._region_size_bytes s - avail)) /\
       Partitions._region_counts s' p = Word.wrap (Partitions._region_counts s p + 1) /\
       interval_ok s' p).
Proof.
  intros Hok Hdis Hp Hidx HnM HnC Hav Hint.
  assert (HN := proj1 Hok). pose proof pow62_modulus as H62.
  unfold Partitions.make_free.
  apply returns_bind, returns_get.
  apply returns_bind, returns_assert; [destruct (Z.ltb_spec idx (Partitions._max s)); [reflexivity | lia] |].
  apply returns_bind, returns_assertM.
  { rewrite (bind_eq _ _ _ _ _ (membership_eq dbg idx s Hok Hdis Hidx)).
    unfold member in HnM, HnC.
    destruct (SimpleBitMap.is_set (Partitions._membership s Collector) idx); [congruence |].
    destruct (SimpleBitMap.is_set (Partitions._membership s Mutator) idx); [congruence |].
    reflexivity. }
  apply returns_bind, returns_assert; [exact Hp |].
  apply returns_bind, returns_assert.
  { destruct (Z.leb_spec avail (Partitions._region_size_bytes s)); [reflexivity | lia]. }
  apply returns_bind.
  eapply returns_eq; [apply bm_set_bit_eq; assumption |].
  apply returns_bind, returns_modify, returns_bind, returns_modify.
  set (s3 := Partitions.with_used _ _).
  assert (Hmem3 : forall q j, 0 <= j < Partitions._max s ->
                              member s3 q j <-> member s q j \/ (q = p /\ j = idx)).
  { intros q j Hj. exact (member_set_bit s p idx q j ltac:(lia) ltac:(lia)). }
  assert (Hok3 : table_ok s3).
  { exact (table_ok_with_membership s p _ Hok
             (bitmap_ok_set_bit _ _ idx (proj2 Hok p Hp))). }
  apply returns_bind.
  eapply returns_conseq.
  { apply (expand_interval_if_boundary_modified_returns dbg alloc_capacity p Hp idx avail s3 Hok3).
    - exact Hidx.
    - apply Hmem3; [exact Hidx |]. right. split; reflexivity.
    - intros j Hj Hm Hne. apply Hmem3 in Hm; [| exact Hj].
      destruct Hm as [Hm|[_ E]]; [| congruence]. apply Hint; assumption.
    - change (Partitions._leftmosts s3 p) with (Partitions._leftmosts s p).
      change (Partitions._rightmosts s3 p) with (Partitions._rightmosts s p).
      change (Partitions._max s3) with (Partitions._max s).
      destruct Hint as (_ & _ & [Hs|(H1 & H2 & H3 & H4)]); [left; exact Hs | right].
      split; [exact H1 |]. split; [exact H2 |].
      split; (apply Hmem3; [lia | left; assumption]).
    - apply Hint. }
  cbv beta. intros _ s4 (H4 & Hint4).
  apply returns_bind, returns_get. apply returns_modify.
  destruct H4 as (HN4 & Hrs4 & Hm4 & Hc4 & Hu4 & Hcn4 & Hq4).
  clear Hmem3 Hok3. subst s3. cbn in HN4, Hrs4, Hm4, Hc4, Hu4, Hcn4.
  split; [split; cbn; congruence |].
  split.
  { intros q Hq. destruct (Hq4 q Hq) as (B1 & B2 & B3 & B4). cbn in B1, B2, B3, B4.
    unfold kept. cbn. rewrite Hm4, Hc4, Hu4, Hcn4, B1, B2, B3, B4.
    rewrite !upd_other by exact Hq. repeat split; reflexivity. }
  cbn. rewrite Hm4, Hc4, Hu4, Hcn4, !upd_same.
  do 4 (split; [reflexivity |]). exact Hint4.
Qed.

End MakeFree.


Lemma expected_movement_distinct s orig new avail :
  Partitions.expected_movement s orig new avail = true ->
  orig <> new /\ Partitions.lt_NumPartitions orig = true /\
  Partitions.lt_NumPartitions new = true.
Proof.
  unfold Partitions.expected_movement.
  destruct orig, new; cbn; rewrite ?andb_false_r; cbn; intros H;
    try discriminate; repeat split; congruence.
Qed.

Section Move.

Variable dbg : bool.
Variable alloc_capacity : Z -> Z.

(** [move_from_partition_to_partition]: the call returns; the bit of
    [idx] moves from [orig] to [new] together with one region's worth of
    capacity, the region's use and one count, and both intervals are
    tight. *)
Lemma move_from_partition_to_partition_returns idx orig new avail s :
  table_ok s ->
  0 <= idx < Partitions._max s ->
  member s orig idx -> ~ member s new idx ->
  avail <= Partitions._region_size_bytes s ->
  Partitions.expected_movement s orig new avail = true ->
  interval_ok s orig -> interval_ok s new ->
  returns (Partitions.move_from_partition_to_partition dbg alloc_capacity idx orig new avail) s
    (fun _ s' =>
       same_size s s' /\
       (forall q, q <> orig -> q <> new -> kept q s s') /\
       Partitions._membership s' orig
       = SimpleBitMap.clear_bit (Partitions._membership s orig) idx /\
       Partitions._membership s' new
       = SimpleBitMap.set_bit (Partitions._membership s new) idx /\
       Partitions._capacity s' orig
       = Word.wrap (Partitions._capacity s orig - Partitions._region_size_bytes s) /\
       Partitions._capacity s' new
       = Word.wrap (Partitions._capacity s new + Partitions._region_size_bytes s) /\
       Partitions._used s' orig
       = Word.wrap (Partitions._used s orig
                    - Word.wrap (Partitions._region_size_bytes s - avail)) /\
       Partitions._used s' new
       = Word.wrap (Partitions._used s new
                    + Word.wrap (Partitions._region_size_bytes s - avail)) /\
       Partitions._region_counts s' orig = Word.wrap (Partitions._region_counts s orig - 1) /\
       Partitions._region_counts s' new = Word.wrap (Partitions._region_counts s new + 1) /\
       interval_ok s' orig /\ interval_ok s' new).
Proof.
  intros Hok Hidx Hmo Hmn Hav Hexp Hio Hin.
  destruct (expected_movement_distinct _ _ _ _ Hexp) as (Hne & Hpo & Hpn).
  assert (Hne' : new <> orig) by congruence.
  assert (HN := proj1 Hok). pose proof pow62_modulus as H62.
  unfold Partitions.move_from_partition_to_partition.
  apply returns_bind, returns_get.
  apply returns_bind, returns_assert; [destruct (Z.ltb_spec idx (Partitions._max s)); [reflexivity | lia] |].
  apply returns_bind, returns_assert; [exact Hpo |].
  apply returns_bind, returns_assert; [exact Hpn |].
  apply returns_bind, returns_assert.
  { destruct (Z.leb_spec avail (Partitions._region_size_bytes s)); [reflexivity | lia]. }
  apply returns_bind, returns_assert; [exact Hexp |].
  apply returns_bind.
  eapply returns_eq; [apply bm_clear_bit_eq; assumption |].
  set (s1 := Partitions.with_membership s _).
  assert (Hok1 : table_ok s1).
  { exact (table_ok_with_membership s orig _ Hok
             (bitmap_ok_clear_bit _ _ idx (proj2 Hok orig Hpo))). }
  assert (Hmem1 : forall q j, 0 <= j < Partitions._max s ->
                              member s1 q j <-> member s q j /\ ~ (q = orig /\ j = idx)).
  { intros q j Hj. exact (member_clear_bit s orig idx q j ltac:(lia) ltac:(lia)). }
  apply returns_bind.
  eapply returns_eq; [apply bm_set_bit_eq; assumption |].
  set (s2 := Partitions.with_membership s1 _).
  assert (Hok2 : table_ok s2).
  { exact (table_ok_with_membership s1 new _ Hok1
             (bitmap_ok_set_bit _ _ idx (proj2 Hok1 new Hpn))). }
  assert (Hmem2 : forall q j, 0 <= j < Partitions._max s ->
                              member s2 q j <->
                              (member s q j /\ ~ (q = orig /\ j = idx)) \/ (q = new /\ j = idx)).
  { intros q j Hj. rewrite <- (Hmem1 q j Hj).
    exact (member_set_bit s1 new idx q j ltac:(lia) ltac:(lia)). }
  assert (Em2o : Partitions._membership s2 orig
                 = SimpleBitMap.clear_bit (Partitions._membership s orig) idx).
  { subst s2 s1. cbn. rewrite upd_other by exact Hne. apply upd_same. }
  assert (Em2n : Partitions._membership s2 new
                 = SimpleBitMap.set_bit (Partitions._membership s new) idx).
  { subst s2 s1. cbn. rewrite upd_same, upd_other by exact Hne'. reflexivity. }
  assert (Em2q : forall q, q <> orig -> q <> new ->
                           Partitions._membership s2 q = Partitions._membership s q).
  { intros q H1 H2. subst s2 s1. cbn. rewrite !upd_other by assumption. reflexivity. }
  apply returns_bind, returns_get. apply returns_bind, returns_modify.
  apply returns_bind, returns_get. apply returns_bind, returns_modify.
  set (s4 := Partitions.with_used _ _).
  assert (HIo : 0 <= Partitions._leftmosts s orig <= idx /\
                idx <= Partitions._rightmosts s orig < Partitions._max s /\
                member s orig (Partitions._leftmosts s orig) /\
                member s orig (Partitions._rightmosts s orig)).
  { destruct Hio as (Hc & _ & Hs). pose proof (Hc idx Hidx Hmo).
    destruct Hs as [[HL _]|(H1 & H2 & H3 & H4)]; [lia |]. repeat split; try assumption; lia. }
  destruct HIo as (HL & HR & HLm & HRm).
  apply returns_bind.
  eapply returns_same; [apply shrink_interval_if_boundary_modified_range; exact Hidx |].
  eapply returns_conseq.
  { apply (shrink_interval_if_range_modifies_either_boundary_returns
             dbg alloc_capacity orig Hpo idx idx s4 Hok2).
    - lia.
    - exact (proj2 Hidx).
    - exact HL.
    - exact HR.
    - intros j Hj. replace j with idx by lia. intros H. apply (Hmem2 orig idx Hidx) in H.
      destruct H as [[_ H]|[H _]]; [apply H; split; reflexivity | congruence].
    - intros j Hj H. apply (Hmem2 orig j Hj) in H.
      destruct H as [[H _]|[H _]]; [| congruence]. apply Hio; assumption.
    - change (Partitions._leftmosts s4 orig) with (Partitions._leftmosts s orig).
      intros Hlt. apply (Hmem2 orig); [lia |]. left. split; [exact HLm | intros [_ E]; lia].
    - change (Partitions._rightmosts s4 orig) with (Partitions._rightmosts s orig).
      intros Hlt. apply (Hmem2 orig); [lia |]. left. split; [exact HRm | intros [_ E]; lia].
    - apply Hio. }
  cbv beta. intros _ s5 (H5 & Hint5).
  apply returns_bind, returns_get. apply returns_bind, returns_modify.
  apply returns_bind, returns_get. apply returns_bind, returns_modify.
  set (s7 := Partitions.with_used _ _).
  assert (H47 : forall q, q <> orig ->
                  Partitions._leftmosts s7 q = Partitions._leftmosts s q /\
                  Partitions._rightmosts s7 q = Partitions._rightmosts s q /\
                  Partitions._leftmosts_empty s7 q = Partitions._leftmosts_empty s q /\
                  Partitions._rightmosts_empty s7 q = Partitions._rightmosts_empty s q).
  { intros q Hq. destruct H5 as (_ & _ & _ & _ & _ & _ & H). exact (H q Hq). }
  assert (Em7 : Partitions._membership s7 = Partitions._membership s2) by apply H5.
  assert (EN7 : Partitions._max s7 = Partitions._max s) by apply H5.
  assert (Hok7 : table_ok s7).
  { split; [rewrite EN7; exact HN |]. rewrite EN7, Em7. apply Hok2. }
  assert (Hmem7 : forall q j, member s7 q j <-> member s2 q j).
  { intros q j. unfold member. rewrite Em7. tauto. }
  destruct (H47 new Hne') as (ELn & ERn & _ & EREn).
  apply returns_bind.
  eapply returns_conseq.
  { apply (expand_interval_if_boundary_modified_returns dbg alloc_capacity new Hpn idx avail
             s7 Hok7).
    - rewrite EN7. exact Hidx.
    - apply Hmem7, (Hmem2 new idx Hidx). right. split; reflexivity.
    - rewrite EN7, ELn, ERn. intros j Hj Hm Hnej. apply Hmem7, (Hmem2 new j Hj) in Hm.
      destruct Hm as [[Hm _]|[_ E]]; [| congruence]. apply Hin; assumption.
    - rewrite EN7, ELn, ERn.
      destruct Hin as (_ & _ & [Hs|(H1 & H2 & H3 & H4)]); [left; exact Hs | right].
      split; [exact H1 |]. split; [exact H2 |].
      split; (apply Hmem7, (Hmem2 new); [lia |]; left; split; [assumption |];
              intros [E _]; congruence).
    - rewrite EN7, EREn. apply Hin. }
  cbv beta. intros _ s8 (H8 & Hint8).
  apply returns_bind, returns_get. apply returns_bind, returns_modify.
  apply returns_bind, returns_get. apply returns_modify.
  destruct H8 as (HN8 & Hrs8 & Hm8 & Hc8 & Hu8 & Hcn8 & Hq8).
  destruct H5 as (HN5 & Hrs5 & Hm5 & Hc5 & Hu5 & Hcn5 & Hq5).
  assert (Hio8 : interval_ok s8 orig).
  { apply (interval_ok_kept orig s5 s8).
    - rewrite HN8. reflexivity.
    - destruct (Hq8 orig Hne) as (B1 & B2 & B3 & B4).
      unfold kept. rewrite Hm8, Hc8, Hu8, Hcn8, B1, B2, B3, B4. cbn.
      rewrite !upd_other by exact Hne. repeat split; reflexivity.
    - exact Hint5. }
  clear Hmem7 Hok7 H47 Hmem2 Hok2 Hmem1 Hok1 Hint5.
  split; [split; cbn; [rewrite HN8, EN7 | rewrite Hrs8; cbn; rewrite Hrs5]; reflexivity |].
  split.
  { intros q Hqo Hqn. destruct (Hq8 q Hqn) as (B1 & B2 & B3 & B4).
    destruct (Hq5 q Hqo) as (C1 & C2 & C3 & C4).
    unfold kept. cbn. rewrite Hm8, Hc8, Hu8, Hcn8, B1, B2, B3, B4. cbn.
    rewrite C1, C2, C3, C4, Hcn5, Hc5, Hu5, Hm5. cbn.
    rewrite !upd_other by assumption. rewrite ?(Em2q q Hqo Hqn). repeat split; reflexivity. }
  cbn. rewrite Hm8, Hc8, Hu8, Hcn8. cbn. rewrite Hm5, Hc5, Hu5, Hcn5. cbn.
  rewrite !upd_same, !(upd_other _ new orig) by exact Hne.
  rewrite !upd_same, ?(upd_other _ orig new) by exact Hne'. rewrite ?upd_same.
  rewrite ?Hrs5. cbn.
  do 8 (split; [reflexivity |]).
  split; [exact Hio8 | exact Hint8].
Qed.

End Move.


Lemma bitmap_only_refl p s : bitmap_only p s s.
Proof.
  unfold bitmap_only, same_size. repeat split; reflexivity.
Qed.

Lemma bitmap_only_trans p s1 s2 s3 :
  bitmap_only p s1 s2 -> bitmap_only p s2 s3 -> bitmap_only p s1 s3.
Proof.
  unfold bitmap_only, same_size.
  intros ((A1 & A2) & A3 & A4) ((B1 & B2) & B3 & B4).
  split; [split; congruence |].
  split; [intros q Hq; eapply kept_trans; [apply A3 | apply B3]; exact Hq |].
  repeat split; intuition congruence.
Qed.

Lemma bitmap_only_with_membership p s bm :
  bitmap_only p s (Partitions.with_membership s (Partitions.upd (Partitions._membership s) p bm)).
Proof.
  unfold bitmap_only, same_size, kept. cbn. repeat split; try reflexivity.
  apply upd_other. assumption.
Qed.

Section RetireRangeLoop.

Variable dbg : bool.
Variable p : ShenandoahFreeSetPartitionId.
Hypothesis Hp : Partitions.lt_NumPartitions p = true.

(** The loop of [retire_range_from_partition] clears the bits of the
    range in the bitmap of [p] and touches nothing else. *)
Lemma retire_range_loop_returns n lo s :
  table_ok s -> 0 <= lo -> lo + Z.of_nat n <= Partitions._max s ->
  (forall j, lo <= j < lo + Z.of_nat n -> member s p j) ->
  returns
    (Run.for_range n lo tt
       (fun idx _ =>
          Run.assertM dbg (Partitions.in_free_set dbg p idx)
                      "Must be in partition to remove from partition" ;;
          Partitions.bm_clear_bit dbg p idx)) s
    (fun _ s' =>
       table_ok s' /\ bitmap_only p s s' /\
       forall j, 0 <= j < Partitions._max s ->
                 (member s' p j <-> member s p j /\ ~ (lo <= j < lo + Z.of_nat n))).
Proof.
  revert lo s. induction n as [|n IH]; intros lo s Hok Hlo Hhi Hall; cbn [Run.for_range].
  - apply returns_ret. split; [exact Hok |]. split; [apply bitmap_only_refl |].
    intros j Hj. split; [intros H; split; [exact H | lia] | tauto].
  - assert (HN := proj1 Hok). pose proof pow62_modulus as H62.
    apply returns_bind, returns_bind.
    apply returns_assertM; [apply in_free_set_member; [exact Hp | exact Hok | lia | apply Hall; lia] |].
    eapply returns_eq; [apply bm_clear_bit_eq; [exact Hok | exact Hp | lia] |].
    set (s1 := Partitions.with_membership s _).
    assert (Hok1 : table_ok s1).
    { exact (table_ok_with_membership s p _ Hok (bitmap_ok_clear_bit _ _ lo (proj2 Hok p Hp))). }
    assert (Hmem1 : forall q j, 0 <= j < Partitions._max s ->
                                member s1 q j <-> member s q j /\ ~ (q = p /\ j = lo)).
    { intros q j Hj. exact (member_clear_bit s p lo q j ltac:(lia) ltac:(lia)). }
    eapply returns_conseq.
    { apply (IH (lo + 1) s1 Hok1); [lia | change (Partitions._max s1) with (Partitions._max s); lia |].
      intros j Hj. apply Hmem1; [lia |]. split; [apply Hall; lia | intros [_ E]; lia]. }
    cbv beta. intros _ s' (Hok' & Hb & Hmem').
    split; [exact Hok' |].
    split; [eapply bitmap_only_trans; [apply bitmap_only_with_membership | exact Hb] |].
    intros j Hj. rewrite (Hmem' j Hj), (Hmem1 p j Hj).
    split.
    + intros [[H1 H2] H3]. split; [exact H1 |]. intros H4.
      destruct (Z.eq_dec j lo) as [E|E]; [apply H2; split; [reflexivity | exact E] | apply H3; lia].
    + intros [H1 H2]. split; [split; [exact H1 | intros [_ E]; lia] | lia].
Qed.

End RetireRangeLoop.

Section RetireRange.

Variable dbg : bool.
Variable alloc_capacity : Z -> Z.
Variable p : ShenandoahFreeSetPartitionId.
Hypothesis Hp : Partitions.lt_NumPartitions p = true.

(** [retire_range_from_partition]: the call returns; the bits of
    [lo..hi] are cleared, the count is decreased by their number,
    capacity and used stay, and the interval of [p] is tight. *)
Lemma retire_range_from_partition_returns lo hi s :
  table_ok s ->
  0 <= lo <= hi -> hi < Partitions._max s ->
  (forall j, lo <= j <= hi -> member s p j) ->
  interval_ok s p ->
  returns (Partitions.retire_range_from_partition dbg alloc_capacity p lo hi) s
    (fun _ s' =>
       table_ok s' /\ same_size s s' /\
       (forall q, q <> p -> kept q s s') /\
       (forall j, 0 <= j < Partitions._max s ->
                  (member s' p j <-> member s p j /\ ~ (lo <= j <= hi))) /\
       Partitions._capacity s' p = Partitions._capacity s p /\
       Partitions._used s' p = Partitions._used s p /\
       Partitions._region_counts s' p
       = Word.wrap (Partitions._region_counts s p - (hi + 1 - lo)) /\
       interval_ok s' p).
Proof.
  intros Hok Hlohi HhiN Hall Hint.
  assert (HN := proj1 Hok).
  unfold Partitions.retire_range_from_partition.
  apply returns_bind, returns_get.
  apply returns_bind, returns_assert.
  { destruct (Z.ltb_spec lo (Partitions._max s)); [| lia].
    destruct (Z.ltb_spec hi (Partitions._max s)); [reflexivity | lia]. }
  apply returns_bind, returns_assert; [exact Hp |].
  apply returns_bind.
  eapply returns_conseq.
  { apply (retire_range_loop_returns dbg p Hp (Z.to_nat (hi + 1 - lo)) lo s Hok); [lia | lia |].
    intros j Hj. apply Hall. lia. }
  cbv beta. intros _ s1 (Hok1 & Hb1 & Hmem1).
  destruct Hb1 as ((EN & Ers) & Hq1 & EL & ER & ELE & ERE & EC & EU & ECn).
  apply returns_bind, returns_get. apply returns_bind, returns_modify.
  set (s2 := Partitions.with_region_counts s1 _).
  assert (HI : 0 <= Partitions._leftmosts s p <= lo /\
               hi <= Partitions._rightmosts s p < Partitions._max s /\
               member s p (Partitions._leftmosts s p) /\
               member s p (Partitions._rightmosts s p)).
  { destruct Hint as (Hc & _ & Hs).
    pose proof (Hc lo ltac:(lia) (Hall lo ltac:(lia))).
    pose proof (Hc hi ltac:(lia) (Hall hi ltac:(lia))).
    destruct Hs as [[HL _]|(H1 & H2 & H3 & H4)]; [lia |]. repeat split; try assumption; lia. }
  destruct HI as (HL & HR & HLm & HRm).
  eapply returns_conseq.
  { apply (shrink_interval_if_range_modifies_either_boundary_returns
             dbg alloc_capacity p Hp lo hi s2 Hok1).
    - exact Hlohi.
    - change (Partitions._max s2) with (Partitions._max s1). lia.
    - change (Partitions._leftmosts s2 p) with (Partitions._leftmosts s1 p). lia.
    - change (Partitions._rightmosts s2 p) with (Partitions._rightmosts s1 p).
      change (Partitions._max s2) with (Partitions._max s1). lia.
    - intros j Hj H. apply (Hmem1 j) in H; [| lia]. apply H. lia.
    - intros j Hj H.
      change (Partitions._leftmosts s1 p <= j <= Partitions._rightmosts s1 p).
      change (Partitions._max s2) with (Partitions._max s1) in Hj.
      rewrite EL, ER. apply Hint; [lia |]. apply (Hmem1 j); [lia | exact H].
    - change (Partitions._leftmosts s2 p) with (Partitions._leftmosts s1 p). rewrite EL.
      intros Hlt. apply (Hmem1 (Partitions._leftmosts s p)); [lia |]. split; [exact HLm | lia].
    - change (Partitions._rightmosts s2 p) with (Partitions._rightmosts s1 p). rewrite ER.
      intros Hlt. apply (Hmem1 (Partitions._rightmosts s p)); [lia |]. split; [exact HRm | lia].
    - change (Partitions._rightmosts_empty s1 p < Partitions._max s1). rewrite ERE, EN.
      apply Hint. }
  cbv beta. intros _ s3 (H3 & Hint3).
  assert (Hk3 : forall q, q <> p -> kept q s2 s3) by (intros q Hq; eapply hints_only_kept; eassumption).
  destruct H3 as (HN3 & Hrs3 & Hm3 & Hc3 & Hu3 & Hcn3 & Hq3).
  split.
  { split; [rewrite HN3; exact (proj1 Hok1) |]. rewrite HN3, Hm3. apply Hok1. }
  split; [split; [rewrite HN3; exact EN | rewrite Hrs3; exact Ers] |].
  split.
  { intros q Hq. eapply kept_trans; [apply Hq1; exact Hq |].
    eapply kept_trans; [| apply Hk3; exact Hq].
    unfold kept. cbn. rewrite upd_other by exact Hq. repeat split; reflexivity. }
  split.
  { intros j Hj. unfold member. rewrite Hm3. change (Partitions._membership s2) with (Partitions._membership s1).
    rewrite (Hmem1 j Hj). split; intros [H1 H2]; (split; [exact H1 | lia]). }
  rewrite Hc3, Hu3, Hcn3. cbn. rewrite upd_same, EC, EU, ECn.
  do 3 (split; [reflexivity |]). exact Hint3.
Qed.

End RetireRange.

Import FreeSetSpec.

(** ** Rebuilding the table *)

Lemma to_ssize_id x : 0 <= x < 2 ^ 63 -> Word.to_ssize x = x.
Proof. intros H. apply to_ssize_small. rewrite half_modulus_eq. lia. Qed.

Lemma partitions_eq {A} cfg (m : (Z -> Z) -> Run.M Partitions.t A) fs a P :
  m (FreeSet.alloc_capacity cfg fs) (FreeSet._partitions fs) = Ret a P ->
  FreeSet.partitions cfg m fs = Ret a (FreeSet.with_partitions fs P).
Proof.
  intros E. unfold FreeSet.partitions, Run.zoom. rewrite E. reflexivity.
Qed.

Lemma table_only_refl fs : table_only fs fs.
Proof. unfold table_only. repeat split; reflexivity. Qed.

Lemma table_only_trans fs1 fs2 fs3 : table_only fs1 fs2 -> table_only fs2 fs3 -> table_only fs1 fs3.
Proof. unfold table_only. intros (A1 & A2 & A3) (B1 & B2 & B3). repeat split; congruence. Qed.

Lemma table_only_with_partitions fs P : table_only fs (FreeSet.with_partitions fs P).
Proof. unfold table_only. repeat split; reflexivity. Qed.

(** [make_all_regions_unavailable] leaves both partitions empty, with the
    canonical empty interval and no capacity, use or count. *)
Lemma make_all_regions_unavailable_returns s :
  exists s',
    Partitions.make_all_regions_unavailable s = Ret tt s' /\
    same_size s s' /\
    forall p, Partitions.lt_NumPartitions p = true ->
      Partitions._membership s' p = SimpleBitMap.clear_all (Partitions._membership s p) /\
      Partitions._leftmosts s' p = Partitions._max s /\
      Partitions._rightmosts s' p = -1 /\
      Partitions._leftmosts_empty s' p = Partitions._max s /\
      Partitions._rightmosts_empty s' p = -1 /\
      Partitions._capacity s' p = 0 /\
      Partitions._used s' p = 0 /\
      Partitions._region_counts s' p = 0.
Proof.
  eexists. split; [reflexivity |]. split; [split; reflexivity |].
  intros [| |] Hp; try discriminate; cbn; repeat split; reflexivity.
Qed.

Lemma member_clear_all s p j :
  bitmap_ok (Partitions._max s) (Partitions._membership s p) ->
  Partitions._max s < 2 ^ 62 -> 0 <= j < Partitions._max s ->
  SimpleBitMap.is_set (SimpleBitMap.clear_all (Partitions._membership s p)) j = false.
Proof.
  intros (_ & _ & Hw) HN Hj. pose proof pow62_modulus. apply is_set_clear_all; lia.
Qed.

(** A table whose partitions are both empty and canonical is in order. *)
Lemma cleared_invariant s s' :
  table_ok s -> same_size s s' ->
  (forall p, Partitions.lt_NumPartitions p = true ->
     Partitions._membership s' p = SimpleBitMap.clear_all (Partitions._membership s p) /\
     Partitions._leftmosts s' p = Partitions._max s /\
     Partitions._rightmosts s' p = -1 /\
     Partitions._rightmosts_empty s' p = -1 /\
     Partitions._used s' p = 0) ->
  TableSpec.invariant s' /\
  forall p j, Partitions.lt_NumPartitions p = true -> 0 <= j < Partitions._max s ->
              ~ member s' p j.
Proof.
  intros Hok (EN & _) H. assert (HN := proj1 Hok).
  assert (Hnone : forall p j, Partitions.lt_NumPartitions p = true ->
                              0 <= j < Partitions._max s -> ~ member s' p j).
  { intros p j Hp Hj. destruct (H p Hp) as (Em & _). unfold member. rewrite Em.
    rewrite member_clear_all; [discriminate | apply Hok, Hp | lia | exact Hj]. }
  split; [| exact Hnone].
  split.
  { split; [rewrite EN; exact HN |]. intros p Hp. destruct (H p Hp) as (Em & _).
    rewrite EN, Em. apply bitmap_ok_clear_all, Hok, Hp. }
  split.
  { intros j Hj [Hm _]. rewrite EN in Hj. exact (Hnone Mutator j eq_refl Hj Hm). }
  intros p Hp. destruct (H p Hp) as (Em & EL & ER & ERE & EU).
  split; [| rewrite EU; lia].
  unfold interval_ok, contains. rewrite EN, EL, ER, ERE.
  split; [intros j Hj Hm; exfalso; exact (Hnone p j Hp Hj Hm) |].
  split; [lia |]. left. split; [reflexivity | left; reflexivity].
Qed.

Lemma returns_gets {S A} (f : S -> A) (s : S) (Q : A -> S -> Prop) :
  Q (f s) s -> returns (Run.gets f) s Q.
Proof. intros H. exists (f s), s. split; [reflexivity | exact H]. Qed.

Section Rebuild.

Variable dbg : bool.
Variable cfg : Config.

(** One step of the scan: the region joins the Mutator bitmap or not,
    and the locals follow. *)
Lemma find_regions_visit_returns rs idx l fs :
  table_ok (FreeSet._partitions fs) ->
  0 <= idx < Partitions._max (FreeSet._partitions fs) ->
  scan_ok (FreeSet._partitions fs) l ->
  returns (FreeSet.find_regions_visit dbg cfg rs idx l) fs
    (fun l' fs' =>
       table_only fs fs' /\
       table_ok (FreeSet._partitions fs') /\
       bitmap_only Mutator (FreeSet._partitions fs) (FreeSet._partitions fs') /\
       scan_ok (FreeSet._partitions fs') l').
Proof.
  intros Hok Hidx Hscan.
  set (P := FreeSet._partitions fs) in *.
  assert (HN := proj1 Hok). pose proof pow62_modulus as H62.
  assert (Hsame : forall c, returns
            (Run.ret (FreeSet.mk_scan_locals c (FreeSet.mutator_leftmost l)
                        (FreeSet.mutator_rightmost l) (FreeSet.mutator_leftmost_empty l)
                        (FreeSet.mutator_rightmost_empty l) (FreeSet.mutator_regions l)
                        (FreeSet.mutator_used l))) fs
            (fun l' fs' =>
               table_only fs fs' /\
               table_ok (FreeSet._partitions fs') /\
               bitmap_only Mutator P (FreeSet._partitions fs') /\
               scan_ok (FreeSet._partitions fs') l')).
  { intros c. apply returns_ret. split; [apply table_only_refl |]. split; [exact Hok |].
    split; [apply bitmap_only_refl |]. exact Hscan. }
  unfold FreeSet.find_regions_visit, FreeSet.get_region.
  apply returns_bind, returns_gets.
  set (region := Heap.get_region (FreeSet._heap fs) idx).
  destruct (Heap.is_alloc_allowed region || Heap.is_trash region); [| apply Hsame].
  destruct (FreeSet.alloc_capacity_region cfg region >? _); [| apply Hsame].
  apply returns_bind.
  eapply returns_eq.
  { apply partitions_eq. unfold Partitions.raw_set_membership.
    apply bm_set_bit_eq; [exact Hok | reflexivity | exact Hidx]. }
  apply returns_ret. fold P.
  set (P' := Partitions.with_membership P _).
  assert (Hmem : forall j, 0 <= j < Partitions._max P ->
                           member P' Mutator j <-> member P Mutator j \/ j = idx).
  { intros j Hj. pose proof (member_set_bit P Mutator idx Mutator j ltac:(lia) ltac:(lia)) as H.
    fold P' in H. rewrite H. intuition congruence. }
  split; [apply table_only_with_partitions |].
  split.
  { exact (table_ok_with_membership P Mutator _ Hok
             (bitmap_ok_set_bit _ _ idx (proj2 Hok Mutator eq_refl))). }
  split; [apply bitmap_only_with_membership |].
  destruct Hscan as (Hre & Hle & Hu & Hb).
  unfold scan_ok. cbn [FreeSet.mutator_leftmost FreeSet.mutator_rightmost
    FreeSet.mutator_leftmost_empty FreeSet.mutator_rightmost_empty FreeSet.mutator_used
    FreeSet._partitions FreeSet.with_partitions].
  change (Partitions._max P') with (Partitions._max P).
  split; [destruct (_ && (idx >? _)); lia |].
  split; [destruct (_ && (idx <? _)); lia |].
  split; [apply wrap_nonneg |].
  right.
  destruct Hb as [(Hnone & HL & HR)|(H1 & H2 & H3 & H4 & H5)].
  - rewrite HL, HR.
    destruct (Z.ltb_spec idx (Partitions._max P)); [| lia].
    assert (E : (if idx >? 0 then idx else 0) = idx) by (destruct (Z.gtb_spec idx 0); lia).
    rewrite E.
    split; [lia |]. split; [lia |].
    split; [apply Hmem; [exact Hidx | right; reflexivity] |].
    split; [apply Hmem; [exact Hidx | right; reflexivity] |].
    intros j Hj Hm. apply Hmem in Hm; [| exact Hj].
    destruct Hm as [Hm| ->]; [exfalso; exact (Hnone j Hj Hm) | lia].
  - set (ml := FreeSet.mutator_leftmost l) in *. set (mr := FreeSet.mutator_rightmost l) in *.
    assert (Hml : member P' Mutator (if idx <? ml then idx else ml)).
    { destruct (idx <? ml);
        [apply Hmem; [lia | right; reflexivity] | apply Hmem; [lia | left; exact H3]]. }
    assert (Hmr : member P' Mutator (if idx >? mr then idx else mr)).
    { destruct (idx >? mr);
        [apply Hmem; [lia | right; reflexivity] | apply Hmem; [lia | left; exact H4]]. }
    split; [destruct (Z.ltb_spec idx ml); destruct (Z.gtb_spec idx mr); lia |].
    split; [destruct (Z.gtb_spec idx mr); lia |].
    split; [exact Hml |]. split; [exact Hmr |].
    intros j Hj Hm. apply Hmem in Hm; [| exact Hj].
    destruct (Z.ltb_spec idx ml); destruct (Z.gtb_spec idx mr);
      (destruct Hm as [Hm| ->]; [pose proof (H5 j Hj Hm) |]); lia.
Qed.

(** The scan over the regions [idx, idx + n). *)
Lemma find_regions_loop_returns rs n idx l fs :
  table_ok (FreeSet._partitions fs) ->
  0 <= idx -> idx + Z.of_nat n <= Partitions._max (FreeSet._partitions fs) ->
  scan_ok (FreeSet._partitions fs) l ->
  returns (Run.for_range n idx l (FreeSet.find_regions_visit dbg cfg rs)) fs
    (fun l' fs' =>
       table_only fs fs' /\
       table_ok (FreeSet._partitions fs') /\
       bitmap_only Mutator (FreeSet._partitions fs) (FreeSet._partitions fs') /\
       scan_ok (FreeSet._partitions fs') l').
Proof.
  revert idx l fs. induction n as [|n IH]; intros idx l fs Hok Hidx Hn Hscan;
    cbn [Run.for_range].
  - apply returns_ret. split; [apply table_only_refl |]. split; [exact Hok |].
    split; [apply bitmap_only_refl | exact Hscan].
  - apply returns_bind.
    eapply returns_conseq; [apply find_regions_visit_returns; [exact Hok | lia | exact Hscan] |].
    cbv beta. intros l1 fs1 (Ht1 & Hok1 & Hb1 & Hs1).
    assert (EN : Partitions._max (FreeSet._partitions fs1)
                 = Partitions._max (FreeSet._partitions fs)) by apply Hb1.
    eapply returns_conseq; [apply (IH (idx + 1) l1 fs1 Hok1); [lia | rewrite EN; lia | exact Hs1] |].
    cbv beta. intros l2 fs2 (Ht2 & Hok2 & Hb2 & Hs2).
    split; [eapply table_only_trans; eassumption |]. split; [exact Hok2 |].
    split; [eapply bitmap_only_trans; eassumption | exact Hs2].
Qed.

Lemma establish_intervals_returns ml mr mle mre n u s :
  exists s',
    Partitions.establish_intervals ml mr mle mre n u s = Ret tt s' /\
    same_size s s' /\
    Partitions._membership s' = Partitions._membership s /\
    (Partitions._leftmosts s' Mutator = ml /\
     Partitions._rightmosts s' Mutator = mr /\
     Partitions._leftmosts_empty s' Mutator = mle /\
     Partitions._rightmosts_empty s' Mutator = mre /\
     Partitions._region_counts s' Mutator = n /\
     Partitions._used s' Mutator = u /\
     Partitions._capacity s' Mutator = Word.wrap (n * Partitions._region_size_bytes s)) /\
    (Partitions._leftmosts s' Collector = Partitions._max s /\
     Partitions._rightmosts s' Collector = -1 /\
     Partitions._leftmosts_empty s' Collector = Partitions._max s /\
     Partitions._rightmosts_empty s' Collector = -1 /\
     Partitions._region_counts s' Collector = 0 /\
     Partitions._used s' Collector = 0 /\
     Partitions._capacity s' Collector = 0).
Proof.
  eexists. split; [reflexivity |]. split; [split; reflexivity |].
  split; [reflexivity |]. split; cbn; repeat split; reflexivity.
Qed.

(** [find_regions_with_alloc_capacity] returns and leaves the table in
    order: the Collector partition is empty, and the Mutator's capacity is
    one region's size for every region counted. *)
Lemma find_regions_with_alloc_capacity_returns fs :
  table_ok (FreeSet._partitions fs) ->
  Partitions._max (FreeSet._partitions fs) = num_regions cfg ->
  returns (FreeSet.find_regions_with_alloc_capacity dbg cfg) fs
    (fun _ fs' =>
       table_only fs fs' /\
       same_size (FreeSet._partitions fs) (FreeSet._partitions fs') /\
       TableSpec.invariant (FreeSet._partitions fs') /\
       Partitions._capacity (FreeSet._partitions fs') Mutator
       = Word.wrap (Partitions._region_counts (FreeSet._partitions fs') Mutator
                    * Partitions._region_size_bytes (FreeSet._partitions fs)) /\
       Partitions._capacity (FreeSet._partitions fs') Collector = 0 /\
       Partitions._region_counts (FreeSet._partitions fs') Collector = 0 /\
       forall j, 0 <= j < Partitions._max (FreeSet._partitions fs) ->
                 ~ member (FreeSet._partitions fs') Collector j).
Proof.
  intros Hok HNeq.
  set (P := FreeSet._partitions fs) in *.
  assert (HN := proj1 Hok). pose proof pow62_modulus as H62.
  unfold FreeSet.find_regions_with_alloc_capacity.
  destruct (make_all_regions_unavailable_returns P) as (P1 & E1 & Hsz1 & H1).
  apply returns_bind.
  eapply returns_eq; [unfold FreeSet.clear_internal; apply partitions_eq; exact E1 |].
  destruct (cleared_invariant P P1 Hok Hsz1) as (Hinv1 & Hnone1).
  { intros p Hp. destruct (H1 p Hp) as (A1 & A2 & A3 & A4 & A5 & A6 & A7 & A8).
    repeat split; assumption. }
  assert (Hok1 : table_ok P1) by apply Hinv1.
  assert (EN1 : Partitions._max P1 = Partitions._max P) by apply Hsz1.
  assert (Ers1 : Partitions._region_size_bytes P1 = Partitions._region_size_bytes P) by apply Hsz1.
  apply returns_bind, returns_get.
  cbn [FreeSet._partitions FreeSet.with_partitions].
  rewrite EN1, (wrap_small (Partitions._max P)) by lia.
  apply returns_bind.
  eapply returns_conseq.
  { apply (find_regions_loop_returns _ (Z.to_nat (num_regions cfg)) 0 _
             (FreeSet.with_partitions fs P1)); cbn [FreeSet._partitions FreeSet.with_partitions].
    - exact Hok1.
    - lia.
    - rewrite EN1. lia.
    - unfold scan_ok. cbn. rewrite EN1. repeat split; try lia.
      left. split; [| split; reflexivity]. intros j Hj. apply Hnone1; [reflexivity | exact Hj]. }
  cbv beta. intros l fs2 (Ht2 & Hok2 & Hb2 & Hs2).
  set (P2 := FreeSet._partitions fs2) in *.
  cbn [FreeSet._partitions FreeSet.with_partitions] in Hb2.
  assert (EN2 : Partitions._max P2 = Partitions._max P) by (rewrite <- EN1; apply Hb2).
  assert (Ers2 : Partitions._region_size_bytes P2 = Partitions._region_size_bytes P)
    by (rewrite <- Ers1; apply Hb2).
  destruct Hs2 as (Hre & Hle & Hu & Hb). rewrite EN2 in Hre, Hle.
  destruct (establish_intervals_returns
              (Word.to_ssize (FreeSet.mutator_leftmost l))
              (Word.to_ssize (FreeSet.mutator_rightmost l))
              (Word.to_ssize (FreeSet.mutator_leftmost_empty l))
              (Word.to_ssize (FreeSet.mutator_rightmost_empty l))
              (FreeSet.mutator_regions l) (FreeSet.mutator_used l) P2)
    as (P3 & E3 & Hsz3 & Em3 & HM & HC).
  apply returns_bind.
  eapply returns_eq; [apply partitions_eq; exact E3 |].
  apply returns_ret.
  cbn [FreeSet._partitions FreeSet.with_partitions].
  assert (EN3 : Partitions._max P3 = Partitions._max P) by (rewrite <- EN2; apply Hsz3).
  assert (Ers3 : Partitions._region_size_bytes P3 = Partitions._region_size_bytes P)
    by (rewrite <- Ers2; apply Hsz3).
  assert (Hmem3 : forall q j, member P3 q j <-> member P2 q j).
  { intros q j. unfold member. rewrite Em3. tauto. }
  assert (HnoneC : forall j, 0 <= j < Partitions._max P -> ~ member P3 Collector j).
  { intros j Hj Hm. apply Hmem3 in Hm.
    destruct Hb2 as (_ & Hk & _). destruct (Hk Collector ltac:(discriminate)) as (Em & _).
    unfold member in Hm. rewrite Em in Hm. exact (Hnone1 Collector j eq_refl Hj Hm). }
  destruct HM as (ML & MR & MLE & MRE & MCn & MU & MC).
  destruct HC as (CL & CR & CLE & CRE & CCn & CU & CC).
  split.
  { destruct Ht2 as (A1 & A2 & A3). unfold table_only. cbn in *. repeat split; assumption. }
  split; [split; assumption |].
  split.
  { split.
    { split; [rewrite EN3; exact HN |]. intros q Hq. rewrite EN3, Em3, <- EN2. apply Hok2, Hq. }
    split.
    { intros j Hj [_ Hm]. rewrite EN3 in Hj. exact (HnoneC j Hj Hm). }
    intros [| |] Hq; try discriminate.
    - split; [| rewrite MU; exact Hu].
      unfold interval_ok, contains. rewrite EN3, ML, MR, MRE.
      destruct Hb as [(Hnone & HL & HR)|(B1 & B2 & B3 & B4 & B5)].
      + rewrite HL, HR, EN2 in *. rewrite !to_ssize_id by lia.
        split; [intros j Hj Hm; exfalso; apply (Hnone j Hj), Hmem3, Hm |].
        split; [lia |]. left. split; [reflexivity | right; reflexivity].
      + rewrite EN2 in *. rewrite !to_ssize_id by lia.
        split; [intros j Hj Hm; apply B5; [exact Hj | apply Hmem3; exact Hm] |].
        split; [lia |]. right. split; [exact B1 |]. split; [exact B2 |].
        split; apply Hmem3; assumption.
    - split; [| rewrite CU; lia].
      unfold interval_ok, contains. rewrite EN3, CL, CR, CRE, EN2.
      split; [intros j Hj Hm; exfalso; exact (HnoneC j Hj Hm) |].
      split; [lia |]. left. split; [reflexivity | left; reflexivity]. }
  rewrite MC, MCn, CC, CCn, Ers2.
  split; [reflexivity |]. split; [reflexivity |]. split; [reflexivity | exact HnoneC].
Qed.

End Rebuild.

Import FreeSetSpec.

(** ** One legal call *)

Lemma wrap_add_l a b : Word.wrap (Word.wrap a + b) = Word.wrap (a + b).
Proof. unfold Word.wrap. rewrite modulus_eq. apply Z.add_mod_idemp_l. lia. Qed.

Lemma wrap_sub_l a b : Word.wrap (Word.wrap a - b) = Word.wrap (a - b).
Proof. unfold Word.wrap. rewrite modulus_eq. apply Zminus_mod_idemp_l. Qed.

Lemma wrap_count a b c : Word.wrap ((Word.wrap a + b) * c) = Word.wrap ((a + b) * c).
Proof.
  unfold Word.wrap. rewrite modulus_eq.
  rewrite <- (Z.mul_mod_idemp_l (a mod 2 ^ 64 + b)), Z.add_mod_idemp_l, Z.mul_mod_idemp_l by lia.
  reflexivity.
Qed.

Lemma retired_since_rebuild_snoc ops o p :
  Lifecycle.retired_since_rebuild (ops ++ [o]) p
  = Lifecycle.retired_step p (Lifecycle.retired_since_rebuild ops p) o.
Proof. unfold Lifecycle.retired_since_rebuild. rewrite fold_left_app. reflexivity. Qed.

Lemma in_region_indices n idx : 0 <= idx < n -> In idx (Lifecycle.region_indices n).
Proof.
  intros H. unfold Lifecycle.region_indices. apply in_map_iff.
  exists (Z.to_nat idx). split; [lia |]. apply in_seq. lia.
Qed.

Lemma heap_ok_region cfg fs idx :
  Lifecycle.heap_ok cfg fs (FreeSet._heap fs) = true -> 0 <= idx < num_regions cfg ->
  0 <= FreeSet.alloc_capacity cfg fs idx <= region_size_bytes cfg.
Proof.
  intros H Hidx. unfold Lifecycle.heap_ok in H. rewrite forallb_forall in H.
  specialize (H idx (in_region_indices _ _ Hidx)). cbv beta zeta in H.
  apply andb_prop in H. destruct H as [H1 H2].
  apply Z.leb_le in H1, H2. split; [exact H1 | exact H2].
Qed.

Lemma returns_partitions {A} cfg (m : (Z -> Z) -> Run.M Partitions.t A) fs
      (Q : A -> FreeSet.t -> Prop) :
  returns (m (FreeSet.alloc_capacity cfg fs)) (FreeSet._partitions fs)
          (fun a P => Q a (FreeSet.with_partitions fs P)) ->
  returns (FreeSet.partitions cfg m) fs Q.
Proof.
  intros (a & P & E & H). exists a, (FreeSet.with_partitions fs P).
  split; [apply partitions_eq; exact E | exact H].
Qed.

Lemma invariant_hints p s s' :
  TableSpec.invariant s -> hints_only p s s' -> interval_ok s' p -> TableSpec.invariant s'.
Proof.
  intros (Hok & Hdis & Hall) H Hint.
  assert (HN : Partitions._max s' = Partitions._max s) by apply H.
  split; [eapply hints_only_table_ok; eassumption |].
  split.
  { intros j Hj [H1 H2]. rewrite HN in Hj. apply (Hdis j Hj).
    split; apply (hints_only_member p s s'); assumption. }
  intros q Hq. destruct (Hall q Hq) as [Hi Hu].
  split.
  - destruct (Partitions.partition_eqb q p) eqn:E.
    + apply partition_eqb_eq in E. subst q. exact Hint.
    + assert (Hne : q <> p) by (intros ->; rewrite partition_eqb_refl in E; discriminate).
      eapply interval_ok_kept; [exact HN | eapply hints_only_kept; eassumption | exact Hi].
  - destruct H as (_ & _ & _ & _ & Eu & _). rewrite Eu. exact Hu.
Qed.

Lemma interval_bounds s p :
  1 <= Partitions._max s -> interval_ok s p ->
  0 <= Partitions._leftmosts s p <= Partitions._max s /\
  Partitions._rightmosts s p < Partitions._max s /\
  (Partitions._leftmosts s p < Partitions._max s -> 0 <= Partitions._rightmosts s p) /\
  Partitions._rightmosts_empty s p < Partitions._max s.
Proof.
  intros HN (_ & HRE & [[HL [HR|HR]]|(H1 & H2 & _)]); repeat split; lia.
Qed.

Lemma capacity_equation_kept ops o fs fs' :
  capacity_equation ops fs ->
  (forall p, Lifecycle.retired_step p (Lifecycle.retired_since_rebuild ops p) o
             = Lifecycle.retired_since_rebuild ops p) ->
  Partitions._capacity (FreeSet._partitions fs') = Partitions._capacity (FreeSet._partitions fs) ->
  Partitions._region_counts (FreeSet._partitions fs')
  = Partitions._region_counts (FreeSet._partitions fs) ->
  Partitions._region_size_bytes (FreeSet._partitions fs')
  = Partitions._region_size_bytes (FreeSet._partitions fs) ->
  capacity_equation (ops ++ [o]) fs'.
Proof.
  intros H Hr Ec Ecn Ers p Hp. unfold Partitions.capacity_of, Partitions.count.
  rewrite retired_since_rebuild_snoc, Hr, Ec, Ecn, Ers. apply H, Hp.
Qed.

Section SimpleCalls.

Variable dbg : bool.
Variable cfg : Config.

Lemma exec_host_step_returns ops h fs :
  invariant cfg fs -> Lifecycle.legal cfg fs (Lifecycle.HostStep h) = true ->
  capacity_equation ops fs ->
  returns (Lifecycle.exec dbg cfg (Lifecycle.HostStep h)) fs
    (fun _ fs' => invariant cfg fs' /\ capacity_equation (ops ++ [Lifecycle.HostStep h]) fs').
Proof.
  intros (Hinv & HN & Hrs & Hheap) Hlegal Hcap. cbn in Hlegal. apply andb_prop in Hlegal.
  cbn [Lifecycle.exec]. apply returns_modify. split.
  - split; [exact Hinv |]. split; [exact HN |]. split; [exact Hrs |]. exact (proj1 Hlegal).
  - apply (capacity_equation_kept ops _ fs); try assumption; reflexivity.
Qed.

Lemma exec_rebuild_returns ops h fs :
  invariant cfg fs -> Lifecycle.legal cfg fs (Lifecycle.Rebuild h) = true ->
  returns (Lifecycle.exec dbg cfg (Lifecycle.Rebuild h)) fs
    (fun _ fs' => invariant cfg fs' /\ capacity_equation (ops ++ [Lifecycle.Rebuild h]) fs').
Proof.
  intros (Hinv & HN & Hrs & Hheap) Hlegal. cbn in Hlegal.
  cbn [Lifecycle.exec]. apply returns_bind, returns_modify. apply returns_bind.
  eapply returns_conseq.
  { apply (find_regions_with_alloc_capacity_returns dbg cfg (FreeSet.with_heap fs h)).
    - apply Hinv.
    - exact HN. }
  cbv beta. intros _ fs' (Ht & (EN & Ers) & Hinv' & HcM & HcC & HnC & _).
  cbn [FreeSet._partitions FreeSet.with_heap] in *.
  apply returns_ret. split.
  - split; [exact Hinv' |]. split; [congruence |]. split; [congruence |].
    destruct Ht as (Eh & _). cbn in Eh. rewrite Eh. exact Hlegal.
  - intros p Hp. unfold Partitions.capacity_of, Partitions.count.
    rewrite retired_since_rebuild_snoc. cbn [Lifecycle.retired_step]. rewrite Z.add_0_r, Ers.
    destruct p; try discriminate.
    + exact HcM.
    + rewrite HcC, HnC. reflexivity.
Qed.

Lemma exec_increase_used_returns ops p bytes fs :
  invariant cfg fs -> Lifecycle.legal cfg fs (Lifecycle.IncreaseUsed p bytes) = true ->
  capacity_equation ops fs ->
  returns (Lifecycle.exec dbg cfg (Lifecycle.IncreaseUsed p bytes)) fs
    (fun _ fs' => invariant cfg fs' /\
                  capacity_equation (ops ++ [Lifecycle.IncreaseUsed p bytes]) fs').
Proof.
  intros (Hinv & HN & Hrs & Hheap) Hlegal Hcap. cbn in Hlegal.
  apply andb_prop in Hlegal. destruct Hlegal as [Hlegal Hle].
  apply andb_prop in Hlegal. destruct Hlegal as [Hp Hb].
  destruct Hinv as (Hok & Hdis & Hall). destruct (Hall p Hp) as [_ Hu].
  cbn [Lifecycle.exec]. apply returns_partitions.
  eapply returns_eq; [apply increase_used_returns; [exact Hp | exact Hu | lia | lia] |].
  split.
  - split; [| split; [exact HN | split; [exact Hrs | exact Hheap]]].
    split; [exact Hok |]. split; [exact Hdis |]. intros q Hq.
    destruct (Hall q Hq) as [Hi Huq]. split; [exact Hi |]. cbn.
    unfold Partitions.upd. destruct (Partitions.partition_eqb q p); [apply wrap_nonneg | exact Huq].
  - apply (capacity_equation_kept ops _ fs); try assumption; reflexivity.
Qed.

Lemma exec_leftmost_empty_returns ops p fs :
  invariant cfg fs -> Lifecycle.legal cfg fs (Lifecycle.LeftmostEmpty p) = true ->
  capacity_equation ops fs ->
  returns (Lifecycle.exec dbg cfg (Lifecycle.LeftmostEmpty p)) fs
    (fun _ fs' => invariant cfg fs' /\
                  capacity_equation (ops ++ [Lifecycle.LeftmostEmpty p]) fs').
Proof.
  intros (Hinv & HN & Hrs & Hheap) Hp Hcap. cbn in Hp.
  assert (Hok : table_ok (FreeSet._partitions fs)) by apply Hinv.
  destruct (proj2 (proj2 Hinv) p Hp) as [Hint _].
  destruct (interval_bounds _ p (proj1 (proj1 Hok)) Hint) as (HL & HR & HLR & HRE).
  cbn [Lifecycle.exec]. apply returns_bind, returns_partitions.
  eapply returns_conseq; [apply leftmost_empty_returns; assumption |].
  cbv beta. intros _ P' (H & EL & ER & HRE'). apply returns_ret. split.
  - split; [| split; [| split]]; cbn.
    + apply (invariant_hints p _ P' Hinv H).
      apply (interval_ok_hints p (FreeSet._partitions fs)); auto.
    + destruct H as (E & _). congruence.
    + destruct H as (_ & E & _). congruence.
    + exact Hheap.
  - apply (capacity_equation_kept ops _ fs); try assumption; try reflexivity; apply H.
Qed.

Lemma exec_rightmost_empty_returns ops p fs :
  invariant cfg fs -> Lifecycle.legal cfg fs (Lifecycle.RightmostEmpty p) = true ->
  capacity_equation ops fs ->
  returns (Lifecycle.exec dbg cfg (Lifecycle.RightmostEmpty p)) fs
    (fun _ fs' => invariant cfg fs' /\
                  capacity_equation (ops ++ [Lifecycle.RightmostEmpty p]) fs').
Proof.
  intros (Hinv & HN & Hrs & Hheap) Hp Hcap. cbn in Hp.
  assert (Hok : table_ok (FreeSet._partitions fs)) by apply Hinv.
  destruct (proj2 (proj2 Hinv) p Hp) as [Hint _].
  destruct (interval_bounds _ p (proj1 (proj1 Hok)) Hint) as (HL & HR & HLR & HRE).
  cbn [Lifecycle.exec]. apply returns_bind, returns_partitions.
  eapply returns_conseq; [apply rightmost_empty_returns; assumption |].
  cbv beta. intros _ P' (H & EL & ER & HRE'). apply returns_ret. split.
  - split; [| split; [| split]]; cbn.
    + apply (invariant_hints p _ P' Hinv H).
      apply (interval_ok_hints p (FreeSet._partitions fs)); auto.
    + destruct H as (E & _). congruence.
    + destruct H as (_ & E & _). congruence.
    + exact Hheap.
  - apply (capacity_equation_kept ops _ fs); try assumption; try reflexivity; apply H.
Qed.

End SimpleCalls.

Import FreeSetSpec.

Lemma partition_eq_dec (p q : ShenandoahFreeSetPartitionId) : {p = q} + {p <> q}.
Proof. decide equality. Defined.

Lemma disjoint_subset s s' :
  Partitions._max s' = Partitions._max s ->
  (forall q j, 0 <= j < Partitions._max s -> member s' q j -> member s q j) ->
  disjoint s -> disjoint s'.
Proof.
  intros HN Hsub Hdis j Hj [H1 H2]. rewrite HN in Hj.
  apply (Hdis j Hj). split; apply Hsub; assumption.
Qed.

Lemma member_of_clear_bit bm bm' idx j :
  bm' = SimpleBitMap.clear_bit bm idx ->
  0 <= idx < Word.modulus -> 0 <= j < Word.modulus ->
  SimpleBitMap.is_set bm' j = true <-> SimpleBitMap.is_set bm j = true /\ j <> idx.
Proof.
  intros -> Hi Hj. rewrite is_set_clear_bit by assumption.
  destruct (Z.eqb_spec idx j); destruct (SimpleBitMap.is_set bm j); cbn; intuition congruence.
Qed.

Lemma member_of_set_bit bm bm' idx j :
  bm' = SimpleBitMap.set_bit bm idx ->
  0 <= idx < Word.modulus -> 0 <= j < Word.modulus ->
  SimpleBitMap.is_set bm' j = true <-> SimpleBitMap.is_set bm j = true \/ j = idx.
Proof.
  intros -> Hi Hj. rewrite is_set_set_bit by assumption.
  destruct (Z.eqb_spec idx j); destruct (SimpleBitMap.is_set bm j); cbn; intuition congruence.
Qed.

Section TableCalls.

Variable dbg : bool.
Variable cfg : Config.

Lemma exec_retire_returns ops p idx used_bytes fs :
  invariant cfg fs -> Lifecycle.legal cfg fs (Lifecycle.Retire p idx used_bytes) = true ->
  capacity_equation ops fs ->
  returns (Lifecycle.exec dbg cfg (Lifecycle.Retire p idx used_bytes)) fs
    (fun _ fs' => invariant cfg fs' /\
                  capacity_equation (ops ++ [Lifecycle.Retire p idx used_bytes]) fs').
Proof.
  intros (Hinv & HN & Hrs & Hheap) Hlegal Hcap.
  cbn [Lifecycle.legal] in Hlegal. unfold Lifecycle.idx_ok in Hlegal.
  rewrite !andb_true_iff in Hlegal.
  destruct Hlegal as ((((((Hi1 & Hi2) & Hp) & Hm) & Hub1) & Hub2) & Hcapok).
  apply Z.leb_le in Hi1. apply Z.ltb_lt in Hi2.
  destruct fs as [h P w b]. cbn [FreeSet._partitions FreeSet._heap] in *.
  destruct Hinv as (Hok & Hdis & Hall). assert (HNr := proj1 Hok).
  pose proof pow62_modulus as H62.
  assert (Hidx : 0 <= idx < Partitions._max P) by (rewrite HN; lia).
  destruct (Hall p Hp) as [Hint Hu].
  cbn [Lifecycle.exec]. apply returns_partitions.
  eapply returns_conseq.
  { apply (retire_from_partition_returns dbg _ p idx used_bytes P); try assumption.
    rewrite Hrs. intros Hlt. apply orb_prop in Hcapok.
    destruct Hcapok as [H|H]; [apply Z.leb_le in H; lia | apply Z.leb_le in H; exact H]. }
  cbv beta. intros _ P' ((EN & Ers) & Hk & Em & Ec & Eu & Ecn & Hint').
  cbn [FreeSet._partitions FreeSet.with_partitions].
  assert (Hsub : forall q j, 0 <= j < Partitions._max P -> member P' q j -> member P q j).
  { intros q j Hj H. destruct (partition_eq_dec q p) as [->|Hne].
    - apply (member_of_clear_bit _ _ idx j Em) in H; [apply H | lia | lia].
    - unfold member in *. destruct (Hk q Hne) as (E & _). rewrite <- E. exact H. }
  split.
  - unfold invariant. cbn [FreeSet._partitions FreeSet.with_partitions].
    split; [| split; [rewrite EN; exact HN | split; [rewrite Ers; exact Hrs | exact Hheap]]].
    split.
    { split; [rewrite EN; exact HNr |]. intros q Hq. rewrite EN.
      destruct (partition_eq_dec q p) as [->|Hne].
      - rewrite Em. apply bitmap_ok_clear_bit, Hok, Hq.
      - destruct (Hk q Hne) as (E & _). rewrite E. apply Hok, Hq. }
    split; [eapply disjoint_subset; eassumption |].
    intros q Hq. destruct (partition_eq_dec q p) as [->|Hne].
    + split; [exact Hint' |]. rewrite Eu. destruct (used_bytes <? Partitions._region_size_bytes P);
        [apply wrap_nonneg | exact Hu].
    + destruct (Hall q Hq) as [Hi Huq].
      split; [eapply interval_ok_kept; [exact EN | apply Hk; exact Hne | exact Hi] |].
      destruct (Hk q Hne) as (_ & _ & _ & _ & _ & _ & E & _). rewrite E. exact Huq.
  - intros q Hq. unfold Partitions.capacity_of, Partitions.count.
    cbn [FreeSet._partitions FreeSet.with_partitions].
    rewrite retired_since_rebuild_snoc. cbn [Lifecycle.retired_step]. rewrite Ers.
    specialize (Hcap q Hq). unfold Partitions.capacity_of, Partitions.count in Hcap.
    cbn [FreeSet._partitions] in Hcap.
    destruct (partition_eq_dec q p) as [->|Hne].
    + rewrite partition_eqb_refl, Ec, Ecn, Hcap, wrap_count. f_equal. ring.
    + rewrite partition_eqb_neq by exact Hne.
      destruct (Hk q Hne) as (_ & _ & _ & _ & _ & E1 & _ & E2). rewrite E1, E2, Z.add_0_r.
      exact Hcap.
Qed.

Lemma exec_retire_range_returns ops p lo hi fs :
  invariant cfg fs -> Lifecycle.legal cfg fs (Lifecycle.RetireRange p lo hi) = true ->
  capacity_equation ops fs ->
  returns (Lifecycle.exec dbg cfg (Lifecycle.RetireRange p lo hi)) fs
    (fun _ fs' => invariant cfg fs' /\
                  capacity_equation (ops ++ [Lifecycle.RetireRange p lo hi]) fs').
Proof.
  intros (Hinv & HN & Hrs & Hheap) Hlegal Hcap.
  cbn [Lifecycle.legal] in Hlegal. unfold Lifecycle.idx_ok in Hlegal.
  rewrite !andb_true_iff in Hlegal.
  destruct Hlegal as (((((Hl1 & Hl2) & (Hh1 & Hh2)) & Hlh) & Hp) & Hmem).
  apply Z.leb_le in Hl1, Hh1, Hlh. apply Z.ltb_lt in Hl2, Hh2.
  destruct fs as [h P w b]. cbn [FreeSet._partitions FreeSet._heap] in *.
  destruct Hinv as (Hok & Hdis & Hall). assert (HNr := proj1 Hok).
  destruct (Hall p Hp) as [Hint Hu].
  assert (Hmembers : forall j, lo <= j <= hi -> member P p j).
  { intros j Hj. rewrite forallb_forall in Hmem.
    specialize (Hmem j (in_region_indices (num_regions cfg) j ltac:(lia))).
    destruct (Z.leb_spec lo j); [| lia]. destruct (Z.leb_spec j hi); [| lia].
    exact Hmem. }
  cbn [Lifecycle.exec]. apply returns_partitions.
  eapply returns_conseq.
  { apply (retire_range_from_partition_returns dbg _ p Hp lo hi P Hok);
      [lia | lia | exact Hmembers | exact Hint]. }
  cbv beta. intros _ P' (Hok' & (EN & Ers) & Hk & Hm' & Ec & Eu & Ecn & Hint').
  split.
  - unfold invariant. cbn [FreeSet._partitions FreeSet.with_partitions].
    split; [| split; [rewrite EN; exact HN | split; [rewrite Ers; exact Hrs | exact Hheap]]].
    split; [exact Hok' |].
    split.
    { apply (disjoint_subset P P' EN); [| exact Hdis].
      intros q j Hj H. destruct (partition_eq_dec q p) as [->|Hne].
      - apply (Hm' j Hj), H.
      - unfold member in *. destruct (Hk q Hne) as (E & _). rewrite <- E. exact H. }
    intros q Hq. destruct (partition_eq_dec q p) as [->|Hne].
    + split; [exact Hint' |]. rewrite Eu. exact Hu.
    + destruct (Hall q Hq) as [Hi Huq].
      split; [eapply interval_ok_kept; [exact EN | apply Hk; exact Hne | exact Hi] |].
      destruct (Hk q Hne) as (_ & _ & _ & _ & _ & _ & E & _). rewrite E. exact Huq.
  - intros q Hq. unfold Partitions.capacity_of, Partitions.count.
    cbn [FreeSet._partitions FreeSet.with_partitions].
    rewrite retired_since_rebuild_snoc. cbn [Lifecycle.retired_step]. rewrite Ers.
    specialize (Hcap q Hq). unfold Partitions.capacity_of, Partitions.count in Hcap.
    cbn [FreeSet._partitions] in Hcap.
    destruct (partition_eq_dec q p) as [->|Hne].
    + rewrite partition_eqb_refl, Ec, Ecn, Hcap, wrap_count. f_equal. ring.
    + rewrite partition_eqb_neq by exact Hne.
      destruct (Hk q Hne) as (_ & _ & _ & _ & _ & E1 & _ & E2). rewrite E1, E2, Z.add_0_r.
      exact Hcap.
Qed.

Lemma exec_make_free_returns ops idx p fs :
  invariant cfg fs -> Lifecycle.legal cfg fs (Lifecycle.MakeFree idx p) = true ->
  capacity_equation ops fs ->
  returns (Lifecycle.exec dbg cfg (Lifecycle.MakeFree idx p)) fs
    (fun _ fs' => invariant cfg fs' /\
                  capacity_equation (ops ++ [Lifecycle.MakeFree idx p]) fs').
Proof.
  intros (Hinv & HN & Hrs & Hheap) Hlegal Hcap.
  cbn [Lifecycle.legal] in Hlegal. unfold Lifecycle.idx_ok, Lifecycle.in_partition in Hlegal.
  rewrite !andb_true_iff, !negb_true_iff in Hlegal.
  destruct Hlegal as ((((Hi1 & Hi2) & Hp) & HnM) & HnC).
  apply Z.leb_le in Hi1. apply Z.ltb_lt in Hi2.
  pose proof (heap_ok_region cfg fs idx Hheap ltac:(lia)) as Hav.
  destruct fs as [h P w b]. cbn [FreeSet._partitions FreeSet._heap] in *.
  destruct Hinv as (Hok & Hdis & Hall). assert (HNr := proj1 Hok).
  pose proof pow62_modulus as H62.
  assert (Hidx : 0 <= idx < Partitions._max P) by (rewrite HN; lia).
  destruct (Hall p Hp) as [Hint Hu].
  cbn [Lifecycle.exec]. apply returns_bind, returns_get. apply returns_partitions.
  eapply returns_conseq.
  { apply (make_free_returns dbg _ idx p _ P); try assumption.
    - unfold member. rewrite HnM. discriminate.
    - unfold member. rewrite HnC. discriminate.
    - rewrite Hrs. apply Hav. }
  cbv beta. intros _ P' ((EN & Ers) & Hk & Em & Ec & Eu & Ecn & Hint').
  assert (Hmem : forall q j, 0 <= j < Partitions._max P ->
                             member P' q j -> member P q j \/ (q = p /\ j = idx)).
  { intros q j Hj H. destruct (partition_eq_dec q p) as [->|Hne].
    - apply (member_of_set_bit _ _ idx j Em) in H; [| lia | lia].
      destruct H as [H|H]; [left; exact H | right; split; [reflexivity | exact H]].
    - left. unfold member in *. destruct (Hk q Hne) as (E & _). rewrite <- E. exact H. }
  split.
  - unfold invariant. cbn [FreeSet._partitions FreeSet.with_partitions].
    split; [| split; [rewrite EN; exact HN | split; [rewrite Ers; exact Hrs | exact Hheap]]].
    split.
    { split; [rewrite EN; exact HNr |]. intros q Hq. rewrite EN.
      destruct (partition_eq_dec q p) as [->|Hne].
      - rewrite Em. apply bitmap_ok_set_bit, Hok, Hq.
      - destruct (Hk q Hne) as (E & _). rewrite E. apply Hok, Hq. }
    split.
    { intros j Hj [H1 H2]. rewrite EN in Hj.
      apply Hmem in H1; [| exact Hj]. apply Hmem in H2; [| exact Hj].
      destruct H1 as [H1|[Ep1 E1]]; destruct H2 as [H2|[Ep2 E2]].
      - apply (Hdis j Hj). split; assumption.
      - rewrite E2 in H1. unfold member in H1. congruence.
      - rewrite E1 in H2. unfold member in H2. congruence.
      - congruence. }
    intros q Hq. destruct (partition_eq_dec q p) as [->|Hne].
    + split; [exact Hint' |]. rewrite Eu. apply wrap_nonneg.
    + destruct (Hall q Hq) as [Hi Huq].
      split; [eapply interval_ok_kept; [exact EN | apply Hk; exact Hne | exact Hi] |].
      destruct (Hk q Hne) as (_ & _ & _ & _ & _ & _ & E & _). rewrite E. exact Huq.
  - intros q Hq. unfold Partitions.capacity_of, Partitions.count.
    cbn [FreeSet._partitions FreeSet.with_partitions].
    rewrite retired_since_rebuild_snoc. cbn [Lifecycle.retired_step]. rewrite Ers.
    specialize (Hcap q Hq). unfold Partitions.capacity_of, Partitions.count in Hcap.
    cbn [FreeSet._partitions] in Hcap.
    destruct (partition_eq_dec q p) as [->|Hne].
    + rewrite Ec, Ecn, Hcap, wrap_add_l, wrap_count. f_equal. ring.
    + destruct (Hk q Hne) as (_ & _ & _ & _ & _ & E1 & _ & E2). rewrite E1, E2.
      exact Hcap.
Qed.

Lemma exec_move_returns ops idx orig new fs :
  invariant cfg fs -> Lifecycle.legal cfg fs (Lifecycle.Move idx orig new) = true ->
  capacity_equation ops fs ->
  returns (Lifecycle.exec dbg cfg (Lifecycle.Move idx orig new)) fs
    (fun _ fs' => invariant cfg fs' /\
                  capacity_equation (ops ++ [Lifecycle.Move idx orig new]) fs').
Proof.
  intros (Hinv & HN & Hrs & Hheap) Hlegal Hcap.
  cbn [Lifecycle.legal] in Hlegal. unfold Lifecycle.idx_ok, Lifecycle.in_partition in Hlegal.
  rewrite !andb_true_iff in Hlegal.
  destruct Hlegal as (((Hi1 & Hi2) & Hmo) & Hexp).
  apply Z.leb_le in Hi1. apply Z.ltb_lt in Hi2.
  pose proof (heap_ok_region cfg fs idx Hheap ltac:(lia)) as Hav.
  destruct fs as [h P w b]. cbn [FreeSet._partitions FreeSet._heap] in *.
  destruct (expected_movement_distinct _ _ _ _ Hexp) as (Hne & Hpo & Hpn).
  assert (Hne' : new <> orig) by congruence.
  destruct Hinv as (Hok & Hdis & Hall). assert (HNr := proj1 Hok).
  pose proof pow62_modulus as H62.
  assert (Hidx : 0 <= idx < Partitions._max P) by (rewrite HN; lia).
  destruct (Hall orig Hpo) as [Hio Huo]. destruct (Hall new Hpn) as [Hin Hun].
  assert (Hmn : ~ member P new idx).
  { intros H. apply (Hdis idx Hidx). unfold member in *.
    destruct orig, new; try discriminate; try congruence; split; assumption. }
  cbn [Lifecycle.exec]. apply returns_bind, returns_get. apply returns_partitions.
  eapply returns_conseq.
  { apply (move_from_partition_to_partition_returns dbg _ idx orig new _ P); try assumption.
    rewrite Hrs. apply Hav. }
  cbv beta.
  intros _ P' ((EN & Ers) & Hk & Emo & Emn & Eco & Ecn & Euo & Eun & Ecno & Ecnn & Hio' & Hin').
  assert (Hother : forall q, Partitions.lt_NumPartitions q = true -> q = orig \/ q = new).
  { intros q Hq. destruct q, orig, new; try discriminate; try congruence; auto. }
  assert (Hmo' : forall j, 0 <= j < Partitions._max P ->
                           member P' orig j <-> member P orig j /\ j <> idx).
  { intros j Hj. apply (member_of_clear_bit _ _ idx j Emo); lia. }
  assert (Hmn' : forall j, 0 <= j < Partitions._max P ->
                           member P' new j <-> member P new j \/ j = idx).
  { intros j Hj. apply (member_of_set_bit _ _ idx j Emn); lia. }
  split.
  - unfold invariant. cbn [FreeSet._partitions FreeSet.with_partitions].
    split; [| split; [rewrite EN; exact HN | split; [rewrite Ers; exact Hrs | exact Hheap]]].
    split.
    { split; [rewrite EN; exact HNr |]. intros q Hq. rewrite EN.
      destruct (Hother q Hq) as [-> | ->].
      - rewrite Emo. apply bitmap_ok_clear_bit, Hok, Hq.
      - rewrite Emn. apply bitmap_ok_set_bit, Hok, Hq. }
    split.
    { intros j Hj [H1 H2]. rewrite EN in Hj.
      assert (Ho : member P' orig j /\ member P' new j).
      { destruct orig, new; try discriminate; try congruence; split; assumption. }
      destruct Ho as [Ho Hn]. apply (Hmo' j Hj) in Ho. apply (Hmn' j Hj) in Hn.
      destruct Ho as [Ho Hji]. destruct Hn as [Hn|Hn]; [| congruence].
      apply (Hdis j Hj). unfold member in *.
      destruct orig, new; try discriminate; try congruence; split; assumption. }
    intros q Hq. destruct (Hother q Hq) as [-> | ->].
    + split; [exact Hio' |]. rewrite Euo. apply wrap_nonneg.
    + split; [exact Hin' |]. rewrite Eun. apply wrap_nonneg.
  - intros q Hq. unfold Partitions.capacity_of, Partitions.count.
    cbn [FreeSet._partitions FreeSet.with_partitions].
    rewrite retired_since_rebuild_snoc. cbn [Lifecycle.retired_step]. rewrite Ers.
    specialize (Hcap q Hq). unfold Partitions.capacity_of, Partitions.count in Hcap.
    cbn [FreeSet._partitions] in Hcap.
    destruct (Hother q Hq) as [-> | ->].
    + rewrite Eco, Ecno, Hcap, wrap_sub_l, wrap_count. f_equal. ring.
    + rewrite Ecn, Ecnn, Hcap, wrap_add_l, wrap_count. f_equal. ring.
Qed.

(** A legal call on a free set that is in order returns, in debug and in
    product builds, and leaves the free set in order; the capacity
    equation follows the call. *)
Lemma exec_returns ops o fs :
  invariant cfg fs -> Lifecycle.legal cfg fs o = true ->
  capacity_equation ops fs ->
  returns (Lifecycle.exec dbg cfg o) fs
    (fun _ fs' => invariant cfg fs' /\ capacity_equation (ops ++ [o]) fs').
Proof.
  intros Hinv Hlegal Hcap. destruct o.
  - apply exec_rebuild_returns; assumption.
  - apply exec_host_step_returns; assumption.
  - apply exec_make_free_returns; assumption.
  - apply exec_retire_returns; assumption.
  - apply exec_retire_range_returns; assumption.
  - apply exec_move_returns; assumption.
  - apply exec_increase_used_returns; assumption.
  - apply exec_leftmost_empty_returns; assumption.
  - apply exec_rightmost_empty_returns; assumption.
Qed.

(** A legal sequence keeps the free set in order. *)
Lemma trace_invariant fs ops fs' :
  Lifecycle.trace dbg cfg fs ops fs' ->
  invariant cfg fs -> capacity_equation [] fs ->
  invariant cfg fs' /\ capacity_equation ops fs'.
Proof.
  intros Ht Hinv Hcap. induction Ht as [fs|fs ops fs1 o fs2 Ht IH Hlegal Hexec].
  - split; assumption.
  - destruct (IH Hinv Hcap) as [Hinv1 Hcap1].
    exact (returns_inv _ _ _ _ _ (exec_returns ops o fs1 Hinv1 Hlegal Hcap1) Hexec).
Qed.

End TableCalls.

Import FreeSetSpec.

(** ** Legal sequences *)

Lemma run_trace dbg cfg ops : forall fs0 pre fs fs',
  Lifecycle.trace dbg cfg fs0 pre fs ->
  Lifecycle.run dbg cfg ops fs = Some fs' ->
  Lifecycle.trace dbg cfg fs0 (pre ++ ops) fs'.
Proof.
  induction ops as [|o ops IH]; intros fs0 pre fs fs' Ht Hrun; cbn [Lifecycle.run] in Hrun.
  - inversion Hrun; subst. rewrite app_nil_r. exact Ht.
  - destruct (Lifecycle.legal cfg fs o) eqn:Hl; [| discriminate].
    destruct (Lifecycle.exec dbg cfg o fs) as [[] fs1| |] eqn:He; try discriminate.
    replace (pre ++ o :: ops) with ((pre ++ [o]) ++ ops) by (rewrite <- app_assoc; reflexivity).
    apply (IH fs0 (pre ++ [o]) fs1 fs'); [| exact Hrun].
    eapply Lifecycle.trace_snoc; eassumption.
Qed.

Lemma wrap_zero : Word.wrap 0 = 0.
Proof. reflexivity. Qed.

(** [clear] puts a free set whose table has the right shape in order. *)
Lemma clear_internal_invariant cfg fs :
  table_ok (FreeSet._partitions fs) ->
  Partitions._max (FreeSet._partitions fs) = num_regions cfg ->
  Partitions._region_size_bytes (FreeSet._partitions fs) = region_size_bytes cfg ->
  Lifecycle.heap_ok cfg fs (FreeSet._heap fs) = true ->
  exists fs',
    FreeSet.clear_internal cfg fs = Ret tt fs' /\
    invariant cfg fs' /\ capacity_equation [] fs'.
Proof.
  intros Hok HN Hrs Hheap.
  destruct (make_all_regions_unavailable_returns (FreeSet._partitions fs))
    as (P1 & E1 & Hsz1 & H1).
  exists (FreeSet.with_partitions fs P1).
  split; [unfold FreeSet.clear_internal; apply partitions_eq; exact E1 |].
  destruct (cleared_invariant _ P1 Hok Hsz1) as (Hinv1 & _).
  { intros p Hp. destruct (H1 p Hp) as (A1 & A2 & A3 & A4 & A5 & A6 & A7 & A8).
    repeat split; assumption. }
  split.
  - unfold invariant. cbn [FreeSet._partitions FreeSet.with_partitions].
    destruct Hsz1 as [EN Ers].
    split; [exact Hinv1 |]. split; [rewrite EN; exact HN |].
    split; [rewrite Ers; exact Hrs | exact Hheap].
  - intros p Hp. unfold Partitions.capacity_of, Partitions.count.
    cbn [FreeSet._partitions FreeSet.with_partitions].
    destruct (H1 p Hp) as (_ & _ & _ & _ & _ & Ec & _ & Ecn).
    rewrite Ec, Ecn. destruct p; reflexivity.
Qed.

(** The constructor yields a table of the right shape. *)
Lemma construct_table_ok cfg raw heap :
  (forall p j, 0 <= SimpleBitMap._bitmap (Partitions._membership raw p) j < Word.modulus) ->
  1 <= num_regions cfg < 2 ^ 62 ->
  let fs := FreeSet.construct cfg raw heap (num_regions cfg) in
  table_ok (FreeSet._partitions fs) /\
  Partitions._max (FreeSet._partitions fs) = num_regions cfg /\
  Partitions._region_size_bytes (FreeSet._partitions fs) = region_size_bytes cfg /\
  FreeSet._heap fs = heap.
Proof.
  intros Hraw HN fs. pose proof pow62_modulus as H62.
  set (P0 := Partitions.allocate_object raw (num_regions cfg) (region_size_bytes cfg)).
  assert (EN0 : Partitions._max P0 = num_regions cfg).
  { cbn. apply to_ssize_id. lia. }
  assert (Hok0 : table_ok P0).
  { split; [rewrite EN0; exact HN |]. intros p _. rewrite EN0.
    unfold P0, Partitions.allocate_object. cbn [Partitions._membership].
    split; [reflexivity |].
    split; [apply words_ok_create; intros j; apply Hraw |].
    unfold SimpleBitMap.create, SimpleBitMap.clear_all.
    cbn [SimpleBitMap._num_words SimpleBitMap._num_bits].
    unfold SimpleBitMap._bits_per_array_element.
    rewrite wrap_small by (rewrite modulus_eq; lia). lia. }
  destruct (make_all_regions_unavailable_returns P0) as (P1 & E1 & Hsz1 & H1).
  destruct (cleared_invariant _ P1 Hok0 Hsz1) as (Hinv1 & _).
  { intros p Hp. destruct (H1 p Hp) as (A1 & A2 & A3 & A4 & A5 & A6 & A7 & A8).
    repeat split; assumption. }
  destruct (make_all_regions_unavailable_returns P1) as (P2 & E2 & Hsz2 & H2).
  destruct (cleared_invariant _ P2 (proj1 Hinv1) Hsz2) as (Hinv2 & _).
  { intros p Hp. destruct (H2 p Hp) as (A1 & A2 & A3 & A4 & A5 & A6 & A7 & A8).
    repeat split; assumption. }
  assert (Efs : fs = FreeSet.mk heap P2 0 false).
  { subst fs. unfold FreeSet.construct, Partitions.construct. fold P0. rewrite E1.
    unfold FreeSet.clear_internal.
    rewrite (partitions_eq cfg _ _ tt P2) by exact E2. reflexivity. }
  rewrite Efs. cbn [FreeSet._partitions FreeSet._heap].
  destruct Hsz1 as [EN1 Ers1]. destruct Hsz2 as [EN2 Ers2].
  split; [apply Hinv2 |]. split; [congruence |]. split; [| reflexivity].
  rewrite Ers2, Ers1. reflexivity.
Qed.

Import FreeSetSpec.

(** C2.  Start from a free set whose table has the shape of a table for
    the heap, and clear it ([make_all_regions_unavailable]).  After every
    legal sequence of calls on the table -- the scan of a rebuild with its
    [raw_set_membership], [move_from_partition_to_partition], [make_free],
    the two retire functions, [increase_used], the two empty-bound
    queries, and changes of the heap in between -- no region index is set
    in both the Mutator and the Collector bitmap.  The sequence can
    always go on: every legal call from the state reached returns, in
    debug and in product builds. *)
Theorem partitions_stay_disjoint dbg cfg fs0 fs1 ops fs' :
  table_ok (FreeSet._partitions fs0) ->
  Partitions._max (FreeSet._partitions fs0) = num_regions cfg ->
  Partitions._region_size_bytes (FreeSet._partitions fs0) = region_size_bytes cfg ->
  Lifecycle.heap_ok cfg fs0 (FreeSet._heap fs0) = true ->
  FreeSet.clear_internal cfg fs0 = Ret tt fs1 ->
  Lifecycle.trace dbg cfg fs1 ops fs' ->
  (forall i, 0 <= i < num_regions cfg ->
     Lifecycle.in_partition fs' Mutator i && Lifecycle.in_partition fs' Collector i = false)
  /\
  (forall o, Lifecycle.legal cfg fs' o = true ->
     exists fs'', Lifecycle.exec dbg cfg o fs' = Ret tt fs'').
Proof.
  intros Hok HN Hrs Hheap Hclear Ht.
  destruct (clear_internal_invariant cfg fs0 Hok HN Hrs Hheap) as (fs1' & E & Hinv & Hcap).
  rewrite E in Hclear. inversion Hclear; subst fs1'.
  destruct (trace_invariant dbg cfg fs1 ops fs' Ht Hinv Hcap) as [Hinv' Hcap'].
  split.
  - intros i Hi. destruct Hinv' as ((_ & Hdis & _) & HN' & _).
    specialize (Hdis i ltac:(rewrite HN'; exact Hi)). unfold member in Hdis.
    unfold Lifecycle.in_partition.
    destruct (SimpleBitMap.is_set _ i); [| reflexivity].
    destruct (SimpleBitMap.is_set _ i); [| reflexivity].
    exfalso. apply Hdis. split; reflexivity.
  - intros o Hlegal.
    destruct (exec_returns dbg cfg ops o fs' Hinv' Hlegal Hcap') as ([] & fs'' & E' & _).
    exists fs''. exact E'.
Qed.

Lemma partitions_stay_disjoint_witness :
  Lifecycle.in_partition (Scenario.after_calls true) Mutator 15
  && Lifecycle.in_partition (Scenario.after_calls true) Collector 15 = false
  /\ exists fs'',
       Lifecycle.exec true Scenario.cfg (Lifecycle.Move 14 Mutator Collector)
         (Scenario.after_calls true) = Ret tt fs''.
Proof.
  destruct (construct_table_ok Scenario.cfg Scenario.zeroed (Scenario.all_empty 0 false))
    as (Hok & HN & Hrs & Hh).
  { intros p j. cbn. lia. }
  { cbn. lia. }
  destruct (partitions_stay_disjoint true Scenario.cfg Scenario.constructed Scenario.cleared
              Scenario.calls (Scenario.after_calls true)) as [Hdis Hgo].
  - exact Hok.
  - exact HN.
  - exact Hrs.
  - vm_compute. reflexivity.
  - vm_compute. reflexivity.
  - apply (run_trace true Scenario.cfg Scenario.calls Scenario.cleared [] Scenario.cleared).
    + apply Lifecycle.trace_nil.
    + vm_compute. reflexivity.
  - split.
    + apply Hdis. cbn. lia.
    + apply Hgo. vm_compute. reflexivity.
Defined.

(** C1 (amended).  After every legal sequence of calls on the table of a
    cleared free set, the capacity of each partition is one region's size
    for every region that is in the partition or was retired from it
    since the last rebuild, in [size_t] arithmetic (and exactly, when that
    product is a [size_t]): retiring a region takes it out of the count
    and leaves the capacity as it is. *)
Theorem capacity_counts_retired_regions dbg cfg fs0 fs1 ops fs' :
  table_ok (FreeSet._partitions fs0) ->
  Partitions._max (FreeSet._partitions fs0) = num_regions cfg ->
  Partitions._region_size_bytes (FreeSet._partitions fs0) = region_size_bytes cfg ->
  Lifecycle.heap_ok cfg fs0 (FreeSet._heap fs0) = true ->
  FreeSet.clear_internal cfg fs0 = Ret tt fs1 ->
  Lifecycle.trace dbg cfg fs1 ops fs' ->
  forall p, Partitions.lt_NumPartitions p = true ->
    let regions := Partitions.count (FreeSet._partitions fs') p
                   + Lifecycle.retired_since_rebuild ops p in
    Partitions.capacity_of (FreeSet._partitions fs') p
    = Word.wrap (regions * region_size_bytes cfg)
    /\ (0 <= regions * region_size_bytes cfg < Word.modulus ->
        Partitions.capacity_of (FreeSet._partitions fs') p = regions * region_size_bytes cfg).
Proof.
  intros Hok HN Hrs Hheap Hclear Ht p Hp regions.
  destruct (clear_internal_invariant cfg fs0 Hok HN Hrs Hheap) as (fs1' & E & Hinv & Hcap).
  rewrite E in Hclear. inversion Hclear; subst fs1'.
  destruct (trace_invariant dbg cfg fs1 ops fs' Ht Hinv Hcap) as [(_ & _ & Hrs' & _) Hcap'].
  assert (Hmod : Partitions.capacity_of (FreeSet._partitions fs') p
                 = Word.wrap (regions * region_size_bytes cfg)).
  { rewrite <- Hrs'. apply Hcap', Hp. }
  split; [exact Hmod |]. intros Hsmall. rewrite Hmod. apply wrap_small. exact Hsmall.
Qed.

Lemma capacity_counts_retired_regions_witness :
  let regions := Partitions.count (FreeSet._partitions (Scenario.after_calls true)) Mutator
                 + Lifecycle.retired_since_rebuild Scenario.calls Mutator in
  Partitions.capacity_of (FreeSet._partitions (Scenario.after_calls true)) Mutator
  = Word.wrap (regions * region_size_bytes Scenario.cfg)
  /\ (0 <= regions * region_size_bytes Scenario.cfg < Word.modulus ->
      Partitions.capacity_of (FreeSet._partitions (Scenario.after_calls true)) Mutator
      = regions * region_size_bytes Scenario.cfg).
Proof.
  destruct (construct_table_ok Scenario.cfg Scenario.zeroed (Scenario.all_empty 0 false))
    as (Hok & HN & Hrs & Hh).
  { intros p j. cbn. lia. }
  { cbn. lia. }
  apply (capacity_counts_retired_regions true Scenario.cfg Scenario.constructed
           Scenario.cleared Scenario.calls (Scenario.after_calls true)).
  - exact Hok.
  - exact HN.
  - exact Hrs.
  - vm_compute. reflexivity.
  - vm_compute. reflexivity.
  - apply (run_trace true Scenario.cfg Scenario.calls Scenario.cleared [] Scenario.cleared).
    + apply Lifecycle.trace_nil.
    + vm_compute. reflexivity.
  - reflexivity.
Defined.

(** C1 (as stated) fails at a public-call boundary: after [rebuild] and
    one humongous allocation of a single region, the Mutator partition
    counts 11 regions and still has the capacity of 12. *)
Lemma capacity_exceeds_count_after_retirement :
  Scenario.count_and_capacity (Scenario.rebuild_then_humongous true)
  = Some (11, 12 * region_size_bytes Scenario.cfg)
  /\ Scenario.count_and_capacity (Scenario.rebuild_then_humongous false)
     = Some (11, 12 * region_size_bytes Scenario.cfg)
  /\ 12 * region_size_bytes Scenario.cfg <> 11 * region_size_bytes Scenario.cfg.
Proof.
  split; [vm_compute; reflexivity |]. split; [vm_compute; reflexivity |].
  vm_compute. discriminate.
Qed.

Import FreeSetSpec.

(** ** Retiring a region *)

Lemma bind_gets {S A B} (f : S -> A) (k : A -> Run.M S B) s :
  Run.bind (Run.gets f) k s = k (f s) s.
Proof. reflexivity. Qed.

Section Remnant.

Variable dbg : bool.
Variable cfg : Config.

Hypothesis Hwords : region_size_bytes cfg = region_size_words cfg * HeapWordSize.
Hypothesis Hsize : 16 <= region_size_bytes cfg < Word.modulus.
Hypothesis Halign : 0 < MinObjAlignment cfg.

Variable idx : Z.
Variable fs : FreeSet.t.

Hypothesis Hstate : Heap.state (Heap.get_region (FreeSet._heap fs) idx) = Heap.Regular.
Hypothesis Htop : Heap.top (Heap.get_region (FreeSet._heap fs) idx) = region_size_words cfg - 2.

Lemma remnant_used : Heap.used (Heap.get_region (FreeSet._heap fs) idx) = region_size_bytes cfg - 16.
Proof. unfold Heap.used. rewrite Htop, Hwords. unfold HeapWordSize. lia. Qed.

Lemma remnant_free : Heap.free cfg (Heap.get_region (FreeSet._heap fs) idx) = 16.
Proof.
  unfold Heap.free. rewrite remnant_used.
  replace (region_size_bytes cfg - (region_size_bytes cfg - 16)) with 16 by lia.
  apply wrap_small. lia.
Qed.

Lemma remnant_alloc_capacity : FreeSet.alloc_capacity cfg fs idx = 16.
Proof.
  unfold FreeSet.alloc_capacity, FreeSet.alloc_capacity_region, Heap.is_trash.
  rewrite Hstate. apply remnant_free.
Qed.

(** A mutator request of 128 words in a region with 16 bytes left: the
    allocation fails, and the call goes on to retire the region. *)
Lemma try_allocate_in_remnant req in_new_region :
  AllocRequest.is_mutator_alloc req = true ->
  AllocRequest.size req = 128 ->
  (AllocRequest.is_lab_alloc req = true -> 2 < AllocRequest.min_size req) ->
  16 < min_capacity cfg \/ 16 < Word.wrap (PLAB_min_size cfg * HeapWordSize) ->
  FreeSet.try_allocate_in dbg cfg idx req in_new_region fs
  = (Run.bind (FreeSet.p_retire dbg cfg Mutator idx (region_size_bytes cfg - 16))
       (fun _ => Run.bind (FreeSet.p_assert_bounds dbg cfg)
          (fun _ => Run.ret (FreeSet.mk_allocation None req false)))) fs.
Proof.
  intros Hmut Hreq Hlab Hretire.
  pose proof remnant_free as Hfree. pose proof remnant_used as Hused.
  pose proof remnant_alloc_capacity as Hac.
  assert (Htrash : Heap.is_trash (Heap.get_region (FreeSet._heap fs) idx) = false)
    by (unfold Heap.is_trash; rewrite Hstate; reflexivity).
  assert (Hempty : Heap.is_empty (Heap.get_region (FreeSet._heap fs) idx) = false)
    by (unfold Heap.is_empty; rewrite Hstate; reflexivity).
  unfold FreeSet.try_allocate_in, FreeSet.get_region.
  rewrite bind_gets.
  unfold FreeSet.has_alloc_capacity.
  fold (FreeSet.alloc_capacity cfg fs idx). rewrite Hac.
  change (16 >? 0) with true.
  rewrite (bind_eq _ _ _ _ _ (assert_true dbg _ fs)), bind_get.
  rewrite Htrash, andb_false_r.
  rewrite bind_eq with (a := tt) (s' := fs).
  2:{ unfold FreeSet.try_recycle_trashed, FreeSet.get_region. rewrite bind_gets, Htrash.
      reflexivity. }
  rewrite bind_gets, Hempty.
  rewrite bind_eq with (a := (None, req)) (s' := fs).
  2:{ destruct (AllocRequest.is_lab_alloc req) eqn:El.
      - rewrite Hfree, Hreq.
        change (Z.shiftr 16 LogHeapWordSize) with 2.
        assert (Hfit : FreeSet.align_down 2 (MinObjAlignment cfg) <= 2).
        { unfold FreeSet.align_down. pose proof (Z.mul_div_le 2 _ Halign). lia. }
        destruct (Z.gtb_spec 128 (FreeSet.align_down 2 (MinObjAlignment cfg))); [| lia].
        specialize (Hlab eq_refl).
        destruct (Z.geb_spec (FreeSet.align_down 2 (MinObjAlignment cfg))
                             (AllocRequest.min_size req)); [lia | reflexivity].
      - unfold Heap.allocate. rewrite Htop, Hreq.
        destruct (Z.leb_spec (region_size_words cfg - 2 + 128) (region_size_words cfg));
          [lia | reflexivity]. }
  cbv beta iota. unfold FreeSet.when at 1.
  rewrite bind_ret, bind_get, Hac.
  assert (Hcond : (true && (16 <? min_capacity cfg))
                  || (16 <? Word.wrap (PLAB_min_size cfg * HeapWordSize)) = true).
  { cbn [andb]. apply orb_true_iff.
    destruct Hretire as [H|H]; [left | right]; apply Z.ltb_lt; exact H. }
  rewrite Hcond, bind_gets, Hused, Hmut. reflexivity.
Qed.

End Remnant.

Import FreeSetSpec.

(** [retire_from_partition] with the sizes written out. *)
Lemma retire_from_partition_exact dbg alloc_capacity p idx used_bytes s :
  table_ok s -> Partitions.lt_NumPartitions p = true ->
  0 <= idx < Partitions._max s -> member s p idx -> interval_ok s p ->
  0 <= used_bytes < Partitions._region_size_bytes s ->
  0 <= Partitions._used s p ->
  Partitions._used s p + (Partitions._region_size_bytes s - used_bytes)
  <= Partitions._capacity s p ->
  Partitions._capacity s p < Word.modulus ->
  0 < Partitions._region_counts s p < Word.modulus ->
  exists s',
    Partitions.retire_from_partition dbg alloc_capacity p idx used_bytes s = Ret tt s' /\
    Partitions._used s' p
    = Partitions._used s p + (Partitions._region_size_bytes s - used_bytes) /\
    SimpleBitMap.is_set (Partitions._membership s' p) idx = false /\
    (forall j, 0 <= j < Partitions._max s -> j <> idx ->
               SimpleBitMap.is_set (Partitions._membership s' p) j
               = SimpleBitMap.is_set (Partitions._membership s p) j) /\
    Partitions._region_counts s' p = Partitions._region_counts s p - 1 /\
    Partitions._capacity s' p = Partitions._capacity s p.
Proof.
  intros Hok Hp Hidx Hm Hint Hub Hu Hcap Hcapm Hcnt.
  assert (HN := proj1 Hok). pose proof pow62_modulus as H62.
  destruct (retire_from_partition_returns dbg alloc_capacity p idx used_bytes s
              Hok Hp Hidx Hm Hint Hu (fun _ => Hcap))
    as ([] & s' & E & _ & _ & Em & Ec & Eu & Ecn & _).
  exists s'. split; [exact E |].
  split.
  { rewrite Eu. destruct (Z.ltb_spec used_bytes (Partitions._region_size_bytes s)); [| lia].
    rewrite (wrap_small (Partitions._region_size_bytes s - used_bytes)) by lia.
    apply wrap_small. lia. }
  split; [rewrite Em, is_set_clear_bit, Z.eqb_refl by lia; reflexivity |].
  split.
  { intros j Hj Hne. rewrite Em, is_set_clear_bit by lia.
    destruct (Z.eqb_spec idx j); [congruence | reflexivity]. }
  split; [rewrite Ecn; apply wrap_small; lia | exact Ec].
Qed.

(** C6.  [retire_from_partition(P, i, used_bytes)] on a member [i] of [P]
    with [used_bytes < region_size] returns, in debug and product builds;
    it adds [region_size - used_bytes] to [used[P]], clears bit [i] of
    the bitmap of [P] and no other, takes one off [count[P]] and leaves
    the capacity.  (The table is in order, [used[P]] plus the remnant is
    within the capacity, and the count is a positive [size_t].)

    A Mutator region with 16 bytes remaining that receives a mutator
    request of 128 words, where 16 bytes are below [min_capacity] or below
    [PLAB::min_size()]: [try_allocate_in] allocates nothing, retires the
    region in this way -- 16 bytes more in [used[Mutator]] -- and, after
    [assert_bounds], returns null; in a product build it returns null. *)
Theorem retirement_credits_remnant_as_used :
  (forall dbg alloc_capacity p idx used_bytes s,
     table_ok s -> Partitions.lt_NumPartitions p = true ->
     0 <= idx < Partitions._max s -> member s p idx -> interval_ok s p ->
     0 <= used_bytes < Partitions._region_size_bytes s ->
     0 <= Partitions._used s p ->
     Partitions._used s p + (Partitions._region_size_bytes s - used_bytes)
     <= Partitions._capacity s p ->
     Partitions._capacity s p < Word.modulus ->
     0 < Partitions._region_counts s p < Word.modulus ->
     exists s',
       Partitions.retire_from_partition dbg alloc_capacity p idx used_bytes s = Ret tt s' /\
       Partitions._used s' p
       = Partitions._used s p + (Partitions._region_size_bytes s - used_bytes) /\
       SimpleBitMap.is_set (Partitions._membership s' p) idx = false /\
       (forall j, 0 <= j < Partitions._max s -> j <> idx ->
                  SimpleBitMap.is_set (Partitions._membership s' p) j
                  = SimpleBitMap.is_set (Partitions._membership s p) j) /\
       Partitions._region_counts s' p = Partitions._region_counts s p - 1 /\
       Partitions._capacity s' p = Partitions._capacity s p)
  /\
  (forall dbg cfg idx req in_new_region fs,
     let P := FreeSet._partitions fs in
     let r := Heap.get_region (FreeSet._heap fs) idx in
     region_size_bytes cfg = region_size_words cfg * HeapWordSize ->
     16 <= region_size_bytes cfg < Word.modulus ->
     0 < MinObjAlignment cfg ->
     16 < min_capacity cfg \/ 16 < Word.wrap (PLAB_min_size cfg * HeapWordSize) ->
     Heap.state r = Heap.Regular -> Heap.top r = region_size_words cfg - 2 ->
     AllocRequest.is_mutator_alloc req = true -> AllocRequest.size req = 128 ->
     (AllocRequest.is_lab_alloc req = true -> 2 < AllocRequest.min_size req) ->
     table_ok P -> Partitions._region_size_bytes P = region_size_bytes cfg ->
     0 <= idx < Partitions._max P -> member P Mutator idx -> interval_ok P Mutator ->
     0 <= Partitions._used P Mutator ->
     Partitions._used P Mutator + 16 <= Partitions._capacity P Mutator ->
     Partitions._capacity P Mutator < Word.modulus ->
     0 < Partitions._region_counts P Mutator < Word.modulus ->
     exists P',
       Heap.free cfg r = 16 /\
       Partitions.retire_from_partition dbg (FreeSet.alloc_capacity cfg fs) Mutator idx
         (Heap.used r) P = Ret tt P' /\
       Partitions._used P' Mutator = Partitions._used P Mutator + 16 /\
       SimpleBitMap.is_set (Partitions._membership P' Mutator) idx = false /\
       Partitions._region_counts P' Mutator = Partitions._region_counts P Mutator - 1 /\
       FreeSet.try_allocate_in dbg cfg idx req in_new_region fs
       = (FreeSet.p_assert_bounds dbg cfg ;;
          Run.ret (FreeSet.mk_allocation None req false))
           (FreeSet.with_partitions fs P') /\
       (dbg = false ->
        FreeSet.try_allocate_in dbg cfg idx req in_new_region fs
        = Ret (FreeSet.mk_allocation None req false) (FreeSet.with_partitions fs P'))).
Proof.
  split; [exact retire_from_partition_exact |].
  intros dbg cfg idx req inr fs P r Hwords Hsize Halign Hretire Hstate Htop Hmut Hreq Hlab
         Hok Hrs Hidx Hm Hint Hu Hcap Hcapm Hcnt.
  pose proof (remnant_used cfg Hwords idx fs Htop) as Hused.
  pose proof (remnant_free cfg Hwords Hsize idx fs Htop) as Hfree.
  destruct (retire_from_partition_exact dbg (FreeSet.alloc_capacity cfg fs) Mutator idx
              (region_size_bytes cfg - 16) P Hok eq_refl Hidx Hm Hint)
    as (P' & E & Eu & Eb & _ & Ecn & _); try assumption.
  { rewrite Hrs. lia. }
  { rewrite Hrs. lia. }
  exists P'. fold r in Hused, Hfree.
  assert (Etry : FreeSet.try_allocate_in dbg cfg idx req inr fs
                 = (FreeSet.p_assert_bounds dbg cfg ;;
                    Run.ret (FreeSet.mk_allocation None req false))
                     (FreeSet.with_partitions fs P')).
  { rewrite (try_allocate_in_remnant dbg cfg Hwords Hsize Halign idx fs Hstate Htop req inr
               Hmut Hreq Hlab Hretire).
    rewrite bind_eq with (a := tt) (s' := FreeSet.with_partitions fs P'); [reflexivity |].
    unfold FreeSet.p_retire. apply partitions_eq. exact E. }
  split; [exact Hfree |]. split; [rewrite Hused; exact E |].
  split; [rewrite Eu, Hrs; lia |]. split; [exact Eb |]. split; [exact Ecn |].
  split; [exact Etry |].
  intros ->. rewrite Etry. reflexivity.
Qed.

Lemma with_remnant_invariant dbg :
  invariant Scenario.cfg_small_plab (Scenario.with_remnant dbg).
Proof.
  destruct (construct_table_ok Scenario.cfg_small_plab Scenario.zeroed
              (Scenario.all_empty 0 false)) as (Hok & HN & Hrs & Hh).
  { intros p j. cbn. lia. }
  { cbn. lia. }
  destruct (clear_internal_invariant Scenario.cfg_small_plab Scenario.constructed Hok HN Hrs)
    as (fs1 & E & Hinv & Hcap).
  { vm_compute. reflexivity. }
  assert (E1 : fs1 = Scenario.cleared).
  { unfold Scenario.cleared.
    change (FreeSet.clear_internal Scenario.cfg Scenario.constructed)
      with (FreeSet.clear_internal Scenario.cfg_small_plab Scenario.constructed).
    rewrite E. reflexivity. }
  subst fs1.
  apply (trace_invariant dbg Scenario.cfg_small_plab Scenario.cleared
           [Lifecycle.Rebuild Scenario.last_16_bytes] (Scenario.with_remnant dbg));
    [| exact Hinv | exact Hcap].
  apply (run_trace dbg Scenario.cfg_small_plab _ Scenario.cleared [] Scenario.cleared).
  - apply Lifecycle.trace_nil.
  - destruct dbg; vm_compute; reflexivity.
Qed.

Lemma retirement_credits_remnant_as_used_witness :
  let cfg := Scenario.cfg_small_plab in
  let fs := Scenario.with_remnant true in
  let P := FreeSet._partitions fs in
  let r := Heap.get_region (FreeSet._heap fs) 0 in
  (exists s',
     Partitions.retire_from_partition true (FreeSet.alloc_capacity cfg fs) Mutator 0
       (Scenario.MiB - 16) P = Ret tt s' /\
     Partitions._used s' Mutator
     = Partitions._used P Mutator + (Partitions._region_size_bytes P - (Scenario.MiB - 16)) /\
     SimpleBitMap.is_set (Partitions._membership s' Mutator) 0 = false /\
     (forall j, 0 <= j < Partitions._max P -> j <> 0 ->
                SimpleBitMap.is_set (Partitions._membership s' Mutator) j
                = SimpleBitMap.is_set (Partitions._membership P Mutator) j) /\
     Partitions._region_counts s' Mutator = Partitions._region_counts P Mutator - 1 /\
     Partitions._capacity s' Mutator = Partitions._capacity P Mutator)
  /\
  (exists P',
     Heap.free cfg r = 16 /\
     Partitions.retire_from_partition true (FreeSet.alloc_capacity cfg fs) Mutator 0
       (Heap.used r) P = Ret tt P' /\
     Partitions._used P' Mutator = Partitions._used P Mutator + 16 /\
     SimpleBitMap.is_set (Partitions._membership P' Mutator) 0 = false /\
     Partitions._region_counts P' Mutator = Partitions._region_counts P Mutator - 1 /\
     FreeSet.try_allocate_in true cfg 0 Scenario.shared_1KiB false fs
     = (FreeSet.p_assert_bounds true cfg ;;
        Run.ret (FreeSet.mk_allocation None Scenario.shared_1KiB false))
         (FreeSet.with_partitions fs P') /\
     (true = false ->
      FreeSet.try_allocate_in true cfg 0 Scenario.shared_1KiB false fs
      = Ret (FreeSet.mk_allocation None Scenario.shared_1KiB false)
            (FreeSet.with_partitions fs P'))).
Proof.
  intros cfg fs P r.
  destruct (with_remnant_invariant true) as ((Hok & _ & Hall) & _ & Hrs & _).
  destruct (Hall Mutator eq_refl) as [Hint Hu].
  split.
  - apply (proj1 retirement_credits_remnant_as_used true (FreeSet.alloc_capacity cfg fs)
             Mutator 0 (Scenario.MiB - 16) P).
    + exact Hok.
    + reflexivity.
    + vm_compute. split; [discriminate | reflexivity].
    + vm_compute. reflexivity.
    + exact Hint.
    + vm_compute. split; [discriminate | reflexivity].
    + exact Hu.
    + vm_compute. discriminate.
    + vm_compute. reflexivity.
    + vm_compute. split; reflexivity.
  - apply (proj2 retirement_credits_remnant_as_used true cfg 0 Scenario.shared_1KiB false fs).
    + reflexivity.
    + vm_compute. split; [discriminate | reflexivity].
    + vm_compute. reflexivity.
    + left. vm_compute. reflexivity.
    + reflexivity.
    + reflexivity.
    + reflexivity.
    + reflexivity.
    + intros H. discriminate H.
    + exact Hok.
    + exact Hrs.
    + vm_compute. split; [discriminate | reflexivity].
    + vm_compute. reflexivity.
    + exact Hint.
    + exact Hu.
    + vm_compute. discriminate.
    + vm_compute. reflexivity.
    + vm_compute. split; reflexivity.
Defined.

(** In the 16-region scenario the bounds check after the retirement
    passes as well: debug and product builds return null, with
    [used[Mutator]] at a whole region, 15 regions counted and bit 0 clear. *)
Example try_allocate_in_with_16_bytes_left :
  forall dbg,
    match FreeSet.try_allocate_in dbg Scenario.cfg_small_plab 0 Scenario.shared_1KiB false
            (Scenario.with_remnant dbg) with
    | Ret a fs =>
        (FreeSet.result a,
         Partitions.used_by (FreeSet._partitions fs) Mutator,
         Partitions.count (FreeSet._partitions fs) Mutator,
         Lifecycle.in_partition fs Mutator 0)
        = (None, Scenario.MiB, 15, false)
    | _ => False
    end.
Proof. intros [|]; vm_compute; reflexivity. Qed.

Import FreeSetSpec.

(** ** The allocation bias *)

#[local] Instance bias_kept_preorder : PreOrder bias_kept.
Proof.
  split.
  - intros fs. split; reflexivity.
  - intros fs1 fs2 fs3 [A1 A2] [B1 B2]. split; congruence.
Qed.

Section BiasFrames.

Variable dbg : bool.
Variable cfg : Config.

Lemma partitions_frames {A} (m : (Z -> Z) -> Run.M Partitions.t A) :
  frames bias_kept (FreeSet.partitions cfg m).
Proof.
  intros fs a fs' E. unfold FreeSet.partitions, Run.zoom in E.
  destruct (m (FreeSet.alloc_capacity cfg fs) (FreeSet._partitions fs)); inversion E; subst.
  split; reflexivity.
Qed.

Lemma update_region_frames idx f : frames bias_kept (FreeSet.update_region idx f).
Proof. apply frames_modify. intros fs. split; reflexivity. Qed.

Lemma get_region_frames idx : frames bias_kept (FreeSet.get_region idx).
Proof. unfold FreeSet.get_region. frames_auto. Qed.

Hint Resolve update_region_frames get_region_frames : frames.
Hint Extern 1 (frames bias_kept (FreeSet.partitions _ _)) => apply partitions_frames : frames.
Hint Extern 1 (frames bias_kept (FreeSet.p_leftmost _ _ _)) => apply partitions_frames : frames.
Hint Extern 1 (frames bias_kept (FreeSet.p_rightmost _ _ _)) => apply partitions_frames : frames.
Hint Extern 1 (frames bias_kept (FreeSet.p_is_empty _ _ _)) => apply partitions_frames : frames.
Hint Extern 1 (frames bias_kept (FreeSet.p_in_free_set _ _ _ _)) => apply partitions_frames : frames.
Hint Extern 1 (frames bias_kept (FreeSet.p_find_next _ _ _ _)) => apply partitions_frames : frames.
Hint Extern 1 (frames bias_kept (FreeSet.p_find_prev _ _ _ _)) => apply partitions_frames : frames.
Hint Extern 1 (frames bias_kept (FreeSet.p_retire _ _ _ _ _)) => apply partitions_frames : frames.
Hint Extern 1 (frames bias_kept (FreeSet.p_increase_used _ _ _ _)) => apply partitions_frames : frames.
Hint Extern 1 (frames bias_kept (FreeSet.p_assert_bounds _ _)) => apply partitions_frames : frames.

Lemma try_recycle_trashed_frames idx : frames bias_kept (FreeSet.try_recycle_trashed idx).
Proof.
  unfold FreeSet.try_recycle_trashed, FreeSet.when. frames_auto.
  apply frames_modify. intros fs. split; reflexivity.
Qed.

Hint Resolve try_recycle_trashed_frames : frames.

Lemma try_allocate_in_frames idx req inr :
  frames bias_kept (FreeSet.try_allocate_in dbg cfg idx req inr).
Proof.
  unfold FreeSet.try_allocate_in, FreeSet.when. frames_auto.
Qed.

Hint Resolve try_allocate_in_frames : frames.

Lemma mutator_scan_right_to_left_frames fuel leftmost idx req inr :
  frames bias_kept (FreeSet.mutator_scan_right_to_left dbg cfg fuel leftmost idx req inr).
Proof.
  revert idx req inr. induction fuel as [|fuel IH]; intros idx req inr;
    cbn [FreeSet.mutator_scan_right_to_left]; frames_auto.
Qed.

Lemma mutator_scan_left_to_right_frames fuel rightmost idx req inr :
  frames bias_kept (FreeSet.mutator_scan_left_to_right dbg cfg fuel rightmost idx req inr).
Proof.
  revert idx req inr. induction fuel as [|fuel IH]; intros idx req inr;
    cbn [FreeSet.mutator_scan_left_to_right]; frames_auto.
Qed.

Hint Resolve mutator_scan_right_to_left_frames mutator_scan_left_to_right_frames : frames.

(** The scans of the mutator view leave direction and counter alone. *)
Lemma allocate_in_mutator_view_frames req inr :
  frames bias_kept (FreeSet.allocate_in_mutator_view dbg cfg req inr).
Proof. unfold FreeSet.allocate_in_mutator_view. frames_auto. Qed.

End BiasFrames.

Lemma p_leftmost_eq dbg cfg p fs :
  Partitions.lt_NumPartitions p = true ->
  Partitions._leftmosts (FreeSet._partitions fs) p <= Partitions._max (FreeSet._partitions fs) ->
  FreeSet.p_leftmost dbg cfg p fs
  = Ret (Partitions._leftmosts (FreeSet._partitions fs) p) fs.
Proof.
  intros Hp HL. unfold FreeSet.p_leftmost, FreeSet.partitions, Run.zoom.
  rewrite leftmost_in_range by assumption. destruct fs; reflexivity.
Qed.

Lemma p_rightmost_eq dbg cfg p fs :
  Partitions.lt_NumPartitions p = true ->
  FreeSet.p_rightmost dbg cfg p fs
  = Ret (Partitions._rightmosts (FreeSet._partitions fs) p) fs.
Proof.
  intros Hp. unfold FreeSet.p_rightmost, FreeSet.partitions, Run.zoom.
  rewrite rightmost_eq by assumption. destruct fs; reflexivity.
Qed.

Lemma with_fragmented_ends_invariant :
  invariant Scenario.cfg (Scenario.with_fragmented_ends true).
Proof.
  destruct (construct_table_ok Scenario.cfg Scenario.zeroed (Scenario.all_empty 0 false))
    as (Hok & HN & Hrs & Hh).
  { intros p j. cbn. lia. }
  { cbn. lia. }
  destruct (clear_internal_invariant Scenario.cfg Scenario.constructed Hok HN Hrs)
    as (fs1 & E & Hinv & Hcap).
  { vm_compute. reflexivity. }
  assert (E1 : fs1 = Scenario.cleared) by (unfold Scenario.cleared; rewrite E; reflexivity).
  subst fs1.
  apply (trace_invariant true Scenario.cfg Scenario.cleared
           [Lifecycle.Rebuild Scenario.fragmented_ends] (Scenario.with_fragmented_ends true));
    [| exact Hinv | exact Hcap].
  apply (run_trace true Scenario.cfg _ Scenario.cleared [] Scenario.cleared).
  - apply Lifecycle.trace_nil.
  - vm_compute. reflexivity.
Qed.

(** In the scenario the gaps are 2 on the left and 3 on the right: the
    call turns to right-to-left, resets the counter and allocates in
    region 15, behind the 1000 words it holds. *)
Example allocate_single_turns_right_to_left :
  forall dbg,
    Scenario.result_and_bias
      (FreeSet.allocate_single dbg Scenario.cfg Scenario.tlab_1KiB false
         (Scenario.with_fragmented_ends dbg))
    = Some (Some (15 * Scenario.MiB + 1000 * HeapWordSize), true, 256).
Proof. intros [|]; vm_compute; reflexivity. Qed.

(* ================================================================= *)
(** * Further properties of the bitmap, the table and the free set *)

Import ViewSpec AllocSpec TransferSpec.


(* ================================================================= *)
(** * Further properties of the bitmap *)

Lemma index_in_range_bounds bm i :
  SimpleBitMap.index_in_range bm i = true -> 0 <= i < SimpleBitMap._num_bits bm.
Proof.
  unfold SimpleBitMap.index_in_range. intros H. apply andb_true_iff in H.
  destruct H as [H1 H2]. apply Z.leb_le in H1. apply Z.ltb_lt in H2. lia.
Qed.

(** X1.  [set_bit(idx)] and [clear_bit(idx)], called on an index that
    meets their precondition [0 <= idx < _num_bits], change bit [idx] and
    no other: after [set_bit], [is_set(idx)] is true; after [clear_bit] it
    is false; every other index in range answers [is_set] as before; and
    setting a bit and then clearing it (or the reverse) leaves every
    answer of [is_set] as a single [clear_bit] (or [set_bit]) does. *)
Theorem set_bit_and_clear_bit_change_one_bit bm idx :
  SimpleBitMap._num_bits bm <= Word.half_modulus ->
  SimpleBitMap.index_in_range bm idx = true ->
  SimpleBitMap.is_set (SimpleBitMap.set_bit bm idx) idx = true /\
  SimpleBitMap.is_set (SimpleBitMap.clear_bit bm idx) idx = false /\
  (forall j, SimpleBitMap.index_in_range bm j = true -> j <> idx ->
     SimpleBitMap.is_set (SimpleBitMap.set_bit bm idx) j = SimpleBitMap.is_set bm j /\
     SimpleBitMap.is_set (SimpleBitMap.clear_bit bm idx) j = SimpleBitMap.is_set bm j) /\
  (forall j, SimpleBitMap.index_in_range bm j = true ->
     SimpleBitMap.is_set (SimpleBitMap.clear_bit (SimpleBitMap.set_bit bm idx) idx) j
     = SimpleBitMap.is_set (SimpleBitMap.clear_bit bm idx) j /\
     SimpleBitMap.is_set (SimpleBitMap.set_bit (SimpleBitMap.clear_bit bm idx) idx) j
     = SimpleBitMap.is_set (SimpleBitMap.set_bit bm idx) j).
Proof.
  intros HN Hi. apply index_in_range_bounds in Hi.
  pose proof half_modulus_eq as Hh. pose proof modulus_eq as Hm.
  assert (Hiw : 0 <= idx < Word.modulus) by lia.
  split; [rewrite is_set_set_bit by lia; rewrite Z.eqb_refl; reflexivity |].
  split; [rewrite is_set_clear_bit by lia; rewrite Z.eqb_refl; reflexivity |].
  split.
  - intros j Hj Hne. apply index_in_range_bounds in Hj.
    rewrite is_set_set_bit, is_set_clear_bit by lia.
    destruct (Z.eqb_spec idx j); [congruence |]. split; reflexivity.
  - intros j Hj. apply index_in_range_bounds in Hj.
    rewrite !is_set_clear_bit, !is_set_set_bit, !is_set_clear_bit by lia.
    destruct (Z.eqb_spec idx j); cbn; split; reflexivity.
Qed.

Lemma set_bit_and_clear_bit_change_one_bit_witness :
  SimpleBitMap.is_set (SimpleBitMap.set_bit Example.two_runs_of_128 100) 100 = true /\
  SimpleBitMap.is_set (SimpleBitMap.clear_bit Example.two_runs_of_128 100) 100 = false /\
  (forall j, SimpleBitMap.index_in_range Example.two_runs_of_128 j = true -> j <> 100 ->
     SimpleBitMap.is_set (SimpleBitMap.set_bit Example.two_runs_of_128 100) j
     = SimpleBitMap.is_set Example.two_runs_of_128 j /\
     SimpleBitMap.is_set (SimpleBitMap.clear_bit Example.two_runs_of_128 100) j
     = SimpleBitMap.is_set Example.two_runs_of_128 j) /\
  (forall j, SimpleBitMap.index_in_range Example.two_runs_of_128 j = true ->
     SimpleBitMap.is_set
       (SimpleBitMap.clear_bit (SimpleBitMap.set_bit Example.two_runs_of_128 100) 100) j
     = SimpleBitMap.is_set (SimpleBitMap.clear_bit Example.two_runs_of_128 100) j /\
     SimpleBitMap.is_set
       (SimpleBitMap.set_bit (SimpleBitMap.clear_bit Example.two_runs_of_128 100) 100) j
     = SimpleBitMap.is_set (SimpleBitMap.set_bit Example.two_runs_of_128 100) j).
Proof.
  apply (set_bit_and_clear_bit_change_one_bit Example.two_runs_of_128 100).
  - vm_compute. discriminate.
  - vm_compute. reflexivity.
Defined.

(** X2.  The constructor [ShenandoahSimpleBitMap(num_bits)] allocates
    [ceil(num_bits / 64)] words, which are enough to hold [num_bits]
    bits, and clears them: whatever the fresh memory held, no bit in
    [0, num_bits) is set. *)
Theorem constructor_clears_every_bit memory num_bits :
  0 <= num_bits < 2 ^ 62 ->
  let bm := SimpleBitMap.create memory num_bits in
  SimpleBitMap._num_bits bm = num_bits /\
  SimpleBitMap._num_words bm = (num_bits + 63) / 64 /\
  num_bits <= 64 * SimpleBitMap._num_words bm < num_bits + 64 /\
  forall j, SimpleBitMap.index_in_range bm j = true -> SimpleBitMap.is_set bm j = false.
Proof.
  intros Hn bm. pose proof pow62_modulus as H62.
  assert (Ew : SimpleBitMap._num_words bm = (num_bits + 63) / 64).
  { subst bm. unfold SimpleBitMap.create, SimpleBitMap.clear_all.
    cbn [SimpleBitMap._num_words]. unfold SimpleBitMap._bits_per_array_element.
    rewrite wrap_small by (rewrite modulus_eq; lia). reflexivity. }
  split; [reflexivity |]. split; [exact Ew |]. split; [rewrite Ew; lia |].
  intros j Hj. apply index_in_range_bounds in Hj.
  change (SimpleBitMap._num_bits bm) with num_bits in Hj.
  subst bm. unfold SimpleBitMap.create. apply is_set_clear_all.
  - cbn [SimpleBitMap._num_words]. unfold SimpleBitMap._bits_per_array_element.
    rewrite wrap_small by (rewrite modulus_eq; lia). lia.
  - lia.
Qed.

Lemma constructor_clears_every_bit_witness :
  let bm := SimpleBitMap.create (fun _ => Word.all_ones) 100 in
  SimpleBitMap._num_bits bm = 100 /\
  SimpleBitMap._num_words bm = (100 + 63) / 64 /\
  100 <= 64 * SimpleBitMap._num_words bm < 100 + 64 /\
  forall j, SimpleBitMap.index_in_range bm j = true -> SimpleBitMap.is_set bm j = false.
Proof.
  apply (constructor_clears_every_bit (fun _ => Word.all_ones) 100). lia.
Defined.


Lemma words_ok_run_across_words : Spec.words_ok Samples.run_across_words.
Proof.
  unfold Samples.run_across_words. cbn [fold_left].
  repeat apply words_ok_set_bit. apply words_ok_create.
  intros j. cbn [SimpleBitMap._bitmap]. rewrite modulus_eq. lia.
Qed.

(** X3.  [find_next_set_bit(start_idx, boundary_idx)], called within its
    preconditions [0 <= start_idx < _num_bits] and
    [start_idx < boundary_idx <= _num_bits], returns the index of the
    first set bit in [start_idx, boundary_idx), and [boundary_idx] when
    no bit in that range is set. *)
Theorem find_next_set_bit_returns_first_set_bit bm start_idx boundary_idx :
  Spec.words_ok bm ->
  SimpleBitMap._num_bits bm < 2 ^ 62 ->
  SimpleBitMap.index_in_range bm start_idx = true ->
  SimpleBitMap.find_next_set_bit_boundary_ok bm start_idx boundary_idx = true ->
  exists r,
    SimpleBitMap.find_next_set_bit bm start_idx boundary_idx = Some r /\
    start_idx <= r <= boundary_idx /\
    (forall j, start_idx <= j < r -> SimpleBitMap.is_set bm j = false) /\
    (r < boundary_idx -> SimpleBitMap.is_set bm r = true) /\
    (r = boundary_idx ->
     forall j, start_idx <= j < boundary_idx -> SimpleBitMap.is_set bm j = false).
Proof.
  intros Hok HN Hs Hb. apply index_in_range_bounds in Hs.
  unfold SimpleBitMap.find_next_set_bit_boundary_ok in Hb.
  apply andb_true_iff in Hb. destruct Hb as [Hb1 Hb2].
  apply Z.gtb_lt in Hb1. apply Z.leb_le in Hb2.
  destruct (find_next_set_bit_spec bm start_idx boundary_idx Hok) as (r & Er & Hr & Hnone & Hset);
    [lia | lia |].
  exists r. split; [exact Er |]. split; [exact Hr |].
  split; [exact Hnone |]. split; [exact Hset |].
  intros -> j Hj. apply Hnone. exact Hj.
Qed.

Lemma find_next_set_bit_returns_first_set_bit_witness :
  exists r,
    SimpleBitMap.find_next_set_bit Samples.run_across_words 5 128 = Some r /\
    5 <= r <= 128 /\
    (forall j, 5 <= j < r -> SimpleBitMap.is_set Samples.run_across_words j = false) /\
    (r < 128 -> SimpleBitMap.is_set Samples.run_across_words r = true) /\
    (r = 128 ->
     forall j, 5 <= j < 128 -> SimpleBitMap.is_set Samples.run_across_words j = false).
Proof.
  apply (find_next_set_bit_returns_first_set_bit Samples.run_across_words 5 128).
  - exact words_ok_run_across_words.
  - vm_compute. reflexivity.
  - vm_compute. reflexivity.
  - vm_compute. reflexivity.
Defined.

(** X4.  [find_prev_set_bit(last_idx, boundary_idx)], called within its
    preconditions [0 <= last_idx < _num_bits] and
    [-1 <= boundary_idx < last_idx], returns the index of the last set
    bit in (boundary_idx, last_idx], and [boundary_idx] when no bit in
    that range is set. *)
Theorem find_prev_set_bit_returns_last_set_bit bm last_idx boundary_idx :
  Spec.words_ok bm ->
  SimpleBitMap._num_bits bm < 2 ^ 62 ->
  SimpleBitMap.index_in_range bm last_idx = true ->
  SimpleBitMap.find_prev_set_bit_boundary_ok last_idx boundary_idx = true ->
  exists r,
    SimpleBitMap.find_prev_set_bit bm last_idx boundary_idx = Some r /\
    boundary_idx <= r <= last_idx /\
    (forall j, r < j <= last_idx -> SimpleBitMap.is_set bm j = false) /\
    (boundary_idx < r -> SimpleBitMap.is_set bm r = true) /\
    (r = boundary_idx ->
     forall j, boundary_idx < j <= last_idx -> SimpleBitMap.is_set bm j = false).
Proof.
  intros Hok HN Hl Hb. apply index_in_range_bounds in Hl.
  unfold SimpleBitMap.find_prev_set_bit_boundary_ok in Hb.
  apply andb_true_iff in Hb. destruct Hb as [Hb1 Hb2].
  apply Z.geb_le in Hb1. apply Z.ltb_lt in Hb2.
  destruct (find_prev_set_bit_spec bm last_idx boundary_idx Hok) as (r & Er & Hr & Hnone & Hset);
    [lia | lia |].
  exists r. split; [exact Er |]. split; [exact Hr |].
  split; [intros j Hj; apply Hnone; lia |]. split; [exact Hset |].
  intros -> j Hj. apply Hnone. lia.
Qed.

Lemma find_prev_set_bit_returns_last_set_bit_witness :
  exists r,
    SimpleBitMap.find_prev_set_bit Samples.run_across_words 127 (-1) = Some r /\
    -1 <= r <= 127 /\
    (forall j, r < j <= 127 -> SimpleBitMap.is_set Samples.run_across_words j = false) /\
    (-1 < r -> SimpleBitMap.is_set Samples.run_across_words r = true) /\
    (r = -1 ->
     forall j, -1 < j <= 127 -> SimpleBitMap.is_set Samples.run_across_words j = false).
Proof.
  apply (find_prev_set_bit_returns_last_set_bit Samples.run_across_words 127 (-1)).
  - exact words_ok_run_across_words.
  - vm_compute. reflexivity.
  - vm_compute. reflexivity.
  - vm_compute. reflexivity.
Defined.

(** X5.  [count_trailing_ones(last_idx)] counts the set bits that end at
    [last_idx]: when bit [z <= last_idx] is clear and every bit in
    (z, last_idx] is set -- the function "requires that there is at
    least one zero between last_idx and index value zero" -- the result
    is [last_idx - z], also when the run reaches back over several
    words. *)
Theorem count_trailing_ones_counts_back_to_the_zero fuel bm last_idx z :
  Spec.words_ok bm ->
  SimpleBitMap._num_bits bm < 2 ^ 62 ->
  SimpleBitMap.index_in_range bm last_idx = true ->
  0 <= z <= last_idx ->
  SimpleBitMap.is_set bm z = false ->
  (forall j, z < j <= last_idx -> SimpleBitMap.is_set bm j = true) ->
  (Z.to_nat (last_idx / 64 - z / 64) < fuel)%nat ->
  SimpleBitMap.count_trailing_ones fuel bm last_idx = Some (last_idx - z).
Proof.
  intros Hok HN Hl Hz Hclear Hrun Hfuel. apply index_in_range_bounds in Hl.
  apply count_trailing_ones_spec; try assumption. lia.
Qed.

Lemma count_trailing_ones_counts_back_to_the_zero_witness :
  SimpleBitMap.count_trailing_ones 2 Samples.run_across_words 66 = Some (66 - 59).
Proof.
  apply (count_trailing_ones_counts_back_to_the_zero 2 Samples.run_across_words 66 59).
  - exact words_ok_run_across_words.
  - vm_compute. reflexivity.
  - vm_compute. reflexivity.
  - lia.
  - vm_compute. reflexivity.
  - intros j Hj.
    assert (H : j = 60 \/ j = 61 \/ j = 62 \/ j = 63 \/ j = 64 \/ j = 65 \/ j = 66) by lia.
    destruct H as [-> | [-> | [-> | [-> | [-> | [-> | ->]]]]]]; vm_compute; reflexivity.
  - vm_compute. lia.
Defined.


(* ================================================================= *)
(** * Further properties of the partition table *)

(** A legal sequence that runs keeps the free set in order. *)
Lemma run_invariant dbg cfg ops fs fs' :
  invariant cfg fs -> capacity_equation [] fs ->
  Lifecycle.run dbg cfg ops fs = Some fs' ->
  invariant cfg fs' /\ capacity_equation ops fs'.
Proof.
  intros Hinv Hcap Hrun.
  apply (trace_invariant dbg cfg fs ops fs'); [| exact Hinv | exact Hcap].
  apply (run_trace dbg cfg ops fs [] fs); [apply Lifecycle.trace_nil | exact Hrun].
Qed.

Lemma cleared_scenario_invariant :
  invariant Scenario.cfg Scenario.cleared /\ capacity_equation [] Scenario.cleared.
Proof.
  destruct (construct_table_ok Scenario.cfg Scenario.zeroed (Scenario.all_empty 0 false))
    as (Hok & HN & Hrs & Hh).
  { intros p j. cbn. lia. }
  { cbn. lia. }
  destruct (clear_internal_invariant Scenario.cfg Scenario.constructed Hok HN Hrs)
    as (fs1 & E & Hinv & Hcap).
  { vm_compute. reflexivity. }
  assert (E1 : fs1 = Scenario.cleared) by (unfold Scenario.cleared; rewrite E; reflexivity).
  subst fs1. split; assumption.
Qed.

(** The 16-region table after the scenario's calls: the regions 3 to 14
    are in the Mutator partition, region 15 is in the Collector's. *)
Lemma after_calls_invariant dbg :
  invariant Scenario.cfg (Scenario.after_calls dbg).
Proof.
  destruct cleared_scenario_invariant as [Hinv Hcap].
  apply (run_invariant dbg Scenario.cfg Scenario.calls Scenario.cleared); try assumption.
  destruct dbg; vm_compute; reflexivity.
Qed.

Lemma no_member_is_empty dbg p s :
  table_ok s -> Partitions.lt_NumPartitions p = true -> interval_ok s p ->
  exists b,
    Partitions.is_empty dbg p s = Ret b s /\
    (b = true <-> forall j, 0 <= j < Partitions._max s -> ~ member s p j).
Proof.
  intros [HN _] Hp (Hc & _ & Hshape).
  unfold Partitions.is_empty.
  rewrite bind_eq with (a := tt) (s' := s) by (rewrite Hp; apply assert_true).
  destruct Hshape as [[HL HR]|(HL & HR & HmL & HmR)].
  - rewrite bind_eq with (a := Partitions._max s) (s' := s)
      by (rewrite leftmost_in_range by (assumption || lia); rewrite HL; reflexivity).
    rewrite bind_eq with (a := Partitions._rightmosts s p) (s' := s)
      by (apply rightmost_eq; exact Hp).
    exists true. split.
    + unfold Run.ret. f_equal. apply Z.gtb_lt. lia.
    + split; [| reflexivity]. intros _ j Hj Hm. pose proof (Hc j Hj Hm). lia.
  - rewrite bind_eq with (a := Partitions._leftmosts s p) (s' := s)
      by (apply leftmost_in_range; [exact Hp | lia]).
    rewrite bind_eq with (a := Partitions._rightmosts s p) (s' := s)
      by (apply rightmost_eq; exact Hp).
    exists false. split.
    + unfold Run.ret. f_equal. rewrite Z.gtb_ltb. apply Z.ltb_ge. lia.
    + split; [discriminate |]. intros Hno. exfalso.
      apply (Hno (Partitions._leftmosts s p)); [lia | exact HmL].
Qed.

(** X6.  [is_empty(p)] answers whether partition [p] holds no region:
    on a table whose interval for [p] is in order (it contains every
    member and is either the empty interval or bounded by two members),
    the call returns, leaves the table as it is, and its answer is true
    exactly when no region index is set in the bitmap of [p]. *)
Theorem is_empty_iff_partition_has_no_region dbg p s :
  table_ok s -> Partitions.lt_NumPartitions p = true -> interval_ok s p ->
  exists b,
    Partitions.is_empty dbg p s = Ret b s /\
    (b = true <-> forall j, 0 <= j < Partitions._max s -> ~ member s p j).
Proof. exact (no_member_is_empty dbg p s). Qed.

Lemma is_empty_iff_partition_has_no_region_witness :
  exists b,
    Partitions.is_empty true Collector (FreeSet._partitions (Scenario.after_calls true))
    = Ret b (FreeSet._partitions (Scenario.after_calls true)) /\
    (b = true <->
     forall j, 0 <= j < Partitions._max (FreeSet._partitions (Scenario.after_calls true)) ->
               ~ member (FreeSet._partitions (Scenario.after_calls true)) Collector j).
Proof.
  destruct (after_calls_invariant true) as ((Hok & _ & Hall) & _).
  apply (is_empty_iff_partition_has_no_region true Collector
           (FreeSet._partitions (Scenario.after_calls true))).
  - exact Hok.
  - reflexivity.
  - apply Hall. reflexivity.
Defined.

(** X7.  [clear()] -- that is, [make_all_regions_unavailable] -- returns
    on every table of the right shape and empties it: afterwards no
    region is in a partition ([membership] answers [NotFree] for every
    index and [is_empty] is true for both partitions), the counts,
    capacities and used totals are 0, and all four bounds of each
    partition are the canonical empty interval [_max, -1].  The heap and
    the allocation bias of the free set are left as they are. *)
Theorem clear_empties_both_partitions dbg cfg fs :
  table_ok (FreeSet._partitions fs) ->
  exists s',
    FreeSet.clear cfg fs = Ret tt (FreeSet.with_partitions fs s') /\
    same_size (FreeSet._partitions fs) s' /\
    TableSpec.invariant s' /\
    (forall p, Partitions.lt_NumPartitions p = true ->
       Partitions.count s' p = 0 /\
       Partitions.capacity_of s' p = 0 /\
       Partitions.used_by s' p = 0 /\
       Partitions._leftmosts s' p = Partitions._max s' /\
       Partitions._rightmosts s' p = -1 /\
       Partitions._leftmosts_empty s' p = Partitions._max s' /\
       Partitions._rightmosts_empty s' p = -1 /\
       Partitions.is_empty dbg p s' = Ret true s') /\
    (forall idx, 0 <= idx < Partitions._max s' ->
       Partitions.membership dbg idx s' = Ret NotFree s').
Proof.
  intros Hok.
  destruct (make_all_regions_unavailable_returns (FreeSet._partitions fs))
    as (s' & E & Hsz & H).
  destruct (cleared_invariant _ s' Hok Hsz) as (Hinv & Hno).
  { intros p Hp. destruct (H p Hp) as (A1 & A2 & A3 & A4 & A5 & A6 & A7 & A8).
    repeat split; assumption. }
  destruct Hsz as [EN Ers].
  exists s'. split.
  { unfold FreeSet.clear, FreeSet.clear_internal. apply partitions_eq. exact E. }
  split; [split; assumption |]. split; [exact Hinv |]. split.
  - intros p Hp. destruct (H p Hp) as (A1 & A2 & A3 & A4 & A5 & A6 & A7 & A8).
    unfold Partitions.count, Partitions.capacity_of, Partitions.used_by.
    rewrite EN. do 7 (split; [assumption |]).
    destruct Hinv as (Hok' & _ & Hall).
    destruct (no_member_is_empty dbg p s' Hok' Hp (proj1 (Hall p Hp))) as (b & Eb & Hb).
    assert (b = true) as ->; [| exact Eb].
    apply Hb. intros j Hj. apply Hno; [exact Hp | lia].
  - intros idx Hidx. destruct Hinv as (Hok' & Hdis & _).
    rewrite membership_eq by assumption.
    assert (HC : SimpleBitMap.is_set (Partitions._membership s' Collector) idx = false).
    { apply not_true_is_false. apply (Hno Collector idx); [reflexivity | lia]. }
    assert (HM : SimpleBitMap.is_set (Partitions._membership s' Mutator) idx = false).
    { apply not_true_is_false. apply (Hno Mutator idx); [reflexivity | lia]. }
    rewrite HC, HM. reflexivity.
Qed.

Lemma clear_empties_both_partitions_witness :
  let fs := Scenario.after_calls true in
  exists s',
    FreeSet.clear Scenario.cfg fs = Ret tt (FreeSet.with_partitions fs s') /\
    same_size (FreeSet._partitions fs) s' /\
    TableSpec.invariant s' /\
    (forall p, Partitions.lt_NumPartitions p = true ->
       Partitions.count s' p = 0 /\
       Partitions.capacity_of s' p = 0 /\
       Partitions.used_by s' p = 0 /\
       Partitions._leftmosts s' p = Partitions._max s' /\
       Partitions._rightmosts s' p = -1 /\
       Partitions._leftmosts_empty s' p = Partitions._max s' /\
       Partitions._rightmosts_empty s' p = -1 /\
       Partitions.is_empty true p s' = Ret true s') /\
    (forall idx, 0 <= idx < Partitions._max s' ->
       Partitions.membership true idx s' = Ret NotFree s').
Proof.
  intros fs.
  apply (clear_empties_both_partitions true Scenario.cfg fs).
  apply (after_calls_invariant true).
Defined.


(** The two region searches in terms of the members of the partition. *)
Lemma next_available_region_is_first_member dbg p start_index s :
  table_ok s -> Partitions.lt_NumPartitions p = true -> interval_ok s p ->
  exists r,
    Partitions.find_index_of_next_available_region dbg p start_index s = Ret r s /\
    ((r = Partitions._max s /\
      forall j, start_index <= j -> 0 <= j < Partitions._max s -> ~ member s p j)
     \/
     (start_index <= r /\ 0 <= r < Partitions._max s /\ member s p r /\
      forall j, start_index <= j < r -> 0 <= j -> ~ member s p j)).
Proof.
  intros Hok Hp (Hc & _ & Hshape). pose proof (proj1 Hok) as HN.
  destruct (find_index_of_next_available_region_spec dbg p start_index s Hok Hp)
    as (r & Er & Hr).
  { destruct Hshape as [[HL _]|(HL & HR & _)]; lia. }
  { destruct Hshape as [[_ HR]|(HL & HR & _)]; lia. }
  exists r. split; [exact Er |].
  destruct Hr as [[-> Hno]|(Hr1 & Hm & Hno)]; [left | right].
  - split; [reflexivity |]. intros j Hj1 Hj2 Hmj.
    pose proof (Hc j Hj2 Hmj). apply (Hno j); [lia | exact Hmj].
  - assert (0 <= r < Partitions._max s).
    { destruct Hshape as [[HL HR]|(HL & HR & _)]; lia. }
    split; [lia |]. split; [assumption |]. split; [exact Hm |].
    intros j Hj1 Hj2 Hmj.
    pose proof (Hc j ltac:(lia) Hmj). apply (Hno j); [lia | exact Hmj].
Qed.


Lemma previous_available_region_is_last_member dbg p last_index s :
  table_ok s -> Partitions.lt_NumPartitions p = true -> interval_ok s p ->
  last_index < Partitions._max s ->
  exists r,
    Partitions.find_index_of_previous_available_region dbg p last_index s = Ret r s /\
    ((r = -1 /\
      forall j, j <= last_index -> 0 <= j < Partitions._max s -> ~ member s p j)
     \/
     (0 <= r <= last_index /\ member s p r /\
      forall j, r < j <= last_index -> j < Partitions._max s -> ~ member s p j)).
Proof.
  intros Hok Hp (Hc & _ & Hshape) Hlast. pose proof (proj1 Hok) as HN.
  destruct (find_index_of_previous_available_region_spec dbg p last_index s Hok Hp)
    as (r & Er & Hr); try assumption.
  { destruct Hshape as [[HL _]|(HL & HR & _)]; lia. }
  { destruct Hshape as [[_ HR]|(HL & HR & _)]; lia. }
  { destruct Hshape as [[HL _]|(HL & HR & _)]; lia. }
  exists r. split; [exact Er |].
  destruct Hr as [[-> Hno]|(Hr1 & Hm & Hno)]; [left | right].
  - split; [reflexivity |]. intros j Hj1 Hj2 Hmj.
    pose proof (Hc j Hj2 Hmj). apply (Hno j); [lia | exact Hmj].
  - assert (0 <= r).
    { destruct Hshape as [[HL HR]|(HL & HR & _)]; lia. }
    split; [lia |]. split; [exact Hm |].
    intros j Hj1 Hj2 Hmj.
    pose proof (Hc j ltac:(lia) Hmj). apply (Hno j); [lia | exact Hmj].
Qed.


(** X8.  [find_index_of_next_available_region(p, start_index)] on a
    table whose interval for [p] is in order returns, leaves the table
    as it is, and hands back the smallest region index [>= start_index]
    that is in partition [p]; when [p] holds no region at or above
    [start_index], it hands back [_max]. *)
Theorem find_index_of_next_available_region_returns_first_member dbg p start_index s :
  table_ok s -> Partitions.lt_NumPartitions p = true -> interval_ok s p ->
  exists r,
    Partitions.find_index_of_next_available_region dbg p start_index s = Ret r s /\
    ((r = Partitions._max s /\
      forall j, start_index <= j -> 0 <= j < Partitions._max s -> ~ member s p j)
     \/
     (start_index <= r /\ 0 <= r < Partitions._max s /\ member s p r /\
      forall j, start_index <= j < r -> 0 <= j -> ~ member s p j)).
Proof.
  intros Hok Hp Hint.
  exact (next_available_region_is_first_member dbg p start_index s Hok Hp Hint).
Qed.

Lemma find_index_of_next_available_region_returns_first_member_witness :
  let s := FreeSet._partitions (Scenario.after_calls true) in
  exists r,
    Partitions.find_index_of_next_available_region true Mutator 0 s = Ret r s /\
    ((r = Partitions._max s /\
      forall j, 0 <= j -> 0 <= j < Partitions._max s -> ~ member s Mutator j)
     \/
     (0 <= r /\ 0 <= r < Partitions._max s /\ member s Mutator r /\
      forall j, 0 <= j < r -> 0 <= j -> ~ member s Mutator j)).
Proof.
  intros s. destruct (after_calls_invariant true) as ((Hok & _ & Hall) & _).
  apply (find_index_of_next_available_region_returns_first_member true Mutator 0 s).
  - exact Hok.
  - reflexivity.
  - apply Hall. reflexivity.
Defined.

(** X9.  [find_index_of_previous_available_region(p, last_index)], for
    [last_index < _max] on a table whose interval for [p] is in order,
    returns, leaves the table as it is, and hands back the largest
    region index [<= last_index] that is in partition [p]; when [p] holds
    no region at or below [last_index], it hands back -1. *)
Theorem find_index_of_previous_available_region_returns_last_member dbg p last_index s :
  table_ok s -> Partitions.lt_NumPartitions p = true -> interval_ok s p ->
  last_index < Partitions._max s ->
  exists r,
    Partitions.find_index_of_previous_available_region dbg p last_index s = Ret r s /\
    ((r = -1 /\
      forall j, j <= last_index -> 0 <= j < Partitions._max s -> ~ member s p j)
     \/
     (0 <= r <= last_index /\ member s p r /\
      forall j, r < j <= last_index -> j < Partitions._max s -> ~ member s p j)).
Proof.
  intros Hok Hp Hint Hlast.
  exact (previous_available_region_is_last_member dbg p last_index s Hok Hp Hint Hlast).
Qed.

Lemma find_index_of_previous_available_region_returns_last_member_witness :
  let s := FreeSet._partitions (Scenario.after_calls true) in
  exists r,
    Partitions.find_index_of_previous_available_region true Mutator 15 s = Ret r s /\
    ((r = -1 /\
      forall j, j <= 15 -> 0 <= j < Partitions._max s -> ~ member s Mutator j)
     \/
     (0 <= r <= 15 /\ member s Mutator r /\
      forall j, r < j <= 15 -> j < Partitions._max s -> ~ member s Mutator j)).
Proof.
  intros s. destruct (after_calls_invariant true) as ((Hok & _ & Hall) & _).
  apply (find_index_of_previous_available_region_returns_last_member true Mutator 15 s).
  - exact Hok.
  - reflexivity.
  - apply Hall. reflexivity.
  - vm_compute. reflexivity.
Defined.


(** X10.  [membership(idx)] names the partition that holds region [idx].
    On a table whose two bitmaps are disjoint the call returns, in debug
    and product builds, leaves the table as it is, and answers [Mutator]
    exactly when [idx] is set in the Mutator bitmap, [Collector] exactly
    when it is set in the Collector bitmap, and [NotFree] exactly when it
    is set in neither; [partition_id_matches(idx, q)] is the comparison
    of that answer with [q], and [partition_membership_name(idx)] is its
    name.  When [idx] is set in both bitmaps, a debug build stops at
    "Region should reside in only one partition" and a product build
    answers [Collector]. *)
Theorem membership_names_the_partition_of_a_region idx s :
  table_ok s -> 0 <= idx < Partitions._max s ->
  (disjoint s ->
   forall dbg, exists p,
     Partitions.membership dbg idx s = Ret p s /\
     (p = Mutator <-> member s Mutator idx) /\
     (p = Collector <-> member s Collector idx) /\
     (p = NotFree <-> ~ member s Mutator idx /\ ~ member s Collector idx) /\
     (forall q, Partitions.lt_NumPartitions q = true ->
        Partitions.partition_id_matches dbg idx q s = Ret (Partitions.partition_eqb p q) s) /\
     Logging.partition_membership_name dbg idx s = Ret (Logging.partition_name p) s)
  /\
  (member s Mutator idx -> member s Collector idx ->
   Partitions.membership true idx s = Fatal "Region should reside in only one partition" /\
   Partitions.membership false idx s = Ret Collector s).
Proof.
  intros Hok Hidx. split.
  - intros Hdis dbg. pose proof (Hdis idx Hidx) as Hd. unfold member in *.
    exists (if SimpleBitMap.is_set (Partitions._membership s Collector) idx then Collector
            else if SimpleBitMap.is_set (Partitions._membership s Mutator) idx then Mutator
            else NotFree).
    split; [apply membership_eq; assumption |].
    split; [| split; [| split; [| split]]].
    + destruct (SimpleBitMap.is_set (Partitions._membership s Collector) idx),
               (SimpleBitMap.is_set (Partitions._membership s Mutator) idx);
        split; intros H; try discriminate; try reflexivity.
      exfalso. apply Hd. split; reflexivity.
    + destruct (SimpleBitMap.is_set (Partitions._membership s Collector) idx),
               (SimpleBitMap.is_set (Partitions._membership s Mutator) idx);
        split; intros H; try discriminate; reflexivity.
    + destruct (SimpleBitMap.is_set (Partitions._membership s Collector) idx),
               (SimpleBitMap.is_set (Partitions._membership s Mutator) idx);
        (split; [intros H; try discriminate H; split; discriminate | intros [H1 H2]]);
        try reflexivity; exfalso; (apply H1; reflexivity) || (apply H2; reflexivity).
    + intros q Hq. unfold Partitions.partition_id_matches. rewrite bind_get.
      destruct (Z.ltb_spec idx (Partitions._max s)); [| lia].
      rewrite (bind_eq _ _ _ _ _ (assert_true dbg _ s)).
      rewrite Hq. rewrite (bind_eq _ _ _ _ _ (assert_true dbg _ s)).
      rewrite (bind_eq _ _ _ _ _ (membership_eq dbg idx s Hok Hdis Hidx)). reflexivity.
    + unfold Logging.partition_membership_name. rewrite bind_get.
      destruct (Z.ltb_spec idx (Partitions._max s)); [| lia].
      rewrite (bind_eq _ _ _ _ _ (assert_true dbg _ s)).
      rewrite (bind_eq _ _ _ _ _ (bm_is_set_eq dbg Mutator idx s Hok eq_refl Hidx)).
      destruct (SimpleBitMap.is_set (Partitions._membership s Mutator) idx) eqn:EM.
      * cbn [Partitions.partition_eqb].
        rewrite bind_eq with (a := Mutator) (s' := s)
          by (rewrite (bind_eq _ _ _ _ _ (assert_true dbg _ s)); reflexivity).
        rewrite (bind_eq _ _ _ _ _ (bm_is_set_eq dbg Collector idx s Hok eq_refl Hidx)).
        destruct (SimpleBitMap.is_set (Partitions._membership s Collector) idx) eqn:EC.
        -- exfalso. apply Hd. split; reflexivity.
        -- reflexivity.
      * rewrite bind_ret.
        rewrite (bind_eq _ _ _ _ _ (bm_is_set_eq dbg Collector idx s Hok eq_refl Hidx)).
        destruct (SimpleBitMap.is_set (Partitions._membership s Collector) idx) eqn:EC.
        -- cbn [Partitions.partition_eqb].
           rewrite bind_eq with (a := Collector) (s' := s)
             by (rewrite (bind_eq _ _ _ _ _ (assert_true dbg _ s)); reflexivity).
           reflexivity.
        -- reflexivity.
  - unfold member. intros HM HC. split.
    + unfold Partitions.membership. rewrite bind_get.
      destruct (Z.ltb_spec idx (Partitions._max s)); [| lia].
      rewrite (bind_eq _ _ _ _ _ (assert_true true _ s)).
      rewrite (bind_eq _ _ _ _ _ (bm_is_set_eq true Mutator idx s Hok eq_refl Hidx)).
      rewrite HM. cbn [Partitions.partition_eqb].
      rewrite bind_eq with (a := Mutator) (s' := s)
        by (rewrite (bind_eq _ _ _ _ _ (assert_true true _ s)); reflexivity).
      rewrite (bind_eq _ _ _ _ _ (bm_is_set_eq true Collector idx s Hok eq_refl Hidx)).
      rewrite HC. reflexivity.
    + unfold Partitions.membership. rewrite bind_get.
      destruct (Z.ltb_spec idx (Partitions._max s)); [| lia].
      rewrite (bind_eq _ _ _ _ _ (assert_true false _ s)).
      rewrite (bind_eq _ _ _ _ _ (bm_is_set_eq false Mutator idx s Hok eq_refl Hidx)).
      rewrite HM. cbn [Partitions.partition_eqb].
      rewrite bind_eq with (a := Mutator) (s' := s)
        by (rewrite (bind_eq _ _ _ _ _ (assert_true false _ s)); reflexivity).
      rewrite (bind_eq _ _ _ _ _ (bm_is_set_eq false Collector idx s Hok eq_refl Hidx)).
      rewrite HC. reflexivity.
Qed.


Lemma membership_names_the_partition_of_a_region_witness :
  let s := FreeSet._partitions (Scenario.after_calls true) in
  (disjoint s ->
   forall dbg, exists p,
     Partitions.membership dbg 15 s = Ret p s /\
     (p = Mutator <-> member s Mutator 15) /\
     (p = Collector <-> member s Collector 15) /\
     (p = NotFree <-> ~ member s Mutator 15 /\ ~ member s Collector 15) /\
     (forall q, Partitions.lt_NumPartitions q = true ->
        Partitions.partition_id_matches dbg 15 q s = Ret (Partitions.partition_eqb p q) s) /\
     Logging.partition_membership_name dbg 15 s = Ret (Logging.partition_name p) s)
  /\
  (member s Mutator 15 -> member s Collector 15 ->
   Partitions.membership true 15 s = Fatal "Region should reside in only one partition" /\
   Partitions.membership false 15 s = Ret Collector s).
Proof.
  intros s.
  apply (membership_names_the_partition_of_a_region 15 s).
  - apply (after_calls_invariant true).
  - vm_compute. split; [discriminate | reflexivity].
Defined.

(** X11.  [retire_range_from_partition(p, low_idx, high_idx)], called on
    a range of regions that are all in partition [p] of a table in
    order, returns in debug and product builds and takes exactly the
    regions [low_idx..high_idx] out of [p]: the count of [p] goes down
    by the length of the range, its capacity and used total stay as they
    are, the other partition is untouched, and the table is again in
    order (bitmaps disjoint, the interval of [p] tight around the
    regions that remain, or empty). *)
Theorem retire_range_from_partition_removes_the_range dbg alloc_capacity p low_idx high_idx s :
  TableSpec.invariant s ->
  Partitions.lt_NumPartitions p = true ->
  0 <= low_idx <= high_idx -> high_idx < Partitions._max s ->
  (forall j, low_idx <= j <= high_idx -> member s p j) ->
  exists s',
    Partitions.retire_range_from_partition dbg alloc_capacity p low_idx high_idx s = Ret tt s' /\
    TableSpec.invariant s' /\ same_size s s' /\
    (forall j, 0 <= j < Partitions._max s ->
       (member s' p j <-> member s p j /\ ~ (low_idx <= j <= high_idx))) /\
    (forall q, q <> p -> kept q s s') /\
    Partitions.count s' p = Word.wrap (Partitions.count s p - (high_idx + 1 - low_idx)) /\
    Partitions.capacity_of s' p = Partitions.capacity_of s p /\
    Partitions.used_by s' p = Partitions.used_by s p.
Proof.
  intros (Hok & Hdis & Hall) Hp Hlo Hhi Hmem.
  destruct (Hall p Hp) as [Hint Hu].
  destruct (retire_range_from_partition_returns dbg alloc_capacity p Hp low_idx high_idx s
              Hok Hlo Hhi Hmem Hint)
    as ([] & s' & E & Hok' & (EN & Ers) & Hk & Hm' & Ec & Eu & Ecn & Hint').
  exists s'. split; [exact E |]. split.
  { split; [exact Hok' |]. split.
    - apply (disjoint_subset s s' EN); [| exact Hdis].
      intros q j Hj H. destruct (partition_eq_dec q p) as [->|Hne].
      + apply (Hm' j Hj), H.
      + unfold member in *. destruct (Hk q Hne) as (Eq & _). rewrite <- Eq. exact H.
    - intros q Hq. destruct (partition_eq_dec q p) as [->|Hne].
      + split; [exact Hint' |]. rewrite Eu. exact Hu.
      + destruct (Hall q Hq) as [Hi Huq].
        split; [eapply interval_ok_kept; [exact EN | apply Hk; exact Hne | exact Hi] |].
        destruct (Hk q Hne) as (_ & _ & _ & _ & _ & _ & Eq & _). rewrite Eq. exact Huq. }
  split; [split; assumption |]. split; [exact Hm' |]. split; [exact Hk |].
  unfold Partitions.count, Partitions.capacity_of, Partitions.used_by.
  split; [exact Ecn |]. split; assumption.
Qed.

Lemma retire_range_from_partition_removes_the_range_witness :
  let s := FreeSet._partitions (Scenario.after_calls true) in
  exists s',
    Partitions.retire_range_from_partition true (fun _ => 0) Mutator 5 7 s = Ret tt s' /\
    TableSpec.invariant s' /\ same_size s s' /\
    (forall j, 0 <= j < Partitions._max s ->
       (member s' Mutator j <-> member s Mutator j /\ ~ (5 <= j <= 7))) /\
    (forall q, q <> Mutator -> kept q s s') /\
    Partitions.count s' Mutator = Word.wrap (Partitions.count s Mutator - (7 + 1 - 5)) /\
    Partitions.capacity_of s' Mutator = Partitions.capacity_of s Mutator /\
    Partitions.used_by s' Mutator = Partitions.used_by s Mutator.
Proof.
  intros s.
  apply (retire_range_from_partition_removes_the_range true (fun _ => 0) Mutator 5 7 s).
  - apply (after_calls_invariant true).
  - reflexivity.
  - lia.
  - vm_compute. reflexivity.
  - intros j Hj. assert (H : j = 5 \/ j = 6 \/ j = 7) by lia.
    destruct H as [-> | [-> | ->]]; vm_compute; reflexivity.
Defined.


Section EmptyBoundResults.

Variable dbg : bool.
Variable alloc_capacity : Z -> Z.
Variable p : ShenandoahFreeSetPartitionId.
Hypothesis Hp : Partitions.lt_NumPartitions p = true.

Lemma leftmost_empty_loop_finds fuel lo idx s :
  table_ok s -> interval_ok s p ->
  (idx = Partitions._max s \/ (lo <= idx /\ 0 <= idx < Partitions._max s /\ member s p idx)) ->
  (forall j, lo <= j < idx -> 0 <= j < Partitions._max s -> member s p j ->
             alloc_capacity j <> Partitions._region_size_bytes s) ->
  (Z.to_nat (Partitions._max s - idx) < fuel)%nat ->
  returns (Partitions.leftmost_empty_loop dbg alloc_capacity fuel p idx) s
          (fun r s' => empties_only p s s' /\ EmptyBoundSpec.first_empty_from alloc_capacity p s s' lo r).
Proof.
  intros Hok Hint. pose proof (proj1 Hok) as HN. revert idx.
  induction fuel as [|fuel IH]; intros idx Hidx Hbelow Hfuel; [lia |].
  cbn [Partitions.leftmost_empty_loop].
  apply returns_bind, returns_get.
  destruct (Z.ltb_spec idx (Partitions._max s)) as [Hlt|Hge].
  - destruct Hidx as [Hidx|(Hlo & Hrange & Hm)]; [lia |].
    apply returns_bind, returns_assertM;
      [apply in_free_set_member; assumption |].
    destruct (Z.eqb_spec (alloc_capacity idx) (Partitions._region_size_bytes s)) as [He|Hne].
    + apply returns_bind, returns_modify, returns_ret.
      split; [apply set_leftmost_empty_empties_only |].
      right. split; [exact Hlo |]. split; [exact Hrange |]. split; [exact Hm |].
      split; [exact He |]. split.
      * intros j Hj1 Hj2. apply Hbelow; lia.
      * cbn. apply upd_same.
    + apply returns_bind.
      destruct (next_available_region_is_first_member dbg p (idx + 1) s Hok Hp Hint)
        as (r & Er & Hr).
      eapply returns_eq; [exact Er |].
      apply IH.
      * destruct Hr as [[-> _]|(Hr1 & Hr2 & Hmr & _)]; [left; reflexivity | right].
        split; [lia |]. split; assumption.
      * intros j Hj1 Hj2 Hmj.
        destruct (Z.lt_trichotomy j idx) as [Hji|[->|Hji]].
        -- apply Hbelow; [lia | assumption | assumption].
        -- exact Hne.
        -- exfalso. destruct Hr as [[-> Hno]|(_ & _ & _ & Hno)].
           ++ apply (Hno j); [lia | assumption | assumption].
           ++ apply (Hno j); [lia | lia | assumption].
      * destruct Hr as [[-> _]|(Hr1 & _)]; lia.
  - apply returns_bind, returns_modify, returns_bind, returns_modify, returns_ret.
    split.
    + eapply empties_only_trans; [apply set_leftmost_empty_empties_only |].
      apply set_rightmost_empty_empties_only. cbn. lia.
    + left. destruct Hidx as [->|Hidx]; [| lia].
      split; [reflexivity |]. intros j Hj1 Hj2. apply Hbelow; lia.
Qed.

Lemma leftmost_empty_finds s :
  table_ok s -> interval_ok s p ->
  returns (Partitions.leftmost_empty dbg alloc_capacity p) s
          (fun r s' => empties_only p s s' /\
                       EmptyBoundSpec.first_empty_from alloc_capacity p s s' (Partitions._leftmosts_empty s p) r).
Proof.
  intros Hok Hint. pose proof (proj1 Hok) as HN. unfold Partitions.leftmost_empty.
  apply returns_bind, returns_assert; [exact Hp |].
  apply returns_bind, returns_get.
  destruct (Z.eqb_spec (Partitions._leftmosts_empty s p) (Partitions._max s)) as [He|Hne].
  - apply returns_ret. split; [apply empties_only_refl |].
    left. split; [reflexivity |]. intros j Hj1 Hj2. lia.
  - apply returns_bind.
    destruct (next_available_region_is_first_member dbg p
                (Partitions._leftmosts_empty s p) s Hok Hp Hint) as (r & Er & Hr).
    eapply returns_eq; [exact Er |].
    apply leftmost_empty_loop_finds; try assumption.
    + destruct Hr as [[-> _]|(Hr1 & Hr2 & Hmr & _)]; [left; reflexivity | right].
      split; [lia |]. split; assumption.
    + intros j Hj1 Hj2 Hmj. exfalso.
      destruct Hr as [[-> Hno]|(_ & _ & _ & Hno)].
      * apply (Hno j); [lia | assumption | assumption].
      * apply (Hno j); [lia | lia | assumption].
    + destruct Hr as [[-> _]|(Hr1 & Hr2 & _)]; lia.
Qed.

Lemma rightmost_empty_loop_finds fuel hi idx s :
  table_ok s -> interval_ok s p ->
  hi < Partitions._max s ->
  (idx = -1 \/ (0 <= idx <= hi /\ member s p idx)) ->
  (forall j, idx < j <= hi -> 0 <= j < Partitions._max s -> member s p j ->
             alloc_capacity j <> Partitions._region_size_bytes s) ->
  (Z.to_nat (idx + 1) < fuel)%nat ->
  returns (Partitions.rightmost_empty_loop dbg alloc_capacity fuel p idx) s
          (fun r s' => empties_only p s s' /\ EmptyBoundSpec.last_empty_upto alloc_capacity p s s' hi r).
Proof.
  intros Hok Hint Hhi. pose proof (proj1 Hok) as HN. revert idx.
  induction fuel as [|fuel IH]; intros idx Hidx Habove Hfuel; [lia |].
  cbn [Partitions.rightmost_empty_loop].
  apply returns_bind, returns_get.
  destruct (Z.geb_spec idx 0) as [Hge|Hlt].
  - destruct Hidx as [Hidx|(Hrange & Hm)]; [lia |].
    apply returns_bind, returns_assertM;
      [apply in_free_set_member; try assumption; lia |].
    destruct (Z.eqb_spec (alloc_capacity idx) (Partitions._region_size_bytes s)) as [He|Hne].
    + apply returns_bind, returns_modify, returns_ret.
      split; [apply set_rightmost_empty_empties_only; lia |].
      right. split; [exact Hrange |]. split; [lia |]. split; [exact Hm |].
      split; [exact He |]. split.
      * intros j Hj1 Hj2. apply Habove; lia.
      * cbn. apply upd_same.
    + apply returns_bind.
      destruct (previous_available_region_is_last_member dbg p (idx - 1) s Hok Hp Hint)
        as (r & Er & Hr); [lia |].
      eapply returns_eq; [exact Er |].
      apply IH.
      * destruct Hr as [[-> _]|(Hr1 & Hmr & _)]; [left; reflexivity | right].
        split; [lia | assumption].
      * intros j Hj1 Hj2 Hmj.
        destruct (Z.lt_trichotomy j idx) as [Hji|[->|Hji]].
        -- exfalso. destruct Hr as [[-> Hno]|(_ & _ & Hno)].
           ++ apply (Hno j); [lia | assumption | assumption].
           ++ apply (Hno j); [lia | lia | assumption].
        -- exact Hne.
        -- apply Habove; [lia | assumption | assumption].
      * destruct Hr as [[-> _]|(Hr1 & _)]; lia.
  - apply returns_bind, returns_modify, returns_bind, returns_modify, returns_ret.
    split.
    + eapply empties_only_trans; [apply set_leftmost_empty_empties_only |].
      apply set_rightmost_empty_empties_only. cbn. lia.
    + left. destruct Hidx as [->|Hidx]; [| lia].
      split; [reflexivity |]. intros j Hj1 Hj2. apply Habove; lia.
Qed.

Lemma rightmost_empty_finds s :
  table_ok s -> interval_ok s p ->
  returns (Partitions.rightmost_empty dbg alloc_capacity p) s
          (fun r s' => empties_only p s s' /\
                       EmptyBoundSpec.last_empty_upto alloc_capacity p s s' (Partitions._rightmosts_empty s p) r).
Proof.
  intros Hok Hint. pose proof (proj1 Hok) as HN.
  assert (HRE : Partitions._rightmosts_empty s p < Partitions._max s) by apply Hint.
  unfold Partitions.rightmost_empty.
  apply returns_bind, returns_assert; [exact Hp |].
  apply returns_bind, returns_get.
  destruct (Z.ltb_spec (Partitions._rightmosts_empty s p) 0) as [Hneg|Hnn].
  - apply returns_ret. split; [apply empties_only_refl |].
    left. split; [reflexivity |]. intros j Hj1 Hj2. lia.
  - apply returns_bind.
    destruct (previous_available_region_is_last_member dbg p
                (Partitions._rightmosts_empty s p) s Hok Hp Hint HRE) as (r & Er & Hr).
    eapply returns_eq; [exact Er |].
    apply rightmost_empty_loop_finds; try assumption.
    + destruct Hr as [[-> _]|(Hr1 & Hmr & _)]; [left; reflexivity | right].
      split; [lia | assumption].
    + intros j Hj1 Hj2 Hmj. exfalso.
      destruct Hr as [[-> Hno]|(_ & _ & Hno)].
      * apply (Hno j); [lia | assumption | assumption].
      * apply (Hno j); [lia | lia | assumption].
    + destruct Hr as [[-> _]|(Hr1 & _)]; lia.
Qed.

End EmptyBoundResults.


(** X13.  [leftmost_empty(p)] searches upwards from the cached bound
    [_leftmosts_empty[p]].  On a table whose interval for [p] is in
    order the call returns, in debug and product builds, and changes at
    most the two empty bounds of [p].  Its result is the first region at
    or above the cached bound that is in [p] and fully empty
    ([alloc_capacity] equal to the region size), and that region becomes
    the new cached bound; the result is [_max] when [p] holds no fully
    empty region at or above the cached bound.  A fully empty region
    below the cached bound is never looked at. *)
Theorem leftmost_empty_returns_first_empty_region_from_cached_bound dbg alloc_capacity p s :
  table_ok s -> Partitions.lt_NumPartitions p = true -> interval_ok s p ->
  exists r s',
    Partitions.leftmost_empty dbg alloc_capacity p s = Ret r s' /\
    empties_only p s s' /\
    ((r = Partitions._max s /\
      forall j, Partitions._leftmosts_empty s p <= j -> 0 <= j < Partitions._max s ->
                member s p j -> alloc_capacity j <> Partitions._region_size_bytes s)
     \/
     (Partitions._leftmosts_empty s p <= r /\ 0 <= r < Partitions._max s /\
      member s p r /\ alloc_capacity r = Partitions._region_size_bytes s /\
      (forall j, Partitions._leftmosts_empty s p <= j < r -> 0 <= j ->
                 member s p j -> alloc_capacity j <> Partitions._region_size_bytes s) /\
      Partitions._leftmosts_empty s' p = r)).
Proof.
  intros Hok Hp Hint.
  destruct (leftmost_empty_finds dbg alloc_capacity p Hp s Hok Hint)
    as (r & s' & E & Hfr & Hres).
  exists r, s'. split; [exact E |]. split; [exact Hfr | exact Hres].
Qed.

Lemma leftmost_empty_returns_first_empty_region_from_cached_bound_witness :
  let fs := Scenario.with_fragmented_ends true in
  let s := FreeSet._partitions fs in
  let alloc_capacity := FreeSet.alloc_capacity Scenario.cfg fs in
  exists r s',
    Partitions.leftmost_empty true alloc_capacity Mutator s = Ret r s' /\
    empties_only Mutator s s' /\
    ((r = Partitions._max s /\
      forall j, Partitions._leftmosts_empty s Mutator <= j -> 0 <= j < Partitions._max s ->
                member s Mutator j -> alloc_capacity j <> Partitions._region_size_bytes s)
     \/
     (Partitions._leftmosts_empty s Mutator <= r /\ 0 <= r < Partitions._max s /\
      member s Mutator r /\ alloc_capacity r = Partitions._region_size_bytes s /\
      (forall j, Partitions._leftmosts_empty s Mutator <= j < r -> 0 <= j ->
                 member s Mutator j -> alloc_capacity j <> Partitions._region_size_bytes s) /\
      Partitions._leftmosts_empty s' Mutator = r)).
Proof.
  intros fs s alloc_capacity.
  destruct with_fragmented_ends_invariant as ((Hok & _ & Hall) & _).
  apply (leftmost_empty_returns_first_empty_region_from_cached_bound
           true alloc_capacity Mutator s).
  - exact Hok.
  - reflexivity.
  - apply Hall. reflexivity.
Defined.

(** X14.  [rightmost_empty(p)] searches downwards from the cached bound
    [_rightmosts_empty[p]].  On a table whose interval for [p] is in
    order the call returns, in debug and product builds, and changes at
    most the two empty bounds of [p].  Its result is the last region at
    or below the cached bound that is in [p] and fully empty, and that
    region becomes the new cached bound; the result is -1 when [p] holds
    no fully empty region at or below the cached bound. *)
Theorem rightmost_empty_returns_last_empty_region_upto_cached_bound dbg alloc_capacity p s :
  table_ok s -> Partitions.lt_NumPartitions p = true -> interval_ok s p ->
  exists r s',
    Partitions.rightmost_empty dbg alloc_capacity p s = Ret r s' /\
    empties_only p s s' /\
    ((r = -1 /\
      forall j, j <= Partitions._rightmosts_empty s p -> 0 <= j < Partitions._max s ->
                member s p j -> alloc_capacity j <> Partitions._region_size_bytes s)
     \/
     (0 <= r <= Partitions._rightmosts_empty s p /\ r < Partitions._max s /\
      member s p r /\ alloc_capacity r = Partitions._region_size_bytes s /\
      (forall j, r < j <= Partitions._rightmosts_empty s p -> j < Partitions._max s ->
                 member s p j -> alloc_capacity j <> Partitions._region_size_bytes s) /\
      Partitions._rightmosts_empty s' p = r)).
Proof.
  intros Hok Hp Hint.
  destruct (rightmost_empty_finds dbg alloc_capacity p Hp s Hok Hint)
    as (r & s' & E & Hfr & Hres).
  exists r, s'. split; [exact E |]. split; [exact Hfr | exact Hres].
Qed.

Lemma rightmost_empty_returns_last_empty_region_upto_cached_bound_witness :
  let fs := Scenario.with_fragmented_ends true in
  let s := FreeSet._partitions fs in
  let alloc_capacity := FreeSet.alloc_capacity Scenario.cfg fs in
  exists r s',
    Partitions.rightmost_empty true alloc_capacity Mutator s = Ret r s' /\
    empties_only Mutator s s' /\
    ((r = -1 /\
      forall j, j <= Partitions._rightmosts_empty s Mutator -> 0 <= j < Partitions._max s ->
                member s Mutator j -> alloc_capacity j <> Partitions._region_size_bytes s)
     \/
     (0 <= r <= Partitions._rightmosts_empty s Mutator /\ r < Partitions._max s /\
      member s Mutator r /\ alloc_capacity r = Partitions._region_size_bytes s /\
      (forall j, r < j <= Partitions._rightmosts_empty s Mutator -> j < Partitions._max s ->
                 member s Mutator j -> alloc_capacity j <> Partitions._region_size_bytes s) /\
      Partitions._rightmosts_empty s' Mutator = r)).
Proof.
  intros fs s alloc_capacity.
  destruct with_fragmented_ends_invariant as ((Hok & _ & Hall) & _).
  apply (rightmost_empty_returns_last_empty_region_upto_cached_bound
           true alloc_capacity Mutator s).
  - exact Hok.
  - reflexivity.
  - apply Hall. reflexivity.
Defined.


(* ================================================================= *)
(** * What an allocation leaves alone *)


#[export] Instance kept_preorder q : PreOrder (kept q).
Proof.
  split; [exact (kept_refl q) | exact (kept_trans q)].
Qed.

Lemma members_kept_refl q s : members_kept q s s.
Proof. unfold members_kept. repeat split; reflexivity. Qed.

Lemma members_kept_trans q s1 s2 s3 :
  members_kept q s1 s2 -> members_kept q s2 s3 -> members_kept q s1 s3.
Proof.
  unfold members_kept. intros (A1 & A2 & A3 & A4 & A5 & A6) (B1 & B2 & B3 & B4 & B5 & B6).
  repeat split; congruence.
Qed.

#[export] Instance members_kept_preorder q : PreOrder (members_kept q).
Proof.
  split; [exact (members_kept_refl q) | exact (members_kept_trans q)].
Qed.

Lemma kept_members_kept q s s' : kept q s s' -> members_kept q s s'.
Proof.
  unfold kept, members_kept. intros (A1 & A2 & A3 & A4 & A5 & A6 & A7 & A8).
  repeat split; assumption.
Qed.

Lemma frames_weaken {S A} (R R' : S -> S -> Prop) (m : Run.M S A) :
  (forall s s', R s s' -> R' s s') -> frames R m -> frames R' m.
Proof. intros H Hm s a s' E. apply H. exact (Hm s a s' E). Qed.

(** A bind whose continuation is framed for the results the first part
    can hand back. *)
Lemma frames_bind_results {S A B} (R : S -> S -> Prop) `{!PreOrder R} (P : A -> Prop)
      (m : Run.M S A) (k : A -> Run.M S B) :
  frames R m -> (forall s, post m s (fun a _ => P a)) ->
  (forall a, P a -> frames R (k a)) -> frames R (Run.bind m k).
Proof.
  intros Hm HP Hk s b s' E. apply bind_inv in E. destruct E as (a & s1 & E1 & E2).
  transitivity s1; [exact (Hm s a s1 E1) |].
  exact (Hk a (HP s a s1 E1) s1 b s' E2).
Qed.

(** *** Code that works on partition [p] leaves every other partition alone *)

Section OtherPartition.

Variable dbg : bool.
Variable alloc_capacity : Z -> Z.
Variables p q : ShenandoahFreeSetPartitionId.
Hypothesis Hne : q <> p.

Ltac kept_modify :=
  apply frames_modify; intros s; unfold kept; cbn;
  repeat split; try reflexivity; apply upd_other; exact Hne.

Lemma set_leftmost_kept v : frames (kept q) (Partitions.set_leftmost p v).
Proof. kept_modify. Qed.
Lemma set_rightmost_kept v : frames (kept q) (Partitions.set_rightmost p v).
Proof. kept_modify. Qed.
Lemma set_leftmost_empty_kept v : frames (kept q) (Partitions.set_leftmost_empty p v).
Proof. kept_modify. Qed.
Lemma set_rightmost_empty_kept v : frames (kept q) (Partitions.set_rightmost_empty p v).
Proof. kept_modify. Qed.
Lemma set_capacity_kept v : frames (kept q) (Partitions.set_capacity p v).
Proof. kept_modify. Qed.
Lemma set_used_kept v : frames (kept q) (Partitions.set_used p v).
Proof. kept_modify. Qed.
Lemma set_region_count_kept v : frames (kept q) (Partitions.set_region_count p v).
Proof. kept_modify. Qed.
Lemma set_bitmap_kept v : frames (kept q) (Partitions.set_bitmap p v).
Proof. kept_modify. Qed.

Hint Resolve set_leftmost_kept set_rightmost_kept set_leftmost_empty_kept
  set_rightmost_empty_kept set_capacity_kept set_used_kept set_region_count_kept
  set_bitmap_kept : frames.

Lemma hints_only_frames_kept {A} (m : Run.M Partitions.t A) :
  frames (hints_only p) m -> frames (kept q) m.
Proof. apply frames_weaken. intros s s' H. exact (hints_only_kept p s s' q H Hne). Qed.

Lemma leftmost_empty_kept :
  frames (kept q) (Partitions.leftmost_empty dbg alloc_capacity p).
Proof. apply hints_only_frames_kept, leftmost_empty_frames. Qed.

Lemma rightmost_empty_kept :
  frames (kept q) (Partitions.rightmost_empty dbg alloc_capacity p).
Proof. apply hints_only_frames_kept, rightmost_empty_frames. Qed.

Lemma shrink_interval_if_boundary_modified_kept idx :
  frames (kept q) (Partitions.shrink_interval_if_boundary_modified dbg alloc_capacity p idx).
Proof. apply hints_only_frames_kept, shrink_interval_if_boundary_modified_frames. Qed.

Lemma shrink_interval_if_range_modifies_either_boundary_kept lo hi :
  frames (kept q)
         (Partitions.shrink_interval_if_range_modifies_either_boundary
            dbg alloc_capacity p lo hi).
Proof.
  apply hints_only_frames_kept, shrink_interval_if_range_modifies_either_boundary_frames.
Qed.

Lemma bm_clear_bit_kept idx : frames (kept q) (Partitions.bm_clear_bit dbg p idx).
Proof. unfold Partitions.bm_clear_bit. frames_auto. Qed.

Lemma increase_used_kept bytes : frames (kept q) (Partitions.increase_used dbg p bytes).
Proof. unfold Partitions.increase_used. frames_auto. Qed.

Hint Resolve leftmost_empty_kept rightmost_empty_kept
  shrink_interval_if_boundary_modified_kept
  shrink_interval_if_range_modifies_either_boundary_kept
  bm_clear_bit_kept increase_used_kept : frames.

Lemma retire_from_partition_kept idx used_bytes :
  frames (kept q) (Partitions.retire_from_partition dbg alloc_capacity p idx used_bytes).
Proof.
  unfold Partitions.retire_from_partition, Partitions.when, Partitions.in_free_set.
  frames_auto.
Qed.

Lemma retire_range_from_partition_kept lo hi :
  frames (kept q) (Partitions.retire_range_from_partition dbg alloc_capacity p lo hi).
Proof.
  unfold Partitions.retire_range_from_partition, Partitions.in_free_set.
  frames_auto.
Qed.

End OtherPartition.

#[export] Hint Resolve retire_from_partition_kept retire_range_from_partition_kept
  increase_used_kept leftmost_empty_kept rightmost_empty_kept : frames.


(** *** The cached empty bounds are no part of what a partition holds *)

Section EmptyBoundsOnly.

Variable dbg : bool.
Variable alloc_capacity : Z -> Z.
Variables p q : ShenandoahFreeSetPartitionId.

Lemma set_leftmost_empty_members_kept v :
  frames (members_kept q) (Partitions.set_leftmost_empty p v).
Proof. apply frames_modify. intros s. unfold members_kept. cbn. repeat split. Qed.

Lemma set_rightmost_empty_members_kept v :
  frames (members_kept q) (Partitions.set_rightmost_empty p v).
Proof. apply frames_modify. intros s. unfold members_kept. cbn. repeat split. Qed.

Hint Resolve set_leftmost_empty_members_kept set_rightmost_empty_members_kept : frames.

Lemma leftmost_empty_loop_members_kept fuel idx :
  frames (members_kept q) (Partitions.leftmost_empty_loop dbg alloc_capacity fuel p idx).
Proof.
  revert idx. induction fuel as [|fuel IH]; intros idx; cbn [Partitions.leftmost_empty_loop];
    unfold Partitions.in_free_set; frames_auto.
Qed.

Lemma rightmost_empty_loop_members_kept fuel idx :
  frames (members_kept q) (Partitions.rightmost_empty_loop dbg alloc_capacity fuel p idx).
Proof.
  revert idx. induction fuel as [|fuel IH]; intros idx; cbn [Partitions.rightmost_empty_loop];
    unfold Partitions.in_free_set; frames_auto.
Qed.

Hint Resolve leftmost_empty_loop_members_kept rightmost_empty_loop_members_kept : frames.

Lemma leftmost_empty_members_kept :
  frames (members_kept q) (Partitions.leftmost_empty dbg alloc_capacity p).
Proof. unfold Partitions.leftmost_empty. frames_auto. Qed.

Lemma rightmost_empty_members_kept :
  frames (members_kept q) (Partitions.rightmost_empty dbg alloc_capacity p).
Proof. unfold Partitions.rightmost_empty. frames_auto. Qed.

End EmptyBoundsOnly.

Section BoundsCheckQueries.

Variable dbg : bool.
Variable alloc_capacity : Z -> Z.

Lemma partition_id_matches_pure idx p :
  frames eq (Partitions.partition_id_matches dbg idx p).
Proof. unfold Partitions.partition_id_matches. frames_auto. Qed.

Lemma assert_bounds_visit_pure i b :
  frames eq (Partitions.assert_bounds_visit dbg alloc_capacity i b).
Proof. unfold Partitions.assert_bounds_visit. frames_auto. Qed.

End BoundsCheckQueries.

#[export] Hint Resolve partition_id_matches_pure assert_bounds_visit_pure : frames.

(** [assert_bounds] changes at most the cached empty bounds of the
    Mutator partition (through [leftmost_empty] and [rightmost_empty]). *)
Lemma assert_bounds_collector_kept dbg alloc_capacity :
  frames (kept Collector) (Partitions.assert_bounds dbg alloc_capacity).
Proof.
  pose proof (fun d => leftmost_empty_kept d alloc_capacity Mutator Collector
                         ltac:(discriminate)).
  pose proof (fun d => rightmost_empty_kept d alloc_capacity Mutator Collector
                         ltac:(discriminate)).
  unfold Partitions.assert_bounds, Partitions.assert_bounds_partition.
  frames_auto.
Qed.

Lemma assert_bounds_members_kept dbg alloc_capacity q :
  frames (members_kept q) (Partitions.assert_bounds dbg alloc_capacity).
Proof.
  pose proof (fun d => leftmost_empty_members_kept d alloc_capacity Mutator q).
  pose proof (fun d => rightmost_empty_members_kept d alloc_capacity Mutator q).
  unfold Partitions.assert_bounds, Partitions.assert_bounds_partition.
  frames_auto.
Qed.


(** *** From the table to the free set *)

Lemma post_bind_any {S A B} (m : Run.M S A) (k : A -> Run.M S B) s (Q : B -> S -> Prop) :
  (forall a s1, post (k a) s1 Q) -> post (Run.bind m k) s Q.
Proof. intros H. apply post_bind. intros a s1 _. apply H. Qed.

Lemma post_bind_results {S A B} (P : A -> Prop) (m : Run.M S A) (k : A -> Run.M S B) s
      (Q : B -> S -> Prop) :
  (forall s0, post m s0 (fun a _ => P a)) ->
  (forall a s1, P a -> post (k a) s1 Q) -> post (Run.bind m k) s Q.
Proof. intros Hm Hk. apply post_bind. intros a s1 E. apply Hk. exact (Hm s a s1 E). Qed.

(** Steps through code whose result is all that matters. *)
Ltac results_step :=
  lazymatch goal with
  | |- post (Run.bind _ _) _ _ => apply post_bind_any; intros
  | |- post (Run.ret _) _ _ => apply post_ret
  | |- post (Run.fatal _) _ _ => apply post_fatal
  | |- post (fun _ => OutOfFuel) _ _ => intros ? ? ?; discriminate
  | |- post (if ?b then _ else _) _ _ => destruct b
  | |- post (match ?x with _ => _ end) _ _ => destruct x
  end.

Section TableToFreeSet.

Variable cfg : Config.
Variable R : Partitions.t -> Partitions.t -> Prop.
Context `{!PreOrder R}.

#[export] Instance on_tables_preorder : PreOrder (on_tables R).
Proof.
  split.
  - intros fs. unfold on_tables. reflexivity.
  - intros fs1 fs2 fs3 H1 H2. unfold on_tables in *. etransitivity; eassumption.
Qed.

Lemma partitions_on_tables {A} (m : (Z -> Z) -> Run.M Partitions.t A) :
  (forall ac, frames R (m ac)) -> frames (on_tables R) (FreeSet.partitions cfg m).
Proof.
  intros Hm fs a fs' E. unfold FreeSet.partitions, Run.zoom in E.
  destruct (m (FreeSet.alloc_capacity cfg fs) (FreeSet._partitions fs)) as [a1 P1| |] eqn:Em;
    inversion E; subst.
  unfold on_tables. cbn [FreeSet._partitions FreeSet.with_partitions].
  exact (Hm _ _ _ _ Em).
Qed.

Lemma modify_on_tables (f : FreeSet.t -> FreeSet.t) :
  (forall fs, FreeSet._partitions (f fs) = FreeSet._partitions fs) ->
  frames (on_tables R) (Run.modify f).
Proof.
  intros H. apply frames_modify. intros fs. unfold on_tables. rewrite H. reflexivity.
Qed.

End TableToFreeSet.


(** *** The request keeps its type *)

Section RequestType.

Variable dbg : bool.
Variable cfg : Config.

Lemma try_allocate_in_keeps_type idx req inr fs :
  post (FreeSet.try_allocate_in dbg cfg idx req inr) fs
       (fun a _ => AllocRequest.type (FreeSet.req_out a) = AllocRequest.type req).
Proof.
  unfold FreeSet.try_allocate_in.
  do 3 results_step. results_step; [results_step; reflexivity |].
  do 2 results_step.
  apply post_bind_results with (P := fun a => AllocRequest.type (snd a) = AllocRequest.type req).
  - intros s_any. repeat results_step; reflexivity.
  - intros [result req0] s_any Ht. cbn [snd] in Ht. cbv beta iota.
    repeat results_step; exact Ht.
Qed.

End RequestType.


Lemma is_mutator_alloc_type req req' :
  AllocRequest.type req' = AllocRequest.type req ->
  AllocRequest.is_mutator_alloc req' = AllocRequest.is_mutator_alloc req.
Proof. unfold AllocRequest.is_mutator_alloc. intros ->. reflexivity. Qed.

(** The first part of a bind is framed; go on with the rest. *)
Ltac frames_next := apply frames_bind; [exact _ | solve [frames_auto] | intro].

(** *** A mutator allocation leaves the Collector's view alone *)

#[export] Instance collector_view_kept_preorder : PreOrder collector_view_kept.
Proof. unfold collector_view_kept. exact _. Qed.

Section MutatorAllocation.

Variable dbg : bool.
Variable cfg : Config.
Variable shl_oob : Z -> Z.

Lemma heap_update_keeps_collector idx f : frames collector_view_kept (FreeSet.update_region idx f).
Proof. apply modify_on_tables; try exact _; reflexivity. Qed.

Lemma get_region_keeps_collector idx : frames collector_view_kept (FreeSet.get_region idx).
Proof. unfold FreeSet.get_region. frames_auto. Qed.

Lemma try_recycle_trashed_keeps_collector idx : frames collector_view_kept (FreeSet.try_recycle_trashed idx).
Proof.
  pose proof heap_update_keeps_collector. pose proof get_region_keeps_collector.
  unfold FreeSet.try_recycle_trashed, FreeSet.when. frames_auto.
  apply modify_on_tables; try exact _; reflexivity.
Qed.

Lemma table_query_keeps_collector {A} (m : (Z -> Z) -> Run.M Partitions.t A) :
  (forall ac, frames eq (m ac)) -> frames collector_view_kept (FreeSet.partitions cfg m).
Proof.
  intros H. apply partitions_on_tables; try exact _. intros ac.
  apply frames_pure; [exact _ | apply H].
Qed.

Lemma p_assert_bounds_keeps_collector : frames collector_view_kept (FreeSet.p_assert_bounds dbg cfg).
Proof.
  apply partitions_on_tables; try exact _. intros ac. apply assert_bounds_collector_kept.
Qed.

Lemma p_increase_used_mutator_keeps_collector bytes :
  frames collector_view_kept (FreeSet.p_increase_used dbg cfg Mutator bytes).
Proof.
  apply partitions_on_tables; try exact _. intros ac.
  apply increase_used_kept. discriminate.
Qed.

Lemma p_retire_mutator_keeps_collector idx used :
  frames collector_view_kept (FreeSet.p_retire dbg cfg Mutator idx used).
Proof.
  apply partitions_on_tables; try exact _. intros ac.
  apply retire_from_partition_kept. discriminate.
Qed.

Lemma p_retire_range_mutator_keeps_collector lo hi :
  frames collector_view_kept (FreeSet.p_retire_range dbg cfg Mutator lo hi).
Proof.
  apply partitions_on_tables; try exact _. intros ac.
  apply retire_range_from_partition_kept. discriminate.
Qed.

Lemma p_leftmost_empty_mutator_keeps_collector :
  frames collector_view_kept (FreeSet.p_leftmost_empty dbg cfg Mutator).
Proof.
  apply partitions_on_tables; try exact _. intros ac.
  apply leftmost_empty_kept. discriminate.
Qed.

Lemma p_rightmost_empty_mutator_keeps_collector :
  frames collector_view_kept (FreeSet.p_rightmost_empty dbg cfg Mutator).
Proof.
  apply partitions_on_tables; try exact _. intros ac.
  apply rightmost_empty_kept. discriminate.
Qed.

Lemma p_leftmost_keeps_collector p : frames collector_view_kept (FreeSet.p_leftmost dbg cfg p).
Proof. apply table_query_keeps_collector. intros _. apply leftmost_pure. Qed.

Lemma p_rightmost_keeps_collector p : frames collector_view_kept (FreeSet.p_rightmost dbg cfg p).
Proof. apply table_query_keeps_collector. intros _. apply rightmost_pure. Qed.

Lemma p_is_empty_keeps_collector p : frames collector_view_kept (FreeSet.p_is_empty dbg cfg p).
Proof. apply table_query_keeps_collector. intros _. apply is_empty_pure. Qed.

Lemma p_in_free_set_keeps_collector p idx : frames collector_view_kept (FreeSet.p_in_free_set dbg cfg p idx).
Proof.
  apply table_query_keeps_collector. intros _. unfold Partitions.in_free_set.
  apply bm_is_set_pure.
Qed.

Lemma p_find_next_keeps_collector p idx : frames collector_view_kept (FreeSet.p_find_next dbg cfg p idx).
Proof.
  apply table_query_keeps_collector. intros _.
  apply find_index_of_next_available_region_pure.
Qed.

Lemma p_find_prev_keeps_collector p idx : frames collector_view_kept (FreeSet.p_find_prev dbg cfg p idx).
Proof.
  apply table_query_keeps_collector. intros _.
  apply find_index_of_previous_available_region_pure.
Qed.

Lemma p_find_next_cluster_keeps_collector p idx n :
  frames collector_view_kept (FreeSet.p_find_next_cluster dbg cfg shl_oob p idx n).
Proof.
  apply table_query_keeps_collector. intros _.
  unfold Partitions.find_index_of_next_available_cluster_of_regions,
    Partitions.bm_find_next_consecutive_bits.
  frames_auto.
Qed.

Hint Resolve heap_update_keeps_collector get_region_keeps_collector
  try_recycle_trashed_keeps_collector p_assert_bounds_keeps_collector
  p_increase_used_mutator_keeps_collector p_retire_mutator_keeps_collector
  p_retire_range_mutator_keeps_collector p_leftmost_empty_mutator_keeps_collector
  p_rightmost_empty_mutator_keeps_collector p_leftmost_keeps_collector
  p_rightmost_keeps_collector p_is_empty_keeps_collector p_in_free_set_keeps_collector
  p_find_next_keeps_collector p_find_prev_keeps_collector
  p_find_next_cluster_keeps_collector : frames.

Lemma try_allocate_in_keeps_collector idx req inr :
  AllocRequest.is_mutator_alloc req = true ->
  frames collector_view_kept (FreeSet.try_allocate_in dbg cfg idx req inr).
Proof.
  intros Hreq. unfold FreeSet.try_allocate_in.
  do 3 frames_next. frames_step; [frames_auto |]. do 2 frames_next.
  apply frames_bind_results
    with (P := fun a => AllocRequest.is_mutator_alloc (snd a) = true); [exact _ | | |].
  - frames_auto.
  - intros s_any. repeat results_step; exact Hreq.
  - intros [result req0] Hm. cbn [snd] in Hm. cbv beta iota. rewrite Hm.
    unfold FreeSet.when. frames_auto.
Qed.

Lemma try_allocate_in_stays_mutator idx req inr :
  AllocRequest.is_mutator_alloc req = true ->
  forall fs, post (FreeSet.try_allocate_in dbg cfg idx req inr) fs
                  (fun a _ => AllocRequest.is_mutator_alloc (FreeSet.req_out a) = true).
Proof.
  intros Hreq fs. eapply post_conseq; [apply try_allocate_in_keeps_type |].
  cbv beta. intros a _ Ht. rewrite (is_mutator_alloc_type req _ Ht). exact Hreq.
Qed.

Lemma mutator_scan_right_to_left_keeps_collector fuel leftmost idx req inr :
  AllocRequest.is_mutator_alloc req = true ->
  frames collector_view_kept
         (FreeSet.mutator_scan_right_to_left dbg cfg fuel leftmost idx req inr).
Proof.
  revert idx req inr. induction fuel as [|fuel IH]; intros idx req inr Hreq;
    cbn [FreeSet.mutator_scan_right_to_left]; [frames_auto |].
  frames_step; [| frames_auto]. do 2 frames_next.
  apply frames_bind_results
    with (P := fun a => AllocRequest.is_mutator_alloc (FreeSet.req_out a) = true);
    [exact _ | | |].
  - frames_step; [apply try_allocate_in_keeps_collector; exact Hreq | frames_auto].
  - intros s_any. results_step; [apply try_allocate_in_stays_mutator; exact Hreq |].
    apply post_ret. exact Hreq.
  - intros res Hres. frames_step; [frames_auto |]. frames_next. apply IH. exact Hres.
Qed.

Lemma mutator_scan_left_to_right_keeps_collector fuel rightmost idx req inr :
  AllocRequest.is_mutator_alloc req = true ->
  frames collector_view_kept
         (FreeSet.mutator_scan_left_to_right dbg cfg fuel rightmost idx req inr).
Proof.
  revert idx req inr. induction fuel as [|fuel IH]; intros idx req inr Hreq;
    cbn [FreeSet.mutator_scan_left_to_right]; [frames_auto |].
  frames_step; [| frames_auto]. do 2 frames_next.
  apply frames_bind_results
    with (P := fun a => AllocRequest.is_mutator_alloc (FreeSet.req_out a) = true);
    [exact _ | | |].
  - frames_step; [apply try_allocate_in_keeps_collector; exact Hreq | frames_auto].
  - intros s_any. results_step; [apply try_allocate_in_stays_mutator; exact Hreq |].
    apply post_ret. exact Hreq.
  - intros res Hres. frames_step; [frames_auto |]. frames_next. apply IH. exact Hres.
Qed.

Lemma allocate_in_mutator_view_keeps_collector req inr :
  AllocRequest.is_mutator_alloc req = true ->
  frames collector_view_kept (FreeSet.allocate_in_mutator_view dbg cfg req inr).
Proof.
  intros Hreq.
  pose proof (fun f l i => mutator_scan_right_to_left_keeps_collector f l i req inr Hreq).
  pose proof (fun f l i => mutator_scan_left_to_right_keeps_collector f l i req inr Hreq).
  unfold FreeSet.allocate_in_mutator_view. frames_auto.
Qed.

Lemma bias_update_keeps_collector (f : FreeSet.t -> FreeSet.t) :
  (forall fs, FreeSet._partitions (f fs) = FreeSet._partitions fs) ->
  frames collector_view_kept (Run.modify f).
Proof. intros H. apply modify_on_tables; try exact _. exact H. Qed.

Lemma allocate_single_keeps_collector req inr :
  AllocRequest.is_mutator_alloc req = true ->
  frames collector_view_kept (FreeSet.allocate_single dbg cfg req inr).
Proof.
  intros Hreq. pose proof (allocate_in_mutator_view_keeps_collector req inr Hreq).
  unfold FreeSet.allocate_single.
  unfold AllocRequest.is_mutator_alloc in Hreq.
  destruct (AllocRequest.type req); try discriminate;
    unfold FreeSet.when; frames_auto;
    apply bias_update_keeps_collector; reflexivity.
Qed.

Lemma slide_loop_keeps_collector fuel num beg span_end slide_delta :
  frames collector_view_kept
         (FreeSet.slide_loop dbg cfg shl_oob fuel num beg span_end slide_delta).
Proof.
  revert beg span_end slide_delta. induction fuel as [|fuel IH]; intros beg span_end slide_delta;
    cbn [FreeSet.slide_loop]; frames_auto.
Qed.

Hint Resolve slide_loop_keeps_collector : frames.

Lemma window_loop_keeps_collector fuel num last_possible_start beg end_ :
  frames collector_view_kept
         (FreeSet.window_loop dbg cfg shl_oob fuel num last_possible_start beg end_).
Proof.
  revert beg end_. induction fuel as [|fuel IH]; intros beg end_;
    cbn [FreeSet.window_loop]; frames_auto.
Qed.

Hint Resolve window_loop_keeps_collector : frames.

Lemma initialize_humongous_keeps_collector beg end_ remainder i u :
  frames collector_view_kept (FreeSet.initialize_humongous dbg cfg beg end_ remainder i u).
Proof. unfold FreeSet.initialize_humongous. frames_auto. Qed.

Hint Resolve initialize_humongous_keeps_collector : frames.

Lemma allocate_contiguous_keeps_collector req :
  frames collector_view_kept (FreeSet.allocate_contiguous dbg cfg shl_oob req).
Proof. unfold FreeSet.allocate_contiguous. frames_auto. Qed.

Lemma allocate_keeps_collector req inr :
  AllocRequest.is_mutator_alloc req = true ->
  frames collector_view_kept (FreeSet.allocate dbg cfg shl_oob req inr).
Proof.
  intros Hreq. pose proof (allocate_single_keeps_collector req inr Hreq).
  pose proof allocate_contiguous_keeps_collector.
  unfold FreeSet.allocate. frames_auto.
Qed.

End MutatorAllocation.


(** *** A GC allocation that may not overflow leaves the Mutator's regions alone *)

#[export] Instance mutator_regions_kept_preorder : PreOrder mutator_regions_kept.
Proof. unfold mutator_regions_kept. exact _. Qed.

Section CollectorAllocation.

Variable dbg : bool.
Variable cfg : Config.
Variable shl_oob : Z -> Z.

Lemma heap_update_keeps_mutator idx f :
  frames mutator_regions_kept (FreeSet.update_region idx f).
Proof. apply modify_on_tables; try exact _; reflexivity. Qed.

Lemma get_region_keeps_mutator idx : frames mutator_regions_kept (FreeSet.get_region idx).
Proof. unfold FreeSet.get_region. frames_auto. Qed.

Lemma try_recycle_trashed_keeps_mutator idx :
  frames mutator_regions_kept (FreeSet.try_recycle_trashed idx).
Proof.
  pose proof heap_update_keeps_mutator. pose proof get_region_keeps_mutator.
  unfold FreeSet.try_recycle_trashed, FreeSet.when. frames_auto.
  apply modify_on_tables; try exact _; reflexivity.
Qed.

Lemma table_query_keeps_mutator {A} (m : (Z -> Z) -> Run.M Partitions.t A) :
  (forall ac, frames eq (m ac)) -> frames mutator_regions_kept (FreeSet.partitions cfg m).
Proof.
  intros H. apply partitions_on_tables; try exact _. intros ac.
  apply frames_pure; [exact _ | apply H].
Qed.

Lemma p_assert_bounds_keeps_mutator :
  frames mutator_regions_kept (FreeSet.p_assert_bounds dbg cfg).
Proof.
  apply partitions_on_tables; try exact _. intros ac. apply assert_bounds_members_kept.
Qed.

Lemma p_retire_collector_keeps_mutator idx used :
  frames mutator_regions_kept (FreeSet.p_retire dbg cfg Collector idx used).
Proof.
  apply partitions_on_tables; try exact _. intros ac.
  eapply frames_weaken; [apply kept_members_kept |].
  apply retire_from_partition_kept. discriminate.
Qed.

Lemma p_leftmost_keeps_mutator p : frames mutator_regions_kept (FreeSet.p_leftmost dbg cfg p).
Proof. apply table_query_keeps_mutator. intros _. apply leftmost_pure. Qed.

Lemma p_rightmost_keeps_mutator p : frames mutator_regions_kept (FreeSet.p_rightmost dbg cfg p).
Proof. apply table_query_keeps_mutator. intros _. apply rightmost_pure. Qed.

Lemma p_in_free_set_keeps_mutator p idx :
  frames mutator_regions_kept (FreeSet.p_in_free_set dbg cfg p idx).
Proof.
  apply table_query_keeps_mutator. intros _. unfold Partitions.in_free_set.
  apply bm_is_set_pure.
Qed.

Lemma p_find_prev_keeps_mutator p idx :
  frames mutator_regions_kept (FreeSet.p_find_prev dbg cfg p idx).
Proof.
  apply table_query_keeps_mutator. intros _.
  apply find_index_of_previous_available_region_pure.
Qed.

Hint Resolve heap_update_keeps_mutator get_region_keeps_mutator
  try_recycle_trashed_keeps_mutator p_assert_bounds_keeps_mutator
  p_retire_collector_keeps_mutator p_leftmost_keeps_mutator p_rightmost_keeps_mutator
  p_in_free_set_keeps_mutator p_find_prev_keeps_mutator : frames.

Lemma try_allocate_in_keeps_mutator idx req inr :
  AllocRequest.is_mutator_alloc req = false ->
  frames mutator_regions_kept (FreeSet.try_allocate_in dbg cfg idx req inr).
Proof.
  intros Hreq. unfold FreeSet.try_allocate_in.
  do 3 frames_next. frames_step; [frames_auto |]. do 2 frames_next.
  apply frames_bind_results
    with (P := fun a => AllocRequest.is_mutator_alloc (snd a) = false); [exact _ | | |].
  - frames_auto.
  - intros s_any. repeat results_step; exact Hreq.
  - intros [result req0] Hm. cbn [snd] in Hm. cbv beta iota. rewrite Hm.
    unfold FreeSet.when. frames_auto.
Qed.

Lemma try_allocate_in_stays_collector idx req inr :
  AllocRequest.is_mutator_alloc req = false ->
  forall fs, post (FreeSet.try_allocate_in dbg cfg idx req inr) fs
                  (fun a _ => AllocRequest.is_mutator_alloc (FreeSet.req_out a) = false).
Proof.
  intros Hreq fs. eapply post_conseq; [apply try_allocate_in_keeps_type |].
  cbv beta. intros a _ Ht. rewrite (is_mutator_alloc_type req _ Ht). exact Hreq.
Qed.

Lemma collector_scan_keeps_mutator fuel leftmost_collector idx req inr :
  AllocRequest.is_mutator_alloc req = false ->
  frames mutator_regions_kept
         (FreeSet.collector_scan dbg cfg fuel leftmost_collector idx req inr).
Proof.
  revert idx req inr. induction fuel as [|fuel IH]; intros idx req inr Hreq;
    cbn [FreeSet.collector_scan]; [frames_auto |].
  frames_step; [| frames_auto]. frames_next.
  apply frames_bind_results
    with (P := fun a => AllocRequest.is_mutator_alloc (FreeSet.req_out a) = false);
    [exact _ | | |].
  - apply try_allocate_in_keeps_mutator; exact Hreq.
  - intros s_any. apply try_allocate_in_stays_collector; exact Hreq.
  - intros res Hres. frames_step; [frames_auto |]. frames_next. apply IH. exact Hres.
Qed.

Lemma allocate_single_keeps_mutator req inr :
  AllocRequest.is_mutator_alloc req = false ->
  ShenandoahEvacReserveOverflow cfg = false ->
  frames mutator_regions_kept (FreeSet.allocate_single dbg cfg req inr).
Proof.
  intros Hreq Hover.
  pose proof (fun f l i => collector_scan_keeps_mutator f l i req inr Hreq).
  unfold FreeSet.allocate_single.
  unfold AllocRequest.is_mutator_alloc in Hreq.
  destruct (AllocRequest.type req); try discriminate;
    rewrite Hover; cbn [negb]; do 2 frames_next;
    (apply frames_bind; [exact _ | auto with frames | intros res]);
    frames_auto.
Qed.

Lemma allocate_keeps_mutator req inr :
  AllocRequest.is_mutator_alloc req = false ->
  ShenandoahEvacReserveOverflow cfg = false ->
  AllocRequest.size req <= humongous_threshold_words cfg ->
  frames mutator_regions_kept (FreeSet.allocate dbg cfg shl_oob req inr).
Proof.
  intros Hreq Hover Hsize. unfold FreeSet.allocate.
  destruct (Z.gtb_spec (AllocRequest.size req) (humongous_threshold_words cfg)); [lia |].
  apply allocate_single_keeps_mutator; assumption.
Qed.

End CollectorAllocation.


(** X15.  "Mutator does not touch collector view at all": whenever
    [allocate] returns for a mutator request ([_alloc_tlab] or
    [_alloc_shared], of any size, humongous ones included), whether or
    not it found memory, everything the table holds for the Collector
    partition is as before -- its bitmap, its interval and cached empty
    bounds, its capacity, its used total and its count.  This holds in
    debug and in product builds. *)
Theorem mutator_allocation_leaves_collector_view_alone
        dbg cfg shl_oob req in_new_region fs a fs' :
  AllocRequest.is_mutator_alloc req = true ->
  FreeSet.allocate dbg cfg shl_oob req in_new_region fs = Ret a fs' ->
  kept Collector (FreeSet._partitions fs) (FreeSet._partitions fs') /\
  forall idx, Lifecycle.in_partition fs' Collector idx
              = Lifecycle.in_partition fs Collector idx.
Proof.
  intros Hreq E.
  pose proof (allocate_keeps_collector dbg cfg shl_oob req in_new_region Hreq fs a fs' E)
    as Hk.
  split; [exact Hk |].
  intros idx. unfold Lifecycle.in_partition. destruct Hk as (Em & _). rewrite Em.
  reflexivity.
Qed.

Lemma mutator_allocation_leaves_collector_view_alone_witness :
  kept Collector (FreeSet._partitions (Scenario.after_calls true))
       (FreeSet._partitions (Samples.state_of Samples.tlab_run)) /\
  forall idx, Lifecycle.in_partition (Samples.state_of Samples.tlab_run) Collector idx
              = Lifecycle.in_partition (Scenario.after_calls true) Collector idx.
Proof.
  apply (mutator_allocation_leaves_collector_view_alone
           true Scenario.cfg Example.shl_truncating Scenario.tlab_1KiB false
           (Scenario.after_calls true) (Samples.value_of Samples.tlab_run)
           (Samples.state_of Samples.tlab_run)).
  - reflexivity.
  - vm_compute. reflexivity.
Defined.

(** X16.  With [ShenandoahEvacReserveOverflow] off, a GC allocation
    ([_alloc_gclab] or [_alloc_shared_gc]) of at most the humongous
    threshold takes nothing from the mutator: whenever [allocate]
    returns, whether or not it found memory, the Mutator partition holds
    the same regions as before, with the same interval, capacity, used
    total and count.  (Only its two cached empty bounds may have been
    refreshed, by the bounds check of a debug build.) *)
Theorem gc_allocation_without_overflow_leaves_mutator_regions_alone
        dbg cfg shl_oob req in_new_region fs a fs' :
  AllocRequest.is_gc_alloc req = true ->
  ShenandoahEvacReserveOverflow cfg = false ->
  AllocRequest.size req <= humongous_threshold_words cfg ->
  FreeSet.allocate dbg cfg shl_oob req in_new_region fs = Ret a fs' ->
  members_kept Mutator (FreeSet._partitions fs) (FreeSet._partitions fs') /\
  forall idx, Lifecycle.in_partition fs' Mutator idx
              = Lifecycle.in_partition fs Mutator idx.
Proof.
  intros Hreq Hover Hsize E.
  assert (Hm : AllocRequest.is_mutator_alloc req = false).
  { unfold AllocRequest.is_gc_alloc in Hreq. unfold AllocRequest.is_mutator_alloc.
    destruct (AllocRequest.type req); (discriminate || reflexivity). }
  pose proof (allocate_keeps_mutator dbg cfg shl_oob req in_new_region Hm Hover Hsize
                fs a fs' E) as Hk.
  split; [exact Hk |].
  intros idx. unfold Lifecycle.in_partition. destruct Hk as (Em & _). rewrite Em.
  reflexivity.
Qed.

Lemma gc_allocation_without_overflow_leaves_mutator_regions_alone_witness :
  members_kept Mutator (FreeSet._partitions (Scenario.after_calls true))
               (FreeSet._partitions (Samples.state_of Samples.gclab_run)) /\
  forall idx, Lifecycle.in_partition (Samples.state_of Samples.gclab_run) Mutator idx
              = Lifecycle.in_partition (Scenario.after_calls true) Mutator idx.
Proof.
  apply (gc_allocation_without_overflow_leaves_mutator_regions_alone
           true Samples.cfg_no_overflow Example.shl_truncating Samples.gclab_1KiB false
           (Scenario.after_calls true) (Samples.value_of Samples.gclab_run)
           (Samples.state_of Samples.gclab_run)).
  - reflexivity.
  - reflexivity.
  - vm_compute. discriminate.
  - vm_compute. reflexivity.
Defined.


(* ================================================================= *)
(** * The size an allocation hands out *)

(** As [results_step], keeping what each test decided. *)
Ltac results_step_eqn :=
  lazymatch goal with
  | |- post (Run.bind _ _) _ _ => apply post_bind_any; intros
  | |- post (Run.ret _) _ _ => apply post_ret
  | |- post (Run.fatal _) _ _ => apply post_fatal
  | |- post (if ?b then _ else _) _ _ => destruct b eqn:?
  | |- post (match ?x with _ => _ end) _ _ => destruct x eqn:?
  end.

Lemma same_request_refl req : same_request req req.
Proof. repeat split. Qed.

Lemma same_request_trans r1 r2 r3 :
  same_request r1 r2 -> same_request r2 r3 -> same_request r1 r3.
Proof. intros (A1 & A2 & A3) (B1 & B2 & B3). repeat split; congruence. Qed.

Lemma same_request_is_lab req req' :
  same_request req req' -> AllocRequest.is_lab_alloc req' = AllocRequest.is_lab_alloc req.
Proof. intros (A1 & _). unfold AllocRequest.is_lab_alloc. rewrite A1. reflexivity. Qed.

Lemma answers_same_request req req' a :
  same_request req req' -> answers req' a -> answers req a.
Proof.
  intros Hs [Hs' Hfit]. split; [eapply same_request_trans; eassumption |].
  intros Hf. specialize (Hfit Hf). unfold fitting_size in *.
  rewrite (same_request_is_lab req req' Hs) in Hfit.
  destruct Hs as (_ & E2 & E3). rewrite E2, E3 in Hfit. exact Hfit.
Qed.

Lemma answers_not_found req inr : answers req (FreeSet.mk_allocation None req inr).
Proof. split; [apply same_request_refl | discriminate]. Qed.

Section Answers.

Variable dbg : bool.
Variable cfg : Config.
Variable shl_oob : Z -> Z.

Lemma try_allocate_in_answers idx req inr fs :
  post (FreeSet.try_allocate_in dbg cfg idx req inr) fs (fun a _ => answers req a).
Proof.
  unfold FreeSet.try_allocate_in.
  do 3 results_step. results_step; [results_step; apply answers_not_found |].
  do 2 results_step.
  apply post_bind_results
    with (P := fun a => answers req (FreeSet.mk_allocation (fst a) (snd a) false)).
  - intros s_any. unfold answers, fitting_size, FreeSet.found.
    destruct (AllocRequest.is_lab_alloc req) eqn:Hlab.
    + repeat results_step_eqn;
        cbn [fst snd FreeSet.result FreeSet.req_out
             AllocRequest.actual_size AllocRequest.set_actual_size];
        (split; [repeat split |]); intros Hf; try discriminate Hf.
      match goal with
      | H : ((if ?c then _ else _) >=? _) = true |- _ =>
          apply Z.geb_le in H; revert H; destruct c eqn:Hc; intros H;
          [apply Z.gtb_lt in Hc | rewrite Z.gtb_ltb in Hc; apply Z.ltb_ge in Hc]
      end; (split; [intros _; lia | discriminate]).
    + repeat results_step_eqn;
        cbn [fst snd FreeSet.result FreeSet.req_out
             AllocRequest.actual_size AllocRequest.set_actual_size];
        (split; [repeat split |]); intros Hf; try discriminate Hf.
      split; [discriminate | reflexivity].
  - intros [result req0] s_any HP. cbn [fst snd] in HP. cbv beta iota.
    repeat results_step; exact HP.
Qed.

(** One probe of a scan: [try_allocate_in], or nothing when the region
    is passed over. *)
Lemma probe_answers (b : bool) idx req req' inr fs :
  same_request req req' ->
  post (if b then FreeSet.try_allocate_in dbg cfg idx req' inr
        else Run.ret (FreeSet.mk_allocation None req' inr)) fs
       (fun a _ => answers req a).
Proof.
  intros Hs. destruct b.
  - eapply post_conseq; [apply try_allocate_in_answers |].
    cbv beta. intros a _. apply answers_same_request. exact Hs.
  - apply post_ret. apply (answers_same_request req req'); [exact Hs |].
    apply answers_not_found.
Qed.

Lemma mutator_scan_right_to_left_answers req fuel :
  forall leftmost idx req' inr fs,
    same_request req req' ->
    post (FreeSet.mutator_scan_right_to_left dbg cfg fuel leftmost idx req' inr) fs
         (fun a _ => answers req a).
Proof.
  induction fuel as [|fuel IH]; intros leftmost idx req' inr fs Hs;
    cbn [FreeSet.mutator_scan_right_to_left]; [intros ? ? ?; discriminate |].
  results_step; [| apply post_ret, (answers_same_request req req' _ Hs), answers_not_found].
  do 2 results_step.
  apply post_bind_results with (P := answers req).
  - intros s_any. apply probe_answers. exact Hs.
  - intros res s_any Hres. results_step; [apply post_ret; exact Hres |].
    results_step. apply IH. apply Hres.
Qed.

Lemma mutator_scan_left_to_right_answers req fuel :
  forall rightmost idx req' inr fs,
    same_request req req' ->
    post (FreeSet.mutator_scan_left_to_right dbg cfg fuel rightmost idx req' inr) fs
         (fun a _ => answers req a).
Proof.
  induction fuel as [|fuel IH]; intros rightmost idx req' inr fs Hs;
    cbn [FreeSet.mutator_scan_left_to_right]; [intros ? ? ?; discriminate |].
  results_step; [| apply post_ret, (answers_same_request req req' _ Hs), answers_not_found].
  do 2 results_step.
  apply post_bind_results with (P := answers req).
  - intros s_any. apply probe_answers. exact Hs.
  - intros res s_any Hres. results_step; [apply post_ret; exact Hres |].
    results_step. apply IH. apply Hres.
Qed.

Lemma collector_scan_answers req fuel :
  forall leftmost_collector idx req' inr fs,
    same_request req req' ->
    post (FreeSet.collector_scan dbg cfg fuel leftmost_collector idx req' inr) fs
         (fun a _ => answers req a).
Proof.
  induction fuel as [|fuel IH]; intros leftmost_collector idx req' inr fs Hs;
    cbn [FreeSet.collector_scan]; [intros ? ? ?; discriminate |].
  results_step; [| apply post_ret, (answers_same_request req req' _ Hs), answers_not_found].
  results_step.
  apply post_bind_results with (P := answers req).
  - intros s_any. apply (probe_answers true). exact Hs.
  - intros res s_any Hres. results_step; [apply post_ret; exact Hres |].
    results_step. apply IH. apply Hres.
Qed.

Lemma steal_scan_answers req fuel :
  forall leftmost_mutator_empty idx req' inr fs,
    same_request req req' ->
    post (FreeSet.steal_scan dbg cfg fuel leftmost_mutator_empty idx req' inr) fs
         (fun a _ => answers req a).
Proof.
  induction fuel as [|fuel IH]; intros leftmost_mutator_empty idx req' inr fs Hs;
    cbn [FreeSet.steal_scan]; [intros ? ? ?; discriminate |].
  results_step; [| apply post_ret, (answers_same_request req req' _ Hs), answers_not_found].
  do 2 results_step.
  apply post_bind_results with (P := answers req).
  - intros s_any. results_step.
    + results_step. apply (probe_answers true). exact Hs.
    + apply post_ret, (answers_same_request req req' _ Hs), answers_not_found.
  - intros res s_any Hres. results_step; [apply post_ret; exact Hres |].
    results_step. apply IH. apply Hres.
Qed.

Lemma allocate_single_answers req inr fs :
  post (FreeSet.allocate_single dbg cfg req inr) fs (fun a _ => answers req a).
Proof.
  pose proof (same_request_refl req) as Hs.
  unfold FreeSet.allocate_single.
  destruct (AllocRequest.type req).
  - do 3 results_step. unfold FreeSet.allocate_in_mutator_view.
    repeat results_step;
      first [ apply mutator_scan_right_to_left_answers; exact Hs
            | apply mutator_scan_left_to_right_answers; exact Hs
            | apply answers_not_found ].
  - do 2 results_step.
    apply post_bind_results with (P := answers req).
    + intros s_any. apply collector_scan_answers. exact Hs.
    + intros res s_any Hres. results_step; [apply post_ret; exact Hres |].
      results_step; [apply post_ret; exact Hres |].
      do 2 results_step. apply steal_scan_answers. apply Hres.
  - do 3 results_step. unfold FreeSet.allocate_in_mutator_view.
    repeat results_step;
      first [ apply mutator_scan_right_to_left_answers; exact Hs
            | apply mutator_scan_left_to_right_answers; exact Hs
            | apply answers_not_found ].
  - do 2 results_step.
    apply post_bind_results with (P := answers req).
    + intros s_any. apply collector_scan_answers. exact Hs.
    + intros res s_any Hres. results_step; [apply post_ret; exact Hres |].
      results_step; [apply post_ret; exact Hres |].
      do 2 results_step. apply steal_scan_answers. apply Hres.
Qed.

Lemma allocate_contiguous_answers req fs :
  AllocRequest.is_lab_alloc req = false ->
  post (FreeSet.allocate_contiguous dbg cfg shl_oob req) fs
       (fun a _ => answers req (FreeSet.mk_allocation (fst a) (snd a) true)).
Proof.
  intros Hlab. unfold FreeSet.allocate_contiguous.
  repeat results_step; try apply answers_not_found.
  split; [repeat split |]. intros _. split; [rewrite Hlab; discriminate |].
  intros _. reflexivity.
Qed.

Lemma allocate_answers req inr fs :
  post (FreeSet.allocate dbg cfg shl_oob req inr) fs (fun a _ => answers req a).
Proof.
  unfold FreeSet.allocate.
  destruct (AllocRequest.size req >? humongous_threshold_words cfg);
    [| apply allocate_single_answers].
  destruct (AllocRequest.type req) eqn:Ht.
  - apply post_bind_results
      with (P := fun a => answers req (FreeSet.mk_allocation (fst a) (snd a) true)).
    + intros s_any. apply allocate_contiguous_answers.
      unfold AllocRequest.is_lab_alloc. rewrite Ht. reflexivity.
    + intros res s_any Hres. apply post_ret. exact Hres.
  - apply post_bind_results
      with (P := fun a => answers req (FreeSet.mk_allocation (fst a) (snd a) true)).
    + intros s_any. apply allocate_contiguous_answers.
      unfold AllocRequest.is_lab_alloc. rewrite Ht. reflexivity.
    + intros res s_any Hres. apply post_ret. exact Hres.
  - results_step. apply post_ret. apply answers_not_found.
  - results_step. apply post_ret. apply answers_not_found.
Qed.

End Answers.


(** X17.  What [allocate] writes back into the request.  Whenever the
    call returns, the request still has its type, [size] and
    [min_size]; and when it hands out memory, the recorded
    [actual_size] fits the request: for a LAB ([_alloc_tlab],
    [_alloc_gclab]) it lies between [min_size] and [size], for a shared
    allocation (humongous ones included) it is exactly [size].  This
    holds for every state of the free set, in debug and product
    builds. *)
Theorem allocate_hands_out_a_fitting_size dbg cfg shl_oob req in_new_region fs a fs' :
  FreeSet.allocate dbg cfg shl_oob req in_new_region fs = Ret a fs' ->
  AllocRequest.type (FreeSet.req_out a) = AllocRequest.type req /\
  AllocRequest.size (FreeSet.req_out a) = AllocRequest.size req /\
  AllocRequest.min_size (FreeSet.req_out a) = AllocRequest.min_size req /\
  forall addr, FreeSet.result a = Some addr ->
    (AllocRequest.is_lab_alloc req = true ->
     AllocRequest.min_size req <= AllocRequest.actual_size (FreeSet.req_out a)
     <= AllocRequest.size req) /\
    (AllocRequest.is_lab_alloc req = false ->
     AllocRequest.actual_size (FreeSet.req_out a) = AllocRequest.size req).
Proof.
  intros E.
  destruct (allocate_answers dbg cfg shl_oob req in_new_region fs a fs' E)
    as ((E1 & E2 & E3) & Hfit).
  split; [exact E1 |]. split; [exact E2 |]. split; [exact E3 |].
  intros addr Hr. apply Hfit. unfold FreeSet.found. rewrite Hr. reflexivity.
Qed.

Lemma allocate_hands_out_a_fitting_size_witness :
  let req := Scenario.tlab_1KiB in
  let a := Samples.value_of Samples.tlab_run in
  AllocRequest.type (FreeSet.req_out a) = AllocRequest.type req /\
  AllocRequest.size (FreeSet.req_out a) = AllocRequest.size req /\
  AllocRequest.min_size (FreeSet.req_out a) = AllocRequest.min_size req /\
  forall addr, FreeSet.result a = Some addr ->
    (AllocRequest.is_lab_alloc req = true ->
     AllocRequest.min_size req <= AllocRequest.actual_size (FreeSet.req_out a)
     <= AllocRequest.size req) /\
    (AllocRequest.is_lab_alloc req = false ->
     AllocRequest.actual_size (FreeSet.req_out a) = AllocRequest.size req).
Proof.
  intros req a.
  apply (allocate_hands_out_a_fitting_size
           true Scenario.cfg Example.shl_truncating Scenario.tlab_1KiB false
           (Scenario.after_calls true) (Samples.value_of Samples.tlab_run)
           (Samples.state_of Samples.tlab_run)).
  vm_compute. reflexivity.
Defined.

(* ================================================================= *)
(** * Recycling trash *)

Lemma recycle_trash_loop n :
  forall idx fs,
  exists fs',
    Run.for_range n idx tt
      (fun i _ =>
         r <- FreeSet.get_region i ;;
         FreeSet.when (Heap.is_trash r) (FreeSet.try_recycle_trashed i)) fs = Ret tt fs' /\
    FreeSet._partitions fs' = FreeSet._partitions fs /\
    FreeSet._alloc_bias_weight fs' = FreeSet._alloc_bias_weight fs /\
    FreeSet._right_to_left_bias fs' = FreeSet._right_to_left_bias fs /\
    Heap.concurrent_weak_root_in_progress (FreeSet._heap fs')
    = Heap.concurrent_weak_root_in_progress (FreeSet._heap fs) /\
    forall j,
      Heap.get_region (FreeSet._heap fs') j
      = if (idx <=? j) && (j <? idx + Z.of_nat n)
           && Heap.is_trash (Heap.get_region (FreeSet._heap fs) j)
        then Heap.recycle (Heap.get_region (FreeSet._heap fs) j)
        else Heap.get_region (FreeSet._heap fs) j.
Proof.
  induction n as [|n IH]; intros idx fs.
  - exists fs. cbn [Run.for_range]. split; [reflexivity |].
    do 4 (split; [reflexivity |]). intros j.
    destruct (Z.leb_spec idx j); destruct (Z.ltb_spec j (idx + Z.of_nat 0)); try reflexivity.
    lia.
  - cbn [Run.for_range].
    set (r := Heap.get_region (FreeSet._heap fs) idx).
    set (fs1 := if Heap.is_trash r
                then FreeSet.with_heap fs
                       (Heap.set_region (Heap.decrease_used (FreeSet._heap fs) (Heap.used r))
                                        idx (Heap.recycle r))
                else fs).
    assert (Ebody : (r0 <- FreeSet.get_region idx ;;
                     FreeSet.when (Heap.is_trash r0) (FreeSet.try_recycle_trashed idx)) fs
                    = Ret tt fs1).
    { unfold FreeSet.get_region. rewrite bind_gets. fold r. subst fs1.
      destruct (Heap.is_trash r) eqn:Ht; [| reflexivity].
      cbn [FreeSet.when]. unfold FreeSet.try_recycle_trashed, FreeSet.get_region.
      rewrite bind_gets. fold r. rewrite Ht. cbn [FreeSet.when].
      rewrite bind_modify. unfold FreeSet.update_region, Run.modify.
      cbn [FreeSet._heap FreeSet.with_heap]. reflexivity. }
    rewrite (bind_eq _ _ _ _ _ Ebody).
    destruct (IH (idx + 1) fs1) as (fs' & E & EP & Ew & Eb & Ec & Hreg).
    exists fs'. split; [exact E |].
    assert (Hfs1 : FreeSet._partitions fs1 = FreeSet._partitions fs /\
                   FreeSet._alloc_bias_weight fs1 = FreeSet._alloc_bias_weight fs /\
                   FreeSet._right_to_left_bias fs1 = FreeSet._right_to_left_bias fs /\
                   Heap.concurrent_weak_root_in_progress (FreeSet._heap fs1)
                   = Heap.concurrent_weak_root_in_progress (FreeSet._heap fs) /\
                   forall j, Heap.get_region (FreeSet._heap fs1) j
                             = if (j =? idx) && Heap.is_trash r then Heap.recycle r
                               else Heap.get_region (FreeSet._heap fs) j).
    { subst fs1. destruct (Heap.is_trash r) eqn:Ht.
      - do 4 (split; [reflexivity |]). intros j. cbn.
        destruct (j =? idx); reflexivity.
      - do 4 (split; [reflexivity |]). intros j. rewrite andb_false_r. reflexivity. }
    destruct Hfs1 as (A1 & A2 & A3 & A4 & A5).
    split; [congruence |]. split; [congruence |]. split; [congruence |].
    split; [congruence |].
    intros j. rewrite Hreg, A5.
    destruct (Z.eqb_spec j idx) as [->|Hne].
    + fold r. destruct (Z.leb_spec (idx + 1) idx); [lia |]. cbn [andb].
      destruct (Z.leb_spec idx idx); [| lia].
      destruct (Z.ltb_spec idx (idx + Z.of_nat (S n))); [| lia]. cbn [andb].
      destruct (Heap.is_trash r); reflexivity.
    + cbn [andb].
      replace ((idx + 1 <=? j) && (j <? idx + 1 + Z.of_nat n))
        with ((idx <=? j) && (j <? idx + Z.of_nat (S n))); [reflexivity |].
      destruct (Z.leb_spec idx j); destruct (Z.leb_spec (idx + 1) j);
        destruct (Z.ltb_spec j (idx + Z.of_nat (S n)));
        destruct (Z.ltb_spec j (idx + 1 + Z.of_nat n)); try reflexivity; lia.
Qed.

(** X18.  [recycle_trash()] returns from every state, in every build,
    and recycles exactly the trash: each region of the heap that is
    trash has been handed to [recycle()], every other region is as
    before.  The partition table and the allocation bias are not
    touched: recycling alone moves no region into or out of a
    partition. *)
Theorem recycle_trash_recycles_exactly_the_trash cfg fs :
  exists fs',
    FreeSet.recycle_trash cfg fs = Ret tt fs' /\
    FreeSet._partitions fs' = FreeSet._partitions fs /\
    FreeSet._alloc_bias_weight fs' = FreeSet._alloc_bias_weight fs /\
    FreeSet._right_to_left_bias fs' = FreeSet._right_to_left_bias fs /\
    forall j,
      Heap.get_region (FreeSet._heap fs') j
      = if (0 <=? j) && (j <? num_regions cfg)
           && Heap.is_trash (Heap.get_region (FreeSet._heap fs) j)
        then Heap.recycle (Heap.get_region (FreeSet._heap fs) j)
        else Heap.get_region (FreeSet._heap fs) j.
Proof.
  destruct (recycle_trash_loop (Z.to_nat (num_regions cfg)) 0 fs)
    as (fs' & E & EP & Ew & Eb & _ & Hreg).
  exists fs'. split; [exact E |]. do 3 (split; [assumption |]).
  intros j. rewrite Hreg.
  destruct (Z.leb_spec 0 j) as [Hj|Hj]; [| reflexivity]. cbn [andb].
  replace (j <? 0 + Z.of_nat (Z.to_nat (num_regions cfg))) with (j <? num_regions cfg);
    [reflexivity |].
  destruct (Z.ltb_spec j (num_regions cfg));
    destruct (Z.ltb_spec j (0 + Z.of_nat (Z.to_nat (num_regions cfg))));
    try reflexivity; lia.
Qed.


(* ================================================================= *)
(** * Regions that change partition *)

Lemma moved_refl orig new s :
  0 <= Partitions.count s orig < Word.modulus ->
  0 <= Partitions.count s new < Word.modulus ->
  0 <= Partitions.capacity_of s orig < Word.modulus ->
  0 <= Partitions.capacity_of s new < Word.modulus ->
  moved orig new 0 s s.
Proof.
  intros H1 H2 H3 H4. unfold moved.
  rewrite Z.mul_0_l, !Z.sub_0_r, !Z.add_0_r, !wrap_small by assumption.
  split; [split; reflexivity |]. do 4 (split; [reflexivity |]).
  split; [intros j _ H; exact H |]. split; [intros j _ H; exact H |].
  intros j _. reflexivity.
Qed.

Lemma moved_trans orig new k1 k2 s1 s2 s3 :
  moved orig new k1 s1 s2 -> moved orig new k2 s2 s3 -> moved orig new (k1 + k2) s1 s3.
Proof.
  intros ((EN1 & Er1) & A1 & A2 & A3 & A4 & A5 & A6 & A7)
         ((EN2 & Er2) & B1 & B2 & B3 & B4 & B5 & B6 & B7).
  unfold moved. rewrite EN1 in *. rewrite Er1 in *.
  split; [split; congruence |].
  split; [rewrite B1, A1, wrap_sub_l; f_equal; ring |].
  split; [rewrite B2, A2, wrap_add_l; f_equal; ring |].
  split; [rewrite B3, A3, wrap_sub_l; f_equal; ring |].
  split; [rewrite B4, A4, wrap_add_l; f_equal; ring |].
  split; [intros j Hj H; apply A5, B5; assumption |].
  split; [intros j Hj H; apply B6, A6; assumption |].
  intros j Hj. rewrite (B7 j Hj). apply A7. exact Hj.
Qed.

(** A change of bounds alone moves nothing. *)
Lemma moved_hints orig new k p s1 s2 s3 :
  moved orig new k s1 s2 -> hints_only p s2 s3 -> moved orig new k s1 s3.
Proof.
  intros ((EN1 & Er1) & A1 & A2 & A3 & A4 & A5 & A6 & A7) H.
  pose proof (fun q j => hints_only_member p s2 s3 q j H) as Hm.
  destruct H as (EN & Ers & Em & Ec & Eu & Ecn & _).
  unfold moved, Partitions.count, Partitions.capacity_of in *.
  split; [split; congruence |].
  rewrite Ecn, Ec. do 4 (split; [assumption |]).
  split; [intros j Hj H; apply A5; [exact Hj | apply Hm; exact H] |].
  split; [intros j Hj H; apply Hm, A6; assumption |].
  intros j Hj. rewrite <- (A7 j Hj). rewrite !Hm. reflexivity.
Qed.

Lemma hints_moved orig new k p s1 s2 s3 :
  hints_only p s1 s2 -> moved orig new k s2 s3 -> moved orig new k s1 s3.
Proof.
  intros H ((EN1 & Er1) & A1 & A2 & A3 & A4 & A5 & A6 & A7).
  pose proof (fun q j => hints_only_member p s1 s2 q j H) as Hm.
  destruct H as (EN & Ers & Em & Ec & Eu & Ecn & _).
  unfold moved, Partitions.count, Partitions.capacity_of in *.
  rewrite EN, Ers, Ecn, Ec in *.
  split; [split; congruence |].
  do 4 (split; [assumption |]).
  split; [intros j Hj H; apply Hm, A5; assumption |].
  split; [intros j Hj H; apply A6; [exact Hj | apply Hm; exact H] |].
  intros j Hj. rewrite (A7 j Hj). rewrite !Hm. reflexivity.
Qed.

Section MoveOne.

Variable dbg : bool.
Variable alloc_capacity : Z -> Z.

(** One [move_from_partition_to_partition] on a table in order. *)
Lemma move_from_partition_to_partition_moves_one idx orig new avail s :
  TableSpec.invariant s ->
  0 <= idx < Partitions._max s ->
  member s orig idx ->
  avail <= Partitions._region_size_bytes s ->
  Partitions.expected_movement s orig new avail = true ->
  returns (Partitions.move_from_partition_to_partition dbg alloc_capacity idx orig new avail) s
    (fun _ s' =>
       TableSpec.invariant s' /\ moved orig new 1 s s' /\
       (forall j, 0 <= j < Partitions._max s ->
                  (member s' orig j <-> member s orig j /\ j <> idx)) /\
       (forall j, 0 <= j < Partitions._max s ->
                  (member s' new j <-> member s new j \/ j = idx)) /\
       Partitions.used_by s' orig
       = Word.wrap (Partitions.used_by s orig
                    - Word.wrap (Partitions._region_size_bytes s - avail)) /\
       Partitions.used_by s' new
       = Word.wrap (Partitions.used_by s new
                    + Word.wrap (Partitions._region_size_bytes s - avail))).
Proof.
  intros (Hok & Hdis & Hall) Hidx Hmo Hav Hexp.
  destruct (expected_movement_distinct _ _ _ _ Hexp) as (Hne & Hpo & Hpn).
  assert (Hne' : new <> orig) by congruence.
  assert (HNr := proj1 Hok). pose proof pow62_modulus as H62.
  destruct (Hall orig Hpo) as [Hio Huo]. destruct (Hall new Hpn) as [Hin Hun].
  assert (Hmn : ~ member s new idx).
  { intros H. apply (Hdis idx Hidx). unfold member in *.
    destruct orig, new; try discriminate; try congruence; split; assumption. }
  eapply returns_conseq.
  { apply (move_from_partition_to_partition_returns dbg alloc_capacity idx orig new avail s);
      assumption. }
  cbv beta.
  intros _ s' ((EN & Ers) & Hk & Emo & Emn & Eco & Ecn & Euo & Eun & Ecno & Ecnn & Hio' & Hin').
  assert (Hother : forall q, Partitions.lt_NumPartitions q = true -> q = orig \/ q = new).
  { intros q Hq. destruct q, orig, new; try discriminate; try congruence; auto. }
  assert (Hmo' : forall j, 0 <= j < Partitions._max s ->
                           member s' orig j <-> member s orig j /\ j <> idx).
  { intros j Hj. apply (member_of_clear_bit _ _ idx j Emo); lia. }
  assert (Hmn' : forall j, 0 <= j < Partitions._max s ->
                           member s' new j <-> member s new j \/ j = idx).
  { intros j Hj. apply (member_of_set_bit _ _ idx j Emn); lia. }
  split.
  { split.
    { split; [rewrite EN; exact HNr |]. intros q Hq. rewrite EN.
      destruct (Hother q Hq) as [-> | ->].
      - rewrite Emo. apply bitmap_ok_clear_bit, Hok, Hq.
      - rewrite Emn. apply bitmap_ok_set_bit, Hok, Hq. }
    split.
    { intros j Hj [H1 H2]. rewrite EN in Hj.
      assert (Ho : member s' orig j /\ member s' new j).
      { destruct orig, new; try discriminate; try congruence; split; assumption. }
      destruct Ho as [Ho Hn]. apply (Hmo' j Hj) in Ho. apply (Hmn' j Hj) in Hn.
      destruct Ho as [Ho Hji]. destruct Hn as [Hn|Hn]; [| congruence].
      apply (Hdis j Hj). unfold member in *.
      destruct orig, new; try discriminate; try congruence; split; assumption. }
    intros q Hq. destruct (Hother q Hq) as [-> | ->].
    + split; [exact Hio' |]. rewrite Euo. apply wrap_nonneg.
    + split; [exact Hin' |]. rewrite Eun. apply wrap_nonneg. }
  split.
  { unfold moved, Partitions.count, Partitions.capacity_of.
    split; [split; assumption |].
    split; [exact Ecno |]. split; [exact Ecnn |].
    split; [rewrite Eco; f_equal; ring |]. split; [rewrite Ecn; f_equal; ring |].
    split; [intros j Hj H; apply (Hmo' j Hj) in H; apply H |].
    split; [intros j Hj H; apply (Hmn' j Hj); left; exact H |].
    intros j Hj. rewrite (Hmo' j Hj), (Hmn' j Hj).
    destruct (Z.eq_dec j idx) as [->|Hji]; [| tauto].
    split; [intros _; left; exact Hmo | intros _; right; right; reflexivity]. }
  split; [exact Hmo' |]. split; [exact Hmn' |].
  unfold Partitions.used_by. split; assumption.
Qed.

End MoveOne.


Lemma moved_counters_ok orig new k s s' :
  orig <> new -> Partitions.lt_NumPartitions orig = true ->
  Partitions.lt_NumPartitions new = true ->
  moved orig new k s s' -> counters_ok s'.
Proof.
  intros Hne Ho Hn (_ & A1 & A2 & A3 & A4 & _) p Hp.
  assert (Hp' : p = orig \/ p = new).
  { destruct p, orig, new; try discriminate; try congruence; auto. }
  destruct Hp' as [-> | ->].
  - rewrite A1, A3. split; apply wrap_range.
  - rewrite A2, A4. split; apply wrap_range.
Qed.

Lemma counters_ok_hints p s s' : hints_only p s s' -> counters_ok s -> counters_ok s'.
Proof.
  intros (_ & _ & _ & Ec & _ & Ecn & _) H q Hq.
  unfold Partitions.count, Partitions.capacity_of. rewrite Ec, Ecn. apply H, Hq.
Qed.

Lemma moved_start orig new s : counters_ok s ->
  Partitions.lt_NumPartitions orig = true -> Partitions.lt_NumPartitions new = true ->
  moved orig new 0 s s.
Proof.
  intros H Ho Hn. apply moved_refl; first [apply (H orig Ho) | apply (H new Hn)].
Qed.

(** ** The calls of the free set into its table, on a free set in order *)

Section TableCallsInOrder.

Variable dbg : bool.
Variable cfg : Config.

Lemma invariant_with_partitions fs P :
  invariant cfg fs -> TableSpec.invariant P ->
  same_size (FreeSet._partitions fs) P ->
  invariant cfg (FreeSet.with_partitions fs P).
Proof.
  intros (_ & HN & Hrs & Hheap) HP (EN & Ers).
  split; [exact HP |]. cbn [FreeSet._partitions FreeSet.with_partitions].
  split; [congruence |]. split; [congruence |]. exact Hheap.
Qed.

Lemma invariant_empties_only p fs P :
  invariant cfg fs -> Partitions.lt_NumPartitions p = true ->
  empties_only p (FreeSet._partitions fs) P ->
  invariant cfg (FreeSet.with_partitions fs P).
Proof.
  intros Hinv Hp (H & EL & ER & HRE).
  assert (HT := proj1 Hinv).
  destruct (proj2 (proj2 HT) p Hp) as [Hint _].
  apply invariant_with_partitions; [exact Hinv | | split; apply H].
  apply (invariant_hints p _ P HT H).
  apply (interval_ok_hints p (FreeSet._partitions fs)); auto.
  apply HRE. apply Hint.
Qed.

Lemma p_leftmost_empty_in_order p fs :
  invariant cfg fs -> Partitions.lt_NumPartitions p = true ->
  returns (FreeSet.p_leftmost_empty dbg cfg p) fs
    (fun r fs' =>
       invariant cfg fs' /\ table_only fs fs' /\
       hints_only p (FreeSet._partitions fs) (FreeSet._partitions fs') /\
       (r = num_regions cfg \/
        (0 <= r < num_regions cfg /\ member (FreeSet._partitions fs) p r))).
Proof.
  intros Hinv Hp. assert (HT := proj1 Hinv).
  destruct (proj2 (proj2 HT) p Hp) as [Hint _].
  assert (HN := proj1 (proj2 Hinv)).
  unfold FreeSet.p_leftmost_empty. apply returns_partitions.
  eapply returns_conseq; [apply (leftmost_empty_finds dbg _ p Hp _ (proj1 HT) Hint) |].
  cbv beta. intros r P' (He & Hr).
  split; [apply (invariant_empties_only p); assumption |].
  split; [apply table_only_with_partitions |].
  split; [apply He |]. rewrite <- HN.
  destruct Hr as [[-> _]|(_ & Hr & Hm & _)]; [left; reflexivity | right; split; assumption].
Qed.

Lemma p_rightmost_empty_in_order p fs :
  invariant cfg fs -> Partitions.lt_NumPartitions p = true ->
  returns (FreeSet.p_rightmost_empty dbg cfg p) fs
    (fun r fs' =>
       invariant cfg fs' /\ table_only fs fs' /\
       hints_only p (FreeSet._partitions fs) (FreeSet._partitions fs') /\
       -1 <= r < num_regions cfg).
Proof.
  intros Hinv Hp. assert (HT := proj1 Hinv).
  destruct (proj2 (proj2 HT) p Hp) as [Hint _].
  assert (HN := proj1 (proj2 Hinv)).
  unfold FreeSet.p_rightmost_empty. apply returns_partitions.
  eapply returns_conseq; [apply (rightmost_empty_finds dbg _ p Hp _ (proj1 HT) Hint) |].
  cbv beta. intros r P' (He & Hr).
  split; [apply (invariant_empties_only p); assumption |].
  split; [apply table_only_with_partitions |].
  split; [apply He |]. rewrite <- HN.
  pose proof (proj1 (proj1 HT)) as HNr.
  destruct Hr as [[-> _]|(Hr1 & Hr2 & _)]; lia.
Qed.

Lemma p_leftmost_in_order p fs :
  invariant cfg fs -> Partitions.lt_NumPartitions p = true ->
  exists r,
    FreeSet.p_leftmost dbg cfg p fs = Ret r fs /\
    (r = num_regions cfg \/ (0 <= r < num_regions cfg /\ member (FreeSet._partitions fs) p r)).
Proof.
  intros Hinv Hp. assert (HT := proj1 Hinv).
  destruct (proj2 (proj2 HT) p Hp) as [(_ & _ & Hshape) _].
  assert (HN := proj1 (proj2 Hinv)).
  exists (Partitions._leftmosts (FreeSet._partitions fs) p). split.
  - apply p_leftmost_eq; [exact Hp |].
    destruct Hshape as [[HL _]|(HL & HR & _)]; lia.
  - rewrite <- HN. destruct Hshape as [[HL _]|(HL & HR & Hm & _)]; [left; exact HL | right].
    split; [lia | exact Hm].
Qed.

Lemma p_rightmost_in_order p fs :
  invariant cfg fs -> Partitions.lt_NumPartitions p = true ->
  exists r,
    FreeSet.p_rightmost dbg cfg p fs = Ret r fs /\ -1 <= r < num_regions cfg.
Proof.
  intros Hinv Hp. assert (HT := proj1 Hinv).
  destruct (proj2 (proj2 HT) p Hp) as [(_ & _ & Hshape) _].
  pose proof (proj1 (proj1 HT)) as HNr.
  assert (HN := proj1 (proj2 Hinv)).
  exists (Partitions._rightmosts (FreeSet._partitions fs) p). split.
  - apply p_rightmost_eq. exact Hp.
  - rewrite <- HN. destruct Hshape as [[HL [HR|HR]]|(HL & HR & Hm & _)]; lia.
Qed.

Lemma p_in_free_set_in_order p idx fs :
  invariant cfg fs -> Partitions.lt_NumPartitions p = true ->
  0 <= idx < num_regions cfg ->
  FreeSet.p_in_free_set dbg cfg p idx fs
  = Ret (SimpleBitMap.is_set (Partitions._membership (FreeSet._partitions fs) p) idx) fs.
Proof.
  intros Hinv Hp Hidx. assert (HT := proj1 Hinv). assert (HN := proj1 (proj2 Hinv)).
  unfold FreeSet.p_in_free_set, FreeSet.partitions, Run.zoom.
  unfold Partitions.in_free_set.
  rewrite bm_is_set_eq; [destruct fs; reflexivity | apply HT | exact Hp | lia].
Qed.

Lemma p_find_next_in_order p start fs :
  invariant cfg fs -> Partitions.lt_NumPartitions p = true ->
  exists r,
    FreeSet.p_find_next dbg cfg p start fs = Ret r fs /\
    ((r = num_regions cfg /\
      forall j, start <= j -> 0 <= j < num_regions cfg ->
                ~ member (FreeSet._partitions fs) p j)
     \/
     (start <= r /\ 0 <= r < num_regions cfg /\ member (FreeSet._partitions fs) p r /\
      forall j, start <= j < r -> 0 <= j -> ~ member (FreeSet._partitions fs) p j)).
Proof.
  intros Hinv Hp. assert (HT := proj1 Hinv).
  destruct (proj2 (proj2 HT) p Hp) as [Hint _].
  assert (HN := proj1 (proj2 Hinv)).
  destruct (next_available_region_is_first_member dbg p start _ (proj1 HT) Hp Hint)
    as (r & Er & Hr).
  exists r. split.
  - unfold FreeSet.p_find_next, FreeSet.partitions, Run.zoom.
    rewrite Er. destruct fs; reflexivity.
  - rewrite <- HN. exact Hr.
Qed.

Lemma p_move_in_order idx orig new avail fs :
  invariant cfg fs ->
  0 <= idx < num_regions cfg ->
  member (FreeSet._partitions fs) orig idx ->
  avail <= region_size_bytes cfg ->
  Partitions.expected_movement (FreeSet._partitions fs) orig new avail = true ->
  returns (FreeSet.p_move dbg cfg idx orig new avail) fs
    (fun _ fs' =>
       invariant cfg fs' /\ table_only fs fs' /\
       moved orig new 1 (FreeSet._partitions fs) (FreeSet._partitions fs') /\
       (forall j, 0 <= j < num_regions cfg ->
                  (member (FreeSet._partitions fs') orig j
                   <-> member (FreeSet._partitions fs) orig j /\ j <> idx)) /\
       (forall j, 0 <= j < num_regions cfg ->
                  (member (FreeSet._partitions fs') new j
                   <-> member (FreeSet._partitions fs) new j \/ j = idx))).
Proof.
  intros Hinv Hidx Hm Hav Hexp. assert (HT := proj1 Hinv).
  assert (HN := proj1 (proj2 Hinv)). assert (Hrs := proj1 (proj2 (proj2 Hinv))).
  unfold FreeSet.p_move. apply returns_partitions.
  eapply returns_conseq.
  { apply (move_from_partition_to_partition_moves_one dbg _ idx orig new avail _ HT);
      [lia | exact Hm | lia | exact Hexp]. }
  cbv beta. intros _ P' (HT' & Hmv & Hmo & Hmn & _).
  split; [apply invariant_with_partitions; [assumption | exact HT' | apply Hmv] |].
  split; [apply table_only_with_partitions |].
  cbn [FreeSet._partitions FreeSet.with_partitions]. rewrite <- HN.
  split; [exact Hmv |]. split; assumption.
Qed.

End TableCallsInOrder.


Lemma table_only_alloc_capacity cfg fs fs' j :
  table_only fs fs' -> FreeSet.alloc_capacity cfg fs' j = FreeSet.alloc_capacity cfg fs j.
Proof.
  intros (Eh & _). unfold FreeSet.alloc_capacity. rewrite Eh. reflexivity.
Qed.

Lemma expected_movement_to_mutator s avail :
  avail <= Partitions._region_size_bytes s ->
  Partitions.expected_movement s Collector Mutator avail = true.
Proof.
  intros H. unfold Partitions.expected_movement.
  apply Z.leb_le in H. rewrite H. reflexivity.
Qed.

Lemma expected_movement_to_collector s avail :
  avail <= Partitions._region_size_bytes s ->
  Partitions.expected_movement s Mutator Collector avail = true.
Proof.
  intros H. unfold Partitions.expected_movement.
  apply Z.leb_le in H. rewrite H. reflexivity.
Qed.

Section CollectorToMutator.

Variable dbg : bool.
Variable cfg : Config.

Lemma handed_none mx fs :
  invariant cfg fs -> counters_ok (FreeSet._partitions fs) -> 0 <= mx ->
  handed cfg mx fs mx fs.
Proof.
  intros Hinv Hc Hmx. split; [exact Hinv |]. split; [apply table_only_refl |].
  split; [lia |]. rewrite Z.sub_diag. apply moved_start; [exact Hc | reflexivity | reflexivity].
Qed.

(** One visit of either loop: the region [idx] is handed over with
    [avail] bytes, or stays. *)
Lemma xfer_visit (go : bool) avail idx mx fs :
  invariant cfg fs -> counters_ok (FreeSet._partitions fs) ->
  0 <= idx < num_regions cfg -> member (FreeSet._partitions fs) Collector idx ->
  0 < mx < Word.modulus -> avail <= region_size_bytes cfg ->
  returns (if go then
             FreeSet.p_move dbg cfg idx Collector Mutator avail ;;
             Run.ret (Word.wrap (mx - 1))
           else Run.ret mx) fs
    (fun mx1 fs1 => handed cfg mx fs mx1 fs1 /\ counters_ok (FreeSet._partitions fs1) /\
                    0 <= mx1 < Word.modulus /\
                    forall j, 0 <= j < num_regions cfg ->
                              member (FreeSet._partitions fs1) Collector j ->
                              member (FreeSet._partitions fs) Collector j /\
                              (go = true -> j <> idx)).
Proof.
  intros Hinv Hc Hidx Hm Hmx Hav. destruct go.
  - apply returns_bind. eapply returns_conseq.
    { apply (p_move_in_order dbg cfg idx Collector Mutator avail fs Hinv Hidx Hm Hav).
      apply expected_movement_to_mutator. rewrite (proj1 (proj2 (proj2 Hinv))). exact Hav. }
    cbv beta. intros _ fs1 (Hinv1 & Hto & Hmv & Hmo & _). apply returns_ret.
    rewrite wrap_small by lia.
    split; [| split; [| split; [lia |]]];
      [| | intros j Hj Hmj; split; [| intros _]; apply (Hmo j Hj); exact Hmj].
    + split; [exact Hinv1 |]. split; [exact Hto |]. split; [lia |].
      replace (mx - (mx - 1)) with 1 by ring. exact Hmv.
    + apply (moved_counters_ok Collector Mutator 1 _ _ ltac:(discriminate) eq_refl eq_refl Hmv).
  - apply returns_ret. split; [apply handed_none; [assumption | assumption | lia] |].
    split; [exact Hc |]. split; [lia |].
    intros j Hj Hmj. split; [exact Hmj | discriminate].
Qed.

Lemma handed_trans mx fs mx1 fs1 mx2 fs2 :
  handed cfg mx fs mx1 fs1 -> handed cfg mx1 fs1 mx2 fs2 -> handed cfg mx fs mx2 fs2.
Proof.
  intros (_ & Hto1 & Hle1 & Hmv1) (Hinv2 & Hto2 & Hle2 & Hmv2).
  split; [exact Hinv2 |]. split; [apply (table_only_trans _ _ _ Hto1 Hto2) |].
  split; [lia |].
  replace (mx - mx2) with ((mx - mx1) + (mx1 - mx2)) by ring.
  apply (moved_trans _ _ _ _ _ _ _ Hmv1 Hmv2).
Qed.

Lemma xfer_empty_loop_hands fuel : forall rightmost idx mx fs,
  invariant cfg fs -> counters_ok (FreeSet._partitions fs) ->
  rightmost < num_regions cfg ->
  (idx = num_regions cfg \/
   (0 <= idx < num_regions cfg /\ member (FreeSet._partitions fs) Collector idx)) ->
  0 <= mx < Word.modulus ->
  (Z.to_nat (num_regions cfg - idx) < fuel)%nat ->
  returns (FreeSet.xfer_empty_loop dbg cfg fuel rightmost idx mx) fs (handed cfg mx fs).
Proof.
  induction fuel as [|fuel IH]; intros rightmost idx mx fs Hinv Hc Hr Hidx Hmx Hfuel; [lia |].
  cbn [FreeSet.xfer_empty_loop].
  destruct ((mx >? 0) && (idx <=? rightmost)) eqn:Hgo;
    [| apply returns_ret, handed_none; [assumption | assumption | lia]].
  apply andb_prop in Hgo. destruct Hgo as [Hpos Hle].
  rewrite Z.gtb_ltb in Hpos. apply Z.ltb_lt in Hpos. apply Z.leb_le in Hle.
  destruct Hidx as [-> | [Hidx Hm]]; [lia |].
  apply returns_bind, returns_assertM.
  { rewrite p_in_free_set_in_order by (try assumption; reflexivity). rewrite Hm. reflexivity. }
  apply returns_bind, returns_get. apply returns_bind.
  eapply returns_conseq.
  { apply (xfer_visit (FreeSet.can_allocate_from fs idx) (region_size_bytes cfg) idx mx fs);
      try assumption; lia. }
  cbv beta. intros mx1 fs1 (Hh1 & Hc1 & Hmx1 & Hm1). assert (Hinv1 := proj1 Hh1).
  apply returns_bind.
  destruct (p_find_next_in_order dbg cfg Collector (idx + 1) fs1 Hinv1 eq_refl)
    as (idx' & E' & Hidx').
  eapply returns_eq; [exact E' |].
  eapply returns_conseq.
  { apply (IH rightmost idx' mx1 fs1); try assumption.
    - destruct Hidx' as [[-> _]|(_ & H1 & H2 & _)]; [left; reflexivity | right; split; assumption].
    - destruct Hidx' as [[-> _]|(H0 & H1 & _)]; lia. }
  cbv beta. intros mx2 fs2 Hh2. apply (handed_trans _ _ _ _ _ _ Hh1 Hh2).
Qed.

Lemma xfer_not_empty_loop_hands fuel : forall rightmost idx mx fs,
  invariant cfg fs -> counters_ok (FreeSet._partitions fs) ->
  rightmost < num_regions cfg ->
  (idx = num_regions cfg \/
   (0 <= idx < num_regions cfg /\ member (FreeSet._partitions fs) Collector idx)) ->
  0 <= mx < Word.modulus ->
  (Z.to_nat (num_regions cfg - idx) < fuel)%nat ->
  (forall j, 0 <= j < num_regions cfg -> member (FreeSet._partitions fs) Collector j ->
             j <= rightmost) ->
  (forall j, 0 <= j < num_regions cfg -> j < idx ->
             member (FreeSet._partitions fs) Collector j ->
             FreeSet.alloc_capacity cfg fs j = 0) ->
  returns (FreeSet.xfer_not_empty_loop dbg cfg fuel rightmost idx mx) fs
    (fun mx' fs' =>
       handed cfg mx fs mx' fs' /\
       (mx' = 0 \/
        forall j, 0 <= j < num_regions cfg -> member (FreeSet._partitions fs') Collector j ->
                  FreeSet.alloc_capacity cfg fs' j = 0)).
Proof.
  induction fuel as [|fuel IH];
    intros rightmost idx mx fs Hinv Hc Hr Hidx Hmx Hfuel Hright Hdone; [lia |].
  cbn [FreeSet.xfer_not_empty_loop].
  destruct ((mx >? 0) && (idx <=? rightmost)) eqn:Hgo.
  2:{ apply returns_ret. split; [apply handed_none; [assumption | assumption | lia] |].
      apply andb_false_iff in Hgo. destruct Hgo as [Hgo|Hgo].
      - left. rewrite Z.gtb_ltb in Hgo. apply Z.ltb_ge in Hgo. lia.
      - right. apply Z.leb_gt in Hgo. intros j Hj Hmj. apply Hdone; try assumption.
        pose proof (Hright j Hj Hmj). lia. }
  apply andb_prop in Hgo. destruct Hgo as [Hpos Hle].
  rewrite Z.gtb_ltb in Hpos. apply Z.ltb_lt in Hpos. apply Z.leb_le in Hle.
  destruct Hidx as [-> | [Hidx Hm]]; [lia |].
  apply returns_bind, returns_assertM.
  { rewrite p_in_free_set_in_order by (try assumption; reflexivity). rewrite Hm. reflexivity. }
  apply returns_bind, returns_get. cbv zeta. apply returns_bind.
  eapply returns_conseq.
  { apply (xfer_visit (FreeSet.alloc_capacity cfg fs idx >? 0)
                      (FreeSet.alloc_capacity cfg fs idx) idx mx fs);
      try assumption; [lia |].
    apply (heap_ok_region cfg fs idx); [apply Hinv | exact Hidx]. }
  cbv beta. intros mx1 fs1 (Hh1 & Hc1 & Hmx1 & Hm1). assert (Hinv1 := proj1 Hh1).
  apply returns_bind.
  destruct (p_find_next_in_order dbg cfg Collector (idx + 1) fs1 Hinv1 eq_refl)
    as (idx' & E' & Hidx').
  eapply returns_eq; [exact E' |].
  assert (Hto1 := proj1 (proj2 Hh1)).
  assert (Hac : 0 <= FreeSet.alloc_capacity cfg fs idx)
    by (apply (heap_ok_region cfg fs idx); [apply Hinv | exact Hidx]).
  eapply returns_conseq.
  { apply (IH rightmost idx' mx1 fs1); try assumption.
    - destruct Hidx' as [[-> _]|(_ & H1 & H2 & _)]; [left; reflexivity | right; split; assumption].
    - destruct Hidx' as [[-> _]|(H0 & H1 & _)]; lia.
    - intros j Hj Hmj. apply Hright; [exact Hj | apply (Hm1 j Hj Hmj)].
    - intros j Hj Hlt Hmj. rewrite (table_only_alloc_capacity cfg fs fs1 j Hto1).
      destruct (Hm1 j Hj Hmj) as [Hmj0 Hne].
      destruct (Z.lt_trichotomy j idx) as [Hlt'|[->|Hgt]].
      + apply Hdone; assumption.
      + destruct (Z.gtb_spec (FreeSet.alloc_capacity cfg fs idx) 0) as [Hpos'|Hnp];
          [exfalso; apply Hne; reflexivity | lia].
      + exfalso. destruct Hidx' as [[-> Hno]|(_ & _ & _ & Hno)].
        * apply (Hno j); [lia | lia | exact Hmj].
        * apply (Hno j); [lia | lia | exact Hmj]. }
  cbv beta. intros mx2 fs2 (Hh2 & Hrest).
  split; [apply (handed_trans _ _ _ _ _ _ Hh1 Hh2) | exact Hrest].
Qed.

End CollectorToMutator.


Lemma returns_bind_with {S A B} (Q1 : A -> S -> Prop) (m : Run.M S A) (k : A -> Run.M S B)
      s (Q : B -> S -> Prop) :
  returns m s Q1 -> (forall a s', Q1 a s' -> returns (k a) s' Q) ->
  returns (Run.bind m k) s Q.
Proof.
  intros H1 H2. apply returns_bind. eapply returns_conseq; [exact H1 | exact H2].
Qed.

Lemma returns_bind_nested {S A B C} (m : Run.M S A) (k1 : A -> Run.M S B)
      (k2 : B -> Run.M S C) s (Q : C -> S -> Prop) :
  returns (Run.bind (Run.bind m k1) k2) s Q ->
  returns (Run.bind m (fun a => Run.bind (k1 a) k2)) s Q.
Proof.
  unfold returns, Run.bind. destruct (m s); exact (fun H => H).
Qed.

Section CollectorToMutatorCall.

Variable dbg : bool.
Variable cfg : Config.

Lemma handed_counters_ok mx fs mx' fs' :
  handed cfg mx fs mx' fs' -> counters_ok (FreeSet._partitions fs').
Proof.
  intros (_ & _ & _ & Hmv).
  apply (moved_counters_ok Collector Mutator _ _ _ ltac:(discriminate) eq_refl eq_refl Hmv).
Qed.

Lemma handed_hints p mx fs fs' :
  invariant cfg fs' -> table_only fs fs' -> counters_ok (FreeSet._partitions fs) -> 0 <= mx ->
  hints_only p (FreeSet._partitions fs) (FreeSet._partitions fs') ->
  handed cfg mx fs mx fs'.
Proof.
  intros Hinv Hto Hc Hmx Hh. split; [exact Hinv |]. split; [exact Hto |]. split; [lia |].
  rewrite Z.sub_diag. apply (moved_hints _ _ _ p _ (FreeSet._partitions fs)); [| exact Hh].
  apply moved_start; [exact Hc | reflexivity | reflexivity].
Qed.

Lemma p_leftmost_empty_hands mx fs :
  invariant cfg fs -> counters_ok (FreeSet._partitions fs) -> 0 <= mx ->
  returns (FreeSet.p_leftmost_empty dbg cfg Collector) fs
    (fun r fs' =>
       handed cfg mx fs mx fs' /\
       (r = num_regions cfg \/
        (0 <= r < num_regions cfg /\ member (FreeSet._partitions fs') Collector r))).
Proof.
  intros Hinv Hc Hmx. eapply returns_conseq; [apply p_leftmost_empty_in_order; [exact Hinv | reflexivity] |].
  cbv beta. intros r fs' (Hinv' & Hto & Hh & Hr).
  split; [apply (handed_hints Collector); assumption |].
  destruct Hr as [->|[Hr Hm]]; [left; reflexivity | right]. split; [exact Hr |].
  apply (hints_only_member Collector _ _ Collector r Hh). exact Hm.
Qed.

Lemma p_rightmost_empty_hands mx fs :
  invariant cfg fs -> counters_ok (FreeSet._partitions fs) -> 0 <= mx ->
  returns (FreeSet.p_rightmost_empty dbg cfg Collector) fs
    (fun r fs' => handed cfg mx fs mx fs' /\ r < num_regions cfg).
Proof.
  intros Hinv Hc Hmx. eapply returns_conseq; [apply p_rightmost_empty_in_order; [exact Hinv | reflexivity] |].
  cbv beta. intros r fs' (Hinv' & Hto & Hh & Hr).
  split; [apply (handed_hints Collector); assumption | lia].
Qed.

(** The first half of [move_regions_from_collector_to_mutator]: the
    fully empty regions. *)
Lemma xfer_empty_regions_hands mx fs :
  invariant cfg fs -> counters_ok (FreeSet._partitions fs) -> 0 <= mx < Word.modulus ->
  returns
    (go <- (if mx >? 0 then
              le <- FreeSet.p_leftmost_empty dbg cfg Collector ;;
              re <- FreeSet.p_rightmost_empty dbg cfg Collector ;;
              Run.ret (le <=? re)
            else Run.ret false) ;;
     if go : bool then
       rightmost <- FreeSet.p_rightmost_empty dbg cfg Collector ;;
       idx <- FreeSet.p_leftmost_empty dbg cfg Collector ;;
       FreeSet.xfer_empty_loop dbg cfg (FreeSet.scan_fuel cfg) rightmost idx mx
     else Run.ret mx) fs
    (handed cfg mx fs).
Proof.
  intros Hinv Hc Hmx.
  apply (returns_bind_with (fun _ fs1 => handed cfg mx fs mx fs1)).
  { destruct (mx >? 0); [| apply returns_ret, handed_none; [assumption | assumption | lia]].
    apply (returns_bind_with (fun _ fs1 => handed cfg mx fs mx fs1)).
    { eapply returns_conseq; [apply (p_leftmost_empty_hands mx); [assumption | assumption | lia] |].
      cbv beta. intros r fs1 [H _]. exact H. }
    intros le fs1 H1.
    apply (returns_bind_with (fun _ fs2 => handed cfg mx fs mx fs2)).
    { eapply returns_conseq;
        [apply (p_rightmost_empty_hands mx);
         [apply H1 | apply (handed_counters_ok _ _ _ _ H1) | lia] |].
      cbv beta. intros r fs2 [H _]. apply (handed_trans cfg _ _ _ _ _ _ H1 H). }
    intros re fs2 H2. apply returns_ret. exact H2. }
  intros go fs1 H1. destruct go; [| apply returns_ret; exact H1].
  apply (returns_bind_with (fun r fs2 => handed cfg mx fs mx fs2 /\ r < num_regions cfg)).
  { eapply returns_conseq;
      [apply (p_rightmost_empty_hands mx);
       [apply H1 | apply (handed_counters_ok _ _ _ _ H1) | lia] |].
    cbv beta. intros r fs2 [H Hr]. split; [apply (handed_trans cfg _ _ _ _ _ _ H1 H) | exact Hr]. }
  intros rightmost fs2 [H2 Hr].
  apply (returns_bind_with
           (fun r fs3 => handed cfg mx fs mx fs3 /\
                         (r = num_regions cfg \/
                          (0 <= r < num_regions cfg /\
                           member (FreeSet._partitions fs3) Collector r)))).
  { eapply returns_conseq;
      [apply (p_leftmost_empty_hands mx);
       [apply H2 | apply (handed_counters_ok _ _ _ _ H2) | lia] |].
    cbv beta. intros r fs3 [H Hi]. split; [apply (handed_trans cfg _ _ _ _ _ _ H2 H) | exact Hi]. }
  intros idx fs3 [H3 Hidx].
  eapply returns_conseq.
  { apply (xfer_empty_loop_hands dbg cfg (FreeSet.scan_fuel cfg) rightmost idx mx fs3);
      try assumption; [apply H3 | apply (handed_counters_ok _ _ _ _ H3) |].
    unfold FreeSet.scan_fuel. destruct Hidx as [->|[Hidx _]]; lia. }
  cbv beta. intros mx' fs4 H4. apply (handed_trans cfg _ _ _ _ _ _ H3 H4).
Qed.

(** The second half: the regions that are left, with what they can
    still take. *)
Lemma xfer_not_empty_regions_hands mx fs :
  invariant cfg fs -> counters_ok (FreeSet._partitions fs) -> 0 <= mx < Word.modulus ->
  returns
    (go <- (if mx >? 0 then
              l <- FreeSet.p_leftmost dbg cfg Collector ;;
              r <- FreeSet.p_rightmost dbg cfg Collector ;;
              Run.ret (l <=? r)
            else Run.ret false) ;;
     if go : bool then
       rightmost <- FreeSet.p_rightmost dbg cfg Collector ;;
       idx <- FreeSet.p_leftmost dbg cfg Collector ;;
       _ <- FreeSet.xfer_not_empty_loop dbg cfg (FreeSet.scan_fuel cfg) rightmost idx mx ;;
       Run.ret tt
     else Run.ret tt) fs
    (fun _ fs' =>
       exists mx', handed cfg mx fs mx' fs' /\
       (mx' = 0 \/
        forall j, 0 <= j < num_regions cfg -> member (FreeSet._partitions fs') Collector j ->
                  FreeSet.alloc_capacity cfg fs' j = 0)).
Proof.
  intros Hinv Hc Hmx. assert (HT := proj1 Hinv). assert (HN := proj1 (proj2 Hinv)).
  destruct (proj2 (proj2 HT) Collector eq_refl) as [(Hcont & _ & Hshape) _].
  pose proof (proj1 (proj1 HT)) as HNr.
  assert (EL : FreeSet.p_leftmost dbg cfg Collector fs
               = Ret (Partitions._leftmosts (FreeSet._partitions fs) Collector) fs).
  { apply p_leftmost_eq; [reflexivity |]. destruct Hshape as [[HL _]|(HL & HR & _)]; lia. }
  assert (ER : FreeSet.p_rightmost dbg cfg Collector fs
               = Ret (Partitions._rightmosts (FreeSet._partitions fs) Collector) fs)
    by (apply p_rightmost_eq; reflexivity).
  set (l := Partitions._leftmosts (FreeSet._partitions fs) Collector) in *.
  set (r := Partitions._rightmosts (FreeSet._partitions fs) Collector) in *.
  apply (returns_bind_with (fun go fs1 => fs1 = fs /\ go = (mx >? 0) && (l <=? r))).
  { destruct (mx >? 0); [| apply returns_ret; split; reflexivity].
    apply returns_bind. eapply returns_eq; [exact EL |].
    apply returns_bind. eapply returns_eq; [exact ER |].
    apply returns_ret. split; reflexivity. }
  intros go fs1 [-> ->].
  destruct ((mx >? 0) && (l <=? r)) eqn:Hgo.
  - apply andb_prop in Hgo. destruct Hgo as [_ Hle]. apply Z.leb_le in Hle.
    apply returns_bind. eapply returns_eq; [exact ER |].
    apply returns_bind. eapply returns_eq; [exact EL |].
    apply returns_bind. eapply returns_conseq.
    { apply (xfer_not_empty_loop_hands dbg cfg (FreeSet.scan_fuel cfg) r l mx fs);
        try assumption.
      - destruct Hshape as [[HL HR]|(HL & HR & _)]; lia.
      - destruct Hshape as [[HL HR]|(HL & HR & Hm & _)]; [left; lia | right].
        split; [lia | exact Hm].
      - unfold FreeSet.scan_fuel. destruct Hshape as [[HL HR]|(HL & HR & _)]; lia.
      - intros j Hj Hmj. apply (Hcont j); [lia | exact Hmj].
      - intros j Hj Hlt Hmj. exfalso. pose proof (Hcont j ltac:(lia) Hmj). lia. }
    cbv beta. intros mx' fs' H. apply returns_ret. exists mx'. exact H.
  - apply returns_ret. exists mx.
    split; [apply handed_none; [assumption | assumption | lia] |].
    apply andb_false_iff in Hgo. destruct Hgo as [Hgo|Hgo].
    + left. rewrite Z.gtb_ltb in Hgo. apply Z.ltb_ge in Hgo. lia.
    + right. apply Z.leb_gt in Hgo. intros j Hj Hmj. exfalso.
      pose proof (Hcont j ltac:(lia) Hmj). lia.
Qed.

End CollectorToMutatorCall.


Lemma returns_assert_when {S} dbg (cond : bool) msg (s : S) (Q : unit -> S -> Prop) :
  (dbg = true -> cond = true) -> Q tt s -> returns (Run.assert_ dbg cond msg) s Q.
Proof.
  intros Hc H. destruct dbg; [apply returns_assert; [apply Hc; reflexivity | exact H] |].
  apply returns_eq with (a := tt) (s' := s); [reflexivity | exact H].
Qed.

Section MutatorToCollector.

Variable dbg : bool.
Variable cfg : Config.
Variable to_reserve : Z.

Lemma reserve_regions_loop_reserves i : forall fs,
  invariant cfg fs -> counters_ok (FreeSet._partitions fs) ->
  Z.of_nat i <= num_regions cfg ->
  (dbg = true ->
   forall j, 0 <= j < Z.of_nat i -> member (FreeSet._partitions fs) Mutator j ->
             0 < FreeSet.alloc_capacity cfg fs j) ->
  returns (FreeSet.reserve_regions_loop dbg cfg i to_reserve) fs
          (fun _ fs' => reserved cfg to_reserve (Z.of_nat i) fs fs').
Proof.
  induction i as [|i IH]; intros fs Hinv Hc Hi Hcap.
  - apply returns_ret. split; [exact Hinv |]. split; [apply table_only_refl |].
    exists 0, 0. split; [lia |].
    split; [apply moved_start; [exact Hc | reflexivity | reflexivity] |].
    split; [intros j Hj; split; [intros H; split; [exact H | lia] | intros [H _]; exact H] |].
    split; [intros j Hj; split; [intros H; left; exact H | intros [H|[_ H]]; [exact H | lia]] |].
    left. reflexivity.
  - cbn [FreeSet.reserve_regions_loop]. cbv zeta.
    assert (Hidx : 0 <= Z.of_nat i < num_regions cfg) by lia.
    apply returns_bind. eapply returns_eq;
      [apply p_in_free_set_in_order; [exact Hinv | reflexivity | exact Hidx] |].
    destruct (SimpleBitMap.is_set
                (Partitions._membership (FreeSet._partitions fs) Mutator) (Z.of_nat i)) eqn:Hm;
      cbn [negb].
    + apply returns_bind, returns_get.
      apply returns_bind, returns_assert_when.
      { intros Hd. rewrite Z.gtb_ltb. apply Z.ltb_lt. apply Hcap; [exact Hd | lia | exact Hm]. }
      destruct (Partitions.available_in (FreeSet._partitions fs) Collector <? to_reserve)
        eqn:Hlow; cbn [negb].
      * assert (Hac : FreeSet.alloc_capacity cfg fs (Z.of_nat i) <= region_size_bytes cfg)
          by (apply (heap_ok_region cfg fs); [apply Hinv | exact Hidx]).
        apply returns_bind. eapply returns_conseq.
        { apply (p_move_in_order dbg cfg (Z.of_nat i) Mutator Collector _ fs Hinv Hidx Hm Hac).
          apply expected_movement_to_collector.
          rewrite (proj1 (proj2 (proj2 Hinv))). exact Hac. }
        cbv beta. intros _ fs1 (Hinv1 & Hto1 & Hmv1 & HM1 & HC1).
        eapply returns_conseq.
        { apply (IH fs1); [exact Hinv1 | | lia |].
          - apply (moved_counters_ok Mutator Collector 1 _ _ ltac:(discriminate)
                                     eq_refl eq_refl Hmv1).
          - intros Hd j Hj Hmj. rewrite (table_only_alloc_capacity cfg fs fs1 j Hto1).
            apply Hcap; [exact Hd | lia |]. apply (HM1 j); [lia | exact Hmj]. }
        cbv beta. intros _ fs' (Hinv' & Hto & cut & k & Hcut & Hmv & HM & HC & Hres).
        split; [exact Hinv' |]. split; [apply (table_only_trans _ _ _ Hto1 Hto) |].
        exists cut, (1 + k). split; [lia |].
        split; [apply (moved_trans _ _ _ _ _ _ _ Hmv1 Hmv) |].
        split; [| split; [| exact Hres]].
        -- intros j Hj. rewrite (HM j Hj), (HM1 j Hj). split.
           ++ intros [[H Hne] [H1|H1]]; (split; [exact H | lia]).
           ++ intros [H [H1|H1]]; (split; [split; [exact H | lia] | lia]).
        -- intros j Hj. rewrite (HC j Hj), (HC1 j Hj), (HM1 j Hj). split.
           ++ intros [[H|Ej]|[[H Hne] H1]]; [| subst j |];
                [left; exact H | right; split; [exact Hm | lia] | right; split; [exact H | lia]].
           ++ intros [H|[H H1]]; [left; left; exact H |].
              destruct (Z.eq_dec j (Z.of_nat i)) as [->|Hne]; [left; right; reflexivity |].
              right. split; [split; assumption | lia].
      * apply returns_ret. apply Z.ltb_ge in Hlow.
        split; [exact Hinv |]. split; [apply table_only_refl |].
        exists (Z.of_nat (S i)), 0. split; [lia |].
        split; [apply moved_start; [exact Hc | reflexivity | reflexivity] |].
        split; [intros j Hj; split; [intros H; split; [exact H | lia] | intros [H _]; exact H] |].
        split; [intros j Hj; split; [intros H; left; exact H | intros [H|[_ H]]; [exact H | lia]] |].
        right. exact Hlow.
    + eapply returns_conseq; [apply (IH fs); try assumption; [lia |] |].
      { intros Hd j Hj. apply Hcap; [exact Hd | lia]. }
      cbv beta. intros _ fs' (Hinv' & Hto & cut & k & Hcut & Hmv & HM & HC & Hres).
      split; [exact Hinv' |]. split; [exact Hto |].
      exists cut, k. split; [lia |]. split; [exact Hmv |].
      split; [| split; [| exact Hres]].
      * intros j Hj. rewrite (HM j Hj). split.
        -- intros [H [H1|H1]]; (split; [exact H |]); [lia |].
           destruct (Z.eq_dec j (Z.of_nat i)) as [->|Hne]; [| lia].
           unfold member in H. congruence.
        -- intros [H [H1|H1]]; (split; [exact H | lia]).
      * intros j Hj. rewrite (HC j Hj). split.
        -- intros [H|[H H1]]; [left; exact H | right; split; [exact H | lia]].
        -- intros [H|[H H1]]; [left; exact H | right; split; [exact H |]].
           destruct (Z.eq_dec j (Z.of_nat i)) as [->|Hne]; [| lia].
           unfold member in H. congruence.
Qed.

Lemma reserve_regions_reserves fs :
  invariant cfg fs -> counters_ok (FreeSet._partitions fs) ->
  (dbg = true ->
   forall j, 0 <= j < num_regions cfg -> member (FreeSet._partitions fs) Mutator j ->
             0 < FreeSet.alloc_capacity cfg fs j) ->
  returns (FreeSet.reserve_regions dbg cfg to_reserve) fs
          (fun _ fs' => reserved cfg to_reserve (num_regions cfg) fs fs').
Proof.
  intros Hinv Hc Hcap. unfold FreeSet.reserve_regions.
  assert (HN : 1 <= num_regions cfg).
  { rewrite <- (proj1 (proj2 Hinv)). apply (proj1 (proj1 (proj1 Hinv))). }
  eapply returns_conseq.
  { apply (reserve_regions_loop_reserves (Z.to_nat (num_regions cfg)) fs Hinv Hc); [lia |].
    intros Hd j Hj. apply Hcap; [exact Hd | lia]. }
  cbv beta. rewrite Z2Nat.id by lia. intros _ fs' H. exact H.
Qed.

End MutatorToCollector.


(** X19.  [move_regions_from_collector_to_mutator] on a free set in
    order, in both builds: the call returns, the free set is in order
    again and differs in the partition table only, and some [k] regions,
    no more than [max_xfer_regions], went from the Collector to the
    Mutator partition (the two counts and capacities follow, and no
    region was lost or shared).  When fewer than [max_xfer_regions] went,
    no region that can still take an allocation is left in the Collector
    partition. *)
Theorem move_regions_from_collector_to_mutator_hands_over_at_most_max
        dbg cfg mx fs :
  invariant cfg fs -> counters_ok (FreeSet._partitions fs) -> 0 <= mx < Word.modulus ->
  returns (FreeSet.move_regions_from_collector_to_mutator dbg cfg mx) fs
    (fun _ fs' =>
       invariant cfg fs' /\ table_only fs fs' /\
       exists k, 0 <= k <= mx /\
         moved Collector Mutator k (FreeSet._partitions fs) (FreeSet._partitions fs') /\
         (k = mx \/
          forall j, 0 <= j < num_regions cfg ->
                    member (FreeSet._partitions fs') Collector j ->
                    FreeSet.alloc_capacity cfg fs' j = 0)).
Proof.
  intros Hinv Hc Hmx. unfold FreeSet.move_regions_from_collector_to_mutator.
  apply returns_bind_nested.
  apply (returns_bind_with (handed cfg mx fs)).
  { apply xfer_empty_regions_hands; assumption. }
  intros mx1 fs1 H1.
  eapply returns_conseq.
  { apply (xfer_not_empty_regions_hands dbg cfg mx1 fs1);
      [apply H1 | apply (handed_counters_ok cfg _ _ _ _ H1) |].
    destruct H1 as (_ & _ & H & _). lia. }
  cbv beta. intros _ fs2 (mx2 & H2 & Hrest).
  pose proof (handed_trans cfg _ _ _ _ _ _ H1 H2) as (Hinv2 & Hto2 & Hle & Hmv).
  split; [exact Hinv2 |]. split; [exact Hto2 |].
  exists (mx - mx2). split; [lia |]. split; [exact Hmv |].
  destruct Hrest as [->|Hrest]; [left; lia | right; exact Hrest].
Qed.


Lemma counters_ok_after_calls : counters_ok (FreeSet._partitions (Scenario.after_calls true)).
Proof.
  intros p Hp. destruct p; try discriminate; vm_compute; repeat split; discriminate.
Qed.

Lemma move_regions_from_collector_to_mutator_hands_over_at_most_max_witness :
  returns (FreeSet.move_regions_from_collector_to_mutator true Scenario.cfg 1)
    (Scenario.after_calls true)
    (fun _ fs' =>
       invariant Scenario.cfg fs' /\ table_only (Scenario.after_calls true) fs' /\
       exists k, 0 <= k <= 1 /\
         moved Collector Mutator k (FreeSet._partitions (Scenario.after_calls true))
               (FreeSet._partitions fs') /\
         (k = 1 \/
          forall j, 0 <= j < num_regions Scenario.cfg ->
                    member (FreeSet._partitions fs') Collector j ->
                    FreeSet.alloc_capacity Scenario.cfg fs' j = 0)).
Proof.
  apply (move_regions_from_collector_to_mutator_hands_over_at_most_max
           true Scenario.cfg 1 (Scenario.after_calls true)).
  - apply after_calls_invariant.
  - apply counters_ok_after_calls.
  - rewrite modulus_eq. lia.
Defined.

(** X20.  [reserve_regions] on a free set in order (in a debug build,
    one whose Mutator regions all can take an allocation): the call
    returns, the free set is in order again and differs in the partition
    table only.  The Mutator regions from some index [cut] upwards went
    to the Collector partition and no other region moved; the scan went
    down to region 0 ([cut = 0]) unless it stopped because
    [available_in(Collector)] was no longer below [to_reserve]. *)
Theorem reserve_regions_takes_the_topmost_mutator_regions dbg cfg to_reserve fs :
  invariant cfg fs -> counters_ok (FreeSet._partitions fs) ->
  (dbg = true ->
   forall j, 0 <= j < num_regions cfg -> member (FreeSet._partitions fs) Mutator j ->
             0 < FreeSet.alloc_capacity cfg fs j) ->
  returns (FreeSet.reserve_regions dbg cfg to_reserve) fs
    (fun _ fs' =>
       invariant cfg fs' /\ table_only fs fs' /\
       exists cut k,
         0 <= cut <= num_regions cfg /\
         moved Mutator Collector k (FreeSet._partitions fs) (FreeSet._partitions fs') /\
         (forall j, 0 <= j < num_regions cfg ->
                    (member (FreeSet._partitions fs') Mutator j
                     <-> member (FreeSet._partitions fs) Mutator j /\ j < cut)) /\
         (forall j, 0 <= j < num_regions cfg ->
                    (member (FreeSet._partitions fs') Collector j
                     <-> member (FreeSet._partitions fs) Collector j \/
                         (member (FreeSet._partitions fs) Mutator j /\ cut <= j))) /\
         (cut = 0 \/
          to_reserve <= Partitions.available_in (FreeSet._partitions fs') Collector)).
Proof.
  intros Hinv Hc Hcap.
  eapply returns_conseq; [apply (reserve_regions_reserves dbg cfg to_reserve fs); assumption |].
  cbv beta. intros _ fs' (Hinv' & Hto & cut & k & Hcut & Hmv & HM & HC & Hres).
  split; [exact Hinv' |]. split; [exact Hto |].
  exists cut, k. split; [exact Hcut |]. split; [exact Hmv |].
  split; [| split; [| exact Hres]].
  - intros j Hj. rewrite (HM j Hj). split.
    + intros [H [H1|H1]]; [split; [exact H | exact H1] | lia].
    + intros [H H1]. split; [exact H | left; exact H1].
  - intros j Hj. rewrite (HC j Hj). split.
    + intros [H|[H H1]]; [left; exact H | right; split; [exact H | lia]].
    + intros [H|[H H1]]; [left; exact H | right; split; [exact H | lia]].
Qed.

Lemma counters_ok_with_fragmented_ends :
  counters_ok (FreeSet._partitions (Scenario.with_fragmented_ends true)).
Proof.
  intros p Hp. destruct p; try discriminate; vm_compute; repeat split; discriminate.
Qed.

Lemma reserve_regions_takes_the_topmost_mutator_regions_witness :
  let fs := Scenario.with_fragmented_ends true in
  returns (FreeSet.reserve_regions true Scenario.cfg (2 * Scenario.MiB)) fs
    (fun _ fs' =>
       invariant Scenario.cfg fs' /\ table_only fs fs' /\
       exists cut k,
         0 <= cut <= num_regions Scenario.cfg /\
         moved Mutator Collector k (FreeSet._partitions fs) (FreeSet._partitions fs') /\
         (forall j, 0 <= j < num_regions Scenario.cfg ->
                    (member (FreeSet._partitions fs') Mutator j
                     <-> member (FreeSet._partitions fs) Mutator j /\ j < cut)) /\
         (forall j, 0 <= j < num_regions Scenario.cfg ->
                    (member (FreeSet._partitions fs') Collector j
                     <-> member (FreeSet._partitions fs) Collector j \/
                         (member (FreeSet._partitions fs) Mutator j /\ cut <= j))) /\
         (cut = 0 \/
          2 * Scenario.MiB
          <= Partitions.available_in (FreeSet._partitions fs') Collector)).
Proof.
  intros fs.
  apply (reserve_regions_takes_the_topmost_mutator_regions
           true Scenario.cfg (2 * Scenario.MiB) fs).
  - apply with_fragmented_ends_invariant.
  - apply counters_ok_with_fragmented_ends.
  - intros _ j Hj _.
    assert (H : forallb (fun i => 0 <? FreeSet.alloc_capacity Scenario.cfg fs i)
                        (Lifecycle.region_indices (num_regions Scenario.cfg)) = true)
      by (vm_compute; reflexivity).
    rewrite forallb_forall in H. apply Z.ltb_lt, H, in_region_indices. exact Hj.
Defined.

(* ================================================================= *)
(** * The scan of a rebuild, movements between the partitions and
      humongous allocations *)

Import ScanSpec ContiguousSpec.

Lemma count_in_bounds f n idx : 0 <= count_in f n idx <= Z.of_nat n.
Proof.
  revert idx. induction n as [|n IH]; intros idx; cbn [count_in]; [lia |].
  specialize (IH (idx + 1)). destruct (f idx); lia.
Qed.

Lemma returns_both {S A} (m : Run.M S A) s (Q Q' : A -> S -> Prop) :
  returns m s Q -> returns m s Q' -> returns m s (fun a s' => Q a s' /\ Q' a s').
Proof.
  intros (a & s' & E & H) (a' & s'' & E' & H'). rewrite E in E'. injection E' as <- <-.
  exists a, s'. split; [exact E | split; assumption].
Qed.

Section RebuildScan.

Variable dbg : bool.
Variable cfg : Config.

(** One step of the scan, by what it adds. *)
Lemma find_regions_visit_adds rs idx l fs :
  table_ok (FreeSet._partitions fs) ->
  0 <= idx < Partitions._max (FreeSet._partitions fs) ->
  returns (FreeSet.find_regions_visit dbg cfg rs idx l) fs
    (fun l' fs' =>
       table_only fs fs' /\
       table_ok (FreeSet._partitions fs') /\
       Partitions._max (FreeSet._partitions fs') = Partitions._max (FreeSet._partitions fs) /\
       (forall j, 0 <= j < Partitions._max (FreeSet._partitions fs) ->
                  (member (FreeSet._partitions fs') Mutator j
                   <-> member (FreeSet._partitions fs) Mutator j \/
                       (j = idx /\ accepted cfg (FreeSet._heap fs) j = true))) /\
       FreeSet.mutator_regions l'
       = (if accepted cfg (FreeSet._heap fs) idx
          then Word.wrap (FreeSet.mutator_regions l + 1) else FreeSet.mutator_regions l) /\
       FreeSet.cset_regions l'
       = (if trashed (FreeSet._heap fs) idx
          then Word.wrap (FreeSet.cset_regions l + 1) else FreeSet.cset_regions l)).
Proof.
  intros Hok Hidx.
  set (P := FreeSet._partitions fs) in *.
  assert (HN := proj1 Hok). pose proof pow62_modulus as H62.
  unfold FreeSet.find_regions_visit, FreeSet.get_region.
  apply returns_bind, returns_gets.
  unfold accepted, trashed.
  set (region := Heap.get_region (FreeSet._heap fs) idx).
  assert (Hsame : forall c,
            c = (if Heap.is_trash region then Word.wrap (FreeSet.cset_regions l + 1)
                 else FreeSet.cset_regions l) ->
            (Heap.is_alloc_allowed region || Heap.is_trash region) &&
            (FreeSet.alloc_capacity_region cfg region
             >? Word.wrap (PLAB_min_size cfg * HeapWordSize)) = false ->
            returns
              (Run.ret (FreeSet.mk_scan_locals c (FreeSet.mutator_leftmost l)
                          (FreeSet.mutator_rightmost l) (FreeSet.mutator_leftmost_empty l)
                          (FreeSet.mutator_rightmost_empty l) (FreeSet.mutator_regions l)
                          (FreeSet.mutator_used l))) fs
              (fun l' fs' =>
                 table_only fs fs' /\
                 table_ok (FreeSet._partitions fs') /\
                 Partitions._max (FreeSet._partitions fs') = Partitions._max P /\
                 (forall j, 0 <= j < Partitions._max P ->
                            (member (FreeSet._partitions fs') Mutator j
                             <-> member P Mutator j \/
                                 (j = idx /\
                                  (Heap.is_alloc_allowed (Heap.get_region (FreeSet._heap fs) j)
                                   || Heap.is_trash (Heap.get_region (FreeSet._heap fs) j)) &&
                                  (FreeSet.alloc_capacity_region cfg
                                     (Heap.get_region (FreeSet._heap fs) j)
                                   >? Word.wrap (PLAB_min_size cfg * HeapWordSize)) = true))) /\
                 FreeSet.mutator_regions l'
                 = (if (Heap.is_alloc_allowed region || Heap.is_trash region) &&
                       (FreeSet.alloc_capacity_region cfg region
                        >? Word.wrap (PLAB_min_size cfg * HeapWordSize))
                    then Word.wrap (FreeSet.mutator_regions l + 1)
                    else FreeSet.mutator_regions l) /\
                 FreeSet.cset_regions l'
                 = (if Heap.is_trash region then Word.wrap (FreeSet.cset_regions l + 1)
                    else FreeSet.cset_regions l))).
  { intros c Ec Hacc. apply returns_ret. split; [apply table_only_refl |]. split; [exact Hok |].
    split; [reflexivity |]. rewrite Hacc. cbn [FreeSet.mutator_regions FreeSet.cset_regions].
    split; [| split; [reflexivity | exact Ec]].
    intros j Hj. split; [intros H; left; exact H |].
    intros [H|[-> H]]; [exact H |]. fold region in H. congruence. }
  destruct (Heap.is_alloc_allowed region || Heap.is_trash region) eqn:Ha;
    [| apply Hsame; reflexivity].
  destruct (FreeSet.alloc_capacity_region cfg region >? _) eqn:Hc;
    [| apply Hsame; reflexivity].
  apply returns_bind.
  eapply returns_eq.
  { apply partitions_eq. unfold Partitions.raw_set_membership.
    apply bm_set_bit_eq; [exact Hok | reflexivity | exact Hidx]. }
  apply returns_ret. fold P.
  set (P' := Partitions.with_membership P _).
  split; [apply table_only_with_partitions |].
  split.
  { exact (table_ok_with_membership P Mutator _ Hok
             (bitmap_ok_set_bit _ _ idx (proj2 Hok Mutator eq_refl))). }
  split; [reflexivity |].
  cbn [FreeSet.mutator_regions FreeSet.cset_regions FreeSet._partitions
       FreeSet.with_partitions andb].
  split; [| split; reflexivity].
  intros j Hj. change (0 <= j < Partitions._max P) in Hj.
  pose proof (member_set_bit P Mutator idx Mutator j ltac:(lia) ltac:(lia)) as H.
  fold P' in H. rewrite H. split.
  - intros [Hm|[_ ->]]; [left; exact Hm | right].
    split; [reflexivity |]. fold region. rewrite Ha, Hc. reflexivity.
  - intros [Hm|[-> _]]; [left; exact Hm | right; split; reflexivity].
Qed.

(** The scan over the regions [idx, idx + n), by what it adds. *)
Lemma find_regions_loop_adds rs n : forall idx l fs,
  table_ok (FreeSet._partitions fs) ->
  0 <= idx -> idx + Z.of_nat n <= Partitions._max (FreeSet._partitions fs) ->
  0 <= FreeSet.mutator_regions l < Word.modulus ->
  0 <= FreeSet.cset_regions l < Word.modulus ->
  returns (Run.for_range n idx l (FreeSet.find_regions_visit dbg cfg rs)) fs
    (fun l' fs' =>
       table_only fs fs' /\
       (forall j, 0 <= j < Partitions._max (FreeSet._partitions fs) ->
                  (member (FreeSet._partitions fs') Mutator j
                   <-> member (FreeSet._partitions fs) Mutator j \/
                       (idx <= j < idx + Z.of_nat n /\
                        accepted cfg (FreeSet._heap fs) j = true))) /\
       FreeSet.mutator_regions l'
       = Word.wrap (FreeSet.mutator_regions l
                    + count_in (accepted cfg (FreeSet._heap fs)) n idx) /\
       FreeSet.cset_regions l'
       = Word.wrap (FreeSet.cset_regions l
                    + count_in (trashed (FreeSet._heap fs)) n idx)).
Proof.
  induction n as [|n IH]; intros idx l fs Hok Hidx Hn Hmr Hcs; cbn [Run.for_range count_in].
  - apply returns_ret. split; [apply table_only_refl |].
    rewrite !Z.add_0_r, !wrap_small by assumption.
    split; [| split; reflexivity].
    intros j Hj. split; [intros H; left; exact H | intros [H|[H _]]; [exact H | lia]].
  - apply returns_bind.
    eapply returns_conseq; [apply find_regions_visit_adds; [exact Hok | lia] |].
    cbv beta. intros l1 fs1 (Ht1 & Hok1 & EN & Hm1 & Hr1 & Hc1).
    assert (Eh : FreeSet._heap fs1 = FreeSet._heap fs) by apply Ht1.
    eapply returns_conseq.
    { apply (IH (idx + 1) l1 fs1 Hok1); [lia | rewrite EN; lia | |].
      - rewrite Hr1. destruct (accepted _ _ _); [apply wrap_range | exact Hmr].
      - rewrite Hc1. destruct (trashed _ _); [apply wrap_range | exact Hcs]. }
    cbv beta. rewrite EN, Eh. intros l2 fs2 (Ht2 & Hm2 & Hr2 & Hc2).
    split; [eapply table_only_trans; eassumption |].
    split; [| split].
    + intros j Hj. rewrite (Hm2 j Hj), (Hm1 j Hj). split.
      * intros [[H|[-> H]]|[H1 H2]];
          [left; exact H | right; split; [lia | exact H] | right; split; [lia | exact H2]].
      * intros [H|[H1 H2]]; [left; left; exact H |].
        destruct (Z.eq_dec j idx) as [->|Hne];
          [left; right; split; [reflexivity | exact H2] | right; split; [lia | exact H2]].
    + rewrite Hr2, Hr1. destruct (accepted cfg (FreeSet._heap fs) idx).
      * rewrite wrap_add_l. f_equal. ring.
      * reflexivity.
    + rewrite Hc2, Hc1. destruct (trashed (FreeSet._heap fs) idx).
      * rewrite wrap_add_l. f_equal. ring.
      * reflexivity.
Qed.

Lemma find_regions_with_alloc_capacity_takes fs :
  table_ok (FreeSet._partitions fs) ->
  Partitions._max (FreeSet._partitions fs) = num_regions cfg ->
  returns (FreeSet.find_regions_with_alloc_capacity dbg cfg) fs
    (fun cset fs' =>
       (forall j, 0 <= j < num_regions cfg ->
                  (member (FreeSet._partitions fs') Mutator j
                   <-> accepted cfg (FreeSet._heap fs) j = true)) /\
       Partitions.count (FreeSet._partitions fs') Mutator
       = count_in (accepted cfg (FreeSet._heap fs)) (Z.to_nat (num_regions cfg)) 0 /\
       cset = count_in (trashed (FreeSet._heap fs)) (Z.to_nat (num_regions cfg)) 0).
Proof.
  intros Hok HNeq.
  set (P := FreeSet._partitions fs) in *.
  assert (HN := proj1 Hok). pose proof pow62_modulus as H62.
  unfold FreeSet.find_regions_with_alloc_capacity.
  destruct (make_all_regions_unavailable_returns P) as (P1 & E1 & Hsz1 & H1).
  apply returns_bind.
  eapply returns_eq; [unfold FreeSet.clear_internal; apply partitions_eq; exact E1 |].
  destruct (cleared_invariant P P1 Hok Hsz1) as (Hinv1 & Hnone1).
  { intros p Hp. destruct (H1 p Hp) as (A1 & A2 & A3 & A4 & A5 & A6 & A7 & A8).
    repeat split; assumption. }
  assert (Hok1 : table_ok P1) by apply Hinv1.
  assert (EN1 : Partitions._max P1 = Partitions._max P) by apply Hsz1.
  apply returns_bind, returns_get.
  cbn [FreeSet._partitions FreeSet.with_partitions].
  apply returns_bind.
  eapply returns_conseq.
  { apply (find_regions_loop_adds _ (Z.to_nat (num_regions cfg)) 0 _
             (FreeSet.with_partitions fs P1)); cbn [FreeSet._partitions FreeSet.with_partitions
             FreeSet.mutator_regions FreeSet.cset_regions].
    - exact Hok1.
    - lia.
    - rewrite EN1. lia.
    - rewrite modulus_eq. lia.
    - rewrite modulus_eq. lia. }
  cbv beta. cbn [FreeSet._partitions FreeSet.with_partitions FreeSet._heap
                 FreeSet.mutator_regions FreeSet.cset_regions].
  intros l fs2 (Ht2 & Hm2 & Hr2 & Hc2).
  replace (FreeSet._heap (FreeSet.with_partitions fs P1)) with (FreeSet._heap fs) in *
    by (destruct fs; reflexivity).
  destruct (establish_intervals_returns
              (Word.to_ssize (FreeSet.mutator_leftmost l))
              (Word.to_ssize (FreeSet.mutator_rightmost l))
              (Word.to_ssize (FreeSet.mutator_leftmost_empty l))
              (Word.to_ssize (FreeSet.mutator_rightmost_empty l))
              (FreeSet.mutator_regions l) (FreeSet.mutator_used l) (FreeSet._partitions fs2))
    as (P3 & E3 & Hsz3 & Em3 & HM & HC).
  apply returns_bind.
  eapply returns_eq; [apply partitions_eq; exact E3 |].
  apply returns_ret.
  cbn [FreeSet._partitions FreeSet.with_partitions].
  pose proof (count_in_bounds (accepted cfg (FreeSet._heap fs))
                              (Z.to_nat (num_regions cfg)) 0) as Hb1.
  pose proof (count_in_bounds (trashed (FreeSet._heap fs))
                              (Z.to_nat (num_regions cfg)) 0) as Hb2.
  rewrite Z.add_0_l in Hr2, Hc2. rewrite wrap_small in Hr2, Hc2 by lia.
  split; [| split].
  - intros j Hj. unfold member. rewrite Em3. fold (member (FreeSet._partitions fs2) Mutator j).
    rewrite (Hm2 j) by lia. split.
    + intros [H|[_ H]]; [exfalso; apply (Hnone1 Mutator j eq_refl); [lia | exact H] | exact H].
    + intros H. right. split; [lia | exact H].
  - unfold Partitions.count. destruct HM as (_ & _ & _ & _ & MCn & _). rewrite MCn. exact Hr2.
  - exact Hc2.
Qed.

End RebuildScan.

(** X21.  [find_regions_with_alloc_capacity] (and so [prepare_to_rebuild]),
    on a table of the right shape and whatever it held before, returns
    in both builds and rebuilds the table from the heap alone: a region
    is in the Mutator partition exactly when allocation is allowed in
    it or it is trash, and it offers more than [PLAB::min_size()]
    words; no region is in the Collector partition.  The Mutator count
    is the number of the regions taken, its capacity one region's size
    for each, the Collector count and capacity are 0, and the table is
    in order.  The result [cset_regions] is the number of trash regions;
    the heap and the allocation bias are not touched. *)
Theorem find_regions_with_alloc_capacity_takes_the_regions_with_capacity dbg cfg fs :
  table_ok (FreeSet._partitions fs) ->
  Partitions._max (FreeSet._partitions fs) = num_regions cfg ->
  returns (FreeSet.find_regions_with_alloc_capacity dbg cfg) fs
    (fun cset fs' =>
       table_only fs fs' /\
       TableSpec.invariant (FreeSet._partitions fs') /\
       (forall j, 0 <= j < num_regions cfg ->
                  (member (FreeSet._partitions fs') Mutator j
                   <-> accepted cfg (FreeSet._heap fs) j = true)) /\
       (forall j, 0 <= j < num_regions cfg ->
                  ~ member (FreeSet._partitions fs') Collector j) /\
       Partitions.count (FreeSet._partitions fs') Mutator
       = count_in (accepted cfg (FreeSet._heap fs)) (Z.to_nat (num_regions cfg)) 0 /\
       Partitions.capacity_of (FreeSet._partitions fs') Mutator
       = Word.wrap (Partitions.count (FreeSet._partitions fs') Mutator
                    * Partitions._region_size_bytes (FreeSet._partitions fs)) /\
       Partitions.count (FreeSet._partitions fs') Collector = 0 /\
       Partitions.capacity_of (FreeSet._partitions fs') Collector = 0 /\
       cset = count_in (trashed (FreeSet._heap fs)) (Z.to_nat (num_regions cfg)) 0).
Proof.
  intros Hok HN.
  eapply returns_conseq.
  { apply returns_both.
    - apply (find_regions_with_alloc_capacity_returns dbg cfg fs Hok HN).
    - apply (find_regions_with_alloc_capacity_takes dbg cfg fs Hok HN). }
  cbv beta. intros cset fs' ((Hto & _ & Hinv & Hcap & HcapC & HcntC & HnoC) & Hmem & Hcnt & Hcs).
  split; [exact Hto |]. split; [exact Hinv |]. split; [exact Hmem |].
  split; [intros j Hj; apply HnoC; rewrite HN; exact Hj |].
  split; [exact Hcnt |]. split; [exact Hcap |]. split; [exact HcntC |].
  split; [exact HcapC | exact Hcs].
Qed.

Lemma find_regions_with_alloc_capacity_takes_the_regions_with_capacity_witness :
  let fs := FreeSet.construct Scenario.cfg Scenario.zeroed Scenario.fragmented_ends 16 in
  returns (FreeSet.find_regions_with_alloc_capacity true Scenario.cfg) fs
    (fun cset fs' =>
       table_only fs fs' /\
       TableSpec.invariant (FreeSet._partitions fs') /\
       (forall j, 0 <= j < num_regions Scenario.cfg ->
                  (member (FreeSet._partitions fs') Mutator j
                   <-> accepted Scenario.cfg (FreeSet._heap fs) j = true)) /\
       (forall j, 0 <= j < num_regions Scenario.cfg ->
                  ~ member (FreeSet._partitions fs') Collector j) /\
       Partitions.count (FreeSet._partitions fs') Mutator
       = count_in (accepted Scenario.cfg (FreeSet._heap fs))
                  (Z.to_nat (num_regions Scenario.cfg)) 0 /\
       Partitions.capacity_of (FreeSet._partitions fs') Mutator
       = Word.wrap (Partitions.count (FreeSet._partitions fs') Mutator
                    * Partitions._region_size_bytes (FreeSet._partitions fs)) /\
       Partitions.count (FreeSet._partitions fs') Collector = 0 /\
       Partitions.capacity_of (FreeSet._partitions fs') Collector = 0 /\
       cset = count_in (trashed (FreeSet._heap fs)) (Z.to_nat (num_regions Scenario.cfg)) 0).
Proof.
  intros fs.
  destruct (construct_table_ok Scenario.cfg Scenario.zeroed Scenario.fragmented_ends)
    as (Hok & HN & _).
  { intros p j. cbn. lia. }
  { cbn. lia. }
  apply (find_regions_with_alloc_capacity_takes_the_regions_with_capacity
           true Scenario.cfg fs); [exact Hok | exact HN].
Defined.

Lemma bounds_of_members s s' p idx :
  interval_ok s p -> interval_ok s' p -> Partitions._max s' = Partitions._max s ->
  (forall j, 0 <= j < Partitions._max s -> (member s' p j <-> member s p j)) ->
  0 <= idx < Partitions._max s -> member s p idx ->
  Partitions._leftmosts s' p = Partitions._leftmosts s p /\
  Partitions._rightmosts s' p = Partitions._rightmosts s p.
Proof.
  intros (Hc & _ & Hs) (Hc' & _ & Hs') EN Hm Hidx Hmi.
  unfold contains in Hc, Hc'. rewrite EN in *.
  pose proof (Hc idx Hidx Hmi) as Hb.
  pose proof (Hc' idx Hidx (proj2 (Hm idx Hidx) Hmi)) as Hb'.
  destruct Hs as [[HL HR]|(HL & HR & HmL & HmR)]; [lia |].
  destruct Hs' as [[HL' HR']|(HL' & HR' & HmL' & HmR')]; [lia |].
  set (L := Partitions._leftmosts s p) in *. set (R := Partitions._rightmosts s p) in *.
  set (L' := Partitions._leftmosts s' p) in *. set (R' := Partitions._rightmosts s' p) in *.
  assert (HL0 : 0 <= L < Partitions._max s) by lia.
  assert (HR0 : 0 <= R < Partitions._max s) by lia.
  assert (HL0' : 0 <= L' < Partitions._max s) by lia.
  assert (HR0' : 0 <= R' < Partitions._max s) by lia.
  pose proof (Hc' L HL0 (proj2 (Hm L HL0) HmL)).
  pose proof (Hc' R HR0 (proj2 (Hm R HR0) HmR)).
  pose proof (Hc L' HL0' (proj1 (Hm L' HL0') HmL')).
  pose proof (Hc R' HR0' (proj1 (Hm R' HR0') HmR')).
  lia.
Qed.

Lemma expected_movement_back s s' orig new avail :
  Partitions._region_size_bytes s' = Partitions._region_size_bytes s ->
  avail <= Partitions._region_size_bytes s ->
  Partitions.expected_movement s orig new avail = true ->
  Partitions.expected_movement s' new orig avail = true.
Proof.
  intros Ers Hav H. destruct (expected_movement_distinct _ _ _ _ H) as (Hne & Ho & Hn).
  unfold Partitions.expected_movement. rewrite Ers.
  apply Z.leb_le in Hav. rewrite Hav.
  destruct orig, new; try discriminate; try congruence; reflexivity.
Qed.

(** X22.  [move_from_partition_to_partition(idx, orig, new, available)]
    on a table in order, for a region [idx] of [orig] and a movement
    that its assertions expect (Mutator to Collector or back, with
    [available] at most a region's size), returns in both builds and
    moves that one region: [idx] leaves [orig] and joins [new], no other
    region changes its partition, the count of [orig] goes down and that
    of [new] up by one, the capacities by one region's size, the used
    totals by [region_size_bytes - available] (all in [size_t]
    arithmetic), and the table is in order again. *)
Theorem move_from_partition_to_partition_moves_that_region
        dbg alloc_capacity idx orig new avail s :
  TableSpec.invariant s ->
  0 <= idx < Partitions._max s ->
  member s orig idx ->
  avail <= Partitions._region_size_bytes s ->
  Partitions.expected_movement s orig new avail = true ->
  returns (Partitions.move_from_partition_to_partition dbg alloc_capacity idx orig new avail) s
    (fun _ s' =>
       TableSpec.invariant s' /\
       (forall j, 0 <= j < Partitions._max s ->
                  (member s' orig j <-> member s orig j /\ j <> idx)) /\
       (forall j, 0 <= j < Partitions._max s ->
                  (member s' new j <-> member s new j \/ j = idx)) /\
       Partitions.count s' orig = Word.wrap (Partitions.count s orig - 1) /\
       Partitions.count s' new = Word.wrap (Partitions.count s new + 1) /\
       Partitions.capacity_of s' orig
       = Word.wrap (Partitions.capacity_of s orig - Partitions._region_size_bytes s) /\
       Partitions.capacity_of s' new
       = Word.wrap (Partitions.capacity_of s new + Partitions._region_size_bytes s) /\
       Partitions.used_by s' orig
       = Word.wrap (Partitions.used_by s orig
                    - Word.wrap (Partitions._region_size_bytes s - avail)) /\
       Partitions.used_by s' new
       = Word.wrap (Partitions.used_by s new
                    + Word.wrap (Partitions._region_size_bytes s - avail))).
Proof.
  intros Hinv Hidx Hm Hav Hexp.
  eapply returns_conseq.
  { apply (move_from_partition_to_partition_moves_one dbg alloc_capacity idx orig new avail s);
      assumption. }
  cbv beta. intros _ s' (Hinv' & (_ & C1 & C2 & C3 & C4 & _) & Hmo & Hmn & U1 & U2).
  rewrite Z.mul_1_l in C3, C4.
  repeat (split; [assumption |]). assumption.
Qed.

Lemma move_from_partition_to_partition_moves_that_region_witness :
  let s := FreeSet._partitions (Scenario.after_calls true) in
  returns (Partitions.move_from_partition_to_partition
             true (fun _ => Scenario.MiB) 15 Collector Mutator Scenario.MiB) s
    (fun _ s' =>
       TableSpec.invariant s' /\
       (forall j, 0 <= j < Partitions._max s ->
                  (member s' Collector j <-> member s Collector j /\ j <> 15)) /\
       (forall j, 0 <= j < Partitions._max s ->
                  (member s' Mutator j <-> member s Mutator j \/ j = 15)) /\
       Partitions.count s' Collector = Word.wrap (Partitions.count s Collector - 1) /\
       Partitions.count s' Mutator = Word.wrap (Partitions.count s Mutator + 1) /\
       Partitions.capacity_of s' Collector
       = Word.wrap (Partitions.capacity_of s Collector - Partitions._region_size_bytes s) /\
       Partitions.capacity_of s' Mutator
       = Word.wrap (Partitions.capacity_of s Mutator + Partitions._region_size_bytes s) /\
       Partitions.used_by s' Collector
       = Word.wrap (Partitions.used_by s Collector
                    - Word.wrap (Partitions._region_size_bytes s - Scenario.MiB)) /\
       Partitions.used_by s' Mutator
       = Word.wrap (Partitions.used_by s Mutator
                    + Word.wrap (Partitions._region_size_bytes s - Scenario.MiB))).
Proof.
  intros s.
  apply (move_from_partition_to_partition_moves_that_region
           true (fun _ => Scenario.MiB) 15 Collector Mutator Scenario.MiB s).
  - apply (after_calls_invariant true).
  - vm_compute. split; [discriminate | reflexivity].
  - vm_compute. reflexivity.
  - vm_compute. discriminate.
  - vm_compute. reflexivity.
Defined.

(** X23.  A region moved to the other partition and back, with the
    same [available], is where it was: after
    [move_from_partition_to_partition(idx, orig, new, available)]
    followed by [move_from_partition_to_partition(idx, new, orig,
    available)] on a table in order whose counters are [size_t] values,
    both partitions hold the regions they held, with the counts,
    capacities and used totals they had; [orig] has its interval
    [leftmost, rightmost] back, and the table is in order. *)
Theorem move_from_partition_to_partition_and_back
        dbg alloc_capacity idx orig new avail s :
  TableSpec.invariant s ->
  counters_ok s ->
  Partitions.used_by s orig < Word.modulus -> Partitions.used_by s new < Word.modulus ->
  0 <= idx < Partitions._max s ->
  member s orig idx ->
  avail <= Partitions._region_size_bytes s ->
  Partitions.expected_movement s orig new avail = true ->
  returns (Partitions.move_from_partition_to_partition dbg alloc_capacity idx orig new avail ;;
           Partitions.move_from_partition_to_partition dbg alloc_capacity idx new orig avail) s
    (fun _ s' =>
       TableSpec.invariant s' /\
       (forall q j, Partitions.lt_NumPartitions q = true -> 0 <= j < Partitions._max s ->
                    (member s' q j <-> member s q j)) /\
       (forall q, Partitions.lt_NumPartitions q = true ->
                  Partitions.count s' q = Partitions.count s q /\
                  Partitions.capacity_of s' q = Partitions.capacity_of s q /\
                  Partitions.used_by s' q = Partitions.used_by s q) /\
       Partitions._leftmosts s' orig = Partitions._leftmosts s orig /\
       Partitions._rightmosts s' orig = Partitions._rightmosts s orig).
Proof.
  intros Hinv Hc Hu1 Hu2 Hidx Hm Hav Hexp.
  destruct (expected_movement_distinct _ _ _ _ Hexp) as (Hne & Ho & Hn).
  destruct (Hc orig Ho) as [Hco Hcao]. destruct (Hc new Hn) as [Hcn Hcan].
  assert (Huo : 0 <= Partitions.used_by s orig) by apply (proj2 (proj2 Hinv) orig Ho).
  assert (Hun : 0 <= Partitions.used_by s new) by apply (proj2 (proj2 Hinv) new Hn).
  apply returns_bind. eapply returns_conseq.
  { apply (move_from_partition_to_partition_moves_one dbg alloc_capacity idx orig new avail s);
      assumption. }
  cbv beta. intros _ s1 (Hinv1 & ((EN1 & Ers1) & A1 & A2 & A3 & A4 & _) & Hmo1 & Hmn1 & U1 & U2).
  eapply returns_conseq.
  { apply (move_from_partition_to_partition_moves_one dbg alloc_capacity idx new orig avail s1);
      try assumption.
    - rewrite EN1. exact Hidx.
    - apply Hmn1; [exact Hidx | right; reflexivity].
    - rewrite Ers1. exact Hav.
    - apply (expected_movement_back s); assumption. }
  cbv beta. intros _ s2 (Hinv2 & ((EN2 & Ers2) & B1 & B2 & B3 & B4 & _) & Hmo2 & Hmn2 & V1 & V2).
  rewrite EN1 in *. rewrite Ers1 in *.
  assert (Hq : forall q, Partitions.lt_NumPartitions q = true -> q = orig \/ q = new).
  { intros q Hq. destruct q, orig, new; try discriminate; try congruence; auto. }
  assert (Hmem : forall q j, Partitions.lt_NumPartitions q = true ->
                             0 <= j < Partitions._max s -> (member s2 q j <-> member s q j)).
  { intros q j Hlt Hj. destruct (Hq q Hlt) as [-> | ->].
    - rewrite (Hmn2 j Hj), (Hmo1 j Hj). split.
      + intros [[H _]| ->]; assumption.
      + intros H. destruct (Z.eq_dec j idx); [right; assumption | left; split; assumption].
    - rewrite (Hmo2 j Hj), (Hmn1 j Hj). split.
      + intros [[H| ->] Hne']; [exact H | congruence].
      + intros H. split; [left; exact H |]. intros ->.
        apply (proj1 (proj2 Hinv) idx Hidx).
        destruct orig, new; try discriminate; try congruence; split; assumption. }
  split; [exact Hinv2 |]. split; [exact Hmem |].
  split.
  { intros q Hlt. rewrite Z.mul_1_l in *. destruct (Hq q Hlt) as [-> | ->].
    - rewrite B2, A1, wrap_add_l, B4, A3, wrap_add_l, V2, U1, wrap_add_l.
      rewrite <- (wrap_small (Partitions.count s orig)) at 2 by assumption.
      rewrite <- (wrap_small (Partitions.capacity_of s orig)) at 2 by assumption.
      rewrite <- (wrap_small (Partitions.used_by s orig)) at 2 by lia.
      split; [f_equal; ring | split; f_equal; ring].
    - rewrite B1, A2, wrap_sub_l, B3, A4, wrap_sub_l, V1, U2, wrap_sub_l.
      rewrite <- (wrap_small (Partitions.count s new)) at 2 by assumption.
      rewrite <- (wrap_small (Partitions.capacity_of s new)) at 2 by assumption.
      rewrite <- (wrap_small (Partitions.used_by s new)) at 2 by lia.
      split; [f_equal; ring | split; f_equal; ring]. }
  apply (bounds_of_members s s2 orig idx); try assumption.
  - apply (proj2 (proj2 Hinv) orig Ho).
  - apply (proj2 (proj2 Hinv2) orig Ho).
  - intros j Hj. apply Hmem; assumption.
Qed.

Lemma move_from_partition_to_partition_and_back_witness :
  let s := FreeSet._partitions (Scenario.after_calls true) in
  returns (Partitions.move_from_partition_to_partition
             true (fun _ => Scenario.MiB) 15 Collector Mutator Scenario.MiB ;;
           Partitions.move_from_partition_to_partition
             true (fun _ => Scenario.MiB) 15 Mutator Collector Scenario.MiB) s
    (fun _ s' =>
       TableSpec.invariant s' /\
       (forall q j, Partitions.lt_NumPartitions q = true -> 0 <= j < Partitions._max s ->
                    (member s' q j <-> member s q j)) /\
       (forall q, Partitions.lt_NumPartitions q = true ->
                  Partitions.count s' q = Partitions.count s q /\
                  Partitions.capacity_of s' q = Partitions.capacity_of s q /\
                  Partitions.used_by s' q = Partitions.used_by s q) /\
       Partitions._leftmosts s' Collector = Partitions._leftmosts s Collector /\
       Partitions._rightmosts s' Collector = Partitions._rightmosts s Collector).
Proof.
  intros s.
  apply (move_from_partition_to_partition_and_back
           true (fun _ => Scenario.MiB) 15 Collector Mutator Scenario.MiB s).
  - apply (after_calls_invariant true).
  - apply counters_ok_after_calls.
  - vm_compute. reflexivity.
  - vm_compute. reflexivity.
  - vm_compute. split; [discriminate | reflexivity].
  - vm_compute. reflexivity.
  - vm_compute. discriminate.
  - vm_compute. reflexivity.
Defined.

Lemma returns_is_post {S A} (m : Run.M S A) s (Q : A -> S -> Prop) :
  returns m s Q -> post m s Q.
Proof. intros H a s' E. exact (returns_inv m s a s' Q H E). Qed.

Lemma post_bind_with {S A B} (Q1 : A -> S -> Prop) (m : Run.M S A) (k : A -> Run.M S B)
      s (Q : B -> S -> Prop) :
  post m s Q1 -> (forall a s', Q1 a s' -> post (k a) s' Q) -> post (Run.bind m k) s Q.
Proof.
  intros H1 H2. apply post_bind. intros a s1 E. apply H2. exact (H1 a s1 E).
Qed.

Lemma post_eq {S A} (m : Run.M S A) s a s1 (Q : A -> S -> Prop) :
  m s = Ret a s1 -> Q a s1 -> post m s Q.
Proof. intros E H a' s' E'. rewrite E in E'. injection E' as <- <-. exact H. Qed.

Lemma post_assert_then {S B} dbg (cond : bool) msg (k : unit -> Run.M S B) s
      (Q : B -> S -> Prop) :
  ((dbg = true -> cond = true) -> post (k tt) s Q) ->
  post (Run.bind (Run.assert_ dbg cond msg) k) s Q.
Proof.
  intros H b s' E. apply bind_inv in E. destruct E as ([] & s1 & E1 & E2).
  unfold Run.assert_, Run.assertM in E1. destruct dbg.
  - unfold Run.bind, Run.ret in E1. destruct cond; [| discriminate].
    injection E1 as <-. apply (H (fun _ => eq_refl) b s' E2).
  - injection E1 as <-. apply (H ltac:(discriminate) b s' E2).
Qed.

Section TableCallsKeepingBounds.

Variable dbg : bool.
Variable cfg : Config.

Lemma p_leftmost_empty_keeps_interval p fs :
  invariant cfg fs -> Partitions.lt_NumPartitions p = true ->
  returns (FreeSet.p_leftmost_empty dbg cfg p) fs
    (fun r fs' =>
       invariant cfg fs' /\ table_only fs fs' /\
       empties_only p (FreeSet._partitions fs) (FreeSet._partitions fs') /\
       0 <= r <= num_regions cfg).
Proof.
  intros Hinv Hp. assert (HT := proj1 Hinv).
  destruct (proj2 (proj2 HT) p Hp) as [Hint _].
  assert (HN := proj1 (proj2 Hinv)). pose proof (proj1 (proj1 HT)) as HNr.
  unfold FreeSet.p_leftmost_empty. apply returns_partitions.
  eapply returns_conseq; [apply (leftmost_empty_finds dbg _ p Hp _ (proj1 HT) Hint) |].
  cbv beta. intros r P' (He & Hr).
  split; [apply (invariant_empties_only cfg p); assumption |].
  split; [apply table_only_with_partitions |].
  split; [exact He |]. rewrite <- HN.
  destruct Hr as [[-> _]|(_ & Hr & _)]; lia.
Qed.

Lemma p_rightmost_empty_keeps_interval p fs :
  invariant cfg fs -> Partitions.lt_NumPartitions p = true ->
  returns (FreeSet.p_rightmost_empty dbg cfg p) fs
    (fun r fs' =>
       invariant cfg fs' /\ table_only fs fs' /\
       empties_only p (FreeSet._partitions fs) (FreeSet._partitions fs') /\
       -1 <= r < num_regions cfg).
Proof.
  intros Hinv Hp. assert (HT := proj1 Hinv).
  destruct (proj2 (proj2 HT) p Hp) as [Hint _].
  assert (HN := proj1 (proj2 Hinv)). pose proof (proj1 (proj1 HT)) as HNr.
  unfold FreeSet.p_rightmost_empty. apply returns_partitions.
  eapply returns_conseq; [apply (rightmost_empty_finds dbg _ p Hp _ (proj1 HT) Hint) |].
  cbv beta. intros r P' (He & Hr).
  split; [apply (invariant_empties_only cfg p); assumption |].
  split; [apply table_only_with_partitions |].
  split; [exact He |]. rewrite <- HN.
  destruct Hr as [[-> _]|(Hr1 & Hr2 & _)]; lia.
Qed.

End TableCallsKeepingBounds.

Lemma post_get_then {S B} (k : S -> Run.M S B) s (Q : B -> S -> Prop) :
  post (k s) s Q -> post (Run.bind Run.get k) s Q.
Proof. intros H b s' E. rewrite bind_get in E. exact (H b s' E). Qed.

Lemma post_eq_then {S A B} (m : Run.M S A) (k : A -> Run.M S B) s a s1 (Q : B -> S -> Prop) :
  m s = Ret a s1 -> post (k a) s1 Q -> post (Run.bind m k) s Q.
Proof. intros E H b s' E'. rewrite (bind_eq _ _ _ _ _ E) in E'. exact (H b s' E'). Qed.

Lemma post_gets_then {S A B} (f : S -> A) (k : A -> Run.M S B) s (Q : B -> S -> Prop) :
  post (k (f s)) s Q -> post (Run.bind (Run.gets f) k) s Q.
Proof. intros H b s' E. rewrite bind_gets in E. exact (H b s' E). Qed.

Section HumongousRegions.

Variable dbg : bool.
Variable cfg : Config.
Variable words beg end_ : Z.

(** One pass of the "Initialize regions" loop. *)
Lemma initialize_humongous_sets i u fs :
  post (FreeSet.initialize_humongous dbg cfg beg end_
          (Z.land words (Heap.region_size_words_mask cfg)) i u) fs
    (fun _ fs' =>
       FreeSet._partitions fs' = FreeSet._partitions fs /\
       FreeSet._alloc_bias_weight fs' = FreeSet._alloc_bias_weight fs /\
       FreeSet._right_to_left_bias fs' = FreeSet._right_to_left_bias fs /\
       forall j, Heap.get_region (FreeSet._heap fs') j
                 = if j =? i then humongous_region cfg words beg end_ i
                   else Heap.get_region (FreeSet._heap fs) j).
Proof.
  unfold FreeSet.initialize_humongous.
  apply (post_bind_with
           (fun _ fs1 =>
              FreeSet._partitions fs1 = FreeSet._partitions fs /\
              FreeSet._alloc_bias_weight fs1 = FreeSet._alloc_bias_weight fs /\
              FreeSet._right_to_left_bias fs1 = FreeSet._right_to_left_bias fs /\
              forall j, j <> i ->
                        Heap.get_region (FreeSet._heap fs1) j
                        = Heap.get_region (FreeSet._heap fs) j)).
  { unfold FreeSet.try_recycle_trashed, FreeSet.get_region, FreeSet.when.
    apply post_gets_then.
    destruct (Heap.is_trash (Heap.get_region (FreeSet._heap fs) i)).
    - eapply post_eq; [reflexivity |]. cbn.
      repeat (split; [reflexivity |]). intros j Hj.
      destruct (Z.eqb_spec j i); [contradiction | reflexivity].
    - apply post_ret. repeat (split; [reflexivity |]). reflexivity. }
  cbv beta. intros _ fs1 (EP & Ew & Eb & Eh).
  unfold FreeSet.get_region at 1. apply post_gets_then.
  apply post_assert_then. intros _.
  eapply post_eq; [reflexivity |]. cbn.
  split; [exact EP |]. split; [exact Ew |]. split; [exact Eb |].
  intros j. unfold humongous_region.
  destruct (Z.eqb_spec j i) as [->|Hne]; [| apply Eh; exact Hne].
  rewrite ?Z.eqb_refl. destruct (Z.eqb_spec i beg); reflexivity.
Qed.

(** The loop over the regions [idx, idx + n). *)
Lemma initialize_regions_sets n : forall idx fs,
  post (Run.for_range n idx tt
          (FreeSet.initialize_humongous dbg cfg beg end_
             (Z.land words (Heap.region_size_words_mask cfg)))) fs
    (fun _ fs' =>
       FreeSet._partitions fs' = FreeSet._partitions fs /\
       FreeSet._alloc_bias_weight fs' = FreeSet._alloc_bias_weight fs /\
       FreeSet._right_to_left_bias fs' = FreeSet._right_to_left_bias fs /\
       forall j, Heap.get_region (FreeSet._heap fs') j
                 = if (idx <=? j) && (j <? idx + Z.of_nat n)
                   then humongous_region cfg words beg end_ j
                   else Heap.get_region (FreeSet._heap fs) j).
Proof.
  induction n as [|n IH]; intros idx fs; cbn [Run.for_range].
  - apply post_ret. repeat (split; [reflexivity |]). intros j.
    destruct (Z.leb_spec idx j); destruct (Z.ltb_spec j (idx + Z.of_nat 0));
      cbn [andb]; try reflexivity; lia.
  - eapply post_bind_with; [apply initialize_humongous_sets |].
    cbv beta. intros [] fs1 (EP1 & Ew1 & Eb1 & Eh1).
    eapply post_conseq; [apply (IH (idx + 1) fs1) |].
    cbv beta. intros _ fs2 (EP2 & Ew2 & Eb2 & Eh2).
    split; [congruence |]. split; [congruence |]. split; [congruence |].
    intros j. rewrite Eh2, Eh1.
    destruct (Z.leb_spec (idx + 1) j); destruct (Z.ltb_spec j (idx + 1 + Z.of_nat n));
      destruct (Z.leb_spec idx j); destruct (Z.ltb_spec j (idx + Z.of_nat (S n)));
      destruct (Z.eqb_spec j idx); cbn [andb]; try reflexivity; try lia.
    subst j. reflexivity.
Qed.

End HumongousRegions.

Section HumongousAllocation.

Variable dbg : bool.
Variable cfg : Config.

Lemma p_retire_range_in_order p lo hi fs :
  Partitions.lt_NumPartitions p = true ->
  table_ok (FreeSet._partitions fs) -> interval_ok (FreeSet._partitions fs) p ->
  0 <= lo <= hi -> hi < Partitions._max (FreeSet._partitions fs) ->
  (forall j, lo <= j <= hi -> member (FreeSet._partitions fs) p j) ->
  returns (FreeSet.p_retire_range dbg cfg p lo hi) fs
    (fun _ fs' =>
       table_only fs fs' /\
       (forall j, 0 <= j < Partitions._max (FreeSet._partitions fs) ->
                  (member (FreeSet._partitions fs') p j
                   <-> member (FreeSet._partitions fs) p j /\ ~ (lo <= j <= hi))) /\
       Partitions._capacity (FreeSet._partitions fs') p
       = Partitions._capacity (FreeSet._partitions fs) p /\
       Partitions._used (FreeSet._partitions fs') p
       = Partitions._used (FreeSet._partitions fs) p /\
       Partitions._region_counts (FreeSet._partitions fs') p
       = Word.wrap (Partitions._region_counts (FreeSet._partitions fs) p - (hi + 1 - lo))).
Proof.
  intros Hp Hok Hint Hlo Hhi Hm. unfold FreeSet.p_retire_range. apply returns_partitions.
  eapply returns_conseq.
  { apply (retire_range_from_partition_returns dbg _ p Hp lo hi _ Hok Hlo Hhi Hm Hint). }
  cbv beta. intros _ P' (_ & _ & _ & Hmem & Hcap & Hused & Hcnt & _).
  split; [apply table_only_with_partitions |].
  cbn [FreeSet._partitions FreeSet.with_partitions].
  split; [exact Hmem |]. split; [exact Hcap |]. split; [exact Hused | exact Hcnt].
Qed.

Lemma p_increase_used_adds p bytes fs :
  post (FreeSet.p_increase_used dbg cfg p bytes) fs
    (fun _ fs' =>
       table_only fs fs' /\
       Partitions._membership (FreeSet._partitions fs')
       = Partitions._membership (FreeSet._partitions fs) /\
       Partitions._capacity (FreeSet._partitions fs')
       = Partitions._capacity (FreeSet._partitions fs) /\
       Partitions._region_counts (FreeSet._partitions fs')
       = Partitions._region_counts (FreeSet._partitions fs) /\
       Partitions._used (FreeSet._partitions fs') p
       = Word.wrap (Partitions._used (FreeSet._partitions fs) p + bytes)).
Proof.
  unfold FreeSet.p_increase_used, FreeSet.partitions. apply post_zoom.
  unfold Partitions.increase_used.
  apply post_assert_then. intros _. apply post_get_then.
  unfold Partitions.set_used.
  apply (post_bind_with
           (fun _ s1 =>
              s1 = Partitions.with_used (FreeSet._partitions fs)
                     (Partitions.upd (Partitions._used (FreeSet._partitions fs)) p
                        (Word.wrap (Partitions._used (FreeSet._partitions fs) p + bytes)))));
    [apply post_modify; reflexivity |].
  cbv beta. intros [] s1 ->. apply post_get_then.
  intros [] s2 E. unfold Run.assert_, Run.assertM in E.
  assert (E2 : s2 = Partitions.with_used (FreeSet._partitions fs)
                      (Partitions.upd (Partitions._used (FreeSet._partitions fs)) p
                         (Word.wrap (Partitions._used (FreeSet._partitions fs) p + bytes)))).
  { destruct dbg; [| injection E as <-; reflexivity].
    unfold Run.bind, Run.ret in E.
    destruct (_ <=? _); [injection E as <-; reflexivity | discriminate]. }
  subst s2. split; [apply table_only_with_partitions |].
  cbn [FreeSet._partitions FreeSet.with_partitions Partitions.with_used
       Partitions._membership Partitions._capacity Partitions._region_counts Partitions._used].
  repeat (split; [reflexivity |]). unfold Partitions.upd. rewrite partition_eqb_refl. reflexivity.
Qed.

Lemma p_assert_bounds_keeps_members fs :
  post (FreeSet.p_assert_bounds dbg cfg) fs
    (fun _ fs' =>
       table_only fs fs' /\
       members_kept Mutator (FreeSet._partitions fs) (FreeSet._partitions fs')).
Proof.
  unfold FreeSet.p_assert_bounds, FreeSet.partitions. apply post_zoom.
  intros a P' E. split; [apply table_only_with_partitions |].
  cbn [FreeSet._partitions FreeSet.with_partitions].
  exact (assert_bounds_members_kept dbg _ Mutator _ a P' E).
Qed.

Lemma table_only_can_allocate_from fs fs' j :
  table_only fs fs' -> FreeSet.can_allocate_from fs' j = FreeSet.can_allocate_from fs j.
Proof.
  intros (Eh & _). unfold FreeSet.can_allocate_from, FreeSet.can_allocate_from_region.
  rewrite Eh. reflexivity.
Qed.

End HumongousAllocation.

(* ================================================================= *)
(** * A rebuild as a whole, allocation in one region, and the searches
      that go downwards *)

Import BoundsSpec RegionSpec.

Lemma refreshed_refl p s : refreshed p s s.
Proof. split; [apply hints_only_refl | intros _ _; apply empties_only_refl]. Qed.

Lemma refreshed_trans p s1 s2 s3 : refreshed p s1 s2 -> refreshed p s2 s3 -> refreshed p s1 s3.
Proof.
  intros [H1 E1] [H2 E2]. split; [apply (hints_only_trans p _ _ _ H1 H2) |].
  intros Hok Hint. specialize (E1 Hok Hint).
  apply (empties_only_trans p _ _ _ E1). apply E2.
  - apply (hints_only_table_ok p s1); assumption.
  - destruct E1 as (_ & EL & ER & HRE).
    apply (interval_ok_hints p s1); try assumption. apply HRE. apply Hint.
Qed.

#[export] Instance refreshed_preorder p : PreOrder (refreshed p).
Proof. split; [exact (refreshed_refl p) | exact (refreshed_trans p)]. Qed.

Lemma leftmost_empty_refreshes dbg alloc_capacity p :
  Partitions.lt_NumPartitions p = true ->
  frames (refreshed p) (Partitions.leftmost_empty dbg alloc_capacity p).
Proof.
  intros Hp s a s' E. split; [exact (leftmost_empty_frames dbg alloc_capacity p s a s' E) |].
  intros Hok Hint.
  exact (proj1 (returns_inv _ _ _ _ _ (leftmost_empty_finds dbg alloc_capacity p Hp s Hok Hint) E)).
Qed.

Lemma rightmost_empty_refreshes dbg alloc_capacity p :
  Partitions.lt_NumPartitions p = true ->
  frames (refreshed p) (Partitions.rightmost_empty dbg alloc_capacity p).
Proof.
  intros Hp s a s' E. split; [exact (rightmost_empty_frames dbg alloc_capacity p s a s' E) |].
  intros Hok Hint.
  exact (proj1 (returns_inv _ _ _ _ _ (rightmost_empty_finds dbg alloc_capacity p Hp s Hok Hint) E)).
Qed.

Lemma assert_bounds_refreshes_mutator_bounds dbg alloc_capacity :
  frames (refreshed Mutator) (Partitions.assert_bounds dbg alloc_capacity).
Proof.
  pose proof (fun d => leftmost_empty_refreshes d alloc_capacity Mutator eq_refl).
  pose proof (fun d => rightmost_empty_refreshes d alloc_capacity Mutator eq_refl).
  unfold Partitions.assert_bounds, Partitions.assert_bounds_partition.
  frames_auto.
Qed.

Section RebuildCall.

Variable dbg : bool.
Variable cfg : Config.

Lemma p_assert_bounds_in_order fs :
  invariant cfg fs ->
  post (FreeSet.p_assert_bounds dbg cfg) fs
    (fun _ fs' =>
       invariant cfg fs' /\ table_only fs fs' /\
       empties_only Mutator (FreeSet._partitions fs) (FreeSet._partitions fs')).
Proof.
  intros Hinv. unfold FreeSet.p_assert_bounds, FreeSet.partitions. apply post_zoom.
  intros a P' E.
  assert (He : empties_only Mutator (FreeSet._partitions fs) P').
  { apply (assert_bounds_refreshes_mutator_bounds dbg _ _ a P' E); [apply Hinv |].
    apply (proj2 (proj2 (proj1 Hinv)) Mutator eq_refl). }
  split; [apply (invariant_empties_only cfg Mutator); [exact Hinv | reflexivity | exact He] |].
  split; [apply table_only_with_partitions | exact He].
Qed.

Lemma accepted_has_capacity fs j :
  accepted cfg (FreeSet._heap fs) j = true -> 0 < FreeSet.alloc_capacity cfg fs j.
Proof.
  unfold accepted, FreeSet.alloc_capacity. intros H. apply andb_prop in H.
  destruct H as [_ H]. rewrite Z.gtb_ltb in H. apply Z.ltb_lt in H.
  pose proof (wrap_nonneg (PLAB_min_size cfg * HeapWordSize)). lia.
Qed.

(** The scan and the reserve of a rebuild, before the bounds are
    checked. *)
Lemma rebuild_scans_and_reserves fs to_reserve :
  invariant cfg fs ->
  returns (_ <- FreeSet.find_regions_with_alloc_capacity dbg cfg ;;
           FreeSet.reserve_regions dbg cfg to_reserve) fs
    (fun _ fs' =>
       invariant cfg fs' /\ table_only fs fs' /\
       exists cut,
         0 <= cut <= num_regions cfg /\
         (forall j, 0 <= j < num_regions cfg ->
                    (member (FreeSet._partitions fs') Mutator j
                     <-> accepted cfg (FreeSet._heap fs) j = true /\ j < cut)) /\
         (forall j, 0 <= j < num_regions cfg ->
                    (member (FreeSet._partitions fs') Collector j
                     <-> accepted cfg (FreeSet._heap fs) j = true /\ cut <= j)) /\
         (cut = 0 \/
          to_reserve <= Partitions.available_in (FreeSet._partitions fs') Collector)).
Proof.
  intros Hinv. assert (HT := proj1 Hinv). destruct Hinv as (_ & HN & Hrs & Hheap).
  pose proof (proj1 (proj1 HT)) as HNr.
  apply returns_bind. eapply returns_conseq.
  { apply returns_both.
    - apply (find_regions_with_alloc_capacity_returns dbg cfg fs (proj1 HT) HN).
    - apply (find_regions_with_alloc_capacity_takes dbg cfg fs (proj1 HT) HN). }
  cbv beta.
  intros cset fs1 ((Hto1 & (EN1 & Ers1) & HT1 & Hcap & HcapC & HcntC & HnoC) & Hmem & Hcnt & _).
  assert (Eh : FreeSet._heap fs1 = FreeSet._heap fs) by apply Hto1.
  assert (Hinv1 : invariant cfg fs1).
  { split; [exact HT1 |]. split; [congruence |]. split; [congruence |].
    unfold Lifecycle.heap_ok in *. rewrite Eh. exact Hheap. }
  pose proof (count_in_bounds (accepted cfg (FreeSet._heap fs))
                              (Z.to_nat (num_regions cfg)) 0) as Hb.
  pose proof pow62_modulus as H62.
  eapply returns_conseq.
  { apply (reserve_regions_reserves dbg cfg to_reserve fs1 Hinv1).
    - intros p Hp. destruct p; try discriminate.
      + split; [rewrite Hcnt; lia |].
        unfold Partitions.capacity_of. rewrite Hcap. apply wrap_range.
      + unfold Partitions.count, Partitions.capacity_of. rewrite HcntC, HcapC.
        rewrite modulus_eq. lia.
    - intros _ j Hj Hm. apply accepted_has_capacity. rewrite Eh. apply Hmem; assumption. }
  cbv beta. intros [] fs2 (Hinv2 & Hto2 & cut & k & Hcut & _ & HM & HC & Hres).
  split; [exact Hinv2 |]. split; [apply (table_only_trans _ _ _ Hto1 Hto2) |].
  exists cut. split; [exact Hcut |].
  split; [| split; [| exact Hres]].
  - intros j Hj. rewrite (HM j Hj), (Hmem j Hj). split.
    + intros [H [H1|H1]]; [split; assumption | lia].
    + intros [H H1]. split; [exact H | left; exact H1].
  - intros j Hj. rewrite (HC j Hj), (Hmem j Hj). split.
    + intros [H|[H H1]]; [exfalso; apply (HnoC j); [lia | exact H] | split; [exact H | lia]].
    + intros [H H1]. right. split; [exact H | lia].
Qed.

End RebuildCall.

(** X25.  [rebuild()] on a free set in order rebuilds both partitions
    from the heap: whenever the call returns -- and in a product build it
    always does -- the free set is in order and differs in the table
    only; the regions that the scan accepts (allocation allowed or
    trash, with more than [PLAB::min_size()] words to offer) are the
    regions of the two partitions, those from some index [cut] upwards
    in the Collector partition and those below in the Mutator partition;
    and [cut] is 0 unless [available_in(Collector)] reached the reserve
    [max_capacity * ShenandoahEvacReserve / 100]. *)
Theorem rebuild_splits_the_accepted_regions cfg fs :
  invariant cfg fs ->
  let reserve := Word.wrap (max_capacity cfg * ShenandoahEvacReserve cfg) / 100 in
  let rebuilt (fs' : FreeSet.t) :=
    invariant cfg fs' /\ table_only fs fs' /\
    exists cut,
      0 <= cut <= num_regions cfg /\
      (forall j, 0 <= j < num_regions cfg ->
                 (member (FreeSet._partitions fs') Mutator j
                  <-> accepted cfg (FreeSet._heap fs) j = true /\ j < cut)) /\
      (forall j, 0 <= j < num_regions cfg ->
                 (member (FreeSet._partitions fs') Collector j
                  <-> accepted cfg (FreeSet._heap fs) j = true /\ cut <= j)) /\
      (cut = 0 \/ reserve <= Partitions.available_in (FreeSet._partitions fs') Collector) in
  (forall dbg, post (FreeSet.rebuild dbg cfg) fs (fun _ fs' => rebuilt fs')) /\
  returns (FreeSet.rebuild false cfg) fs (fun _ fs' => rebuilt fs').
Proof.
  intros Hinv reserve rebuilt.
  assert (Hpost : forall dbg, post (FreeSet.rebuild dbg cfg) fs (fun _ fs' => rebuilt fs')).
  { intros dbg. unfold FreeSet.rebuild, FreeSet.prepare_to_rebuild, FreeSet.finish_rebuild.
    fold reserve.
    intros a fs' E. apply bind_inv in E. destruct E as (cset & fs1 & E1 & E2).
    apply bind_inv in E2. destruct E2 as ([] & fs2 & E2 & E3).
    pose proof (rebuild_scans_and_reserves dbg cfg fs reserve Hinv) as H.
    assert (E12 : (_ <- FreeSet.find_regions_with_alloc_capacity dbg cfg ;;
                   FreeSet.reserve_regions dbg cfg reserve) fs = Ret tt fs2).
    { rewrite (bind_eq _ _ _ _ _ E1). exact E2. }
    pose proof (returns_inv _ _ _ _ _ H E12) as (Hinv2 & Hto2 & cut & Hcut & HM & HC & Hres).
    destruct (p_assert_bounds_in_order dbg cfg fs2 Hinv2 a fs' E3) as (Hinv3 & Hto3 & He).
    split; [exact Hinv3 |]. split; [apply (table_only_trans _ _ _ Hto2 Hto3) |].
    exists cut. split; [exact Hcut |].
    pose proof (fun q j => hints_only_member Mutator _ _ q j (proj1 He)) as Hm.
    split; [intros j Hj; rewrite Hm; apply HM; exact Hj |].
    split; [intros j Hj; rewrite Hm; apply HC; exact Hj |].
    destruct Hres as [->|Hres]; [left; reflexivity | right].
    destruct He as ((_ & _ & _ & Ec & Eu & _) & _).
    unfold Partitions.available_in, Partitions.capacity_of, Partitions.used_by in *.
    rewrite Ec, Eu. exact Hres. }
  split; [exact Hpost |].
  pose proof (rebuild_scans_and_reserves false cfg fs reserve Hinv) as (a & fs2 & E & _).
  assert (E' : FreeSet.rebuild false cfg fs = Ret tt fs2).
  { unfold FreeSet.rebuild, FreeSet.prepare_to_rebuild, FreeSet.finish_rebuild. fold reserve.
    destruct a. unfold Run.bind in *.
    destruct (FreeSet.find_regions_with_alloc_capacity false cfg fs) as [c fs1| |];
      try discriminate.
    rewrite E. destruct fs2; reflexivity. }
  exists tt, fs2. split; [exact E' | exact (Hpost false tt fs2 E')].
Qed.

Lemma rebuild_splits_the_accepted_regions_witness :
  let cfg := Scenario.cfg in
  let fs := Scenario.cleared in
  let reserve := Word.wrap (max_capacity cfg * ShenandoahEvacReserve cfg) / 100 in
  let rebuilt (fs' : FreeSet.t) :=
    invariant cfg fs' /\ table_only fs fs' /\
    exists cut,
      0 <= cut <= num_regions cfg /\
      (forall j, 0 <= j < num_regions cfg ->
                 (member (FreeSet._partitions fs') Mutator j
                  <-> accepted cfg (FreeSet._heap fs) j = true /\ j < cut)) /\
      (forall j, 0 <= j < num_regions cfg ->
                 (member (FreeSet._partitions fs') Collector j
                  <-> accepted cfg (FreeSet._heap fs) j = true /\ cut <= j)) /\
      (cut = 0 \/ reserve <= Partitions.available_in (FreeSet._partitions fs') Collector) in
  (forall dbg, post (FreeSet.rebuild dbg cfg) fs (fun _ fs' => rebuilt fs')) /\
  returns (FreeSet.rebuild false cfg) fs (fun _ fs' => rebuilt fs').
Proof.
  exact (rebuild_splits_the_accepted_regions Scenario.cfg Scenario.cleared
           (proj1 cleared_scenario_invariant)).
Defined.

Lemma bitmaps_kept_refl s : bitmaps_kept s s.
Proof. split; reflexivity. Qed.

Lemma bitmaps_kept_trans s1 s2 s3 : bitmaps_kept s1 s2 -> bitmaps_kept s2 s3 -> bitmaps_kept s1 s3.
Proof. intros [A1 A2] [B1 B2]. split; congruence. Qed.

#[export] Instance bitmaps_kept_preorder : PreOrder bitmaps_kept.
Proof. split; [exact bitmaps_kept_refl | exact bitmaps_kept_trans]. Qed.

Lemma hints_only_bitmaps_kept p s s' : hints_only p s s' -> bitmaps_kept s s'.
Proof. intros (E1 & _ & E3 & _). split; assumption. Qed.

Lemma bitmaps_kept_table_ok s s' : bitmaps_kept s s' -> table_ok s -> table_ok s'.
Proof. intros [E1 E2] [Hm Hok]. split; rewrite E1, ?E2; assumption. Qed.

Lemma others_kept_refl idx fs : others_kept idx fs fs.
Proof. split; [apply bitmaps_kept_refl | reflexivity]. Qed.

Lemma others_kept_trans idx fs1 fs2 fs3 :
  others_kept idx fs1 fs2 -> others_kept idx fs2 fs3 -> others_kept idx fs1 fs3.
Proof.
  intros [A1 A2] [B1 B2]. split; [apply (bitmaps_kept_trans _ _ _ A1 B1) |].
  intros j Hj. rewrite (B2 j Hj). apply A2, Hj.
Qed.

#[export] Instance others_kept_preorder idx : PreOrder (others_kept idx).
Proof. split; [exact (others_kept_refl idx) | exact (others_kept_trans idx)]. Qed.

Lemma post_of_frames {S A} (R : S -> S -> Prop) (m : Run.M S A) s :
  frames R m -> post m s (fun _ s' => R s s').
Proof. intros H. exact (H s). Qed.

Lemma post_both {S A} (m : Run.M S A) s (Q Q' : A -> S -> Prop) :
  post m s Q -> post m s Q' -> post m s (fun a s' => Q a s' /\ Q' a s').
Proof. intros H H' a s' E. split; [exact (H a s' E) | exact (H' a s' E)]. Qed.

Section BitmapsKept.

Variable dbg : bool.
Variable alloc_capacity : Z -> Z.

Lemma set_used_bitmaps_kept p v : frames bitmaps_kept (Partitions.set_used p v).
Proof. apply frames_modify. intros s. split; reflexivity. Qed.

Lemma set_region_count_bitmaps_kept p v : frames bitmaps_kept (Partitions.set_region_count p v).
Proof. apply frames_modify. intros s. split; reflexivity. Qed.

Hint Resolve set_used_bitmaps_kept set_region_count_bitmaps_kept : frames.

Lemma increase_used_bitmaps_kept p bytes :
  frames bitmaps_kept (Partitions.increase_used dbg p bytes).
Proof. unfold Partitions.increase_used. frames_auto. Qed.

Lemma shrink_interval_if_boundary_modified_bitmaps_kept p idx :
  frames bitmaps_kept (Partitions.shrink_interval_if_boundary_modified dbg alloc_capacity p idx).
Proof.
  apply (frames_weaken (hints_only p)); [apply hints_only_bitmaps_kept |].
  apply shrink_interval_if_boundary_modified_frames.
Qed.

Lemma assert_bounds_bitmaps_kept :
  frames bitmaps_kept (Partitions.assert_bounds dbg alloc_capacity).
Proof.
  apply (frames_weaken (refreshed Mutator));
    [intros s s' [H _]; apply (hints_only_bitmaps_kept Mutator), H |].
  apply assert_bounds_refreshes_mutator_bounds.
Qed.

(** [retire_from_partition] clears the bit of the region, whatever it
    does to the totals. *)
Lemma retire_from_partition_clears p idx used_bytes s :
  table_ok s -> Partitions.lt_NumPartitions p = true -> 0 <= idx < Partitions._max s ->
  post (Partitions.retire_from_partition dbg alloc_capacity p idx used_bytes) s
    (fun _ s' =>
       Partitions._max s' = Partitions._max s /\
       Partitions._membership s'
       = Partitions.upd (Partitions._membership s) p
                        (SimpleBitMap.clear_bit (Partitions._membership s p) idx)).
Proof.
  intros Hok Hp Hidx. unfold Partitions.retire_from_partition.
  apply post_get_then. apply post_assert_then. intros _. apply post_assert_then. intros _.
  apply (post_bind_with (fun _ s1 => s1 = s)).
  { apply (post_conseq _ _ (fun _ s1 => s = s1)); [| intros _ s1 H; symmetry; exact H].
    apply post_of_frames. unfold Partitions.in_free_set. frames_auto. }
  cbv beta. intros [] s1 ->.
  apply (post_bind_with (fun _ s1 => bitmaps_kept s s1)).
  { apply post_of_frames. unfold Partitions.when.
    pose proof (increase_used_bitmaps_kept p). frames_auto. }
  cbv beta. intros [] s1 [EN1 Em1].
  eapply post_eq_then.
  { apply bm_clear_bit_eq; [apply (bitmaps_kept_table_ok s); [split |]; assumption
                           | exact Hp | rewrite EN1; exact Hidx]. }
  apply (post_bind_with
           (fun _ s2 =>
              bitmaps_kept (Partitions.with_membership s1
                              (Partitions.upd (Partitions._membership s1) p
                                 (SimpleBitMap.clear_bit (Partitions._membership s1 p) idx)))
                           s2)).
  { apply post_of_frames. apply shrink_interval_if_boundary_modified_bitmaps_kept. }
  cbv beta. intros [] s2 [EN2 Em2]. cbn in EN2, Em2.
  apply post_get_then. apply post_modify. cbn.
  split; [congruence |]. rewrite Em2, Em1. reflexivity.
Qed.

End BitmapsKept.

Section OneRegion.

Variable dbg : bool.
Variable cfg : Config.
Variable idx : Z.

Lemma partitions_others_kept {A} (m : (Z -> Z) -> Run.M Partitions.t A) :
  (forall ac, frames bitmaps_kept (m ac)) -> frames (others_kept idx) (FreeSet.partitions cfg m).
Proof.
  intros Hm fs a fs' E. unfold FreeSet.partitions, Run.zoom in E.
  destruct (m (FreeSet.alloc_capacity cfg fs) (FreeSet._partitions fs)) as [a1 P1| |] eqn:Em;
    inversion E; subst.
  split; [exact (Hm _ _ _ _ Em) | reflexivity].
Qed.

Lemma update_region_others_kept f : frames (others_kept idx) (FreeSet.update_region idx f).
Proof.
  apply frames_modify. intros fs. split; [apply bitmaps_kept_refl |].
  intros j Hj. cbn. destruct (Z.eqb_spec j idx); [contradiction | reflexivity].
Qed.

Lemma get_region_others_kept j : frames (others_kept idx) (FreeSet.get_region j).
Proof. unfold FreeSet.get_region. frames_auto. Qed.

Hint Resolve update_region_others_kept get_region_others_kept : frames.

Lemma try_recycle_trashed_others_kept :
  frames (others_kept idx) (FreeSet.try_recycle_trashed idx).
Proof.
  unfold FreeSet.try_recycle_trashed, FreeSet.when. frames_auto.
  apply frames_modify. intros fs. split; [apply bitmaps_kept_refl | reflexivity].
Qed.

Lemma p_increase_used_others_kept p bytes :
  frames (others_kept idx) (FreeSet.p_increase_used dbg cfg p bytes).
Proof. apply partitions_others_kept. intros ac. apply increase_used_bitmaps_kept. Qed.

Lemma p_assert_bounds_others_kept : frames (others_kept idx) (FreeSet.p_assert_bounds dbg cfg).
Proof. apply partitions_others_kept. intros ac. apply assert_bounds_bitmaps_kept. Qed.

Hint Resolve try_recycle_trashed_others_kept p_increase_used_others_kept
  p_assert_bounds_others_kept : frames.

Lemma p_retire_clears p used fs :
  table_ok (FreeSet._partitions fs) -> Partitions.lt_NumPartitions p = true ->
  0 <= idx < Partitions._max (FreeSet._partitions fs) ->
  post (FreeSet.p_retire dbg cfg p idx used) fs
    (fun _ fs' =>
       FreeSet._heap fs' = FreeSet._heap fs /\
       Partitions._max (FreeSet._partitions fs') = Partitions._max (FreeSet._partitions fs) /\
       Partitions._membership (FreeSet._partitions fs')
       = Partitions.upd (Partitions._membership (FreeSet._partitions fs)) p
           (SimpleBitMap.clear_bit (Partitions._membership (FreeSet._partitions fs) p) idx)).
Proof.
  intros Hok Hp Hidx. unfold FreeSet.p_retire, FreeSet.partitions. apply post_zoom.
  eapply post_conseq; [apply (retire_from_partition_clears dbg _ p idx used _ Hok Hp Hidx) |].
  cbv beta. intros _ P' [H1 H2]. split; [reflexivity |]. split; assumption.
Qed.

End OneRegion.

(** X26.  What [try_allocate_in] touches, whenever it returns, on a
    table of the right shape.  When the region is trash while concurrent
    weak root processing is in progress, the call fails and changes
    nothing.  Otherwise no other region of the heap is touched and no
    other region changes its partition; region [idx] leaves the
    partition of the request (Mutator for a mutator request, Collector
    for a GC request) exactly when the test after the allocation finds
    it exhausted -- its capacity is below [PLAB::min_size()] words, or
    the allocation failed and its capacity is below [min_capacity] --
    and is never added to a partition. *)
Theorem try_allocate_in_retires_the_exhausted_region dbg cfg idx req inr fs :
  table_ok (FreeSet._partitions fs) ->
  0 <= idx < Partitions._max (FreeSet._partitions fs) ->
  post (FreeSet.try_allocate_in dbg cfg idx req inr) fs
    (fun a fs' =>
       if blocked_by_weak_roots fs idx then
         fs' = fs /\ FreeSet.result a = None /\ FreeSet.req_out a = req
       else
         let p := if AllocRequest.is_mutator_alloc req then Mutator else Collector in
         (forall q j, 0 <= j < Partitions._max (FreeSet._partitions fs) ->
                      (member (FreeSet._partitions fs') q j
                       <-> member (FreeSet._partitions fs) q j /\
                           ~ (q = p /\ j = idx /\ exhausted cfg a fs' idx = true))) /\
         (forall j, j <> idx ->
                    Heap.get_region (FreeSet._heap fs') j
                    = Heap.get_region (FreeSet._heap fs) j)).
Proof.
  intros Hok Hidx. pose proof (proj1 Hok) as HN. pose proof pow62_modulus as H62.
  unfold FreeSet.try_allocate_in.
  unfold FreeSet.get_region at 1. apply post_gets_then.
  apply post_assert_then. intros _. apply post_get_then.
  unfold blocked_by_weak_roots.
  destruct (Heap.concurrent_weak_root_in_progress (FreeSet._heap fs) &&
            Heap.is_trash (Heap.get_region (FreeSet._heap fs) idx)) eqn:Hearly.
  { apply post_ret. cbn. repeat split. }
  apply (post_bind_with (fun _ fs1 => others_kept idx fs fs1)).
  { apply post_of_frames. apply try_recycle_trashed_others_kept. }
  cbv beta. intros [] fs1 Hk1.
  unfold FreeSet.get_region at 1. apply post_gets_then. cbv zeta.
  apply (post_bind_with
           (fun a fs2 => others_kept idx fs1 fs2 /\
                         AllocRequest.type (snd a) = AllocRequest.type req)).
  { apply post_both.
    - apply post_of_frames.
      pose proof (update_region_others_kept idx). frames_auto.
    - repeat results_step; reflexivity. }
  cbv beta. intros [res req1] fs2 [Hk2 Ht]. cbn [snd] in Ht. cbv beta iota.
  rewrite (is_mutator_alloc_type req req1 Ht).
  apply (post_bind_with (fun _ fs3 => others_kept idx fs2 fs3)).
  { apply post_of_frames. unfold FreeSet.when.
    pose proof (update_region_others_kept idx).
    pose proof (p_increase_used_others_kept dbg cfg idx). frames_auto. }
  cbv beta. intros [] fs3 Hk3.
  assert (Hk : others_kept idx fs fs3).
  { apply (others_kept_trans idx _ _ _ Hk1). apply (others_kept_trans idx _ _ _ Hk2 Hk3). }
  apply post_get_then.
  set (p := if AllocRequest.is_mutator_alloc req then Mutator else Collector).
  assert (Hp : Partitions.lt_NumPartitions p = true)
    by (subst p; destruct (AllocRequest.is_mutator_alloc req); reflexivity).
  destruct Hk as [[EN Em] Hh].
  destruct (_ || _) eqn:Hcond.
  - unfold FreeSet.get_region at 1. apply post_gets_then.
    eapply post_bind_with.
    { apply (p_retire_clears dbg cfg idx p _ fs3); [| exact Hp | rewrite EN; exact Hidx].
      apply (bitmaps_kept_table_ok (FreeSet._partitions fs)); [split; assumption | exact Hok]. }
    cbv beta. intros [] fs4 (Eh4 & EN4 & Em4).
    apply (post_bind_with (fun _ fs5 => others_kept idx fs4 fs5 /\ table_only fs4 fs5)).
    { apply post_both.
      - apply post_of_frames. apply p_assert_bounds_others_kept.
      - eapply post_conseq; [apply p_assert_bounds_keeps_members |].
        cbv beta. intros _ fs5 [H _]. exact H. }
    cbv beta. intros [] fs5 [[[EN5 Em5] _] Hto5]. apply post_ret.
    assert (Eh5 : FreeSet._heap fs5 = FreeSet._heap fs3) by (rewrite (proj1 Hto5); exact Eh4).
    assert (Eac : FreeSet.alloc_capacity cfg fs5 idx = FreeSet.alloc_capacity cfg fs3 idx).
    { unfold FreeSet.alloc_capacity. rewrite Eh5. reflexivity. }
    unfold exhausted. cbn [FreeSet.result]. rewrite Eac, Hcond.
    split; [| intros j Hj; rewrite Eh5; apply Hh; exact Hj].
    intros q j Hj. unfold member at 1. rewrite Em5, Em4, Em.
    pose proof (member_clear_bit (FreeSet._partitions fs) p idx q j ltac:(lia) ltac:(lia)) as H.
    unfold member at 1 in H. cbn [Partitions._membership Partitions.with_membership] in H.
    rewrite H. split.
    + intros [H1 H2]. split; [exact H1 |]. intros (H3 & H4 & _). apply H2. split; assumption.
    + intros [H1 H2]. split; [exact H1 |]. intros [H3 H4]. apply H2.
      split; [exact H3 |]. split; [exact H4 | reflexivity].
  - apply post_ret. unfold exhausted. cbn [FreeSet.result]. rewrite Hcond.
    split; [| exact Hh].
    intros q j Hj. unfold member. rewrite Em. split; [intros H; split; [exact H |] | tauto].
    intros (_ & _ & H'). discriminate.
Qed.

Lemma try_allocate_in_retires_the_exhausted_region_witness :
  let fs := Scenario.after_calls true in
  let req := Scenario.tlab_1KiB in
  post (FreeSet.try_allocate_in true Scenario.cfg 3 req false) fs
    (fun a fs' =>
       if blocked_by_weak_roots fs 3 then
         fs' = fs /\ FreeSet.result a = None /\ FreeSet.req_out a = req
       else
         let p := if AllocRequest.is_mutator_alloc req then Mutator else Collector in
         (forall q j, 0 <= j < Partitions._max (FreeSet._partitions fs) ->
                      (member (FreeSet._partitions fs') q j
                       <-> member (FreeSet._partitions fs) q j /\
                           ~ (q = p /\ j = 3 /\ exhausted Scenario.cfg a fs' 3 = true))) /\
         (forall j, j <> 3 ->
                    Heap.get_region (FreeSet._heap fs') j
                    = Heap.get_region (FreeSet._heap fs) j)).
Proof.
  intros fs req.
  apply (try_allocate_in_retires_the_exhausted_region true Scenario.cfg 3 req false fs).
  - apply (proj1 (proj1 (after_calls_invariant true))).
  - vm_compute. split; [discriminate | reflexivity].
Defined.

Lemma precondition_in_range dbg bm idx :
  0 <= idx < SimpleBitMap._num_bits bm ->
  BackwardSearch.precondition dbg idx bm = Ret tt bm.
Proof.
  intros H. unfold BackwardSearch.precondition. rewrite bind_get.
  unfold SimpleBitMap.index_in_range.
  destruct (Z.leb_spec 0 idx); [| lia].
  destruct (Z.ltb_spec idx (SimpleBitMap._num_bits bm)); [| lia].
  apply assert_true.
Qed.

Section BackwardRunProofs.

Variable dbg : bool.
Variable shl_oob : Z -> Z.
Hypothesis shl_oob_64 : shl_oob 64 = 0.

(** [is_backward_consecutive_ones] on a span that lies within the
    bitmap. *)
Lemma is_backward_consecutive_ones_spec fuel bm : forall last count,
  Spec.words_ok bm ->
  0 <= last < SimpleBitMap._num_bits bm -> SimpleBitMap._num_bits bm < 2 ^ 62 ->
  1 <= count <= last + 1 ->
  (Z.to_nat (last / 64 - (last - count + 1) / 64) < fuel)%nat ->
  exists b,
    BackwardSearch.is_backward_consecutive_ones dbg shl_oob fuel last count bm = Ret b bm /\
    (b = true <-> Spec.all_set bm (last - count + 1) count).
Proof.
  induction fuel as [|fuel IH]; intros last count Hok Hl HN Hc Hfuel; [lia |].
  cbn [BackwardSearch.is_backward_consecutive_ones].
  unfold SimpleBitMap._bits_per_array_element.
  rewrite (bind_eq _ _ _ _ _ (precondition_in_range dbg bm last Hl)).
  assert (Ha : (last - count >=? -1) = true) by (apply Z.geb_le; lia).
  rewrite Ha, (bind_eq _ _ _ _ _ (assert_true dbg _ bm)), bind_get.
  assert (Hm : 0 <= last < Word.modulus) by (rewrite modulus_eq; lia).
  rewrite array_index_nonneg, bit_index_nonneg by exact Hm.
  set (ai := last / 64). set (bn := last mod 64).
  assert (Hbn : 0 <= bn < 64) by (subst bn; lia).
  assert (Hai : 0 <= ai) by (subst ai; lia).
  assert (Hst : last = ai * 64 + bn) by (subst ai bn; lia).
  rewrite (to_ssize_wrap (bn + 1)) by (rewrite half_modulus_eq; lia).
  rewrite !(overreach_mask_value shl_oob shl_oob_64 (bn + 1)) by lia.
  destruct (Z.geb_spec (bn + 1) count) as [Hfit|Hover].
  - (* All relevant bits reside within this array element *)
    rewrite (overreach_mask_value shl_oob shl_oob_64 (bn + 1 - count)) by lia.
    eexists. split; [reflexivity |].
    rewrite land_span_mask by lia. split.
    + intros H j Hj. rewrite (is_set_in_word bm ai) by (try rewrite modulus_eq; lia).
      apply H. lia.
    + intros H n Hn. specialize (H (ai * 64 + n)).
      rewrite (is_set_in_word bm ai) in H by (try rewrite modulus_eq; lia).
      replace (ai * 64 + n - ai * 64) with n in H by lia. apply H. lia.
  - assert (Emask : 2 ^ (bn + 1) - 1 = Z.land (2 ^ (bn + 1) - 1) (Word.not (2 ^ 0 - 1))).
    { change (2 ^ 0 - 1) with 0. apply Z.bits_inj'. intros n Hn.
      rewrite Z.land_spec. destruct (Z_lt_le_dec n 64).
      - rewrite not_bits by lia. rewrite Z.bits_0. cbn [negb]. rewrite andb_true_r. reflexivity.
      - rewrite ones_below_bits by lia. destruct (Z.ltb_spec n (bn + 1)); [lia | reflexivity]. }
    destruct (Z.land (SimpleBitMap._bitmap bm ai) _ =? _) eqn:E.
    + rewrite Emask in E.
      pose proof (proj1 (land_span_mask _ 0 (bn + 1) ltac:(lia) ltac:(lia)) E) as E1.
      clear E. rename E1 into E.
      rewrite (wrap_small (bn + 1)) by (rewrite modulus_eq; lia).
      rewrite to_ssize_wrap by (rewrite half_modulus_eq; lia).
      rewrite to_ssize_wrap by (rewrite half_modulus_eq; lia).
      destruct (IH (last - (bn + 1)) (count - (bn + 1))) as [b [Hb' Hiff]]; try assumption; try lia.
      exists b. split; [exact Hb' |]. rewrite Hiff.
      replace (last - (bn + 1) - (count - (bn + 1)) + 1) with (last - count + 1) by ring.
      split.
      * intros H j Hj. destruct (Z_lt_le_dec j (ai * 64)).
        -- apply H. lia.
        -- rewrite (is_set_in_word bm ai) by (try rewrite modulus_eq; lia). apply E. lia.
      * intros H j Hj. apply H. lia.
    + exists false. split; [reflexivity |]. split; [discriminate |].
      intros H. exfalso.
      assert (E' : (Z.land (SimpleBitMap._bitmap bm ai)
                      (Z.land (2 ^ (bn + 1) - 1) (Word.not (2 ^ 0 - 1)))
                    =? Z.land (2 ^ (bn + 1) - 1) (Word.not (2 ^ 0 - 1))) = true).
      { apply land_span_mask; [lia | lia |]. intros n Hn. specialize (H (ai * 64 + n)).
        rewrite (is_set_in_word bm ai) in H by (try rewrite modulus_eq; lia).
        replace (ai * 64 + n - ai * 64) with n in H by lia. apply H. lia. }
      rewrite <- Emask in E'. rewrite E' in E. discriminate.
Qed.

End BackwardRunProofs.

Section LeadingOnes.

Variable dbg : bool.

Lemma count_leading_ones_loop_spec eb bm fuel : forall k c,
  0 <= k <= 64 -> (Z.to_nat (64 - k) < fuel)%nat ->
  exists c',
    BackwardSearch.count_leading_ones_loop fuel eb (Word.wrap (2 ^ k)) c bm = Ret c' bm /\
    c <= c' /\ k + (c' - c) <= 64 /\
    (forall n, k <= n < k + (c' - c) -> Z.testbit eb n = true) /\
    (k + (c' - c) = 64 \/ Z.testbit eb (k + (c' - c)) = false).
Proof.
  induction fuel as [|fuel IH]; intros k c Hk Hfuel; [lia |].
  cbn [BackwardSearch.count_leading_ones_loop].
  destruct (Z.eq_dec k 64) as [->|Hne].
  - change (Word.wrap (2 ^ 64)) with 0. rewrite Z.land_0_r. cbn [Z.eqb].
    exists c. split; [reflexivity |]. split; [lia |]. split; [lia |].
    split; [intros n Hn; lia | left; lia].
  - rewrite (wrap_small (2 ^ k)) by (pose proof (pow2_range k); lia).
    rewrite land_pow2_eqb by lia.
    destruct (Z.testbit eb k) eqn:Hb; cbn [negb].
    + replace (Z.shiftl (2 ^ k) 1) with (2 ^ (k + 1))
        by (rewrite Z.shiftl_mul_pow2, Z.pow_add_r by lia; lia).
      destruct (IH (k + 1) (c + 1)) as (c' & E & H1 & H2 & H3 & H4); [lia | lia |].
      exists c'. split; [exact E |]. split; [lia |]. split; [lia |].
      split.
      * intros n Hn. destruct (Z.eq_dec n k) as [->|Hnk]; [exact Hb | apply H3; lia].
      * replace (k + (c' - c)) with (k + 1 + (c' - (c + 1))) by ring. exact H4.
    + exists c. split; [reflexivity |]. split; [lia |]. split; [lia |].
      split; [intros n Hn; lia |]. right. replace (k + (c - c)) with k by ring. exact Hb.
Qed.

Lemma bit_index_of_next_word start :
  SimpleBitMap.bit_index
    (Word.to_ssize
       (Word.wrap (start + Word.wrap (SimpleBitMap._bits_per_array_element
                                      - SimpleBitMap.bit_index start)))) = 0.
Proof.
  unfold SimpleBitMap.bit_index, SimpleBitMap._bits_per_array_element, Word.to_ssize, Word.wrap.
  rewrite half_modulus_eq, modulus_eq.
  destruct (_ <? _); lia.
Qed.

(** From the start of a word the recursion goes from word to word and
    never hands back a count. *)
Lemma count_leading_ones_at_word_start fuel : forall start bm c bm',
  SimpleBitMap.bit_index start = 0 ->
  BackwardSearch.count_leading_ones dbg fuel start bm <> Ret c bm'.
Proof.
  induction fuel as [|fuel IH]; intros start bm c bm' Hb; [discriminate |].
  cbn [BackwardSearch.count_leading_ones]. intros E.
  apply bind_inv in E. destruct E as ([] & bm1 & E1 & E).
  rewrite bind_get in E. rewrite Hb in E.
  change (Word.one_shl 0) with 1 in E. change (Word.wrap (1 - 1)) with 0 in E.
  rewrite !Z.land_0_r in E. cbn [Z.eqb] in E.
  apply bind_inv in E. destruct E as (rest & bm2 & E2 & _).
  apply (IH _ bm1 rest bm2) in E2; [exact E2 |].
  rewrite <- Hb at 1. apply bit_index_of_next_word.
Qed.

Lemma count_leading_ones_spec bm start :
  Spec.words_ok bm ->
  0 <= start < SimpleBitMap._num_bits bm -> SimpleBitMap._num_bits bm < 2 ^ 62 ->
  ((exists i, 0 <= i < start mod 64 /\
              SimpleBitMap.is_set bm (start - start mod 64 + i) = false) ->
   forall fuel, (1 <= fuel)%nat ->
   exists c,
     BackwardSearch.count_leading_ones dbg fuel start bm = Ret c bm /\
     0 <= c <= 64 - start mod 64 /\
     Spec.all_set bm start c /\
     (c = 64 - start mod 64 \/ SimpleBitMap.is_set bm (start + c) = false)) /\
  ((forall i, 0 <= i < start mod 64 ->
              SimpleBitMap.is_set bm (start - start mod 64 + i) = true) ->
   forall fuel c bm', BackwardSearch.count_leading_ones dbg fuel start bm <> Ret c bm').
Proof.
  intros Hok Hs HN.
  assert (Hm : 0 <= start < Word.modulus) by (rewrite modulus_eq; lia).
  set (ai := start / 64). set (bn := start mod 64).
  assert (Hbn : 0 <= bn < 64) by (subst bn; lia).
  assert (Hai : 0 <= ai) by (subst ai; lia).
  assert (Hst : start = ai * 64 + bn) by (subst ai bn; lia).
  assert (Hmask : Z.land Word.all_ones (Word.wrap (2 ^ bn - 1)) = 2 ^ bn - 1).
  { rewrite (wrap_small (2 ^ bn - 1)) by (apply ones_below_range; lia).
    change Word.all_ones with (2 ^ 64 - 1). apply Z.bits_inj'. intros n Hn.
    rewrite Z.land_spec, !ones_below_bits by lia.
    destruct (Z.ltb_spec n 64); destruct (Z.ltb_spec n bn); try reflexivity; lia. }
  assert (Htest : (Z.land (SimpleBitMap._bitmap bm ai) (2 ^ bn - 1) =? 2 ^ bn - 1) = true
                  <-> forall i, 0 <= i < bn -> SimpleBitMap.is_set bm (start - bn + i) = true).
  { rewrite land_eq_mask by (pose proof (Z.pow_pos_nonneg 2 bn); lia). split.
    - intros H i Hi. rewrite (is_set_in_word bm ai) by (try rewrite modulus_eq; lia).
      apply H; [lia |]. rewrite ones_below_bits by lia. apply Z.ltb_lt. lia.
    - intros H n Hn Hb. rewrite ones_below_bits in Hb by lia. apply Z.ltb_lt in Hb.
      specialize (H n ltac:(lia)).
      rewrite (is_set_in_word bm ai) in H by (try rewrite modulus_eq; lia).
      replace (start - bn + n - ai * 64) with n in H by lia. exact H. }
  split.
  - intros (i & Hi & Hclear) fuel Hfuel. destruct fuel as [|fuel]; [lia |].
    cbn [BackwardSearch.count_leading_ones].
    rewrite (bind_eq _ _ _ _ _ (precondition_in_range dbg bm start Hs)), bind_get.
    rewrite array_index_nonneg, bit_index_nonneg by exact Hm. fold ai bn.
    rewrite one_shl_pow2 by lia. rewrite Hmask.
    destruct (Z.land (SimpleBitMap._bitmap bm ai) (2 ^ bn - 1) =? 2 ^ bn - 1) eqn:E.
    + exfalso. rewrite (proj1 Htest eq_refl i Hi) in Hclear. discriminate.
    + rewrite <- (wrap_small (2 ^ bn)) by (pose proof (pow2_range bn); lia).
      destruct (count_leading_ones_loop_spec (SimpleBitMap._bitmap bm ai) bm 65 bn 0)
        as (c & Ec & H1 & H2 & H3 & H4); [lia | lia |].
      exists c. split; [exact Ec |]. rewrite Z.sub_0_r in *.
      split; [lia |]. split.
      * intros j Hj. rewrite (is_set_in_word bm ai) by (try rewrite modulus_eq; lia).
        apply H3. lia.
      * destruct H4 as [H4|H4]; [left; lia |].
        destruct (Z.eq_dec (bn + c) 64) as [H64|H64]; [left; lia | right].
        rewrite (is_set_in_word bm ai) by (try rewrite modulus_eq; lia).
        replace (start + c - ai * 64) with (bn + c) by lia. exact H4.
  - intros Hall fuel c bm' E. destruct fuel as [|fuel]; [discriminate |].
    cbn [BackwardSearch.count_leading_ones] in E.
    rewrite (bind_eq _ _ _ _ _ (precondition_in_range dbg bm start Hs)), bind_get in E.
    rewrite array_index_nonneg, bit_index_nonneg in E by exact Hm. fold ai bn in E.
    rewrite one_shl_pow2 in E by lia. rewrite Hmask in E.
    rewrite (proj2 Htest Hall) in E.
    apply bind_inv in E. destruct E as (rest & bm2 & E2 & _).
    apply (count_leading_ones_at_word_start fuel _ bm rest bm2) in E2; [exact E2 |].
    pose proof (bit_index_of_next_word start) as Hb.
    rewrite (bit_index_nonneg start Hm) in Hb. exact Hb.
Qed.

End LeadingOnes.

Lemma mask_above_keeps_bit w bn :
  0 <= w < Word.modulus -> 0 <= bn < 64 -> Z.testbit w bn = true ->
  BackwardSearch.mask_above w bn <> 0.
Proof.
  intros Hw Hbn Hb. unfold BackwardSearch.mask_above.
  destruct (Z.ltb_spec bn 63) as [Hlt|Hge].
  - rewrite one_shl_pow2 by lia.
    rewrite (wrap_small (2 ^ (bn + 1) - 1)) by (apply ones_below_range; lia).
    intros E. assert (H : Z.testbit (Z.land w (2 ^ (bn + 1) - 1)) bn = true).
    { rewrite Z.land_spec, Hb, ones_below_bits by lia. apply Z.ltb_lt. lia. }
    rewrite E, Z.bits_0 in H. discriminate.
  - intros E. rewrite E, Z.bits_0 in Hb. discriminate.
Qed.

Section PreviousCluster.

Variable dbg : bool.
Variable shl_oob : Z -> Z.
Hypothesis shl_oob_64 : shl_oob 64 = 0.

(** The first probe of [find_prev_consecutive_bits] matches. *)
Lemma find_prev_consecutive_bits_first_probe bm k last boundary :
  Spec.words_ok bm ->
  0 <= last < SimpleBitMap._num_bits bm -> SimpleBitMap._num_bits bm < 2 ^ 62 ->
  1 <= k <= last + 1 -> -1 <= boundary -> boundary + k <= last ->
  Spec.all_set bm (last - k + 1) k ->
  BackwardSearch.find_prev_consecutive_bits dbg shl_oob k last boundary bm
  = Ret (last + 1 - k) bm.
Proof.
  intros Hok Hl HN Hk Hb Hroom Hall.
  unfold BackwardSearch.find_prev_consecutive_bits.
  rewrite (bind_eq _ _ _ _ _ (precondition_in_range dbg bm last Hl)), bind_get.
  cbv zeta. cbn [BackwardSearch.find_prev_consecutive_bits_loop].
  assert (Hm : 0 <= last < Word.modulus) by (rewrite modulus_eq; lia).
  rewrite (to_ssize_wrap (boundary + k)) by (rewrite half_modulus_eq; lia).
  destruct (Z.geb_spec last (boundary + k)) as [_|]; [| lia].
  rewrite array_index_nonneg, bit_index_nonneg by exact Hm.
  rewrite (to_ssize_small (last / 64)) by (rewrite half_modulus_eq; lia).
  set (ai := last / 64). set (bn := last mod 64).
  assert (Hbn : 0 <= bn < 64) by (subst bn; lia).
  assert (Hbit : Z.testbit (SimpleBitMap._bitmap bm ai) bn = true).
  { rewrite <- (Hall last ltac:(lia)).
    rewrite (is_set_in_word bm ai) by (subst ai; lia).
    f_equal. subst ai bn. lia. }
  destruct (Z.eqb_spec (BackwardSearch.mask_above (SimpleBitMap._bitmap bm ai) bn) 0) as [E|_].
  { exfalso. exact (mask_above_keeps_bit _ bn (Hok ai) Hbn Hbit E). }
  rewrite (to_ssize_small k) by (rewrite half_modulus_eq; lia).
  destruct (is_backward_consecutive_ones_spec dbg shl_oob shl_oob_64
              (S (Z.to_nat (k / SimpleBitMap._bits_per_array_element + 1))) bm last k
              Hok Hl HN Hk) as (b & Eb & Hiff).
  { unfold SimpleBitMap._bits_per_array_element. lia. }
  rewrite (bind_eq _ _ _ _ _ Eb).
  rewrite (proj2 Hiff Hall).
  rewrite (to_ssize_wrap (last + 1 - k)) by (rewrite half_modulus_eq; lia).
  reflexivity.
Qed.

(** [find_index_of_previous_available_cluster_of_regions] when the
    regions that end at [last_index] are all in the partition. *)
Lemma previous_available_cluster_first_probe p last k s :
  table_ok s -> Partitions.lt_NumPartitions p = true -> interval_ok s p ->
  0 <= last < Partitions._max s -> 1 <= k <= last + 1 ->
  (forall j, last - k < j <= last -> member s p j) ->
  BackwardSearch.find_index_of_previous_available_cluster_of_regions dbg shl_oob p last k s
  = Ret (if last + 1 - k <=? Partitions._leftmosts s p then -1 else last + 1 - k) s.
Proof.
  intros Hok Hp (Hc & _ & Hshape) Hl Hk Hall. pose proof (proj1 Hok) as HN.
  destruct (proj2 Hok p Hp) as (Hbits & Hwords & _).
  assert (HL : 0 <= Partitions._leftmosts s p <= last - k + 1).
  { assert (Hfirst : member s p (last - k + 1)) by (apply Hall; lia).
    assert (Hin : 0 <= last - k + 1 < Partitions._max s) by lia.
    pose proof (Hc (last - k + 1) Hin Hfirst).
    destruct Hshape as [[H1 H2]|(H1 & H2 & _)]; lia. }
  unfold BackwardSearch.find_index_of_previous_available_cluster_of_regions.
  rewrite (bind_eq _ _ _ _ _ (leftmost_in_range dbg p s Hp ltac:(lia))).
  destruct (Z.ltb_spec last (Partitions._leftmosts s p)); [lia |].
  assert (E : Run.zoom (fun s0 => Partitions._membership s0 p) (fun s0 _ => s0)
                (BackwardSearch.find_prev_consecutive_bits dbg shl_oob k last
                   (Partitions._leftmosts s p - 1)) s
              = Ret (last + 1 - k) s).
  { unfold Run.zoom.
    rewrite (find_prev_consecutive_bits_first_probe (Partitions._membership s p) k last);
      try assumption; try lia; [reflexivity |].
    intros j Hj. apply Hall. lia. }
  rewrite (bind_eq _ _ _ _ _ E). reflexivity.
Qed.

End PreviousCluster.

(** X28.  [count_leading_ones(start_idx)], called with
    [0 <= start_idx < _num_bits], tests the bits of the word that lie
    below [start_idx].  When one of them is clear, the call returns the
    number of set bits from [start_idx] up to the first clear bit or the
    end of that word, whichever comes first -- it never counts into the
    next word.  When all of them are set -- in particular whenever
    [start_idx] is the first bit of a word -- the call hands back no
    count at all: it goes on from word to word, in a debug build until
    the "precondition" assertion stops it. *)
Theorem count_leading_ones_counts_within_one_word dbg bm start :
  Spec.words_ok bm ->
  0 <= start < SimpleBitMap._num_bits bm -> SimpleBitMap._num_bits bm < 2 ^ 62 ->
  ((exists i, 0 <= i < start mod 64 /\
              SimpleBitMap.is_set bm (start - start mod 64 + i) = false) ->
   forall fuel, (1 <= fuel)%nat ->
   exists c,
     BackwardSearch.count_leading_ones dbg fuel start bm = Ret c bm /\
     0 <= c <= 64 - start mod 64 /\
     Spec.all_set bm start c /\
     (c = 64 - start mod 64 \/ SimpleBitMap.is_set bm (start + c) = false)) /\
  ((forall i, 0 <= i < start mod 64 ->
              SimpleBitMap.is_set bm (start - start mod 64 + i) = true) ->
   forall fuel c bm', BackwardSearch.count_leading_ones dbg fuel start bm <> Ret c bm').
Proof.
  intros Hok Hs HN. exact (count_leading_ones_spec dbg bm start Hok Hs HN).
Qed.

Lemma count_leading_ones_counts_within_one_word_witness :
  let bm := Samples.run_across_words in
  ((exists i, 0 <= i < 61 mod 64 /\ SimpleBitMap.is_set bm (61 - 61 mod 64 + i) = false) ->
   forall fuel, (1 <= fuel)%nat ->
   exists c,
     BackwardSearch.count_leading_ones true fuel 61 bm = Ret c bm /\
     0 <= c <= 64 - 61 mod 64 /\
     Spec.all_set bm 61 c /\
     (c = 64 - 61 mod 64 \/ SimpleBitMap.is_set bm (61 + c) = false)) /\
  ((forall i, 0 <= i < 61 mod 64 -> SimpleBitMap.is_set bm (61 - 61 mod 64 + i) = true) ->
   forall fuel c bm', BackwardSearch.count_leading_ones true fuel 61 bm <> Ret c bm').
Proof.
  intros bm.
  apply (count_leading_ones_counts_within_one_word true bm 61).
  - apply words_ok_run_across_words.
  - vm_compute. split; [discriminate | reflexivity].
  - vm_compute. reflexivity.
Defined.

(** X29.  [find_index_of_previous_available_cluster_of_regions(p,
    last_index, cluster_size)] when the [cluster_size] regions that end
    at [last_index] are all in partition [p] of a table in order (and
    [(size_t) 1 << 64] evaluates to 0): the call returns, leaves the
    table as it is, and hands back the first region of that cluster --
    unless that region is [leftmost(p)], in which case it hands back -1:
    a cluster that starts at the leftmost region of the partition is
    never found. *)
Theorem find_index_of_previous_available_cluster_misses_the_leftmost_one
        dbg shl_oob p last k s :
  shl_oob 64 = 0 ->
  table_ok s -> Partitions.lt_NumPartitions p = true -> interval_ok s p ->
  0 <= last < Partitions._max s -> 1 <= k <= last + 1 ->
  (forall j, last - k < j <= last -> member s p j) ->
  Partitions._leftmosts s p <= last + 1 - k /\
  BackwardSearch.find_index_of_previous_available_cluster_of_regions dbg shl_oob p last k s
  = Ret (if last + 1 - k =? Partitions._leftmosts s p then -1 else last + 1 - k) s.
Proof.
  intros Hshl Hok Hp Hint Hl Hk Hall.
  assert (HL : Partitions._leftmosts s p <= last + 1 - k).
  { assert (Hfirst : member s p (last + 1 - k)) by (apply Hall; lia).
    assert (Hin : 0 <= last + 1 - k < Partitions._max s) by lia.
    apply (proj1 Hint (last + 1 - k) Hin Hfirst). }
  split; [exact HL |].
  rewrite (previous_available_cluster_first_probe dbg shl_oob Hshl p last k s
             Hok Hp Hint Hl Hk Hall).
  destruct (Z.leb_spec (last + 1 - k) (Partitions._leftmosts s p));
    destruct (Z.eqb_spec (last + 1 - k) (Partitions._leftmosts s p)); try reflexivity; lia.
Qed.

Lemma find_index_of_previous_available_cluster_misses_the_leftmost_one_witness :
  let s := FreeSet._partitions (Scenario.after_calls true) in
  Partitions._leftmosts s Mutator <= 5 + 1 - 3 /\
  BackwardSearch.find_index_of_previous_available_cluster_of_regions
    true Example.shl_truncating Mutator 5 3 s
  = Ret (if 5 + 1 - 3 =? Partitions._leftmosts s Mutator then -1 else 5 + 1 - 3) s.
Proof.
  intros s.
  apply (find_index_of_previous_available_cluster_misses_the_leftmost_one
           true Example.shl_truncating Mutator 5 3 s).
  - reflexivity.
  - apply (proj1 (proj1 (after_calls_invariant true))).
  - reflexivity.
  - apply (proj2 (proj2 (proj1 (after_calls_invariant true))) Mutator eq_refl).
  - vm_compute. split; [discriminate | reflexivity].
  - lia.
  - intros j Hj.
    assert (Hc : j = 3 \/ j = 4 \/ j = 5) by lia.
    destruct Hc as [-> | [-> | ->]]; vm_compute; reflexivity.
Defined.

(* ================================================================= *)
(** * The checks of a debug build *)

Import CheckSpec.

(** ** What a debug build has checked when [assert_bounds] returns *)

Lemma assert_debug_inv {S A} (cond : bool) msg (k : unit -> Run.M S A) s a s' :
  Run.bind (Run.assert_ true cond msg) k s = Ret a s' -> cond = true /\ k tt s = Ret a s'.
Proof.
  unfold Run.assert_, Run.assertM, Run.bind, Run.ret.
  destruct cond; [intros H; split; [reflexivity | exact H] | discriminate].
Qed.

Lemma assertM_debug_inv {S A} (cond : Run.M S bool) msg (k : unit -> Run.M S A) s a s' :
  Run.bind (Run.assertM true cond msg) k s = Ret a s' ->
  exists s1, cond s = Ret true s1 /\ k tt s1 = Ret a s'.
Proof.
  unfold Run.assertM, Run.bind, Run.ret.
  destruct (cond s) as [b s1| |]; try discriminate.
  destruct b; [| discriminate]. intros H. exists s1. split; [reflexivity | exact H].
Qed.

Lemma assertM_debug_last {S} (cond : Run.M S bool) msg s a s' :
  Run.assertM true cond msg s = Ret a s' -> cond s = Ret true s'.
Proof.
  unfold Run.assertM, Run.bind, Run.ret.
  destruct (cond s) as [b s1| |]; try discriminate.
  destruct b; [| discriminate]. intros H. injection H as _ <-. reflexivity.
Qed.

Lemma bm_is_set_debug_inv {A} p idx (k : bool -> Run.M Partitions.t A) s a s' :
  Run.bind (Partitions.bm_is_set true p idx) k s = Ret a s' ->
  0 <= idx < SimpleBitMap._num_bits (Partitions._membership s p) /\
  k (SimpleBitMap.is_set (Partitions._membership s p) idx) s = Ret a s'.
Proof.
  intros E. apply bind_inv in E. destruct E as (b & s1 & E1 & E2).
  unfold Partitions.bm_is_set in E1. rewrite bind_get in E1.
  apply assert_debug_inv in E1. destruct E1 as [Hr E1].
  injection E1 as <- <-. split; [apply index_in_range_bounds; exact Hr | exact E2].
Qed.

(** [membership] in a debug build: the region is in one partition at
    most. *)
Lemma membership_debug idx s q s' :
  Partitions.membership true idx s = Ret q s' ->
  s' = s /\
  0 <= idx < SimpleBitMap._num_bits (Partitions._membership s Mutator) /\
  idx < Partitions._max s /\
  ~ (member s Mutator idx /\ member s Collector idx) /\
  (q = Mutator <-> member s Mutator idx) /\
  (q = Collector <-> member s Collector idx).
Proof.
  intros E. unfold Partitions.membership in E. rewrite bind_get in E.
  apply assert_debug_inv in E. destruct E as [Hmax E]. apply Z.ltb_lt in Hmax.
  apply bm_is_set_debug_inv in E. destruct E as [HrM E].
  unfold member.
  destruct (SimpleBitMap.is_set (Partitions._membership s Mutator) idx) eqn:EM.
  - apply bind_inv in E. destruct E as (r & s1 & E1 & E).
    apply assert_debug_inv in E1. destruct E1 as [_ E1]. injection E1 as <- <-.
    apply bm_is_set_debug_inv in E. destruct E as [_ E].
    destruct (SimpleBitMap.is_set (Partitions._membership s Collector) idx) eqn:EC.
    + apply assert_debug_inv in E. destruct E as [E _]. discriminate.
    + injection E as <- <-. repeat split; try assumption; try lia; try tauto;
        try (intros [_ H]; discriminate); try discriminate; try reflexivity.
  - rewrite bind_ret in E. apply bm_is_set_debug_inv in E. destruct E as [_ E].
    destruct (SimpleBitMap.is_set (Partitions._membership s Collector) idx) eqn:EC.
    + apply assert_debug_inv in E. destruct E as [_ E]. injection E as <- <-.
      repeat split; try assumption; try lia; try tauto;
        try (intros [H _]; discriminate); try discriminate; try reflexivity.
    + injection E as <- <-.
      repeat split; try assumption; try lia; try tauto;
        try (intros [H _]; discriminate); try discriminate; try reflexivity.
Qed.

Lemma partition_id_matches_debug idx p s b s' :
  Partitions.partition_id_matches true idx p s = Ret b s' ->
  s' = s /\ (b = true -> p <> NotFree -> 0 <= idx < Partitions._max s /\ member s p idx).
Proof.
  intros E. unfold Partitions.partition_id_matches in E. rewrite bind_get in E.
  apply assert_debug_inv in E. destruct E as [_ E].
  apply assert_debug_inv in E. destruct E as [_ E].
  apply bind_inv in E. destruct E as (q & s1 & E1 & E).
  apply membership_debug in E1. destruct E1 as (-> & Hr & Hmax & _ & HM & HC).
  injection E as <- <-. split; [reflexivity |].
  intros Hb Hp. apply partition_eqb_eq in Hb. subst q.
  split; [lia |]. destruct p; first [exfalso; apply Hp; reflexivity | apply HM; reflexivity | apply HC; reflexivity].
Qed.

Section AssertBounds.

Variable alloc_capacity : Z -> Z.

Lemma assert_bounds_visit_debug i b s b' s' :
  0 <= i -> seen alloc_capacity s i b ->
  Partitions.assert_bounds_visit true alloc_capacity i b s = Ret b' s' ->
  s' = s /\ seen alloc_capacity s (i + 1) b'.
Proof.
  intros Hi Hseen E. unfold Partitions.assert_bounds_visit in E.
  apply bind_inv in E. destruct E as (q & s1 & E1 & E).
  apply membership_debug in E1. destruct E1 as (-> & Hr & Hmax & Hboth & HM & HC).
  assert (Hnew : forall b1,
    (forall p, Partitions.leftmosts b1 p <= Partitions.leftmosts b p /\
               Partitions.rightmosts b p <= Partitions.rightmosts b1 p) ->
    (forall p, Partitions.lt_NumPartitions p = true -> member s p i ->
               Partitions.leftmosts b1 p <= i <= Partitions.rightmosts b1 p /\
               0 < alloc_capacity i) ->
    seen alloc_capacity s (i + 1) b1).
  { intros b1 Hmono Hat j Hj. destruct (Z.eq_dec j i) as [-> | Hne].
    - split; [exact Hboth | exact Hat].
    - destruct (Hseen j ltac:(lia)) as [Hb Hin]. split; [exact Hb |].
      intros p Hp Hm. destruct (Hin p Hp Hm) as [Hlr Hc]. destruct (Hmono p). lia. }
  assert (Hfree : forall p, q <> p -> Partitions.lt_NumPartitions p = true -> ~ member s p i).
  { intros p Hqp Hp Hm. destruct p; try discriminate.
    - apply Hqp. apply HM. exact Hm.
    - apply Hqp. apply HC. exact Hm. }
  assert (Hstep : q <> NotFree ->
    (s0 <- Run.get ;;
     Run.assert_ true (alloc_capacity i >? 0) "free regions must have allocation capacity" ;;
     Run.ret
       (Partitions.mk_observed
          (if i <? Partitions.leftmosts b q
           then Partitions.upd (Partitions.leftmosts b) q i else Partitions.leftmosts b)
          (if i >? Partitions.rightmosts b q
           then Partitions.upd (Partitions.rightmosts b) q i else Partitions.rightmosts b)
          (if (alloc_capacity i =? Partitions._region_size_bytes s0) &&
              (i <? Partitions.empty_leftmosts b q)
           then Partitions.upd (Partitions.empty_leftmosts b) q i
           else Partitions.empty_leftmosts b)
          (if (alloc_capacity i =? Partitions._region_size_bytes s0) &&
              (i >? Partitions.empty_rightmosts b q)
           then Partitions.upd (Partitions.empty_rightmosts b) q i
           else Partitions.empty_rightmosts b)))%run s = Ret b' s' ->
    s' = s /\ seen alloc_capacity s (i + 1) b').
  { intros Hq E'. rewrite bind_get in E'.
    apply assert_debug_inv in E'. destruct E' as [Hcap E'].
    injection E' as <- <-. split; [reflexivity |]. apply Hnew.
    - intros p. cbn [Partitions.leftmosts Partitions.rightmosts]. unfold Partitions.upd.
      destruct (Z.ltb_spec i (Partitions.leftmosts b q)),
               (Z.gtb_spec i (Partitions.rightmosts b q));
        destruct (Partitions.partition_eqb p q) eqn:Epq;
        try (apply partition_eqb_eq in Epq; subst p); lia.
    - intros p Hp Hm.
      assert (p = q) as ->.
      { destruct (partition_eqb_eq q p) as [_ _].
        destruct p, q; try reflexivity; try discriminate;
          try (exfalso; apply Hq; reflexivity);
          exfalso; refine (Hfree _ _ Hp Hm); discriminate. }
      cbn [Partitions.leftmosts Partitions.rightmosts]. unfold Partitions.upd.
      destruct (Z.ltb_spec i (Partitions.leftmosts b q)),
               (Z.gtb_spec i (Partitions.rightmosts b q));
        rewrite ?partition_eqb_refl; lia. }
  destruct q.
  all: try (apply Hstep; [discriminate | exact E]).
  injection E as <- <-. split; [reflexivity |]. apply Hnew.
  - intros p. lia.
  - intros p Hp Hm. exfalso. refine (Hfree p _ Hp Hm).
    intros <-. discriminate.
Qed.

Lemma assert_bounds_loop_debug n : forall i b s b' s',
  0 <= i -> seen alloc_capacity s i b ->
  Run.for_range n i b (Partitions.assert_bounds_visit true alloc_capacity) s = Ret b' s' ->
  s' = s /\ seen alloc_capacity s (i + Z.of_nat n) b'.
Proof.
  induction n as [| n IH]; intros i b s b' s' Hi Hseen E.
  - injection E as <- <-. split; [reflexivity |].
    replace (i + Z.of_nat 0) with i by lia. exact Hseen.
  - cbn [Run.for_range] in E. apply bind_inv in E. destruct E as (b1 & s1 & E1 & E).
    apply assert_bounds_visit_debug in E1; [| exact Hi | exact Hseen].
    destruct E1 as [-> Hseen1].
    apply IH in E; [| lia | exact Hseen1]. destruct E as [-> Hseen2].
    split; [reflexivity |].
    replace (i + Z.of_nat (S n)) with (i + 1 + Z.of_nat n) by lia. exact Hseen2.
Qed.

Lemma leftmost_then_inv p s (f : Z -> Run.M Partitions.t bool) s' :
  Partitions.lt_NumPartitions p = true ->
  (l <- Partitions.leftmost true p ;; f l)%run s = Ret true s' ->
  f (if Partitions._leftmosts s p >=? Partitions._max s
     then Partitions._max s else Partitions._leftmosts s p) s = Ret true s'.
Proof.
  intros Hp E. apply bind_inv in E. destruct E as (l & s1 & E1 & E).
  rewrite leftmost_eq in E1 by exact Hp. injection E1 as <- <-. exact E.
Qed.

Lemma rightmost_then_inv p s (f : Z -> Run.M Partitions.t bool) s' :
  Partitions.lt_NumPartitions p = true ->
  (r <- Partitions.rightmost true p ;; f r)%run s = Ret true s' ->
  f (Partitions._rightmosts s p) s = Ret true s'.
Proof.
  intros Hp E. apply bind_inv in E. destruct E as (l & s1 & E1 & E).
  rewrite rightmost_eq in E1 by exact Hp. injection E1 as <- <-. exact E.
Qed.

Lemma assert_bounds_partition_debug b p query_empty s r s' :
  Partitions.lt_NumPartitions p = true -> (query_empty = true -> p = Mutator) ->
  Partitions.assert_bounds_partition true alloc_capacity b p query_empty s = Ret r s' ->
  bounded s b p /\ hints_only Mutator s s'.
Proof.
  intros Hp Hq E. unfold Partitions.assert_bounds_partition in E.
  assert (Hnf : p <> NotFree) by (intros ->; discriminate).
  rewrite bind_get in E.
  set (L := if Partitions._leftmosts s p >=? Partitions._max s
            then Partitions._max s else Partitions._leftmosts s p) in *.
  apply assertM_debug_inv in E. destruct E as (s1 & E1 & E).
  apply leftmost_then_inv in E1; [| exact Hp]. injection E1 as _ <-.
  apply assertM_debug_inv in E. destruct E as (s1 & E1 & E).
  apply rightmost_then_inv in E1; [| exact Hp]. injection E1 as Hr <-.
  apply Z.ltb_lt in Hr.
  apply assertM_debug_inv in E. destruct E as (s1 & E1 & E).
  apply leftmost_then_inv in E1; [| exact Hp]. fold L in E1.
  assert (s1 = s /\ (L <> Partitions._max s -> 0 <= L /\ member s p L)) as [-> HL];
    [| clear E1].
  { destruct (Z.eqb_spec L (Partitions._max s)) as [HLm | HLm].
    - injection E1 as <-. split; [reflexivity | intros H; contradiction].
    - apply leftmost_then_inv in E1; [| exact Hp]. fold L in E1.
      apply partition_id_matches_debug in E1. destruct E1 as [-> H].
      split; [reflexivity |]. intros _. destruct (H eq_refl Hnf). split; [lia | assumption]. }
  apply assertM_debug_inv in E. destruct E as (s1 & E1 & E).
  apply leftmost_then_inv in E1; [| exact Hp]. fold L in E1.
  assert (s1 = s /\ (L <> Partitions._max s -> member s p (Partitions._rightmosts s p)))
    as [-> HR]; [| clear E1].
  { destruct (Z.eqb_spec L (Partitions._max s)) as [HLm | HLm].
    - injection E1 as <-. split; [reflexivity | intros H; contradiction].
    - apply rightmost_then_inv in E1; [| exact Hp].
      apply partition_id_matches_debug in E1. destruct E1 as [-> H].
      split; [reflexivity |]. intros _. destruct (H eq_refl Hnf). assumption. }
  apply assertM_debug_inv in E. destruct E as (s1 & E1 & E).
  apply leftmost_then_inv in E1; [| exact Hp]. fold L in E1. injection E1 as Hbeg <-.
  apply assertM_debug_inv in E. destruct E as (s1 & E1 & E).
  apply rightmost_then_inv in E1; [| exact Hp]. injection E1 as Hend <-.
  apply Z.geb_le in Hbeg. apply Z.leb_le in Hend.
  split.
  - unfold bounded. subst L.
    destruct (Z.geb_spec (Partitions._leftmosts s p) (Partitions._max s)) as [Hge | Hlt].
    + repeat split; lia.
    + repeat split; try lia. right.
      destruct (HL ltac:(lia)). split; [assumption |]. split; [assumption |].
      apply HR. lia.
  - destruct query_empty.
    + rewrite (Hq eq_refl) in E.
      apply assertM_debug_inv in E. destruct E as (s1 & E1 & E).
      apply assertM_debug_last in E.
      apply bind_inv in E1. destruct E1 as (le & s2 & E1 & E1').
      injection E1' as _ <-.
      apply bind_inv in E. destruct E as (re & s3 & E & E').
      injection E' as _ <-.
      apply (leftmost_empty_frames true alloc_capacity Mutator) in E1.
      apply (rightmost_empty_frames true alloc_capacity Mutator) in E.
      etransitivity; eassumption.
    + apply assertM_debug_inv in E. destruct E as (s1 & E1 & E).
      apply assertM_debug_last in E.
      rewrite bind_get in E1. injection E1 as _ <-.
      rewrite bind_get in E. injection E as _ <-. reflexivity.
Qed.

End AssertBounds.

(** ** The checks of [assert_bounds] *)

(** X30. When [assert_bounds] of a debug build returns, it has changed at
    most the cached bounds of the Mutator partition, and the table it was
    called on is consistent: no region is in both partitions, and for
    each partition every member lies within [leftmost, rightmost] and
    has allocation capacity, [rightmost] is below [_max], and the
    interval is empty ([leftmost] at [_max] or beyond) or both its ends
    are members. *)
Theorem assert_bounds_returns_only_from_a_consistent_table alloc_capacity s r s' :
  Partitions.assert_bounds true alloc_capacity s = Ret r s' ->
  hints_only Mutator s s' /\
  disjoint s /\
  forall p, Partitions.lt_NumPartitions p = true ->
    contains s p /\
    (forall j, 0 <= j < Partitions._max s -> member s p j -> 0 < alloc_capacity j) /\
    Partitions._rightmosts s p < Partitions._max s /\
    (Partitions._max s <= Partitions._leftmosts s p \/
     (0 <= Partitions._leftmosts s p /\
      member s p (Partitions._leftmosts s p) /\
      member s p (Partitions._rightmosts s p))).
Proof.
  intros E. unfold Partitions.assert_bounds in E. rewrite bind_get in E.
  apply bind_inv in E. destruct E as (b & s1 & E1 & E).
  apply assert_bounds_loop_debug in E1; [| lia | intros j Hj; lia].
  destruct E1 as [-> Hseen].
  apply bind_inv in E. destruct E as (u & s1 & E1 & E).
  apply assert_bounds_partition_debug in E1; [| reflexivity | reflexivity].
  destruct E1 as [HbM H1].
  apply assert_bounds_partition_debug in E; [| reflexivity | discriminate].
  destruct E as [HbC H2].
  assert (Hmax : 0 + Z.of_nat (Z.to_nat (Partitions._max s)) = Z.max 0 (Partitions._max s))
    by lia.
  split; [etransitivity; eassumption |].
  assert (HbC' : bounded s b Collector).
  { destruct H1 as (Hm & _ & Hmem & _ & _ & _ & Hq).
    destruct (Hq Collector ltac:(discriminate)) as (Hl & Hr & _ & _).
    unfold bounded, member in *. rewrite Hm, Hmem, Hl, Hr in HbC. exact HbC. }
  split.
  - intros j Hj. apply (Hseen j). lia.
  - intros p Hp.
    assert (Hb : bounded s b p).
    { destruct p; try discriminate; assumption. }
    destruct Hb as (Hr & Hl & Hbeg & Hend).
    repeat split; try assumption.
    + destruct (Hseen j ltac:(lia)) as [_ Hin]. destruct (Hin p Hp H0) as [[Hlo _] _].
      specialize (Hbeg ltac:(lia)). lia.
    + destruct (Hseen j ltac:(lia)) as [_ Hin]. destruct (Hin p Hp H0) as [[_ Hhi] _]. lia.
    + intros j Hj Hm. destruct (Hseen j ltac:(lia)) as [_ Hin].
      apply (Hin p Hp Hm).
Qed.


Lemma assert_bounds_returns_only_from_a_consistent_table_witness :
  let fs := Scenario.after_calls true in
  let s := FreeSet._partitions fs in
  disjoint s /\
  (forall j, 0 <= j < Partitions._max s -> member s Mutator j ->
             0 < FreeSet.alloc_capacity Scenario.cfg fs j) /\
  contains s Collector.
Proof.
  intros fs s.
  assert (E : exists s', Partitions.assert_bounds true (FreeSet.alloc_capacity Scenario.cfg fs) s
                         = Ret tt s').
  { eexists. vm_compute. reflexivity. }
  destruct E as [s' E].
  destruct (assert_bounds_returns_only_from_a_consistent_table _ _ _ _ E) as (_ & Hd & Hp).
  split; [exact Hd |]. split.
  - apply (Hp Mutator eq_refl).
  - apply (Hp Collector eq_refl).
Defined.

(* ================================================================= *)
(** * The shift by the word width in the searches for a run *)

Import ShiftSpec.

(** ** The run tests, whatever the shift by the word width yields *)

(** A word whose bits [lo, 64) are set matches any mask above [lo]. *)
Lemma land_any_mask_above w v lo :
  0 <= lo < 64 ->
  (forall n, lo <= n < 64 -> Z.testbit w n = true) ->
  (Z.land w (Z.land (Word.wrap v) (Word.not (2 ^ lo - 1)))
   =? Z.land (Word.wrap v) (Word.not (2 ^ lo - 1))) = true.
Proof.
  intros Hlo Hw.
  apply land_eq_mask.
  - apply Z.land_nonneg. left. apply wrap_range.
  - intros n Hn Hb. rewrite Z.land_spec in Hb. apply andb_prop in Hb. destruct Hb as [Hb1 Hb2].
    destruct (Z_lt_le_dec n 64) as [Hlt|Hge].
    + rewrite not_bits, ones_below_bits in Hb2 by lia.
      destruct (Z.ltb_spec n lo); [discriminate |]. apply Hw. lia.
    + rewrite (word_high_bits (Word.wrap v)) in Hb1 by (try apply wrap_range; lia).
      discriminate.
Qed.

Section AnyShift.

Variable shl_oob : Z -> Z.

(** The mask of the bits below [n] for a shift count within the word. *)
Lemma mask_below_word_end n :
  0 <= n < 64 ->
  Word.wrap (SimpleBitMap.one_shl_any shl_oob (Word.wrap n) - 1) = 2 ^ n - 1.
Proof.
  intros Hn. rewrite (wrap_small n) by (rewrite modulus_eq; lia).
  unfold SimpleBitMap.one_shl_any.
  destruct (Z.leb_spec 0 n); [| lia]. destruct (Z.ltb_spec n 64); [| lia]. cbn [andb].
  rewrite one_shl_pow2 by lia. apply wrap_small. apply ones_below_range. lia.
Qed.

Lemma is_forward_consecutive_ones_accepts fuel bm : forall start count,
  Spec.words_ok bm -> 0 <= start -> 1 <= count -> start + count < 2 ^ 62 ->
  (Z.to_nat ((start + count - 1) / 64 - start / 64) < fuel)%nat ->
  exists b, SimpleBitMap.is_forward_consecutive_ones shl_oob fuel bm start count = Some b /\
            (Spec.all_set bm start count -> b = true) /\
            (b = true -> span_accepted bm start count) /\
            (shl_oob 64 = 1 -> span_accepted bm start count -> b = true).
Proof.
  induction fuel as [|fuel IH]; intros start count Hok Hs Hc Hb Hfuel; [lia |].
  cbn [SimpleBitMap.is_forward_consecutive_ones]. unfold SimpleBitMap._bits_per_array_element.
  assert (Hm : 0 <= start < Word.modulus) by (rewrite modulus_eq; lia).
  rewrite array_index_nonneg, bit_index_nonneg by exact Hm.
  set (ai := start / 64). set (bn := start mod 64).
  assert (Hbn : 0 <= bn < 64) by (subst bn; lia).
  assert (Hai : 0 <= ai) by (subst ai; lia).
  assert (Hst : start = ai * 64 + bn) by (subst ai bn; lia).
  rewrite (wrap_small (64 - bn)) by (rewrite modulus_eq; lia).
  rewrite (to_ssize_small (64 - bn)) by (rewrite half_modulus_eq; lia).
  rewrite one_shl_pow2 by lia.
  rewrite (wrap_small (2 ^ bn - 1)) by (apply ones_below_range; lia).
  assert (Hword : forall c, 0 <= c -> bn + c <= 64 ->
            (forall n, bn <= n < bn + c -> Z.testbit (SimpleBitMap._bitmap bm ai) n = true)
            <-> Spec.all_set bm start c).
  { intros c Hc0 Hc1. split.
    - intros H j Hj. rewrite (is_set_in_word bm ai) by (try rewrite modulus_eq; lia).
      apply H. lia.
    - intros H n Hn. specialize (H (ai * 64 + n)).
      rewrite (is_set_in_word bm ai) in H by (try rewrite modulus_eq; lia).
      replace (ai * 64 + n - ai * 64) with n in H by lia. apply H. lia. }
  unfold span_accepted, examined.
  destruct (Z.geb_spec (64 - bn) count) as [Hfit|Hover].
  - (* All relevant bits reside within this array element *)
    destruct (Z.eq_dec (bn + count) 64) as [E64|Hne].
    + assert (Hmod : (start + count) mod 64 = 0) by lia.
      rewrite Hmod. cbn [Z.eqb].
      eexists. split; [reflexivity |].
      split; [| split].
      * intros Hall. apply land_any_mask_above; [lia |].
        intros n Hn. apply (proj2 (Hword count ltac:(lia) ltac:(lia)) Hall). lia.
      * intros _ j Hj. lia.
      * intros Hshl _. rewrite E64, (wrap_small 64) by (rewrite modulus_eq; lia).
        unfold SimpleBitMap.one_shl_any. cbn [Z.leb Z.ltb andb Z.compare].
        rewrite Hshl. change (Word.wrap (1 - 1)) with 0.
        rewrite Z.land_0_l, Z.land_0_r. reflexivity.
    + assert (Hmod : (start + count) mod 64 <> 0) by lia.
      destruct (Z.eqb_spec ((start + count) mod 64) 0) as [|_]; [contradiction |].
      rewrite mask_below_word_end by lia.
      eexists. split; [reflexivity |].
      rewrite land_span_mask by lia.
      rewrite (Hword count) by lia. tauto.
  - change Word.all_ones with (2 ^ 64 - 1).
    destruct (Z.land (SimpleBitMap._bitmap bm ai) _ =? _) eqn:E.
    + pose proof (proj1 (land_span_mask _ bn 64 ltac:(lia) ltac:(lia)) E) as E1.
      clear E. rename E1 into E.
      assert (E' : Spec.all_set bm start (64 - bn)).
      { apply (Hword (64 - bn)); [lia | lia |]. intros n Hn. apply E. lia. }
      clear E. rename E' into E.
      rewrite to_ssize_wrap by (rewrite half_modulus_eq; lia).
      rewrite to_ssize_wrap by (rewrite half_modulus_eq; lia).
      destruct (IH (start + (64 - bn)) (count - (64 - bn))) as (b & Hb' & H1 & H2 & H3);
        try assumption; try lia.
      unfold span_accepted, examined in H2, H3.
      replace (start + (64 - bn) + (count - (64 - bn))) with (start + count) in H2, H3 by ring.
      exists b. split; [exact Hb' |].
      split; [| split].
      * intros Hall. apply H1. intros j Hj. apply Hall. lia.
      * intros Eb j Hj. destruct (Z_lt_le_dec j (start + (64 - bn))).
        -- apply E. lia.
        -- apply (H2 Eb). destruct (_ =? 0); lia.
      * intros Hshl Hacc. apply (H3 Hshl). intros j Hj. apply Hacc.
        destruct (_ =? 0); lia.
    + exists false. split; [reflexivity |].
      assert (Hfirst : ~ Spec.all_set bm start (64 - bn)).
      { intros H.
        assert (E' : (Z.land (SimpleBitMap._bitmap bm ai)
                        (Z.land (2 ^ 64 - 1) (Word.not (2 ^ bn - 1)))
                      =? Z.land (2 ^ 64 - 1) (Word.not (2 ^ bn - 1))) = true).
        { apply land_span_mask; [lia | lia |]. intros n Hn.
          apply (proj2 (Hword (64 - bn) ltac:(lia) ltac:(lia)) H). lia. }
        rewrite E' in E. discriminate. }
      split; [| split].
      * intros Hall. exfalso. apply Hfirst. intros j Hj. apply Hall. lia.
      * discriminate.
      * intros _ Hacc. exfalso. apply Hfirst. intros j Hj. apply Hacc.
        destruct (Z.eqb_spec ((start + count) mod 64) 0); lia.
Qed.

End AnyShift.

Section AnyShiftSearch.

Variable shl_oob : Z -> Z.

Lemma find_next_consecutive_bits_loop_accepts fuel bm k boundary :
  forall start_idx ai bn eb,
  Spec.words_ok bm -> 1 <= k -> 0 <= boundary < 2 ^ 62 -> 0 <= start_idx ->
  ai = start_idx / 64 -> bn = start_idx mod 64 ->
  0 <= eb < Word.modulus ->
  (forall n, 0 <= n < 64 ->
             Z.testbit eb n = Z.testbit (SimpleBitMap._bitmap bm ai) n && (bn <=? n)) ->
  (Z.to_nat (boundary - k - start_idx + 1) < fuel)%nat ->
  exists r,
    SimpleBitMap.find_next_consecutive_bits_loop shl_oob fuel bm k boundary (boundary - k)
      start_idx ai bn eb = Some r /\
    (first_span_accepted bm k start_idx (boundary - k) r \/
     (r = boundary /\ Spec.no_run bm k start_idx (boundary - k))).
Proof.
  induction fuel as [|fuel IH]; intros start_idx ai bn eb Hok Hk Hb Hs Hai Hbn Heb Hbits Hfuel;
    [lia |].
  cbn [SimpleBitMap.find_next_consecutive_bits_loop]. unfold SimpleBitMap._bits_per_array_element.
  destruct (Z.leb_spec start_idx (boundary - k)) as [Hin|Hout].
  2:{ exists boundary. split; [reflexivity |]. right. split; [reflexivity |]. intros i Hi. lia. }
  assert (Hbn' : 0 <= bn < 64) by lia.
  assert (Hai' : 0 <= ai) by lia.
  assert (Hst : start_idx = ai * 64 + bn) by lia.
  destruct (Z.eqb_spec eb 0) as [Hz|Hnz].
  - (* move to the next element *)
    assert (Hnone : Spec.none_set bm start_idx (ai * 64 + 64)).
    { intros j Hj. rewrite (is_set_in_word bm ai) by (try rewrite modulus_eq; lia).
      assert (H : Z.testbit eb (j - ai * 64) = false) by (rewrite Hz; apply Z.bits_0).
      rewrite Hbits in H by lia. destruct (Z.leb_spec bn (j - ai * 64)); [| lia].
      rewrite andb_true_r in H. exact H. }
    rewrite (wrap_small (64 - bn)) by (rewrite modulus_eq; lia).
    rewrite to_ssize_wrap by (rewrite half_modulus_eq; lia).
    rewrite (wrap_small (ai + 1)) by (rewrite modulus_eq; lia).
    destruct (IH (start_idx + (64 - bn)) (ai + 1) 0 (SimpleBitMap._bitmap bm (ai + 1)))
      as [r [Hr Hres]]; try assumption; try lia.
    + apply Hok.
    + intros n Hn. destruct (Z.leb_spec 0 n); [| lia]. symmetry. apply andb_true_r.
    + exists r. split; [exact Hr |].
      assert (Hskip : forall i, start_idx <= i < start_idx + (64 - bn) -> ~ Spec.all_set bm i k).
      { intros i Hi Hall. specialize (Hall i). rewrite Hnone in Hall by lia.
        assert (false = true) by (apply Hall; lia). discriminate. }
      destruct Hres as [[Hr1 [Hr2 Hr3]]|[Hr1 Hr2]].
      * left. split; [lia |]. split; [exact Hr2 |]. intros i Hi.
        destruct (Z_lt_le_dec i (start_idx + (64 - bn))); [apply Hskip | apply Hr3]; lia.
      * right. split; [exact Hr1 |]. intros i Hi.
        destruct (Z_lt_le_dec i (start_idx + (64 - bn))); [apply Hskip | apply Hr2]; lia.
  - rewrite (to_ssize_small k) by (rewrite half_modulus_eq; lia).
    destruct (is_forward_consecutive_ones_accepts shl_oob
                (S (Z.to_nat (k / 64 + 1))) bm start_idx k) as (b & Hf & Hall & Hacc & _);
      try assumption; try lia.
    rewrite Hf. destruct b.
    + exists start_idx. split; [reflexivity |]. left. split; [lia |].
      split; [apply Hacc; reflexivity |]. intros i Hi. lia.
    + assert (Hnot : ~ Spec.all_set bm start_idx k).
      { intros H. apply Hall in H. discriminate. }
      destruct (highest_clear_bit bm start_idx (Z.to_nat k)) as [[z [Hz1 [Hz2 Hz3]]]|Hset].
      2:{ exfalso. apply Hnot. intros j Hj. apply Hset. lia. }
      rewrite to_ssize_wrap by (rewrite half_modulus_eq; lia).
      rewrite (count_trailing_ones_spec _ bm (start_idx + k - 1) z); try lia; try assumption.
      2:{ intros j Hj. apply Hz3. lia. }
      rewrite (wrap_small (k - (start_idx + k - 1 - z))) by (rewrite modulus_eq; lia).
      rewrite to_ssize_wrap by (rewrite half_modulus_eq; lia).
      replace (start_idx + (k - (start_idx + k - 1 - z))) with (z + 1) by lia.
      assert (Hm : 0 <= z + 1 < Word.modulus) by (rewrite modulus_eq; lia).
      rewrite array_index_nonneg, bit_index_nonneg by exact Hm.
      destruct (IH (z + 1) ((z + 1) / 64) ((z + 1) mod 64)
                  (SimpleBitMap.mask_below (SimpleBitMap._bitmap bm ((z + 1) / 64))
                     ((z + 1) mod 64)))
        as [r [Hr Hres]]; try assumption; try lia.
      * apply mask_low_range, Hok.
      * intros n Hn. apply mask_low_bits; lia.
      * exists r. split; [exact Hr |].
        assert (Hskip : forall i, start_idx <= i < z + 1 -> ~ Spec.all_set bm i k).
        { intros i Hi Hrun. specialize (Hrun z). rewrite Hz2 in Hrun.
          assert (false = true) by (apply Hrun; lia). discriminate. }
        destruct Hres as [[Hr1 [Hr2 Hr3]]|[Hr1 Hr2]].
        -- left. split; [lia |]. split; [exact Hr2 |]. intros i Hi.
           destruct (Z_lt_le_dec i (z + 1)); [apply Hskip | apply Hr3]; lia.
        -- right. split; [exact Hr1 |]. intros i Hi.
           destruct (Z_lt_le_dec i (z + 1)); [apply Hskip | apply Hr2]; lia.
Qed.

(** The run search within its preconditions: it returns the first
    position that the test accepts, and no run before it is skipped. *)
Lemma find_next_consecutive_bits_accepts bm k start boundary :
  Spec.words_ok bm ->
  1 <= k < 2 ^ 63 ->
  0 <= start < boundary -> boundary < 2 ^ 62 ->
  exists r,
    SimpleBitMap.find_next_consecutive_bits shl_oob bm k start boundary = Some r
    /\ (first_span_accepted bm k start (boundary - k) r
        \/ (r = boundary /\ Spec.no_run bm k start (boundary - k))).
Proof.
  intros Hok Hk Hs Hb.
  unfold SimpleBitMap.find_next_consecutive_bits.
  rewrite to_ssize_wrap by (rewrite half_modulus_eq; lia).
  assert (Hm : 0 <= start < Word.modulus) by (rewrite modulus_eq; lia).
  rewrite array_index_nonneg, bit_index_nonneg by exact Hm.
  destruct (find_next_consecutive_bits_loop_accepts
              (S (Z.to_nat (boundary - start + 1))) bm k boundary start
              (start / 64) (start mod 64)
              (SimpleBitMap.mask_below (SimpleBitMap._bitmap bm (start / 64)) (start mod 64)))
    as [r [Hr Hres]]; try lia; try assumption.
  - apply mask_low_range, Hok.
  - intros n Hn. apply mask_low_bits; lia.
  - exists r. split; [exact Hr | exact Hres].
Qed.

(** Where the shift by the word width yields 1, a span that ends on the
    last bit of a word and has a set bit in the word it starts in is
    returned as soon as it is probed, if the bits below its last word
    are set. *)
Lemma find_next_consecutive_bits_first_probe bm k start boundary :
  shl_oob 64 = 1 ->
  Spec.words_ok bm ->
  1 <= k < 2 ^ 63 ->
  0 <= start -> start + k <= boundary -> boundary < 2 ^ 62 ->
  (exists j, start <= j < 64 * (start / 64) + 64 /\ SimpleBitMap.is_set bm j = true) ->
  span_accepted bm start k ->
  SimpleBitMap.find_next_consecutive_bits shl_oob bm k start boundary = Some start.
Proof.
  intros Hshl Hok Hk Hs Hb HB (j & Hj & Hset) Hacc.
  unfold SimpleBitMap.find_next_consecutive_bits.
  rewrite to_ssize_wrap by (rewrite half_modulus_eq; lia).
  assert (Hm : 0 <= start < Word.modulus) by (rewrite modulus_eq; lia).
  rewrite array_index_nonneg, bit_index_nonneg by exact Hm.
  cbn [SimpleBitMap.find_next_consecutive_bits_loop].
  unfold SimpleBitMap._bits_per_array_element.
  destruct (Z.leb_spec start (boundary - k)) as [_|Hout]; [| lia].
  set (eb := SimpleBitMap.mask_below _ _).
  assert (Hnz : eb <> 0).
  { intros Hz.
    assert (Hbit : Z.testbit eb (j - 64 * (start / 64)) = false)
      by (rewrite Hz; apply Z.bits_0).
    subst eb. unfold SimpleBitMap.mask_below in Hbit. rewrite mask_low_bits in Hbit by lia.
    rewrite (is_set_in_word bm (start / 64)) in Hset by (try rewrite modulus_eq; lia).
    replace (j - start / 64 * 64) with (j - 64 * (start / 64)) in Hset by ring.
    rewrite Hset in Hbit.
    destruct (Z.leb_spec (start mod 64) (j - 64 * (start / 64))) as [_|Hlow]; [| lia].
    discriminate. }
  destruct (Z.eqb_spec eb 0); [contradiction |].
  rewrite (to_ssize_small k) by (rewrite half_modulus_eq; lia).
  destruct (is_forward_consecutive_ones_accepts shl_oob
              (S (Z.to_nat (k / 64 + 1))) bm start k) as (b & Hf & _ & _ & Hreal);
    try assumption; try lia.
  rewrite Hf, (Hreal Hshl Hacc). reflexivity.
Qed.

End AnyShiftSearch.

(** C3.  Where the hardware takes the shift count modulo 64, so that
    [(size_t) 1 << 64] is 1, the forward run search hands back a span
    that is no run: for a span [start, start + k) within the range that
    ends on the last bit of a word, has a set bit in the word it starts
    in, and whose bits below its last word are set,
    [find_next_consecutive_bits] returns [start], which is below [end],
    whatever the bits of the span in its last word are -- also when one
    of them is clear. *)
Theorem find_next_consecutive_bits_accepts_a_span_ending_a_word
        shl_oob bm k start_idx boundary_idx :
  shl_oob 64 = 1 ->
  Spec.words_ok bm ->
  SimpleBitMap._num_bits bm < 2 ^ 62 ->
  1 <= k ->
  0 <= start_idx -> start_idx + k <= boundary_idx ->
  boundary_idx <= SimpleBitMap._num_bits bm ->
  (start_idx + k) mod 64 = 0 ->
  (exists j, start_idx <= j < 64 * (start_idx / 64) + 64 /\ SimpleBitMap.is_set bm j = true) ->
  Spec.all_set bm start_idx (k - 64) ->
  (exists z, start_idx <= z < start_idx + k /\ SimpleBitMap.is_set bm z = false) ->
  SimpleBitMap.find_next_consecutive_bits shl_oob bm k start_idx boundary_idx = Some start_idx
  /\ start_idx < boundary_idx
  /\ ~ Spec.all_set bm start_idx k.
Proof.
  intros Hshl Hok HN Hk Hs Hb HB Hend Hset Hlow (z & Hz & Hclear).
  split; [| split].
  - apply find_next_consecutive_bits_first_probe; try assumption; try lia.
    unfold span_accepted, examined. rewrite Hend. exact Hlow.
  - lia.
  - intros Hall. rewrite (Hall z Hz) in Hclear. discriminate.
Qed.

Lemma find_next_consecutive_bits_accepts_a_span_ending_a_word_witness :
  SimpleBitMap.find_next_consecutive_bits Example.shl_count_mod_64
    Example.bit62_of_64 2 62 64 = Some 62
  /\ 62 < 64
  /\ ~ Spec.all_set Example.bit62_of_64 62 2.
Proof.
  apply (find_next_consecutive_bits_accepts_a_span_ending_a_word
           Example.shl_count_mod_64 Example.bit62_of_64 2 62 64).
  - reflexivity.
  - unfold Example.bit62_of_64. apply words_ok_set_bit, words_ok_create.
    intros j. cbn [SimpleBitMap._bitmap]. rewrite modulus_eq. lia.
  - vm_compute. reflexivity.
  - lia.
  - lia.
  - lia.
  - vm_compute. discriminate.
  - reflexivity.
  - exists 62. split; [vm_compute; split; [discriminate | reflexivity] |].
    vm_compute. reflexivity.
  - intros j Hj. lia.
  - exists 63. split; [lia |]. vm_compute. reflexivity.
Defined.

(** The search for a cluster of regions on a table in order, whatever
    the shift by the word width yields. *)
Lemma next_available_cluster_is_first_accepted dbg shl_oob p start_index cluster_size s :
  table_ok s -> Partitions.lt_NumPartitions p = true -> interval_ok s p ->
  0 <= start_index -> 1 <= cluster_size < 2 ^ 63 ->
  exists r,
    Partitions.find_index_of_next_available_cluster_of_regions
      dbg shl_oob p start_index cluster_size s = Ret r s /\
    ((r = Partitions._max s /\
      forall i, start_index <= i -> i + cluster_size <= Partitions._max s ->
                ~ (forall j, i <= j < i + cluster_size -> member s p j))
     \/
     (start_index <= r /\ r + cluster_size <= Partitions._rightmosts s p + 1 /\
      Partitions._rightmosts s p < Partitions._max s /\
      span_accepted (Partitions._membership s p) r cluster_size /\
      forall i, start_index <= i < r ->
                ~ (forall j, i <= j < i + cluster_size -> member s p j))).
Proof.
  intros Hok Hp (Hc & _ & Hshape) Hstart Hk. pose proof (proj1 Hok) as HN.
  destruct (proj2 Hok p Hp) as (Hbits & Hwords & _).
  unfold Partitions.find_index_of_next_available_cluster_of_regions.
  rewrite (bind_eq _ _ _ _ _ (rightmost_eq dbg p s Hp)).
  rewrite (bind_eq _ _ _ _ _ (leftmost_eq dbg p s Hp)).
  rewrite bind_get.
  set (L := if Partitions._leftmosts s p >=? Partitions._max s
            then Partitions._max s else Partitions._leftmosts s p).
  assert (EL : L = Partitions._leftmosts s p).
  { subst L. destruct (Z.geb_spec (Partitions._leftmosts s p) (Partitions._max s));
      [| reflexivity].
    destruct Hshape as [[HL _]|(HL & HR & _)]; lia. }
  assert (Hnone : Partitions._rightmosts s p < L \/ Partitions._rightmosts s p < start_index ->
                  forall i, start_index <= i -> i + cluster_size <= Partitions._max s ->
                            ~ (forall j, i <= j < i + cluster_size -> member s p j)).
  { intros Hcase i Hi1 Hi2 Hrun.
    assert (Hfirst : member s p i) by (apply Hrun; lia).
    pose proof (Hc i ltac:(lia) Hfirst). lia. }
  destruct (Z.ltb_spec (Partitions._rightmosts s p) L) as [Hlt|Hge]; cbn [orb].
  { exists (Partitions._max s). split; [reflexivity |]. left.
    split; [reflexivity |]. apply Hnone. left. exact Hlt. }
  destruct (Z.gtb_spec start_index (Partitions._rightmosts s p)) as [Hgt|Hle].
  { exists (Partitions._max s). split; [reflexivity |]. left.
    split; [reflexivity |]. apply Hnone. right. lia. }
  assert (HRmax : Partitions._rightmosts s p < Partitions._max s).
  { destruct Hshape as [[HL HR]|(HL & HR & _)]; lia. }
  destruct (find_next_consecutive_bits_accepts shl_oob (Partitions._membership s p)
              cluster_size start_index (Partitions._rightmosts s p + 1) Hwords Hk)
    as (r & Er & Hr); [lia | lia |].
  assert (Ecall : Partitions.bm_find_next_consecutive_bits dbg shl_oob p cluster_size
                    start_index (Partitions._rightmosts s p + 1) s = Ret r s).
  { unfold Partitions.bm_find_next_consecutive_bits. rewrite bind_get.
    unfold SimpleBitMap.index_in_range. rewrite Hbits.
    destruct (Z.leb_spec 0 start_index); [| lia].
    destruct (Z.ltb_spec start_index (Partitions._max s)); [| lia]. cbn [andb].
    rewrite (bind_eq _ _ _ _ _ (assert_true dbg _ s)). rewrite Er. reflexivity. }
  rewrite (bind_eq _ _ _ _ _ Ecall).
  destruct Hr as [(Hr1 & Hrun & Hmin)|[-> Hno]].
  - destruct (Z.gtb_spec r (Partitions._rightmosts s p)); [lia |].
    exists r. split; [reflexivity |]. right.
    split; [lia |]. split; [lia |]. split; [exact HRmax |]. split; [exact Hrun |].
    intros i Hi Hall. apply (Hmin i Hi). exact Hall.
  - destruct (Z.gtb_spec (Partitions._rightmosts s p + 1) (Partitions._rightmosts s p)); [| lia].
    exists (Partitions._max s). split; [reflexivity |]. left. split; [reflexivity |].
    intros i Hi1 Hi2 Hrun.
    destruct (Z.le_gt_cases i (Partitions._rightmosts s p + 1 - cluster_size)) as [Hin|Hout].
    + apply (Hno i); [lia | exact Hrun].
    + assert (Hlast : member s p (i + cluster_size - 1)) by (apply Hrun; lia).
      pose proof (Hc (i + cluster_size - 1) ltac:(lia) Hlast). lia.
Qed.

Lemma regions_62_to_64_invariant : invariant cfg128 free_set_62_to_64.
Proof.
  assert (Hcreate : bitmap_ok 128 (SimpleBitMap.create (fun _ => 0) 128)).
  { split; [reflexivity |]. split; [| vm_compute; discriminate].
    apply words_ok_create. intros j. cbn [SimpleBitMap._bitmap]. rewrite modulus_eq. lia. }
  assert (Hmut : forall j, 0 <= j < 128 ->
            SimpleBitMap.is_set (Partitions._membership regions_62_to_64 Mutator) j
            = (62 =? j) || (64 =? j)).
  { intros j Hj. cbn [regions_62_to_64 Partitions._membership fold_left].
    rewrite !is_set_set_bit by (rewrite modulus_eq; lia).
    unfold SimpleBitMap.create. rewrite is_set_clear_all.
    - destruct (64 =? j), (62 =? j); reflexivity.
    - cbn. lia.
    - rewrite modulus_eq. lia. }
  assert (Hcol : forall j, 0 <= j < 128 ->
            SimpleBitMap.is_set (Partitions._membership regions_62_to_64 Collector) j
            = (63 =? j)).
  { intros j Hj. cbn [regions_62_to_64 Partitions._membership].
    rewrite is_set_set_bit by (rewrite modulus_eq; lia).
    unfold SimpleBitMap.create. rewrite is_set_clear_all.
    - apply orb_false_r.
    - cbn. lia.
    - rewrite modulus_eq. lia. }
  split; [| split; [reflexivity | split; [reflexivity | vm_compute; reflexivity]]].
  cbn [free_set_62_to_64 FreeSet._partitions].
  split; [| split].
  - split; [cbn; lia |]. intros p Hp. destruct p; try discriminate.
    + cbn [regions_62_to_64 Partitions._membership Partitions._max fold_left].
      repeat apply bitmap_ok_set_bit. exact Hcreate.
    + cbn [regions_62_to_64 Partitions._membership Partitions._max].
      apply bitmap_ok_set_bit. exact Hcreate.
  - intros j Hj [Hm Hc]. unfold member in Hm, Hc.
    change (Partitions._max regions_62_to_64) with 128 in Hj.
    rewrite Hmut in Hm by exact Hj. rewrite Hcol in Hc by exact Hj.
    destruct (Z.eqb_spec 62 j), (Z.eqb_spec 64 j), (Z.eqb_spec 63 j); try discriminate; lia.
  - intros p Hp. split; [| cbn; lia]. destruct p; try discriminate.
    + split; [| split].
      * intros j Hj Hm. unfold member in Hm.
        change (Partitions._max regions_62_to_64) with 128 in Hj.
        rewrite Hmut in Hm by exact Hj.
        cbn [regions_62_to_64 Partitions._leftmosts Partitions._rightmosts].
        destruct (Z.eqb_spec 62 j), (Z.eqb_spec 64 j); try discriminate; lia.
      * cbn. lia.
      * right.
        cbn [regions_62_to_64 Partitions._leftmosts Partitions._rightmosts Partitions._max].
        split; [lia |]. split; [lia |]. unfold member. rewrite !Hmut by lia.
        split; reflexivity.
    + split; [| split].
      * intros j Hj Hm. unfold member in Hm.
        change (Partitions._max regions_62_to_64) with 128 in Hj.
        rewrite Hcol in Hm by exact Hj.
        cbn [regions_62_to_64 Partitions._leftmosts Partitions._rightmosts].
        destruct (Z.eqb_spec 63 j); try discriminate; lia.
      * cbn. lia.
      * right.
        cbn [regions_62_to_64 Partitions._leftmosts Partitions._rightmosts Partitions._max].
        split; [lia |]. split; [lia |]. unfold member. rewrite !Hcol by lia.
        split; reflexivity.
Qed.

Lemma regions_62_to_64_in_order :
  table_ok regions_62_to_64 /\ interval_ok regions_62_to_64 Mutator.
Proof.
  destruct regions_62_to_64_invariant as ((Hok & _ & Hall) & _).
  split; [exact Hok | apply (Hall Mutator eq_refl)].
Qed.

(** X12.  [find_index_of_next_available_cluster_of_regions(p, start_index,
    cluster_size)], for [start_index >= 0] and a cluster of at least one
    region, on a table whose interval for [p] is in order, in both builds
    and whatever [(size_t) 1 << 64] evaluates to: the call returns and
    leaves the table as it is.  It hands back [_max], and then no cluster
    of [cluster_size] regions of [p] starts at or after [start_index]; or
    it hands back an index [r >= start_index] with
    [r + cluster_size - 1 <= rightmost(p)] before which no cluster
    starts, and the regions [r .. r + cluster_size - 1] are in [p] --
    unless [r + cluster_size] is a multiple of 64, when this is known
    only of the regions below [r + cluster_size - 64].  Where the shift
    yields 1 (its count taken modulo 64) the exception is real: if
    [start_index + cluster_size] is a multiple of 64 and not beyond
    [rightmost(p) + 1], region [start_index] is in [p] and so are the
    regions below [start_index + cluster_size - 64], then [start_index]
    is handed back, whichever of the last 64 regions of the span
    are in [p]. *)
Theorem find_index_of_next_available_cluster_returns_first_accepted
        dbg shl_oob p start_index cluster_size s :
  table_ok s -> Partitions.lt_NumPartitions p = true -> interval_ok s p ->
  0 <= start_index -> 1 <= cluster_size < 2 ^ 63 ->
  (exists r,
     Partitions.find_index_of_next_available_cluster_of_regions
       dbg shl_oob p start_index cluster_size s = Ret r s /\
     ((r = Partitions._max s /\
       forall i, start_index <= i -> i + cluster_size <= Partitions._max s ->
                 ~ (forall j, i <= j < i + cluster_size -> member s p j))
      \/
      (start_index <= r /\ r + cluster_size - 1 <= Partitions._rightmosts s p /\
       Partitions._rightmosts s p < Partitions._max s /\
       (forall j, r <= j < r + cluster_size ->
                  (r + cluster_size) mod 64 <> 0 \/ j < r + cluster_size - 64 ->
                  member s p j) /\
       forall i, start_index <= i < r ->
                 ~ (forall j, i <= j < i + cluster_size -> member s p j))))
  /\
  (shl_oob 64 = 1 ->
   (start_index + cluster_size) mod 64 = 0 ->
   start_index + cluster_size - 1 <= Partitions._rightmosts s p ->
   member s p start_index ->
   (forall j, start_index <= j < start_index + cluster_size - 64 -> member s p j) ->
   Partitions.find_index_of_next_available_cluster_of_regions
     dbg shl_oob p start_index cluster_size s = Ret start_index s).
Proof.
  intros Hok Hp Hint Hstart Hk. split.
  - destruct (next_available_cluster_is_first_accepted dbg shl_oob p start_index cluster_size s
                Hok Hp Hint Hstart Hk) as (r & Er & Hr).
    exists r. split; [exact Er |].
    destruct Hr as [Hr|(H1 & H2 & H3 & H4 & H5)]; [left; exact Hr | right].
    split; [exact H1 |]. split; [lia |]. split; [exact H3 |]. split; [| exact H5].
    intros j Hj Hcase. apply H4. unfold examined.
    destruct (Z.eqb_spec ((r + cluster_size) mod 64) 0); lia.
  - intros Hshl Hend Hfit Hfirst Hlow.
    destruct Hint as (Hc & _ & Hshape). pose proof (proj1 Hok) as HN.
    destruct (proj2 Hok p Hp) as (Hbits & Hwords & _).
    assert (HRmax : Partitions._rightmosts s p < Partitions._max s).
    { destruct Hshape as [[HL HR]|(HL & HR & _)]; lia. }
    assert (Hin : Partitions._leftmosts s p <= start_index <= Partitions._rightmosts s p)
      by (apply Hc; [lia | exact Hfirst]).
    unfold Partitions.find_index_of_next_available_cluster_of_regions.
    rewrite (bind_eq _ _ _ _ _ (rightmost_eq dbg p s Hp)).
    rewrite (bind_eq _ _ _ _ _ (leftmost_eq dbg p s Hp)).
    rewrite bind_get.
    destruct (Z.geb_spec (Partitions._leftmosts s p) (Partitions._max s)); [lia |].
    destruct (Z.ltb_spec (Partitions._rightmosts s p) (Partitions._leftmosts s p)); [lia |].
    destruct (Z.gtb_spec start_index (Partitions._rightmosts s p)); [lia |]. cbn [orb].
    assert (Ecall : Partitions.bm_find_next_consecutive_bits dbg shl_oob p cluster_size
                      start_index (Partitions._rightmosts s p + 1) s = Ret start_index s).
    { unfold Partitions.bm_find_next_consecutive_bits. rewrite bind_get.
      unfold SimpleBitMap.index_in_range. rewrite Hbits.
      destruct (Z.leb_spec 0 start_index); [| lia].
      destruct (Z.ltb_spec start_index (Partitions._max s)); [| lia]. cbn [andb].
      rewrite (bind_eq _ _ _ _ _ (assert_true dbg _ s)).
      rewrite (find_next_consecutive_bits_first_probe shl_oob); try assumption; try lia.
      - reflexivity.
      - exists start_index. split; [lia | exact Hfirst].
      - unfold span_accepted, examined. rewrite Hend. cbn [Z.eqb].
        intros j Hj. apply Hlow. lia. }
    rewrite (bind_eq _ _ _ _ _ Ecall).
    destruct (Z.gtb_spec start_index (Partitions._rightmosts s p)); [lia | reflexivity].
Qed.

Lemma find_index_of_next_available_cluster_returns_first_accepted_witness :
  let s := regions_62_to_64 in
  (exists r,
     Partitions.find_index_of_next_available_cluster_of_regions
       false Example.shl_count_mod_64 Mutator 62 2 s = Ret r s /\
     ((r = Partitions._max s /\
       forall i, 62 <= i -> i + 2 <= Partitions._max s ->
                 ~ (forall j, i <= j < i + 2 -> member s Mutator j))
      \/
      (62 <= r /\ r + 2 - 1 <= Partitions._rightmosts s Mutator /\
       Partitions._rightmosts s Mutator < Partitions._max s /\
       (forall j, r <= j < r + 2 ->
                  (r + 2) mod 64 <> 0 \/ j < r + 2 - 64 ->
                  member s Mutator j) /\
       forall i, 62 <= i < r ->
                 ~ (forall j, i <= j < i + 2 -> member s Mutator j))))
  /\
  Partitions.find_index_of_next_available_cluster_of_regions
    false Example.shl_count_mod_64 Mutator 62 2 s = Ret 62 s.
Proof.
  intros s. destruct regions_62_to_64_in_order as [Hok Hint].
  destruct (find_index_of_next_available_cluster_returns_first_accepted
              false Example.shl_count_mod_64 Mutator 62 2 s Hok eq_refl Hint
              ltac:(lia) ltac:(lia)) as [Hfirst Hend].
  split; [exact Hfirst |].
  apply Hend.
  - reflexivity.
  - reflexivity.
  - cbn. lia.
  - vm_compute. reflexivity.
  - intros j Hj. lia.
Defined.

(** On that table, with the shift count taken modulo 64, the search for
    two regions hands back region 62, in both builds, although region 63
    is not in the partition. *)
Example find_index_of_next_available_cluster_at_a_word_end :
  forall dbg,
    Partitions.find_index_of_next_available_cluster_of_regions
      dbg Example.shl_count_mod_64 Mutator 0 2 regions_62_to_64 = Ret 62 regions_62_to_64
    /\ ~ member regions_62_to_64 Mutator 63.
Proof.
  intros dbg. split.
  - destruct dbg; vm_compute; reflexivity.
  - vm_compute. discriminate.
Qed.

(** A word whose bits are all set matches any mask. *)
Lemma land_any_mask w v :
  (forall n, 0 <= n < 64 -> Z.testbit w n = true) ->
  (Z.land w (Word.wrap v) =? Word.wrap v) = true.
Proof.
  intros Hw. apply land_eq_mask.
  - apply wrap_range.
  - intros n Hn Hb. destruct (Z_lt_le_dec n 64) as [Hlt|Hge]; [apply Hw; lia |].
    rewrite (word_high_bits (Word.wrap v)) in Hb by (try apply wrap_range; lia).
    discriminate.
Qed.

Section BackwardAnyShift.

Variable dbg : bool.
Variable shl_oob : Z -> Z.

(** Where the shift by the word width yields 1, the mask it is used for
    is empty. *)
Lemma empty_mask_at_word_end :
  shl_oob 64 = 1 ->
  Word.wrap (SimpleBitMap.one_shl_any shl_oob (Word.wrap 64) - 1) = 0.
Proof.
  intros Hshl. rewrite (wrap_small 64) by (rewrite modulus_eq; lia).
  unfold SimpleBitMap.one_shl_any. cbn [Z.leb Z.ltb andb Z.compare].
  rewrite Hshl. reflexivity.
Qed.

Lemma is_backward_consecutive_ones_accepts fuel bm : forall last count,
  Spec.words_ok bm ->
  0 <= last < SimpleBitMap._num_bits bm -> SimpleBitMap._num_bits bm < 2 ^ 62 ->
  1 <= count <= last + 1 ->
  (Z.to_nat (last / 64 - (last - count + 1) / 64) < fuel)%nat ->
  exists b,
    BackwardSearch.is_backward_consecutive_ones dbg shl_oob fuel last count bm = Ret b bm /\
    (Spec.all_set bm (last - count + 1) count -> b = true) /\
    (b = true -> span_accepted_backward bm last count) /\
    (shl_oob 64 = 1 -> span_accepted_backward bm last count -> b = true).
Proof.
  induction fuel as [|fuel IH]; intros last count Hok Hl HN Hc Hfuel; [lia |].
  cbn [BackwardSearch.is_backward_consecutive_ones].
  unfold SimpleBitMap._bits_per_array_element.
  rewrite (bind_eq _ _ _ _ _ (precondition_in_range dbg bm last Hl)).
  assert (Ha : (last - count >=? -1) = true) by (apply Z.geb_le; lia).
  rewrite Ha, (bind_eq _ _ _ _ _ (assert_true dbg _ bm)), bind_get.
  assert (Hm : 0 <= last < Word.modulus) by (rewrite modulus_eq; lia).
  rewrite array_index_nonneg, bit_index_nonneg by exact Hm.
  set (ai := last / 64). set (bn := last mod 64).
  assert (Hbn : 0 <= bn < 64) by (subst bn; lia).
  assert (Hai : 0 <= ai) by (subst ai; lia).
  assert (Hst : last = ai * 64 + bn) by (subst ai bn; lia).
  rewrite (to_ssize_wrap (bn + 1)) by (rewrite half_modulus_eq; lia).
  assert (Hword : forall lo, 0 <= lo <= bn + 1 ->
            (forall n, lo <= n < bn + 1 -> Z.testbit (SimpleBitMap._bitmap bm ai) n = true)
            <-> (forall j, ai * 64 + lo <= j <= last -> SimpleBitMap.is_set bm j = true)).
  { intros lo Hlo. split.
    - intros H j Hj. rewrite (is_set_in_word bm ai) by (try rewrite modulus_eq; lia).
      apply H. lia.
    - intros H n Hn. specialize (H (ai * 64 + n)).
      rewrite (is_set_in_word bm ai) in H by (try rewrite modulus_eq; lia).
      replace (ai * 64 + n - ai * 64) with n in H by lia. apply H. lia. }
  assert (Eone : 2 ^ 0 - 1 = 0) by reflexivity.
  unfold span_accepted_backward. fold ai bn.
  destruct (Z.geb_spec (bn + 1) count) as [Hfit|Hover].
  - (* All relevant bits reside within this array element *)
    rewrite (mask_below_word_end shl_oob (bn + 1 - count)) by lia.
    destruct (Z.eq_dec bn 63) as [E63|Hne].
    + eexists. split; [reflexivity |].
      split; [| split].
      * intros Hall. apply land_any_mask_above; [lia |].
        intros n Hn. apply (proj2 (Hword (bn + 1 - count) ltac:(lia))); [| lia].
        intros j Hj. apply Hall. lia.
      * intros _. left. exact E63.
      * intros Hshl _. rewrite E63. change (63 + 1) with 64.
        rewrite (empty_mask_at_word_end Hshl).
        rewrite Z.land_0_l, Z.land_0_r. reflexivity.
    + rewrite (mask_below_word_end shl_oob (bn + 1)) by lia.
      eexists. split; [reflexivity |].
      rewrite land_span_mask by lia. rewrite (Hword (bn + 1 - count)) by lia.
      split; [| split].
      * intros Hall j Hj. apply Hall. lia.
      * intros H. right. intros j Hj1 Hj2. apply H. lia.
      * intros _ [H63|H] j Hj; [lia |]. apply H; lia.
  - destruct (Z.eq_dec bn 63) as [E63|Hne].
    + (* the whole word lies in the span *)
      destruct (Z.land (SimpleBitMap._bitmap bm ai) _ =? _) eqn:E.
      * rewrite (wrap_small (bn + 1)) by (rewrite modulus_eq; lia).
        rewrite to_ssize_wrap by (rewrite half_modulus_eq; lia).
        rewrite to_ssize_wrap by (rewrite half_modulus_eq; lia).
        destruct (IH (last - (bn + 1)) (count - (bn + 1))) as (b & Hb' & H1 & H2 & H3);
          try assumption; try lia.
        exists b. split; [exact Hb' |].
        split; [| split].
        -- intros Hall. apply H1. intros j Hj. apply Hall. lia.
        -- intros _. left. exact E63.
        -- intros Hshl _. apply (H3 Hshl). left. lia.
      * exists false. split; [reflexivity |].
        split; [| split].
        -- intros Hall. exfalso.
           rewrite land_any_mask in E; [discriminate |].
           intros n Hn. apply (proj2 (Hword 0 ltac:(lia))); [| lia].
           intros j Hj. apply Hall. lia.
        -- discriminate.
        -- intros Hshl _. exfalso. revert E. rewrite E63. change (63 + 1) with 64.
           rewrite (empty_mask_at_word_end Hshl).
           rewrite Z.land_0_r. discriminate.
    + rewrite (mask_below_word_end shl_oob (bn + 1)) by lia.
      assert (Emask : 2 ^ (bn + 1) - 1 = Z.land (2 ^ (bn + 1) - 1) (Word.not (2 ^ 0 - 1))).
      { rewrite Eone. apply Z.bits_inj'. intros n Hn.
        rewrite Z.land_spec. destruct (Z_lt_le_dec n 64).
        - rewrite not_bits by lia. rewrite Z.bits_0. cbn [negb]. rewrite andb_true_r.
          reflexivity.
        - rewrite ones_below_bits by lia. destruct (Z.ltb_spec n (bn + 1)); [lia | reflexivity]. }
      assert (Htest : (Z.land (SimpleBitMap._bitmap bm ai) (2 ^ (bn + 1) - 1)
                       =? 2 ^ (bn + 1) - 1) = true
                      <-> (forall j, ai * 64 <= j <= last -> SimpleBitMap.is_set bm j = true)).
      { rewrite Emask at 1 2. rewrite land_span_mask by lia.
        rewrite (Hword 0) by lia. rewrite Z.add_0_r. tauto. }
      destruct (Z.land (SimpleBitMap._bitmap bm ai) _ =? _) eqn:E.
      * pose proof (proj1 Htest eq_refl) as Hfirst.
        rewrite (wrap_small (bn + 1)) by (rewrite modulus_eq; lia).
        rewrite to_ssize_wrap by (rewrite half_modulus_eq; lia).
        rewrite to_ssize_wrap by (rewrite half_modulus_eq; lia).
        destruct (IH (last - (bn + 1)) (count - (bn + 1))) as (b & Hb' & H1 & H2 & H3);
          try assumption; try lia.
        exists b. split; [exact Hb' |].
        split; [| split].
        -- intros Hall. apply H1. intros j Hj. apply Hall. lia.
        -- intros _. right. intros j Hj1 Hj2. apply Hfirst. lia.
        -- intros Hshl _. apply (H3 Hshl). left. lia.
      * exists false. split; [reflexivity |].
        assert (Hfirst : ~ (forall j, ai * 64 <= j <= last -> SimpleBitMap.is_set bm j = true)).
        { intros H. apply Htest in H. discriminate. }
        split; [| split].
        -- intros Hall. exfalso. apply Hfirst. intros j Hj. apply Hall. lia.
        -- discriminate.
        -- intros _ [H63|H]; [lia |]. exfalso. apply Hfirst. intros j Hj. apply H; lia.
Qed.

End BackwardAnyShift.

(** X27.  [is_backward_consecutive_ones(last_idx, count)], called within
    its preconditions ([0 <= last_idx < _num_bits] and [count] bits, at
    least one, that end at [last_idx] and do not reach below index 0), in
    both builds and whatever [(size_t) 1 << 64] evaluates to: the call
    returns and leaves the bitmap alone; it answers true when all
    [count] bits [last_idx - count + 1 .. last_idx] are set, and when it
    answers true then [last_idx] is the last bit of a word or the bits of
    the span in the word of [last_idx] are set.  So for a span within one
    word that does not end on its last bit the answer is true exactly
    when all bits are set.  Where the shift yields 1 (its count taken
    modulo 64) nothing more is tested: a span whose bits in the word of
    [last_idx] are set, and every span that ends on the last bit of a
    word, is answered with true, whatever its other bits are. *)
Theorem is_backward_consecutive_ones_tests_the_word_of_last_idx
        dbg shl_oob fuel bm last count :
  Spec.words_ok bm ->
  0 <= last < SimpleBitMap._num_bits bm -> SimpleBitMap._num_bits bm < 2 ^ 62 ->
  1 <= count <= last + 1 ->
  (Z.to_nat (last / 64 - (last - count + 1) / 64) < fuel)%nat ->
  exists b,
    BackwardSearch.is_backward_consecutive_ones dbg shl_oob fuel last count bm = Ret b bm /\
    (Spec.all_set bm (last - count + 1) count -> b = true) /\
    (b = true ->
     last mod 64 = 63 \/
     forall j, last - count < j <= last -> 64 * (last / 64) <= j ->
               SimpleBitMap.is_set bm j = true) /\
    (last mod 64 <> 63 -> count <= last mod 64 + 1 ->
     (b = true <-> Spec.all_set bm (last - count + 1) count)) /\
    (shl_oob 64 = 1 ->
     (b = true <->
      last mod 64 = 63 \/
      forall j, last - count < j <= last -> 64 * (last / 64) <= j ->
                SimpleBitMap.is_set bm j = true)).
Proof.
  intros Hok Hl HN Hc Hfuel.
  destruct (is_backward_consecutive_ones_accepts dbg shl_oob fuel bm last count
              Hok Hl HN Hc Hfuel) as (b & E & H1 & H2 & H3).
  exists b. split; [exact E |]. split; [exact H1 |]. split; [exact H2 |].
  split.
  - intros H63 Hfit. split; [| exact H1].
    intros Hb j Hj. destruct (H2 Hb) as [H|H]; [contradiction |]. apply H; lia.
  - intros Hshl. split; [exact H2 | exact (H3 Hshl)].
Qed.

Lemma is_backward_consecutive_ones_tests_the_word_of_last_idx_witness :
  let bm := Example.bit62_of_64 in
  exists b,
    BackwardSearch.is_backward_consecutive_ones true Example.shl_count_mod_64 3 63 2 bm
    = Ret b bm /\
    (Spec.all_set bm (63 - 2 + 1) 2 -> b = true) /\
    (b = true ->
     63 mod 64 = 63 \/
     forall j, 63 - 2 < j <= 63 -> 64 * (63 / 64) <= j -> SimpleBitMap.is_set bm j = true) /\
    (63 mod 64 <> 63 -> 2 <= 63 mod 64 + 1 ->
     (b = true <-> Spec.all_set bm (63 - 2 + 1) 2)) /\
    (Example.shl_count_mod_64 64 = 1 ->
     (b = true <->
      63 mod 64 = 63 \/
      forall j, 63 - 2 < j <= 63 -> 64 * (63 / 64) <= j -> SimpleBitMap.is_set bm j = true)).
Proof.
  intros bm.
  apply (is_backward_consecutive_ones_tests_the_word_of_last_idx
           true Example.shl_count_mod_64 3 bm 63 2).
  - unfold bm, Example.bit62_of_64. apply words_ok_set_bit, words_ok_create.
    intros j. cbn [SimpleBitMap._bitmap]. rewrite modulus_eq. lia.
  - vm_compute. split; [discriminate | reflexivity].
  - vm_compute. reflexivity.
  - lia.
  - vm_compute. lia.
Defined.

(** With the shift count taken modulo 64, the two bits 62 and 63 are
    answered with true although bit 63 is clear. *)
Example is_backward_consecutive_ones_at_a_word_end :
  forall dbg,
    BackwardSearch.is_backward_consecutive_ones dbg Example.shl_count_mod_64 3 63 2
      Example.bit62_of_64 = Ret true Example.bit62_of_64
    /\ SimpleBitMap.is_set Example.bit62_of_64 63 = false.
Proof. intros [|]; split; vm_compute; reflexivity. Qed.

(** ** [allocate_contiguous], whatever the cluster search hands back *)

Lemma partitions_table_only {A} cfg (m : (Z -> Z) -> Run.M Partitions.t A) fs a fs' :
  FreeSet.partitions cfg m fs = Ret a fs' ->
  table_only fs fs' /\
  m (FreeSet.alloc_capacity cfg fs) (FreeSet._partitions fs) = Ret a (FreeSet._partitions fs').
Proof.
  unfold FreeSet.partitions, Run.zoom.
  destruct (m (FreeSet.alloc_capacity cfg fs) (FreeSet._partitions fs)) as [a1 P| |];
    intros E; try discriminate.
  injection E as <- <-. split; [apply table_only_with_partitions | reflexivity].
Qed.

(** The loop of [retire_range_from_partition] in a debug build: every
    region it went over was in the partition. *)
Lemma retire_range_loop_debug p n : forall lo s u s',
  table_ok s -> Partitions.lt_NumPartitions p = true ->
  0 <= lo -> lo + Z.of_nat n <= Partitions._max s ->
  Run.for_range n lo tt
    (fun idx _ =>
       Run.assertM true (Partitions.in_free_set true p idx)
                   "Must be in partition to remove from partition" ;;
       Partitions.bm_clear_bit true p idx) s = Ret u s' ->
  forall j, lo <= j < lo + Z.of_nat n -> member s p j.
Proof.
  induction n as [|n IH]; intros lo s u s' Hok Hp Hlo Hhi E j Hj; [lia |].
  cbn [Run.for_range] in E. pose proof (proj1 Hok) as HN. pose proof pow62_modulus as H62.
  apply bind_inv in E. destruct E as ([] & s1 & E1 & E).
  apply assertM_debug_inv in E1. destruct E1 as (s0 & Ein & E1).
  unfold Partitions.in_free_set in Ein.
  rewrite bm_is_set_eq in Ein by (try assumption; lia).
  injection Ein as Hset <-.
  rewrite bm_clear_bit_eq in E1 by (try assumption; lia).
  injection E1 as <-.
  destruct (Z.eq_dec j lo) as [->|Hne]; [exact Hset |].
  set (s1 := Partitions.with_membership s _) in E.
  assert (Hok1 : table_ok s1).
  { exact (table_ok_with_membership s p _ Hok (bitmap_ok_clear_bit _ _ lo (proj2 Hok p Hp))). }
  assert (Hm1 : member s1 p j).
  { apply (IH (lo + 1) s1 u s' Hok1 Hp); [lia | | exact E | lia].
    change (Partitions._max s1) with (Partitions._max s). lia. }
  apply (member_clear_bit s p lo p j) in Hm1; [apply Hm1 | lia | lia].
Qed.

Lemma retire_range_from_partition_debug ac p lo hi s u s' :
  table_ok s -> 0 <= lo <= hi ->
  Partitions.retire_range_from_partition true ac p lo hi s = Ret u s' ->
  forall j, lo <= j <= hi -> member s p j.
Proof.
  intros Hok Hlohi E. unfold Partitions.retire_range_from_partition in E.
  rewrite bind_get in E.
  apply assert_debug_inv in E. destruct E as [Hsane E].
  apply assert_debug_inv in E. destruct E as [Hp E].
  apply andb_prop in Hsane. destruct Hsane as [_ Hhi]. apply Z.ltb_lt in Hhi.
  apply bind_inv in E. destruct E as ([] & s1 & E1 & _).
  intros j Hj.
  apply (retire_range_loop_debug p (Z.to_nat (hi + 1 - lo)) lo s tt s1 Hok Hp); try lia.
  exact E1.
Qed.

Section WindowSearchAnyShift.

Variable dbg : bool.
Variable cfg : Config.
Variable shl_oob : Z -> Z.
Variable num : Z.
Hypothesis Hnum : 1 <= num < 2 ^ 63.

Lemma p_find_next_cluster_in_range p start fs :
  invariant cfg fs -> Partitions.lt_NumPartitions p = true -> 0 <= start ->
  exists r,
    FreeSet.p_find_next_cluster dbg cfg shl_oob p start num fs = Ret r fs /\
    (r = num_regions cfg \/ (start <= r /\ r + num <= num_regions cfg)).
Proof.
  intros Hinv Hp Hstart. assert (HT := proj1 Hinv).
  destruct (proj2 (proj2 HT) p Hp) as [Hint _].
  assert (HN := proj1 (proj2 Hinv)).
  destruct (next_available_cluster_is_first_accepted dbg shl_oob p start num _
              (proj1 HT) Hp Hint Hstart Hnum) as (r & Er & Hr).
  exists r. split.
  - unfold FreeSet.p_find_next_cluster, FreeSet.partitions, Run.zoom.
    rewrite Er. destruct fs; reflexivity.
  - rewrite <- HN. destruct Hr as [[-> _]|(H1 & H2 & H3 & _)]; [left; reflexivity | right].
    lia.
Qed.

Lemma slide_loop_stays_in_range fuel : forall beg span_end delta fs,
  invariant cfg fs ->
  0 <= beg -> span_end = beg + num -> 0 <= delta -> span_end + delta <= num_regions cfg ->
  post (FreeSet.slide_loop dbg cfg shl_oob fuel num beg span_end delta) fs
       (fun beg' fs' =>
          fs' = fs /\ (beg' = num_regions cfg \/ (0 <= beg' /\ beg' + num <= num_regions cfg))).
Proof.
  induction fuel as [|fuel IH]; intros beg span_end delta fs Hinv Hbeg Hspan Hd Hend;
    cbn [FreeSet.slide_loop].
  - intros a s' E. discriminate.
  - destruct (Z.gtb_spec delta 0) as [Hpos|Hz].
    + eapply post_eq_then.
      { apply p_in_free_set_in_order; [exact Hinv | reflexivity | lia]. }
      destruct (SimpleBitMap.is_set _ span_end) eqn:Hm; cbn [negb].
      * apply IH; try assumption; lia.
      * destruct (p_find_next_cluster_in_range Mutator (span_end + 1) fs
                    Hinv eq_refl ltac:(lia)) as (r & Er & Hr).
        eapply post_eq; [exact Er |]. split; [reflexivity |].
        destruct Hr as [->|(H1 & H2)]; [left; reflexivity | right]. lia.
    + apply post_ret. split; [reflexivity |]. right. lia.
Qed.

Lemma window_loop_finds_unallocated lps fuel : forall beg end_ fs,
  invariant cfg fs ->
  lps + num <= num_regions cfg ->
  0 <= beg <= end_ -> end_ < beg + num -> beg <= lps ->
  (forall j, beg <= j < end_ -> FreeSet.can_allocate_from fs j = true) ->
  post (FreeSet.window_loop dbg cfg shl_oob fuel num lps beg end_) fs
       (fun w fs' =>
          fs' = fs /\
          match w with
          | None => True
          | Some (b, e) =>
              e = b + num - 1 /\ 0 <= b /\ b + num <= num_regions cfg /\
              forall j, b <= j < b + num -> FreeSet.can_allocate_from fs j = true
          end).
Proof.
  induction fuel as [|fuel IH]; intros beg end_ fs Hinv Hlps Hbe Hend Hbl Hfree;
    cbn [FreeSet.window_loop].
  - intros a s' E. discriminate.
  - apply post_get_then.
    destruct (FreeSet.can_allocate_from fs end_) eqn:Hcan; cbn [negb].
    + destruct (Z.eqb_spec (end_ - beg + 1) num) as [Hfull|Hmore].
      * apply post_ret. split; [reflexivity |].
        split; [lia |]. split; [lia |]. split; [lia |].
        intros j Hj.
        destruct (Z.eq_dec j end_) as [->|Hne]; [exact Hcan | apply Hfree; lia].
      * apply IH; try assumption; try lia.
        intros j Hj. destruct (Z.eq_dec j end_) as [->|Hne]; [exact Hcan | apply Hfree; lia].
    + cbv zeta. destruct (Z.gtb_spec (beg + (end_ + 1 - beg)) lps) as [Hno|Hroom].
      * apply post_ret. split; [reflexivity | exact I].
      * eapply post_bind_with.
        { apply (slide_loop_stays_in_range (S (Z.to_nat (end_ + 1 - beg))) beg (beg + num)
                                           (end_ + 1 - beg) fs Hinv); lia. }
        cbv beta. intros beg' fs' [-> Hw].
        destruct (Z.gtb_spec beg' lps) as [Hgone|Hin].
        -- apply post_ret. split; [reflexivity | exact I].
        -- destruct Hw as [->|(Hb0 & Hb1)]; [lia |].
           apply IH; try assumption; try lia.
Qed.

End WindowSearchAnyShift.

(** X24.  [allocate_contiguous] on a free set in order, for a request
    that needs at least one region, in both builds and whatever
    [(size_t) 1 << 64] evaluates to.  Whenever the call hands out
    memory, it is the start of a window of regions
    [beg .. beg + num - 1] of the heap in which nothing was allocated;
    the first of them is now the humongous start and the others are
    humongous continuations, filled to their end but for the remainder
    in the last one, every other region of the heap is as it was, and
    [actual_size] is the requested size.  In a debug build the regions
    of the window all were in the Mutator partition.  Whenever they all
    were in the Mutator partition, these regions and no others have left
    it, its count went down by [num] and its used total up by [num]
    regions' sizes, while its capacity stayed.  (A product build does
    not check that: the window comes from the cluster search and from
    sliding it, and the cluster search accepts a span that ends on the
    last bit of a bitmap word without a look at its last word where the
    shift count is taken modulo 64.)  Whenever the call fails, the
    request is unchanged and the free set differs at most in the two
    cached empty bounds of the Mutator partition. *)
Theorem allocate_contiguous_takes_an_unallocated_window dbg cfg shl_oob req fs :
  invariant cfg fs ->
  1 <= regions_needed cfg req < 2 ^ 63 ->
  post (FreeSet.allocate_contiguous dbg cfg shl_oob req) fs
    (fun a fs' =>
       match fst a with
       | None =>
           snd a = req /\ table_only fs fs' /\
           empties_only Mutator (FreeSet._partitions fs) (FreeSet._partitions fs')
       | Some addr =>
           let num := regions_needed cfg req in
           exists beg,
             addr = beg * region_size_bytes cfg /\
             0 <= beg /\ beg + num <= num_regions cfg /\
             (forall j, beg <= j < beg + num -> FreeSet.can_allocate_from fs j = true) /\
             (forall j, Heap.get_region (FreeSet._heap fs') j
                        = if (beg <=? j) && (j <? beg + num)
                          then humongous_region cfg (AllocRequest.size req)
                                                beg (beg + num - 1) j
                          else Heap.get_region (FreeSet._heap fs) j) /\
             snd a = AllocRequest.set_actual_size req (AllocRequest.size req) /\
             (dbg = true ->
              forall j, beg <= j < beg + num -> member (FreeSet._partitions fs) Mutator j) /\
             ((forall j, beg <= j < beg + num -> member (FreeSet._partitions fs) Mutator j) ->
              (forall j, 0 <= j < num_regions cfg ->
                         (member (FreeSet._partitions fs') Mutator j
                          <-> member (FreeSet._partitions fs) Mutator j /\
                              ~ (beg <= j < beg + num))) /\
              Partitions.count (FreeSet._partitions fs') Mutator
              = Word.wrap (Partitions.count (FreeSet._partitions fs) Mutator - num) /\
              Partitions.capacity_of (FreeSet._partitions fs') Mutator
              = Partitions.capacity_of (FreeSet._partitions fs) Mutator /\
              Partitions.used_by (FreeSet._partitions fs') Mutator
              = Word.wrap (Partitions.used_by (FreeSet._partitions fs) Mutator
                           + Word.wrap (region_size_bytes cfg * num)))
       end).
Proof.
  intros Hinv Hnum. unfold FreeSet.allocate_contiguous.
  apply post_assert_then. intros _. cbv zeta.
  fold (regions_needed cfg req). set (num := regions_needed cfg req) in *.
  assert (Hfail : forall fs', table_only fs fs' ->
                    empties_only Mutator (FreeSet._partitions fs) (FreeSet._partitions fs') ->
                    forall Q : Z -> FreeSet.t -> (option Z * AllocRequest.t) -> Prop,
                    post (Run.ret (@None Z, req)) fs'
                      (fun a fs' =>
                         match fst a with
                         | None =>
                             snd a = req /\ table_only fs fs' /\
                             empties_only Mutator (FreeSet._partitions fs)
                                          (FreeSet._partitions fs')
                         | Some addr => Q addr fs' a
                         end)).
  { intros fs' Hto He Q. apply post_ret. cbn. split; [reflexivity |]. split; assumption. }
  apply post_get_then.
  destruct (num >? Word.to_ssize (Partitions.count (FreeSet._partitions fs) Mutator)).
  { apply (Hfail fs (table_only_refl fs) (empties_only_refl _ _)). }
  eapply post_bind_with;
    [apply returns_is_post, (p_leftmost_empty_keeps_interval dbg cfg Mutator fs Hinv eq_refl) |].
  cbv beta. intros start fs1 (Hinv1 & Hto1 & He1 & Hstart).
  eapply post_bind_with;
    [apply returns_is_post, (p_rightmost_empty_keeps_interval dbg cfg Mutator fs1 Hinv1 eq_refl) |].
  cbv beta. intros re fs2 (Hinv2 & Hto2 & He2 & Hre).
  assert (Hto : table_only fs fs2) by (apply (table_only_trans _ _ _ Hto1 Hto2)).
  assert (He : empties_only Mutator (FreeSet._partitions fs) (FreeSet._partitions fs2))
    by (apply (empties_only_trans _ _ _ _ He1 He2)).
  destruct (p_find_next_cluster_in_range dbg cfg shl_oob num Hnum Mutator start fs2
              Hinv2 eq_refl ltac:(lia)) as (beg0 & Eb & Hbeg0).
  eapply post_eq_then; [exact Eb |].
  destruct (Z.gtb_spec beg0 (re + 1 - num)) as [Hgone|Hin].
  { apply (Hfail fs2 Hto He). }
  destruct Hbeg0 as [->|(Hb1 & Hb2)]; [lia |].
  eapply post_bind_with.
  { apply (window_loop_finds_unallocated dbg cfg shl_oob num Hnum (re + 1 - num) _
             beg0 beg0 fs2 Hinv2); try lia. }
  cbv beta. intros w fs3 [-> Hw].
  destruct w as [[beg end_]|]; [| apply (Hfail fs2 Hto He)].
  destruct Hw as (Eend & Hbeg & Hlast & Hfree).
  assert (HT2 := proj1 Hinv2). assert (HN2 := proj1 (proj2 Hinv2)).
  assert (Hmem : forall q j, member (FreeSet._partitions fs2) q j
                             <-> member (FreeSet._partitions fs) q j).
  { intros q j. apply (hints_only_member Mutator). apply He. }
  intros a fs' E.
  apply bind_inv in E. destruct E as ([] & fs4 & E4 & E).
  destruct (initialize_regions_sets dbg cfg (AllocRequest.size req) beg end_
              (Z.to_nat (end_ + 1 - beg)) beg fs2 tt fs4 E4) as (EP4 & Ew4 & Ebias4 & Eh4).
  rewrite Z2Nat.id in Eh4 by lia. replace (beg + (end_ + 1 - beg)) with (beg + num) in Eh4 by lia.
  apply bind_inv in E. destruct E as ([] & fs5 & E5 & E).
  apply bind_inv in E. destruct E as ([] & fs6 & E6 & E).
  apply bind_inv in E. destruct E as ([] & fs7 & E7 & E).
  injection E as <- <-. cbn [fst snd]. exists beg.
  destruct (partitions_table_only _ _ _ _ _ E5) as [Hto5 E5'].
  destruct (partitions_table_only _ _ _ _ _ E6) as [Hto6 _].
  destruct (partitions_table_only _ _ _ _ _ E7) as [Hto7 _].
  assert (Hheap : FreeSet._heap fs7 = FreeSet._heap fs4).
  { rewrite (proj1 Hto7), (proj1 Hto6), (proj1 Hto5). reflexivity. }
  split; [reflexivity |]. split; [exact Hbeg |]. split; [exact Hlast |].
  split.
  { intros j Hj. rewrite <- (table_only_can_allocate_from fs fs2 j Hto). apply Hfree. exact Hj. }
  split.
  { intros j. rewrite Hheap, Eh4, (proj1 Hto). replace end_ with (beg + num - 1) by lia.
    reflexivity. }
  split; [reflexivity |].
  split.
  { intros Hdbg j Hj. subst dbg. apply Hmem.
    rewrite EP4 in E5'.
    apply (retire_range_from_partition_debug _ Mutator beg end_ _ tt _ (proj1 HT2)
             ltac:(lia) E5' j). lia. }
  intros Hwin.
  assert (H5 := returns_inv _ _ _ _ _
                  (p_retire_range_in_order dbg cfg Mutator beg end_ fs4 eq_refl
                     ltac:(rewrite EP4; apply HT2)
                     ltac:(rewrite EP4; apply (proj2 (proj2 HT2) Mutator eq_refl))
                     ltac:(lia)
                     ltac:(rewrite EP4, HN2; lia)
                     ltac:(rewrite EP4; intros j Hj; apply Hmem, Hwin; lia)) E5).
  cbv beta in H5. rewrite EP4 in H5. destruct H5 as (_ & Hm5 & Hcap5 & Hused5 & Hcnt5).
  destruct (p_increase_used_adds dbg cfg Mutator _ fs5 tt fs6 E6)
    as (_ & Hm6 & Hcap6 & Hcnt6 & Hused6).
  destruct (p_assert_bounds_keeps_members dbg cfg fs6 tt fs7 E7)
    as (_ & (Hm7 & _ & _ & Hcap7 & Hused7 & Hcnt7)).
  assert (Ers : Partitions._region_size_bytes (FreeSet._partitions fs) = region_size_bytes cfg)
    by apply Hinv.
  destruct He as ((_ & _ & _ & Ecap & Eused & Ecnt & _) & _).
  split.
  { intros j Hj. unfold member at 1. rewrite Hm7, Hm6.
    fold (member (FreeSet._partitions fs5) Mutator j).
    rewrite (Hm5 j) by (rewrite HN2; exact Hj). rewrite (Hmem Mutator j).
    split; intros [H1 H2]; (split; [exact H1 |]); intros H3; apply H2; lia. }
  unfold Partitions.count, Partitions.capacity_of, Partitions.used_by.
  split; [rewrite Hcnt7, Hcnt6, Hcnt5, Ecnt; f_equal; lia |].
  split; [rewrite Hcap7, Hcap6, Hcap5, Ecap; reflexivity |].
  rewrite Hused7, Hused6, Hused5, Eused; reflexivity.
Qed.

Lemma allocate_contiguous_takes_an_unallocated_window_witness :
  let fs := free_set_62_to_64 in
  let req := shared_200000_words in
  match FreeSet.allocate_contiguous false cfg128 Example.shl_count_mod_64 req fs with
  | Ret a _ => fst a = Some (62 * Scenario.MiB)
  | _ => False
  end /\
  post (FreeSet.allocate_contiguous false cfg128 Example.shl_count_mod_64 req) fs
    (fun a fs' =>
       match fst a with
       | None =>
           snd a = req /\ table_only fs fs' /\
           empties_only Mutator (FreeSet._partitions fs) (FreeSet._partitions fs')
       | Some addr =>
           let num := regions_needed cfg128 req in
           exists beg,
             addr = beg * region_size_bytes cfg128 /\
             0 <= beg /\ beg + num <= num_regions cfg128 /\
             (forall j, beg <= j < beg + num -> FreeSet.can_allocate_from fs j = true) /\
             (forall j, Heap.get_region (FreeSet._heap fs') j
                        = if (beg <=? j) && (j <? beg + num)
                          then humongous_region cfg128 (AllocRequest.size req)
                                                beg (beg + num - 1) j
                          else Heap.get_region (FreeSet._heap fs) j) /\
             snd a = AllocRequest.set_actual_size req (AllocRequest.size req) /\
             (false = true ->
              forall j, beg <= j < beg + num -> member (FreeSet._partitions fs) Mutator j) /\
             ((forall j, beg <= j < beg + num -> member (FreeSet._partitions fs) Mutator j) ->
              (forall j, 0 <= j < num_regions cfg128 ->
                         (member (FreeSet._partitions fs') Mutator j
                          <-> member (FreeSet._partitions fs) Mutator j /\
                              ~ (beg <= j < beg + num))) /\
              Partitions.count (FreeSet._partitions fs') Mutator
              = Word.wrap (Partitions.count (FreeSet._partitions fs) Mutator - num) /\
              Partitions.capacity_of (FreeSet._partitions fs') Mutator
              = Partitions.capacity_of (FreeSet._partitions fs) Mutator /\
              Partitions.used_by (FreeSet._partitions fs') Mutator
              = Word.wrap (Partitions.used_by (FreeSet._partitions fs) Mutator
                           + Word.wrap (region_size_bytes cfg128 * num)))
       end).
Proof.
  intros fs req. split; [vm_compute; reflexivity |].
  apply (allocate_contiguous_takes_an_unallocated_window
           false cfg128 Example.shl_count_mod_64 req fs).
  - exact regions_62_to_64_invariant.
  - vm_compute. split; [discriminate | reflexivity].
Defined.

(** On the free set with the regions 62 and 64 in the Mutator partition
    and region 63 in the Collector's, all empty, with the shift count
    taken modulo 64: a request for two regions is answered by a product
    build with the regions 62 and 63, and region 63 is a humongous
    continuation that the Collector partition still holds; a debug build
    stops in [retire_range_from_partition]. *)
Example allocate_contiguous_hands_out_a_collector_region :
  let run dbg :=
    FreeSet.allocate_contiguous dbg cfg128 Example.shl_count_mod_64
      shared_200000_words free_set_62_to_64 in
  match run false with
  | Ret a fs' =>
      fst a = Some (62 * Scenario.MiB) /\
      Heap.state (Heap.get_region (FreeSet._heap fs') 63) = Heap.HumongousCont /\
      SimpleBitMap.is_set (Partitions._membership (FreeSet._partitions fs') Collector) 63 = true /\
      Partitions.count (FreeSet._partitions fs') Mutator = 0 /\
      SimpleBitMap.is_set (Partitions._membership (FreeSet._partitions fs') Mutator) 64 = true
  | _ => False
  end /\
  Scenario.failure_of (run true) = Some "Must be in partition to remove from partition"%string.
Proof. vm_compute. repeat split; reflexivity. Qed.

(* ================================================================= *)
(** * The choice of the scan direction *)

Import BiasSpec.

(** C8 (as amended).  A mutator-origin ([_alloc_tlab] or [_alloc_shared])
    call of [allocate_single] whose counter [_alloc_bias_weight] is not
    positive, on a table whose Mutator interval is in order.  The four
    queries return: [leftmost_empty] hands back [le], the first region of
    the Mutator partition at or after its cached bound that offers a
    whole region, or [_max] when there is none; [leftmost] and
    [rightmost] hand back the bounds [l] and [r] of the interval;
    [rightmost_empty] hands back [re], the last such region at or below
    its cached bound, or -1.  The call continues as the scan of the
    mutator view from a state whose direction is right-to-left exactly
    when the index gap on the right, [r - re], is greater than the index
    gap on the left, [le - l], and whose counter is 256; direction and
    counter are still these when the call returns. *)
Theorem allocate_single_chooses_bias_by_gaps dbg cfg req in_new_region fs :
  let P := FreeSet._partitions fs in
  let ac := FreeSet.alloc_capacity cfg fs in
  let l := Partitions._leftmosts P Mutator in
  let r := Partitions._rightmosts P Mutator in
  AllocRequest.is_mutator_alloc req = true ->
  FreeSet._alloc_bias_weight fs <= 0 ->
  table_ok P -> interval_ok P Mutator ->
  exists le P1 re P2,
    Partitions.leftmost_empty dbg ac Mutator P = Ret le P1 /\
    EmptyBoundSpec.first_empty_from ac Mutator P P1 (Partitions._leftmosts_empty P Mutator) le /\
    Partitions.leftmost dbg Mutator P1 = Ret l P1 /\
    Partitions.rightmost dbg Mutator P1 = Ret r P1 /\
    Partitions.rightmost_empty dbg ac Mutator P1 = Ret re P2 /\
    EmptyBoundSpec.last_empty_upto ac Mutator P1 P2 (Partitions._rightmosts_empty P1 Mutator) re /\
    let chosen := FreeSet.mk (FreeSet._heap fs) P2 256 (r - re >? le - l) in
    FreeSet.allocate_single dbg cfg req in_new_region fs
    = FreeSet.allocate_in_mutator_view dbg cfg req in_new_region chosen /\
    (FreeSet._right_to_left_bias chosen = true <-> le - l < r - re) /\
    forall a fs',
      FreeSet.allocate_single dbg cfg req in_new_region fs = Ret a fs' ->
      FreeSet._right_to_left_bias fs' = (r - re >? le - l) /\
      FreeSet._alloc_bias_weight fs' = 256.
Proof.
  intros P ac l r Hmut Hw Hok Hint.
  destruct (interval_bounds P Mutator (proj1 (proj1 Hok)) Hint) as (HL & HR & HLR & HRE).
  destruct (leftmost_empty_finds dbg ac Mutator eq_refl P Hok Hint)
    as (le & P1 & E1 & (H1 & EL1 & ER1 & HRE1) & Hfirst).
  assert (Hok1 : table_ok P1) by (eapply hints_only_table_ok; eassumption).
  assert (EN1 : Partitions._max P1 = Partitions._max P) by apply H1.
  assert (Hint1 : interval_ok P1 Mutator).
  { apply (interval_ok_hints Mutator P); try assumption. apply HRE1. exact HRE. }
  destruct (rightmost_empty_finds dbg ac Mutator eq_refl P1 Hok1 Hint1)
    as (re & P2 & E2 & _ & Hlast).
  exists le, P1, re, P2.
  split; [exact E1 |]. split; [exact Hfirst |].
  split; [rewrite leftmost_in_range by (try reflexivity; rewrite EL1, EN1; apply HL);
          rewrite EL1; reflexivity |].
  split; [rewrite rightmost_eq by reflexivity; rewrite ER1; reflexivity |].
  split; [exact E2 |]. split; [exact Hlast |].
  cbv zeta.
  assert (Hcall : FreeSet.allocate_single dbg cfg req in_new_region fs
                  = FreeSet.allocate_in_mutator_view dbg cfg req in_new_region
                      (FreeSet.mk (FreeSet._heap fs) P2 256 (r - re >? le - l))).
  { unfold FreeSet.allocate_single.
    assert (Ht : AllocRequest.type req = AllocRequest._alloc_tlab
                 \/ AllocRequest.type req = AllocRequest._alloc_shared).
    { unfold AllocRequest.is_mutator_alloc in Hmut.
      destruct (AllocRequest.type req); try discriminate; auto. }
    assert (Hbody :
      (fs0 <- Run.get ;;
       Run.modify (fun fs1 => FreeSet.with_alloc_bias_weight fs1
                                (FreeSet._alloc_bias_weight fs0 - 1)) ;;
       FreeSet.when (FreeSet._alloc_bias_weight fs0 <=? 0)
         (le0 <- FreeSet.p_leftmost_empty dbg cfg Mutator ;;
          l0 <- FreeSet.p_leftmost dbg cfg Mutator ;;
          r0 <- FreeSet.p_rightmost dbg cfg Mutator ;;
          re0 <- FreeSet.p_rightmost_empty dbg cfg Mutator ;;
          Run.modify (fun fs1 => FreeSet.with_right_to_left_bias fs1 (r0 - re0 >? le0 - l0)) ;;
          Run.modify (fun fs1 => FreeSet.with_alloc_bias_weight fs1 256)) ;;
       FreeSet.allocate_in_mutator_view dbg cfg req in_new_region) fs
      = FreeSet.allocate_in_mutator_view dbg cfg req in_new_region
          (FreeSet.mk (FreeSet._heap fs) P2 256 (r - re >? le - l))).
    { rewrite bind_get, bind_modify.
      destruct (Z.leb_spec (FreeSet._alloc_bias_weight fs) 0); [| lia].
      set (fsa := FreeSet.with_alloc_bias_weight fs (FreeSet._alloc_bias_weight fs - 1)).
      rewrite bind_eq with (a := tt)
                           (s' := FreeSet.mk (FreeSet._heap fs) P2 256 (r - re >? le - l));
        [reflexivity |].
      unfold FreeSet.when.
      rewrite bind_eq with (a := le) (s' := FreeSet.with_partitions fsa P1).
      2:{ unfold FreeSet.p_leftmost_empty. apply partitions_eq. exact E1. }
      rewrite bind_eq with (a := l) (s' := FreeSet.with_partitions fsa P1).
      2:{ rewrite p_leftmost_eq; cbn [FreeSet._partitions FreeSet.with_partitions].
          - rewrite EL1. reflexivity.
          - reflexivity.
          - rewrite EL1, EN1. apply HL. }
      rewrite bind_eq with (a := r) (s' := FreeSet.with_partitions fsa P1).
      2:{ rewrite p_rightmost_eq by reflexivity.
          cbn [FreeSet._partitions FreeSet.with_partitions]. rewrite ER1. reflexivity. }
      rewrite bind_eq with (a := re)
                           (s' := FreeSet.with_partitions (FreeSet.with_partitions fsa P1) P2).
      2:{ unfold FreeSet.p_rightmost_empty. apply partitions_eq. exact E2. }
      rewrite bind_modify. reflexivity. }
    destruct Ht as [-> | ->]; exact Hbody. }
  split; [exact Hcall |].
  split.
  { cbn [FreeSet._right_to_left_bias]. rewrite Z.gtb_ltb. apply Z.ltb_lt. }
  intros a fs' E. rewrite Hcall in E.
  destruct (allocate_in_mutator_view_frames dbg cfg req in_new_region _ a fs' E) as [Ew Eb].
  split; [exact Eb | exact Ew].
Qed.

Lemma allocate_single_chooses_bias_by_gaps_witness :
  let fs := Scenario.with_fragmented_ends true in
  let P := FreeSet._partitions fs in
  let ac := FreeSet.alloc_capacity Scenario.cfg fs in
  let l := Partitions._leftmosts P Mutator in
  let r := Partitions._rightmosts P Mutator in
  exists le P1 re P2,
    Partitions.leftmost_empty true ac Mutator P = Ret le P1 /\
    EmptyBoundSpec.first_empty_from ac Mutator P P1 (Partitions._leftmosts_empty P Mutator) le /\
    Partitions.leftmost true Mutator P1 = Ret l P1 /\
    Partitions.rightmost true Mutator P1 = Ret r P1 /\
    Partitions.rightmost_empty true ac Mutator P1 = Ret re P2 /\
    EmptyBoundSpec.last_empty_upto ac Mutator P1 P2 (Partitions._rightmosts_empty P1 Mutator) re /\
    let chosen := FreeSet.mk (FreeSet._heap fs) P2 256 (r - re >? le - l) in
    FreeSet.allocate_single true Scenario.cfg Scenario.tlab_1KiB false fs
    = FreeSet.allocate_in_mutator_view true Scenario.cfg Scenario.tlab_1KiB false chosen /\
    (FreeSet._right_to_left_bias chosen = true <-> le - l < r - re) /\
    forall a fs',
      FreeSet.allocate_single true Scenario.cfg Scenario.tlab_1KiB false fs = Ret a fs' ->
      FreeSet._right_to_left_bias fs' = (r - re >? le - l) /\
      FreeSet._alloc_bias_weight fs' = 256.
Proof.
  intros fs P ac l r.
  destruct with_fragmented_ends_invariant as ((Hok & _ & Hall) & _).
  destruct (Hall Mutator eq_refl) as [Hint _].
  apply (allocate_single_chooses_bias_by_gaps true Scenario.cfg Scenario.tlab_1KiB false fs).
  - reflexivity.
  - vm_compute. discriminate.
  - exact Hok.
  - exact Hint.
Defined.

(** C8 (as stated) fails: the direction does not follow the numbers of
    non-empty regions, whether these are counted as regions of the
    Mutator partition or as regions of the heap.

    After [rebuild] on the heap [one_used_region_on_the_left] the
    Mutator partition holds the regions 0 and 6 to 9, of which only
    region 6 is empty: the queries return [le = 6], [l = 0], [r = 9],
    [re = 6].  One non-empty region of the partition lies on the left
    (in [l, le)) and three lie on the right (in (re, r]), yet the call,
    whose counter is 0, does not turn to right-to-left: the gaps are 6
    and 3.

    After [rebuild] on the heap [no_empty_mutator_region] the Mutator
    partition holds the regions 4 to 9, none of them empty: the queries
    return [le = 16], [l = 4], [r = 9], [re = -1].  Of the regions of
    the heap 8 on the left (in [l, le): 4 to 11) and 10 on the right (in
    (re, r]: 0 to 9) are non-empty, yet the call does not turn to
    right-to-left: the gaps are 12 and 10. *)
Lemma allocate_single_bias_is_not_by_counts :
  (let fs := rebuilt true one_used_region_on_the_left in
   FreeSet._alloc_bias_weight fs = 0 /\
   bounds true fs = Some (6, 0, 9, 6) /\
   non_empty_members Scenario.cfg fs 0 6 = 1 /\
   non_empty_members Scenario.cfg fs (6 + 1) (9 + 1) = 3 /\
   direction_after true fs = Some (false, 256)) /\
  (let fs := rebuilt false one_used_region_on_the_left in
   FreeSet._alloc_bias_weight fs = 0 /\
   bounds false fs = Some (6, 0, 9, 6) /\
   non_empty_members Scenario.cfg fs 0 6 = 1 /\
   non_empty_members Scenario.cfg fs (6 + 1) (9 + 1) = 3 /\
   direction_after false fs = Some (false, 256)) /\
  (let fs := rebuilt true no_empty_mutator_region in
   FreeSet._alloc_bias_weight fs = 0 /\
   bounds true fs = Some (16, 4, 9, -1) /\
   non_empty_regions Scenario.cfg fs 4 16 = 8 /\
   non_empty_regions Scenario.cfg fs (-1 + 1) (9 + 1) = 10 /\
   direction_after true fs = Some (false, 256)) /\
  (let fs := rebuilt false no_empty_mutator_region in
   FreeSet._alloc_bias_weight fs = 0 /\
   bounds false fs = Some (16, 4, 9, -1) /\
   non_empty_regions Scenario.cfg fs 4 16 = 8 /\
   non_empty_regions Scenario.cfg fs (-1 + 1) (9 + 1) = 10 /\
   direction_after false fs = Some (false, 256)).
Proof. vm_compute. repeat split; reflexivity. Qed.

